(** * Virtual test set (IEC 61850 SV / GOOSE): verification of the core

    A shallow embedding of the protocol helpers, the SV publisher, the
    publisher registry, the trip-rule evaluator, the sequence engine and the
    differential tester of the backend, with the properties their
    specification states about them.

    Conventions.
    - A [uint8_t], [uint16_t], [uint32_t] or [size_t] value is a [Z]; every
      narrowing [static_cast] is written out as a [mod].
    - A C++ exception is the [Err] branch of [result].
    - [std::map<std::string, T>] is a list of pairs kept sorted by key, in
      the byte-wise order of [std::string::operator<], where the iteration
      order matters, and a [gmap] where only lookups are made.
    - Clocks, atomics written by other threads and caller supplied
      callbacks are read from an explicit environment. *)

From Stdlib Require Import ZArith List String Ascii Bool Lia DecimalString DecimalNat.
From Stdlib Require Import OrderedTypeEx Sorted.
From Stdlib Require Import Floats.
From stdpp Require Import gmap strings list fin_maps sorting.

Open Scope Z_scope.

(** ** Exceptions

    [Undefined] is not an exception: it marks an execution whose behaviour
    C++ leaves undefined. *)

Inductive exn : Type :=
| RuntimeError (what : string)
| InvalidArgument (what : string)
| OutOfRange (what : string)
| JsonTypeError (what : string)
| Undefined (what : string).

Inductive result (A : Type) : Type :=
| Ok (a : A)
| Err (e : exn).
Arguments Ok {A} a.
Arguments Err {A} e.

#[global] Instance result_ret : MRet result := fun _ a => Ok a.
#[global] Instance result_bind : MBind result := fun _ _ k r =>
  match r with
  | Ok a => k a
  | Err e => Err e
  end.

(** ** Fixed-width integers *)

Definition u8 (z : Z) : Z := z mod 256.
Definition u16 (z : Z) : Z := z mod 65536.
Definition u32 (z : Z) : Z := z mod 4294967296.

(** What 64 bits keep of a signed result that is computed in [int64_t], as
    the counts of [std::chrono] durations and time points are: the value
    itself when it fits, and its two's-complement wrap when it does not. *)
Definition i64 (z : Z) : Z :=
  (z + 9223372036854775808) mod 18446744073709551616 - 9223372036854775808.
Arguments i64 : simpl never.

(** ** BER length (protocols/include/BER_Encoding.hpp, sniffer/src/sniffer.cpp) *)

Module BER.

(** [encodeBERLength(size_t length)]. *)
Definition encodeBERLength (length : Z) : result (list Z) :=
  if length <=? 127 then
    Ok [u8 length]
  else if length <=? 255 then
    Ok [0x81; u8 length]
  else if length <=? 65535 then
    Ok [0x82; u8 (Z.land (Z.shiftr length 8) 0xFF); u8 (Z.land length 0xFF)]
  else
    Err (RuntimeError "BER length > 65535 not supported").

(** The length read of the sniffer ([process_SV_packet], "Parse SAVPDU
    length"): the byte at [i] selects the form; the result is the length and
    the index after the length field.  [None] is the early [return] on a
    truncated frame. *)
Definition parseBERLength (frame : list Z) (i : nat) : option (Z * nat) :=
  match frame !! i with
  | None => None
  | Some b0 =>
      if b0 =? 0x82 then
        if (length frame <? i + 3)%nat then None
        else
          match frame !! (i + 1)%nat, frame !! (i + 2)%nat with
          | Some b1, Some b2 => Some (Z.lor (Z.shiftl b1 8) b2, (i + 3)%nat)
          | _, _ => None
          end
      else if b0 =? 0x81 then
        if (length frame <? i + 2)%nat then None
        else
          match frame !! (i + 1)%nat with
          | Some b1 => Some (b1, (i + 2)%nat)
          | None => None
          end
      else Some (b0, (i + 1)%nat)
  end.

End BER.

(** ** The C and C++ library functions the sources call *)

Module CStd.

Definition code (c : ascii) : Z := Z.of_N (N_of_ascii c).

(** [isspace], [isdigit], [isalpha], [isalnum] in the "C" locale. *)
Definition isspace (c : ascii) : bool :=
  (code c =? 32) || ((9 <=? code c) && (code c <=? 13)).
Definition isdigit (c : ascii) : bool :=
  (48 <=? code c) && (code c <=? 57).
Definition isalpha (c : ascii) : bool :=
  ((65 <=? code c) && (code c <=? 90)) || ((97 <=? code c) && (code c <=? 122)).
Definition isalnum (c : ascii) : bool := isalpha c || isdigit c.

(** The value of [c] as a digit of [strtol]: 0..9, then letters of either
    case from 10 on. *)
Definition digitValue (c : ascii) : option Z :=
  if isdigit c then Some (code c - 48)
  else if (97 <=? code c) && (code c <=? 122) then Some (code c - 87)
  else if (65 <=? code c) && (code c <=? 90) then Some (code c - 55)
  else None.

Definition digitIn (base : Z) (c : ascii) : option Z :=
  match digitValue c with
  | Some d => if d <? base then Some d else None
  | None => None
  end.

Definition isxdigit (c : ascii) : bool :=
  match digitIn 16 c with Some _ => true | None => false end.

Fixpoint skipSpaces (s : string) : string :=
  match s with
  | String c r => if isspace c then skipSpaces r else s
  | EmptyString => s
  end.

(** The longest run of digits of [base] at the head of [s], most
    significant first. *)
Fixpoint digitRun (base : Z) (s : string) : list Z :=
  match s with
  | String c r =>
      match digitIn base c with
      | Some d => d :: digitRun base r
      | None => []
      end
  | EmptyString => []
  end.

Definition digitsValue (base : Z) (ds : list Z) : Z :=
  fold_left (fun acc d => acc * base + d) ds 0.

(** The subject sequence of [strtol(s, &end, base)], for base 10 or 16:
    white space, an optional sign, for base 16 an optional [0x] that is
    followed by a hexadecimal digit, then the longest run of digits.
    [None] when no conversion is performed, otherwise the exact signed
    value, before any range check. *)
Definition strtolValue (base : Z) (s : string) : option Z :=
  let s1 := skipSpaces s in
  let '(neg, s2) :=
    match s1 with
    | String c r =>
        if Ascii.eqb c "-" then (true, r)
        else if Ascii.eqb c "+" then (false, r)
        else (false, s1)
    | EmptyString => (false, s1)
    end in
  let s3 :=
    match s2 with
    | String z (String x (String d r)) =>
        if (base =? 16) && Ascii.eqb z "0"
           && (Ascii.eqb x "x" || Ascii.eqb x "X") && isxdigit d
        then String d r else s2
    | _ => s2
    end in
  match digitRun base s3 with
  | [] => None
  | ds => Some (if neg : bool then - digitsValue base ds else digitsValue base ds)
  end.

(** [std::stoi(s, nullptr, base)]: [invalid_argument] without a conversion,
    [out_of_range] outside [int]. *)
Definition stoi (base : Z) (s : string) : result Z :=
  match strtolValue base s with
  | None => Err (InvalidArgument "stoi")
  | Some v =>
      if (v <? - 2147483648) || (2147483647 <? v) then Err (OutOfRange "stoi")
      else Ok v
  end.

(** [std::stoul(s, nullptr, base)] with a 64-bit [unsigned long]: a negated
    value wraps. *)
Definition stoul (base : Z) (s : string) : result Z :=
  match strtolValue base s with
  | None => Err (InvalidArgument "stoul")
  | Some v =>
      if 18446744073709551615 <? Z.abs v then Err (OutOfRange "stoul")
      else Ok (v mod 18446744073709551616)
  end.

(** [std::to_string] of an unsigned value. *)
Definition to_string (n : nat) : string :=
  NilEmpty.string_of_uint (Nat.to_uint n).

(** [s[i]] for [i < s.length()]. *)
Definition at_ (s : string) (i : nat) : option ascii := String.get i s.

End CStd.

(** ** MAC strings (protocols/include/Ethernet.hpp) *)

Module Ethernet.
Import CStd.

(** One turn of the loop of [macStrToBytes], at string index [i] for byte
    [byteIdx]; [None] when the loop condition [i < mac.length()] fails. *)
Definition parseByteAt (mac : string) (i byteIdx : nat) : option (result Z) :=
  if negb (i <? String.length mac)%nat then None
  else Some (
    if (0 <? byteIdx)%nat && negb (match at_ mac (i - 1) with
                                   | Some c => Ascii.eqb c ":"
                                   | None => false
                                   end)
    then Err (InvalidArgument "Invalid MAC address: missing colon separator")
    else if (String.length mac <=? i + 1)%nat
    then Err (InvalidArgument "Invalid MAC address: truncated byte")
    else
      match stoi 16 (String.substring i 2 mac) with
      | Ok v => Ok (u8 v)
      | Err _ => Err (InvalidArgument "Invalid MAC address: non-hex digit")
      end).

(** The loop [for (i = 0, byteIdx = 0; i < mac.length() && byteIdx < 6;
    i += 3, ++byteIdx)]; [todo] is [6 - byteIdx]. *)
Fixpoint parseBytes (mac : string) (todo : nat) (i byteIdx : nat) : result (list Z) :=
  match todo with
  | O => Ok []
  | S todo' =>
      match parseByteAt mac i byteIdx with
      | None => Ok []
      | Some (Err e) => Err e
      | Some (Ok b) =>
          match parseBytes mac todo' (i + 3) (byteIdx + 1) with
          | Ok bs => Ok (b :: bs)
          | Err e => Err e
          end
      end
  end.

(** [Ethernet::macStrToBytes]. *)
Definition macStrToBytes (mac : string) : result (list Z) :=
  if negb (String.length mac =? 17)%nat then
    Err (InvalidArgument "Invalid MAC address format: expected XX:XX:XX:XX:XX:XX")
  else parseBytes mac 6 0 0.

(** The shape the specification gives for a MAC string: exactly 17
    characters, [:] at positions 2, 5, 8, 11 and 14, a hexadecimal digit
    at every other position. *)
Definition isSeparatorIndex (i : nat) : bool :=
  (i =? 2)%nat || (i =? 5)%nat || (i =? 8)%nat || (i =? 11)%nat || (i =? 14)%nat.

Fixpoint shapeFrom (i : nat) (s : string) : bool :=
  match s with
  | EmptyString => true
  | String c r =>
      (if isSeparatorIndex i then Ascii.eqb c ":" else isxdigit c)
      && shapeFrom (S i) r
  end.

Definition macShape (s : string) : bool :=
  (String.length s =? 17)%nat && shapeFrom 0 s.

(** The byte that two hexadecimal digits denote, and the six bytes that a
    string of the shape denotes. *)
Definition hexPair (hi lo : ascii) : Z :=
  match digitIn 16 hi, digitIn 16 lo with
  | Some h, Some l => 16 * h + l
  | _, _ => 0
  end.

Definition charAt (s : string) (i : nat) : ascii :=
  match at_ s i with Some c => c | None => Ascii.zero end.

Definition macBytes (s : string) : list Z :=
  map (fun i => hexPair (charAt s i) (charAt s (i + 1))) [0; 3; 6; 9; 12; 15]%nat.

(** The class itself: the two strings, kept as given. *)
Record Ethernet : Type := { macSrc : string; macDst : string }.

(** The constructor: both strings are parsed, the source first, and the
    first parse that throws ends it. *)
Definition new (dst src : string) : result Ethernet :=
  _ ← macStrToBytes src;
  _ ← macStrToBytes dst;
  Ok {| macSrc := src; macDst := dst |}.

(** [Ethernet::getEncoded]: destination, then source. *)
Definition getEncoded (e : Ethernet) : result (list Z) :=
  dstBytes ← macStrToBytes (macDst e);
  srcBytes ← macStrToBytes (macSrc e);
  Ok (dstBytes ++ srcBytes).

End Ethernet.

(** ** VLAN tag (protocols/include/Virtual_LAN.hpp) *)

Module VirtualLAN.
Import CStd.

(** [priority] is a [uint8_t], [ID] a [uint16_t]. *)
Record Virtual_LAN : Type := { priority : Z; DEI : bool; ID : Z }.

Definition priorityError (pri : Z) : exn :=
  InvalidArgument ("VLAN priority must be 0-7, got " ++ to_string (Z.to_nat pri)).
Definition idError (id : Z) : exn :=
  InvalidArgument ("VLAN ID must be 0-4095, got " ++ to_string (Z.to_nat id)).

(** The constructor, on a [uint8_t], a [bool] and a [uint16_t]. *)
Definition new (pri : Z) (dei : bool) (id : Z) : result Virtual_LAN :=
  if 7 <? pri then Err (priorityError pri)
  else if 4095 <? id then Err (idError id)
  else Ok {| priority := pri; DEI := dei; ID := id |}.

(** The setters: the object afterwards, or the exception, which leaves the
    object as it was. *)
Definition setPriority (pri : Z) (v : Virtual_LAN) : result Virtual_LAN :=
  if 7 <? pri then Err (priorityError pri)
  else Ok {| priority := pri; DEI := DEI v; ID := ID v |}.

Definition setDEI (dei : bool) (v : Virtual_LAN) : Virtual_LAN :=
  {| priority := priority v; DEI := dei; ID := ID v |}.

Definition setID (id : Z) (v : Virtual_LAN) : result Virtual_LAN :=
  if 4095 <? id then Err (idError id)
  else Ok {| priority := priority v; DEI := DEI v; ID := id |}.

(** The tag control information of [getEncoded], a [uint16_t]. *)
Definition tci (v : Virtual_LAN) : Z :=
  u16 (Z.lor (Z.lor (Z.shiftl (priority v) 13)
                    (Z.shiftl (if DEI v then 1 else 0) 12))
             (ID v)).

(** [Virtual_LAN::getEncoded]. *)
Definition getEncoded (v : Virtual_LAN) : list Z :=
  [0x81; 0x00; Z.land (Z.shiftr (tci v) 8) 0xFF; Z.land (tci v) 0xFF].

End VirtualLAN.

(** ** Doubles *)

Module Double.

(** [static_cast] of a [double] to an integer type: the value truncated
    toward zero; [None] for an infinity or a NaN. *)
Definition truncate (f : float) : option Z :=
  match Prim2SF f with
  | S754_zero _ => Some 0
  | S754_finite s m e =>
      let a := if 0 <=? e then Z.pos m * 2 ^ e else Z.pos m / 2 ^ (- e) in
      Some (if s then - a else a)
  | S754_infinity _ | S754_nan => None
  end.

(** [static_cast<double>] of an integer. *)
Definition of_Z (z : Z) : float :=
  SF2Prim (binary_normalize prec emax z 0 false).

End Double.

(** ** JSON values, as far as the registry reads them *)

Module Json.

Unset Elimination Schemes.
Inductive json : Type :=
| JNull
| JBool (b : bool)
| JInt (z : Z)
| JUInt (z : Z)
| JFloat (f : float)
| JString (s : string)
| JArray (items : list json)
| JObject (members : list (string * json)).
Set Elimination Schemes.

Fixpoint assoc (key : string) (members : list (string * json)) : option json :=
  match members with
  | [] => None
  | (k, v) :: rest => if String.eqb k key then Some v else assoc key rest
  end.

(** A 64-bit integer narrowed to [int]. *)
Definition toInt32 (z : Z) : Z := (z + 2147483648) mod 4294967296 - 2147483648.

(** [get<int>()]. *)
Definition get_int (j : json) : result Z :=
  match j with
  | JInt z | JUInt z => Ok (toInt32 z)
  | JBool b => Ok (if b then 1 else 0)
  | JFloat f =>
      match Double.truncate f with
      | Some z =>
          if (z <? - 2147483648) || (2147483647 <? z)
          then Err (Undefined "double to int out of range")
          else Ok z
      | None => Err (Undefined "double to int out of range")
      end
  | _ => Err (JsonTypeError "type must be number")
  end.

(** [get<double>()]: a boolean is no number here, whereas [get<int>()]
    converts it. *)
Definition get_double (j : json) : result float :=
  match j with
  | JInt z | JUInt z => Ok (Double.of_Z z)
  | JFloat f => Ok f
  | _ => Err (JsonTypeError "type must be number")
  end.

(** [get<std::string>()]. *)
Definition get_string (j : json) : result string :=
  match j with
  | JString s => Ok s
  | _ => Err (JsonTypeError "type must be string")
  end.

(** [j.value(key, default_value)]: the member converted to the type of the
    default when the key is present, the default otherwise; a type error on
    anything that is not an object. *)
Definition value {A} (get : json -> result A) (j : json) (key : string)
    (default_value : A) : result A :=
  match j with
  | JObject members =>
      match assoc key members with
      | Some v => get v
      | None => Ok default_value
      end
  | _ => Err (JsonTypeError "cannot use value() with this type")
  end.

End Json.

(** ** SV publisher (core/src/sv_publisher_instance.cpp) *)

Module SVPublisher.
Import CStd Json.

Inductive DataSource : Type := MANUAL | COMTRADE | CSV.

Record SVConfig : Type := {
  appId : string;
  macDst : string;
  macSrc : string;
  vlanId : Z;
  vlanPrio : Z;
  svId : string;
  dstAddress : string;
  nominalFreq : float;
  sampleRate : Z;
  dataSource : DataSource;
  filePath : string
}.

Record Phasor : Type := { magnitude : float; angle : float }.

Record SVPublisherInstance : Type := {
  id_ : string;
  config_ : SVConfig;
  running_ : bool;
  phasors_ : list Phasor;
  harmonics_ : json;
  sampleCounter_ : Z;
  rawSocket_ : Z
}.

Definition ETHERTYPE_8021Q : Z := 0x8100.
Definition ETHERTYPE_SV : Z := 0x88BA.
Definition MAX_SV_FRAME_SIZE : nat := 1518.

(** [htons(x)] then [memcpy] of the two bytes; [htonl(x)] and four. *)
Definition be16 (x : Z) : list Z := [x / 256 mod 256; x mod 256].
Definition be32 (x : Z) : list Z :=
  [x / 16777216 mod 256; x / 65536 mod 256; x / 256 mod 256; x mod 256].

Definition bytesOf (s : string) : list Z :=
  map code (list_ascii_of_string s).

(** What the platform and the C library contribute to a frame and the
    embedding leaves open: the six bytes found in the frame after
    [sscanf(mac, "%hhx:%hhx:%hhx:%hhx:%hhx:%hhx", ...)] (a byte that was not
    converted keeps what the stack held), and the sample synthesis of manual
    mode ([sin] over doubles, then the cast to [int16_t]). *)
Record Platform : Type := {
  sscanf_hhx6 : string -> nat -> Z;
  synthesise : SVConfig -> Z -> Phasor -> Z
}.

Section WithPlatform.
Context (pf : Platform).

(** The constructor, given the descriptor [socket()] returned and the text
    [strerror(errno)] has after that call. *)
Definition newInstance (id : string) (config : SVConfig) (fd : Z)
    (strerror_errno : string) : result SVPublisherInstance :=
  if fd <? 0 then
    Err (RuntimeError ("Failed to create raw socket: " ++ strerror_errno))
  else Ok {|
    id_ := id;
    config_ := config;
    running_ := false;
    phasors_ := match dataSource config with
                | MANUAL => repeat {| magnitude := 0; angle := 0 |} 8
                | _ => []
                end;
    harmonics_ := JArray [];
    sampleCounter_ := 0;
    rawSocket_ := fd
  |}.

Definition set_running (b : bool) (p : SVPublisherInstance) :=
  {| id_ := id_ p; config_ := config_ p; running_ := b;
     phasors_ := phasors_ p; harmonics_ := harmonics_ p;
     sampleCounter_ := sampleCounter_ p; rawSocket_ := rawSocket_ p |}.

Definition set_sampleCounter (c : Z) (p : SVPublisherInstance) :=
  {| id_ := id_ p; config_ := config_ p; running_ := running_ p;
     phasors_ := phasors_ p; harmonics_ := harmonics_ p;
     sampleCounter_ := c; rawSocket_ := rawSocket_ p |}.

Definition start (p : SVPublisherInstance) : SVPublisherInstance :=
  set_sampleCounter 0 (set_running true p).

Definition stop (p : SVPublisherInstance) : SVPublisherInstance :=
  set_running false p.

Definition setConfig (config : SVConfig) (p : SVPublisherInstance) :=
  {| id_ := id_ p; config_ := config; running_ := running_ p;
     phasors_ := phasors_ p; harmonics_ := harmonics_ p;
     sampleCounter_ := sampleCounter_ p; rawSocket_ := rawSocket_ p |}.

Definition setPhasors (phasors : list Phasor) (p : SVPublisherInstance) :=
  {| id_ := id_ p; config_ := config_ p; running_ := running_ p;
     phasors_ := phasors; harmonics_ := harmonics_ p;
     sampleCounter_ := sampleCounter_ p; rawSocket_ := rawSocket_ p |}.

Definition setHarmonics (harmonics : json) (p : SVPublisherInstance) :=
  {| id_ := id_ p; config_ := config_ p; running_ := running_ p;
     phasors_ := phasors_ p; harmonics_ := harmonics;
     sampleCounter_ := sampleCounter_ p; rawSocket_ := rawSocket_ p |}.

(** [generateSamples]: one [int16_t] per phasor. *)
Definition generateSamples (p : SVPublisherInstance) : list Z :=
  match dataSource (config_ p) with
  | MANUAL => map (synthesise pf (config_ p) (sampleCounter_ p)) (phasors_ p)
  | COMTRADE | CSV => repeat 0 (length (phasors_ p))
  end.

Definition svIdLen (c : SVConfig) : Z := u8 (Z.of_nat (String.length (svId c))).

(** The bytes of the frame before the [smpCnt] field: two MAC addresses,
    VLAN tag and TCI, EtherType, APPID, length, two reserved bytes, svID. *)
Definition frameHead (c : SVConfig) (appIdValue : Z) (samples : list Z) : list Z :=
  map (sscanf_hhx6 pf (macDst c)) (seq 0 6) ++
  map (sscanf_hhx6 pf (macSrc c)) (seq 0 6) ++
  be16 ETHERTYPE_8021Q ++
  be16 (u16 (Z.lor (Z.shiftl (vlanPrio c) 13) (Z.land (vlanId c) 0x0FFF))) ++
  be16 ETHERTYPE_SV ++
  be16 (u16 appIdValue) ++
  be16 (u16 (Z.of_nat (length samples) * 8 + 20)) ++
  [0x80; 0x00] ++
  [svIdLen c] ++
  firstn (Z.to_nat (svIdLen c)) (bytesOf (svId c)).

(** The bytes from [smpCnt] on: smpCnt, confRev, smpSynch, then value and
    quality of each sample. *)
Definition frameTail (smpCnt : Z) (samples : list Z) : list Z :=
  be16 smpCnt ++
  be32 1 ++
  [0x01] ++
  concat (map (fun sample => be32 (u32 sample) ++ [0; 0; 0; 0]) samples).

(** [sendSVPacket]: the [offset] bytes handed to the socket, [None]
    without a socket.  The failures are the exception of [std::stoul] on
    the APPID and the division by a zero sample rate.  [offset] is never
    compared with [MAX_SV_FRAME_SIZE]: the bytes are written and sent
    whatever their number. *)
Definition sendSVPacket (p : SVPublisherInstance) : result (option (list Z)) :=
  if rawSocket_ p <? 0 then Ok None
  else
    let c := config_ p in
    let samples := generateSamples p in
    appIdValue ← stoul 16 (appId c);
    if sampleRate c =? 0 then Err (Undefined "modulo by a zero sample rate")
    else
      let smpCnt := u16 (sampleCounter_ p mod sampleRate c) in
      Ok (Some (frameHead c appIdValue samples ++ frameTail smpCnt samples)).

(** [tick]: the publisher afterwards and the frame sent, if any. *)
Definition tick (p : SVPublisherInstance)
    : result (SVPublisherInstance * option (list Z)) :=
  if negb (running_ p) then Ok (p, None)
  else
    sent ← sendSVPacket p;
    Ok (set_sampleCounter (u32 (sampleCounter_ p + 1)) p, sent).

(** [n] calls of [tick] in a row: the publisher afterwards and the frames
    sent, oldest first. *)
Fixpoint ticks (n : nat) (p : SVPublisherInstance)
    : result (SVPublisherInstance * list (list Z)) :=
  match n with
  | O => Ok (p, [])
  | S n' =>
      '(p1, sent) ← tick p;
      '(p2, frames) ← ticks n' p1;
      Ok (p2, from_option (fun f => [f]) [] sent ++ frames)
  end.

End WithPlatform.

(** Where [sendSVPacket] writes [smpCnt], and the value read back from a
    frame in network byte order. *)
Definition smpCntOffset (c : SVConfig) : nat :=
  (6 + 6 + 2 + 2 + 2 + 2 + 2 + 2 + 1 + Z.to_nat (svIdLen c))%nat.

Definition smpCntOf (c : SVConfig) (frame : list Z) : option Z :=
  match frame !! smpCntOffset c, frame !! S (smpCntOffset c) with
  | Some hi, Some lo => Some (hi * 256 + lo)
  | _, _ => None
  end.

End SVPublisher.

(** ** Publisher registry (core/src/sv_publisher_manager.cpp) *)

Module SVPublisherManager.
Import Json SVPublisher.

Definition get_dataSource (j : json) (dataSourceStr : string)
    : result (DataSource * string) :=
  if String.eqb dataSourceStr "MANUAL" then Ok (MANUAL, EmptyString)
  else if String.eqb dataSourceStr "COMTRADE" then
    path ← value get_string j "filePath" EmptyString; Ok (COMTRADE, path)
  else if String.eqb dataSourceStr "CSV" then
    path ← value get_string j "filePath" EmptyString; Ok (CSV, path)
  else Err (InvalidArgument ("Invalid dataSource: " ++ dataSourceStr)).

(** [parseConfig]. *)
Definition parseConfig (j : json) : result SVConfig :=
  appId ← value get_string j "appId" "0x4000";
  macDst ← value get_string j "macDst" "01:0C:CD:04:00:00";
  macSrc ← value get_string j "macSrc" "AA:BB:CC:DD:EE:01";
  vlanId ← value get_int j "vlanId" 100;
  vlanPrio ← value get_int j "vlanPrio" 4;
  svId ← value get_string j "svId" "IED1MU01";
  dstAddress ← value get_string j "dstAddress" EmptyString;
  nominalFreq ← value get_double j "nominalFreq" 60%float;
  sampleRate ← value get_int j "sampleRate" 4800;
  dataSourceStr ← value get_string j "dataSource" "MANUAL";
  '(dataSource, filePath) ← get_dataSource j dataSourceStr;
  Ok {|
    appId := appId;
    macDst := macDst;
    macSrc := macSrc;
    vlanId := u16 vlanId;
    vlanPrio := u8 vlanPrio;
    svId := svId;
    dstAddress := dstAddress;
    nominalFreq := nominalFreq;
    sampleRate := u32 sampleRate;
    dataSource := dataSource;
    filePath := filePath
  |}.

(** The registry: [streams_]. *)
Abbreviation streams := (gmap string SVPublisherInstance).

(** [createStream], given what [generateId] draws, what [socket()] returns
    and the text of its [errno]: the id or the exception, and the registry
    afterwards. *)
Definition createStream (streams_ : streams) (config : json)
    (generated : string) (fd : Z) (strerror_errno : string)
    : result string * streams :=
  match parseConfig config with
  | Err e => (Err e, streams_)
  | Ok svConfig =>
      match newInstance generated svConfig fd strerror_errno with
      | Err e => (Err e, streams_)
      | Ok instance => (Ok generated, <[generated := instance]> streams_)
      end
  end.

(** [updateStream]. *)
Definition updateStream (streams_ : streams) (streamId : string) (config : json)
    : result unit * streams :=
  match streams_ !! streamId with
  | None => (Err (RuntimeError ("Stream not found: " ++ streamId)), streams_)
  | Some p =>
      match parseConfig config with
      | Err e => (Err e, streams_)
      | Ok svConfig => (Ok tt, <[streamId := setConfig svConfig p]> streams_)
      end
  end.

End SVPublisherManager.

(** ** [std::map<std::string, V>]: entries in ascending key order *)

Module OrderedMap.

Section Ops.
Context {V : Type}.

(** [m[k] = v]. *)
Fixpoint assign (k : string) (v : V) (m : list (string * V)) : list (string * V) :=
  match m with
  | [] => [(k, v)]
  | (k', v') :: rest =>
      match String.compare k k' with
      | Lt => (k, v) :: m
      | Eq => (k, v) :: rest
      | Gt => (k', v') :: assign k v rest
      end
  end.

(** [m.find(k)]. *)
Fixpoint find (k : string) (m : list (string * V)) : option V :=
  match m with
  | [] => None
  | (k', v') :: rest => if String.eqb k k' then Some v' else find k rest
  end.

(** [m.erase(k)]. *)
Fixpoint erase (k : string) (m : list (string * V)) : list (string * V) :=
  match m with
  | [] => []
  | (k', v') :: rest => if String.eqb k k' then rest else (k', v') :: erase k rest
  end.

(** [it->second = f(it->second)] for the entry of [k], if there is one. *)
Fixpoint update (k : string) (f : V -> V) (m : list (string * V)) : list (string * V) :=
  match m with
  | [] => []
  | (k', v') :: rest =>
      if String.eqb k k' then (k', f v') :: rest else (k', v') :: update k f rest
  end.

End Ops.

End OrderedMap.

(** ** The JSON of a stream ([toJson], core/src/sv_publisher_instance.cpp) *)

Module SVPublisherJson.
Import Json SVPublisher.

(** [j[key] = v] on the members of an object, which nlohmann keeps in a
    [std::map]. *)
Definition set (key : string) (v : json) (members : list (string * json))
    : list (string * json) :=
  OrderedMap.assign key v members.

Definition phasorJson (ph : Phasor) : json :=
  JObject (set "angle" (JFloat (angle ph))
             (set "magnitude" (JFloat (magnitude ph)) [])).

(** [SVPublisherInstance::toJson]. *)
Definition toJson (p : SVPublisherInstance) : json :=
  let c := config_ p in
  let j := set "id" (JString (id_ p)) [] in
  let j := set "appId" (JString (appId c)) j in
  let j := set "macDst" (JString (macDst c)) j in
  let j := set "macSrc" (JString (macSrc c)) j in
  let j := set "vlanId" (JUInt (vlanId c)) j in
  let j := set "vlanPrio" (JUInt (vlanPrio c)) j in
  let j := set "svId" (JString (svId c)) j in
  let j := set "dstAddress" (JString (dstAddress c)) j in
  let j := set "nominalFreq" (JFloat (nominalFreq c)) j in
  let j := set "sampleRate" (JUInt (sampleRate c)) j in
  let j := set "running" (JBool (running_ p)) j in
  let j :=
    match dataSource c with
    | MANUAL => set "dataSource" (JString "MANUAL") j
    | COMTRADE =>
        set "filePath" (JString (filePath c))
          (set "dataSource" (JString "COMTRADE") j)
    | CSV =>
        set "filePath" (JString (filePath c))
          (set "dataSource" (JString "CSV") j)
    end in
  let j := set "phasors" (JArray (map phasorJson (phasors_ p))) j in
  let j := set "harmonics" (harmonics_ p) j in
  JObject j.

End SVPublisherJson.

(** ** Publisher registry, the other operations
    (core/src/sv_publisher_manager.cpp) *)

Module SVPublisherRegistry.
Import Json SVPublisher SVPublisherManager SVPublisherJson.

Definition notFound (streamId : string) : exn :=
  RuntimeError ("Stream not found: " ++ streamId).

(** [deleteStream]: the instance is stopped and its entry erased. *)
Definition deleteStream (streams_ : streams) (streamId : string)
    : result unit * streams :=
  match streams_ !! streamId with
  | None => (Err (notFound streamId), streams_)
  | Some _ => (Ok tt, delete streamId streams_)
  end.

(** The ids in the order in which [streams_], a [std::map], is iterated. *)
Definition keyLe (a b : string) : Prop := Is_true (String.leb a b).

#[global] Instance keyLe_dec : RelDecision keyLe.
Proof. intros a b. unfold keyLe. apply _. Defined.

Definition idsInOrder (streams_ : streams) : list string :=
  merge_sort keyLe (elements (dom streams_)).

(** [listStreams]. *)
Definition listStreams (streams_ : streams) : json :=
  JArray (omap (fun streamId => toJson <$> streams_ !! streamId)
            (idsInOrder streams_)).

(** [getStream]. *)
Definition getStream (streams_ : streams) (streamId : string) : result json :=
  match streams_ !! streamId with
  | None => Err (notFound streamId)
  | Some p => Ok (toJson p)
  end.

(** [startStream], [stopStream]. *)
Definition startStream (streams_ : streams) (streamId : string)
    : result unit * streams :=
  match streams_ !! streamId with
  | None => (Err (notFound streamId), streams_)
  | Some p => (Ok tt, <[streamId := start p]> streams_)
  end.

Definition stopStream (streams_ : streams) (streamId : string)
    : result unit * streams :=
  match streams_ !! streamId with
  | None => (Err (notFound streamId), streams_)
  | Some p => (Ok tt, <[streamId := stop p]> streams_)
  end.

(** [startAll], [stopAll]: neither [start] nor [stop] can throw, so the
    order of the visits does not show. *)
Definition startAll (streams_ : streams) : streams := start <$> streams_.
Definition stopAll (streams_ : streams) : streams := stop <$> streams_.

(** The loop of [updatePhasors] over the elements of the array. *)
Fixpoint parsePhasors (items : list json) : result (list Phasor) :=
  match items with
  | [] => Ok []
  | p :: rest =>
      magnitude ← value get_double p "magnitude" 0%float;
      angle ← value get_double p "angle" 0%float;
      phasors ← parsePhasors rest;
      Ok ({| magnitude := magnitude; angle := angle |} :: phasors)
  end.

(** The vector [updatePhasors] builds: empty unless [phasorData] is an
    object with an array under ["phasors"]. *)
Definition phasorsOf (phasorData : json) : result (list Phasor) :=
  match phasorData with
  | JObject members =>
      match assoc "phasors" members with
      | Some (JArray items) => parsePhasors items
      | _ => Ok []
      end
  | _ => Ok []
  end.

(** [updatePhasors]. *)
Definition updatePhasors (streams_ : streams) (streamId : string)
    (phasorData : json) : result unit * streams :=
  match streams_ !! streamId with
  | None => (Err (notFound streamId), streams_)
  | Some p =>
      match phasorsOf phasorData with
      | Err e => (Err e, streams_)
      | Ok phasors => (Ok tt, <[streamId := setPhasors phasors p]> streams_)
      end
  end.

(** [updateHarmonics]. *)
Definition updateHarmonics (streams_ : streams) (streamId : string)
    (harmonicsData : json) : result unit * streams :=
  match streams_ !! streamId with
  | None => (Err (notFound streamId), streams_)
  | Some p => (Ok tt, <[streamId := setHarmonics harmonicsData p]> streams_)
  end.

(** The JSON [updateStreamPhasors] builds from the frequency and the
    channels, a [std::map] from channel id to magnitude and angle. *)
Definition channelJson (phasor : float * float) : json :=
  JObject (set "angleDeg" (JFloat phasor.2) (set "mag" (JFloat phasor.1) [])).

Definition streamPhasorData (freq : float) (channels : list (string * (float * float)))
    : json :=
  let channelsJson :=
    fold_left (fun acc entry => set entry.1 (channelJson entry.2) acc) channels [] in
  JObject (set "channels" (JObject channelsJson) (set "freq" (JFloat freq) [])).

(** [updateStreamPhasors]: silent on an unknown stream, otherwise a call of
    [updatePhasors] with the JSON built. *)
Definition updateStreamPhasors (streams_ : streams) (streamId : string)
    (freq : float) (channels : list (string * (float * float)))
    : result unit * streams :=
  match streams_ !! streamId with
  | None => (Ok tt, streams_)
  | Some _ => updatePhasors streams_ streamId (streamPhasorData freq channels)
  end.

(** [getInstance]: the instance, or [nullptr]. *)
Definition getInstance (streams_ : streams) (streamId : string)
    : option SVPublisherInstance :=
  streams_ !! streamId.

Section WithPlatform.
Context (pf : Platform).

(** The loop of [tickAll] over the ids still to visit: the frames sent,
    oldest first, or the exception of the first [tick] that throws, which
    ends the loop with the streams before it ticked. *)
Fixpoint tickEach (ids : list string) (streams_ : streams)
    : result (list (list Z)) * streams :=
  match ids with
  | [] => (Ok [], streams_)
  | streamId :: rest =>
      match streams_ !! streamId with
      | None => tickEach rest streams_
      | Some p =>
          match tick pf p with
          | Err e => (Err e, streams_)
          | Ok (p', sent) =>
              match tickEach rest (<[streamId := p']> streams_) with
              | (Ok frames, streams') =>
                  (Ok (from_option (fun f => [f]) [] sent ++ frames), streams')
              | (Err e, streams') => (Err e, streams')
              end
          end
      end
  end.

(** [tickAll]. *)
Definition tickAll (streams_ : streams) : result (list (list Z)) * streams :=
  tickEach (idsInOrder streams_) streams_.

End WithPlatform.

End SVPublisherRegistry.

(** ** Trip rules (sniffer/src/trip_rule_evaluator.cpp) *)

Module TripRule.
Import CStd.

Record GooseDataPoint : Type := {
  path : string;
  boolValue : bool;
  intValue : Z;
  floatValue : float;
  dataType : string
}.

Inductive RuleOp : Type :=
| EQUALS | NOT_EQUALS | GREATER_THAN | LESS_THAN | GREATER_EQUAL | LESS_EQUAL
| AND | OR | NOT.

Inductive RuleNode : Type :=
| ComparisonNode (dataPath : string) (operation : RuleOp) (compareValue : string)
| BinaryOpNode (lhs rhs : RuleNode) (operation : RuleOp)
| UnaryOpNode (operand : RuleNode) (operation : RuleOp).

Record TripRule : Type := {
  name : string;
  expression : string;
  ast : option RuleNode;
  enabled : bool
}.

Record TripRuleResult : Type := {
  triggered : bool;
  ruleName : string;
  message : string;
  timestamp : Z
}.

Record TripRuleEvaluator : Type := {
  rules_ : list (string * TripRule);
  dataPoints_ : gmap string GooseDataPoint;
  lastError_ : string
}.

Definition what (e : exn) : string :=
  match e with
  | RuntimeError w | InvalidArgument w | OutOfRange w | JsonTypeError w
  | Undefined w => w
  end.

(** The tolerance [1e-6] of the float comparisons, as the double it is. *)
Definition tolerance : float := 0x1.0c6f7a0b5ed8dp-20%float.

Section Evaluation.
(** [std::stod], which the embedding leaves open. *)
Context (stod : string -> result float).

(** [ComparisonNode::evaluate]. *)
Definition evaluateComparison (dataPath : string) (operation : RuleOp)
    (compareValue : string) (dataPoints : gmap string GooseDataPoint)
    : result bool :=
  match dataPoints !! dataPath with
  | None => Ok false
  | Some dp =>
      if String.eqb (dataType dp) "bool" then
        let compareVal :=
          String.eqb compareValue "true" || String.eqb compareValue "1" in
        match operation with
        | EQUALS => Ok (Bool.eqb (boolValue dp) compareVal)
        | NOT_EQUALS => Ok (negb (Bool.eqb (boolValue dp) compareVal))
        | _ => Ok false
        end
      else if String.eqb (dataType dp) "int" then
        compareVal ← stoi 10 compareValue;
        match operation with
        | EQUALS => Ok (intValue dp =? compareVal)
        | NOT_EQUALS => Ok (negb (intValue dp =? compareVal))
        | GREATER_THAN => Ok (compareVal <? intValue dp)
        | LESS_THAN => Ok (intValue dp <? compareVal)
        | GREATER_EQUAL => Ok (compareVal <=? intValue dp)
        | LESS_EQUAL => Ok (intValue dp <=? compareVal)
        | _ => Ok false
        end
      else if String.eqb (dataType dp) "float" then
        compareVal ← stod compareValue;
        match operation with
        | EQUALS =>
            Ok (PrimFloat.ltb (abs (floatValue dp - compareVal)) tolerance)
        | NOT_EQUALS =>
            Ok (PrimFloat.leb tolerance (abs (floatValue dp - compareVal)))
        | GREATER_THAN => Ok (PrimFloat.ltb compareVal (floatValue dp))
        | LESS_THAN => Ok (PrimFloat.ltb (floatValue dp) compareVal)
        | GREATER_EQUAL => Ok (PrimFloat.leb compareVal (floatValue dp))
        | LESS_EQUAL => Ok (PrimFloat.leb (floatValue dp) compareVal)
        | _ => Ok false
        end
      else Ok false
  end.

(** [RuleNode::evaluate], the three overrides.  [BinaryOpNode::evaluate]
    evaluates [left] (here [lhs]), then [right] ([rhs]), then combines. *)
Fixpoint evaluateNode (node : RuleNode) (dataPoints : gmap string GooseDataPoint)
    : result bool :=
  match node with
  | ComparisonNode dataPath operation compareValue =>
      evaluateComparison dataPath operation compareValue dataPoints
  | BinaryOpNode lhs rhs operation =>
      leftVal ← evaluateNode lhs dataPoints;
      rightVal ← evaluateNode rhs dataPoints;
      match operation with
      | AND => Ok (leftVal && rightVal)
      | OR => Ok (leftVal || rightVal)
      | _ => Ok false
      end
  | UnaryOpNode operand operation =>
      val ← evaluateNode operand dataPoints;
      match operation with
      | NOT => Ok (negb val)
      | _ => Ok false
      end
  end.

(** The loop of [TripRuleEvaluator::evaluate] over the entries of [rules_]
    that are still to visit. *)
Fixpoint evaluateRules (rules : list (string * TripRule))
    (dataPoints : gmap string GooseDataPoint) (now : Z) : TripRuleResult :=
  match rules with
  | [] =>
      {| triggered := false; ruleName := EmptyString;
         message := "No trip rules triggered"; timestamp := now |}
  | (_, rule) :: rest =>
      match enabled rule, ast rule with
      | true, Some node =>
          match evaluateNode node dataPoints with
          | Ok true =>
              {| triggered := true; ruleName := name rule;
                 message := "Trip rule triggered: " ++ expression rule;
                 timestamp := now |}
          | Ok false => evaluateRules rest dataPoints now
          | Err e =>
              {| triggered := false; ruleName := EmptyString;
                 message := "Error evaluating rule '" ++ name rule ++ "': "
                            ++ what e;
                 timestamp := now |}
          end
      | _, _ => evaluateRules rest dataPoints now
      end
  end.

(** [TripRuleEvaluator::evaluate], given the reading of the system clock. *)
Definition evaluate (ev : TripRuleEvaluator) (now : Z) : TripRuleResult :=
  evaluateRules (rules_ ev) (dataPoints_ ev) now.

End Evaluation.

Definition set_rules (rules : list (string * TripRule)) (ev : TripRuleEvaluator) :=
  {| rules_ := rules; dataPoints_ := dataPoints_ ev; lastError_ := lastError_ ev |}.

Definition set_dataPoints (dps : gmap string GooseDataPoint) (ev : TripRuleEvaluator) :=
  {| rules_ := rules_ ev; dataPoints_ := dps; lastError_ := lastError_ ev |}.

Definition set_lastError (msg : string) (ev : TripRuleEvaluator) :=
  {| rules_ := rules_ ev; dataPoints_ := dataPoints_ ev; lastError_ := msg |}.

Definition newEvaluator : TripRuleEvaluator :=
  {| rules_ := []; dataPoints_ := ∅; lastError_ := EmptyString |}.

Definition removeRule (ruleName : string) (ev : TripRuleEvaluator) :=
  set_rules (OrderedMap.erase ruleName (rules_ ev)) ev.

Definition setRuleEnabled (ruleName : string) (on : bool) (ev : TripRuleEvaluator) :=
  set_rules
    (OrderedMap.update ruleName
       (fun r => {| name := name r; expression := expression r; ast := ast r;
                    enabled := on |})
       (rules_ ev)) ev.

Definition clearRules (ev : TripRuleEvaluator) := set_rules [] ev.

(** The three overloads of [updateDataPoint]. *)
Definition updateDataPointBool (p : string) (v : bool) (ev : TripRuleEvaluator) :=
  set_dataPoints
    (<[p := {| path := p; boolValue := v; intValue := 0; floatValue := 0;
              dataType := "bool" |}]> (dataPoints_ ev)) ev.

Definition updateDataPointInt (p : string) (v : Z) (ev : TripRuleEvaluator) :=
  set_dataPoints
    (<[p := {| path := p; boolValue := false; intValue := v; floatValue := 0;
              dataType := "int" |}]> (dataPoints_ ev)) ev.

Definition updateDataPointFloat (p : string) (v : float) (ev : TripRuleEvaluator) :=
  set_dataPoints
    (<[p := {| path := p; boolValue := false; intValue := 0; floatValue := v;
              dataType := "float" |}]> (dataPoints_ ev)) ev.

End TripRule.

(** ** The rule parser and [addRule] (sniffer/src/trip_rule_evaluator.cpp) *)

Module TripRuleParser.
Import CStd TripRule.

(** What the parsing methods read and write: the cursor [pos] and the
    member [lastError_]. *)
Record PState : Type := { pos : nat; lastError : string }.

(** A method returns, throws [std::runtime_error(what)], or the recursion
    budget of the embedding is used up. *)
Inductive PResult (A : Type) : Type :=
| Return (a : A) (st : PState)
| Throw (what : string) (st : PState)
| OutOfFuel.
Arguments Return {A} a st.
Arguments Throw {A} what st.
Arguments OutOfFuel {A}.

Definition setPos (p : nat) (st : PState) : PState :=
  {| pos := p; lastError := lastError st |}.
Definition setError (msg : string) (st : PState) : PState :=
  {| pos := pos st; lastError := msg |}.

(** [i < expr.length() && expr[i] == c]. *)
Definition charIs (expr : string) (i : nat) (c : ascii) : bool :=
  match at_ expr i with
  | Some c' => Ascii.eqb c' c
  | None => false
  end.

Fixpoint skipWhitespaceFrom (n : nat) (expr : string) (p : nat) : nat :=
  match n with
  | O => p
  | S n' =>
      match at_ expr p with
      | Some c => if isspace c then skipWhitespaceFrom n' expr (S p) else p
      | None => p
      end
  end.

(** [skipWhitespace]: at most [expr.length() - pos] characters are skipped. *)
Definition skipWhitespace (expr : string) (p : nat) : nat :=
  skipWhitespaceFrom (String.length expr - p) expr p.

(** The loops of [parseIdentifier] and [parseValue]: the characters taken
    and the cursor after them. *)
Fixpoint scanWhile (ok : ascii -> bool) (n : nat) (expr : string) (p : nat)
    : string * nat :=
  match n with
  | O => (EmptyString, p)
  | S n' =>
      match at_ expr p with
      | Some c =>
          if ok c then
            let '(taken, p') := scanWhile ok n' expr (S p) in (String c taken, p')
          else (EmptyString, p)
      | None => (EmptyString, p)
      end
  end.

Definition identifierChar (c : ascii) : bool :=
  isalnum c || Ascii.eqb c "_" || Ascii.eqb c "/" || Ascii.eqb c ".".

Definition valueChar (c : ascii) : bool :=
  isalnum c || Ascii.eqb c "." || Ascii.eqb c "-" || Ascii.eqb c "+".

Definition parseIdentifier (expr : string) (p : nat) : string * nat :=
  let p := skipWhitespace expr p in
  scanWhile identifierChar (String.length expr - p) expr p.

Definition parseValue (expr : string) (p : nat) : string * nat :=
  let p := skipWhitespace expr p in
  scanWhile valueChar (String.length expr - p) expr p.

Definition isEmpty (s : string) : bool :=
  match s with EmptyString => true | String _ _ => false end.

(** [p + 1 < expr.length() && expr[p] == a && expr[p + 1] == b]. *)
Definition twoAt (expr : string) (p : nat) (a b : ascii) : bool :=
  (p + 1 <? String.length expr)%nat && charIs expr p a && charIs expr (p + 1) b.

Definition parseOperator (expr : string) (st : PState) : PResult RuleOp :=
  let p := skipWhitespace expr (pos st) in
  if twoAt expr p "=" "=" then Return EQUALS (setPos (p + 2) st)
  else if twoAt expr p "!" "=" then Return NOT_EQUALS (setPos (p + 2) st)
  else if twoAt expr p ">" "=" then Return GREATER_EQUAL (setPos (p + 2) st)
  else if twoAt expr p "<" "=" then Return LESS_EQUAL (setPos (p + 2) st)
  else if twoAt expr p "&" "&" then Return AND (setPos (p + 2) st)
  else if twoAt expr p "|" "|" then Return OR (setPos (p + 2) st)
  else if charIs expr p ">" then Return GREATER_THAN (setPos (p + 1) st)
  else if charIs expr p "<" then Return LESS_THAN (setPos (p + 1) st)
  else if charIs expr p "!" then Return NOT (setPos (p + 1) st)
  else
    Throw "Invalid operator"
      (setError ("Invalid operator at position " ++ to_string p) (setPos p st)).

Section Descent.
(** [parseOrExpression] for the inside of a pair of parentheses. *)
Context (inner : PState -> PResult RuleNode).
Context (expr : string).

Definition parsePrimaryExpression (st : PState) : PResult RuleNode :=
  let p := skipWhitespace expr (pos st) in
  if (String.length expr <=? p)%nat then
    Throw "Unexpected end of expression"
      (setError "Unexpected end of expression" (setPos p st))
  else if charIs expr p "(" then
    match inner (setPos (p + 1) st) with
    | Return node st1 =>
        let p1 := skipWhitespace expr (pos st1) in
        if (String.length expr <=? p1)%nat || negb (charIs expr p1 ")") then
          Throw "Missing closing parenthesis"
            (setError "Missing closing parenthesis" (setPos p1 st1))
        else Return node (setPos (p1 + 1) st1)
    | Throw w st1 => Throw w st1
    | OutOfFuel => OutOfFuel
    end
  else
    let '(id, p1) := parseIdentifier expr p in
    if isEmpty id then
      Throw "Expected identifier"
        (setError ("Expected identifier at position " ++ to_string p1)
           (setPos p1 st))
    else Return (ComparisonNode id EQUALS EmptyString) (setPos p1 st).

Definition parseComparisonExpression (st : PState) : PResult RuleNode :=
  match parsePrimaryExpression st with
  | Return node st1 =>
      let st2 := setPos (skipWhitespace expr (pos st1)) st1 in
      if (String.length expr <=? pos st2)%nat then Return node st2
      else
        match node with
        | ComparisonNode dataPath _ _ =>
            match parseOperator expr st2 with
            | Return op st3 =>
                let '(value, p4) := parseValue expr (pos st3) in
                if isEmpty value then
                  Throw "Missing value"
                    (setError "Expected value after operator" (setPos p4 st3))
                else Return (ComparisonNode dataPath op value) (setPos p4 st3)
            | Throw _ st3 => Return node st3
            | OutOfFuel => OutOfFuel
            end
        | _ => Return node st2
        end
  | Throw w st1 => Throw w st1
  | OutOfFuel => OutOfFuel
  end.

(** [n] bounds the number of [!] in a row. *)
Fixpoint parseNotExpression (n : nat) (st : PState) : PResult RuleNode :=
  match n with
  | O => OutOfFuel
  | S n' =>
      let st1 := setPos (skipWhitespace expr (pos st)) st in
      if charIs expr (pos st1) "!" then
        if charIs expr (pos st1 + 1) "=" then parseComparisonExpression st1
        else
          match parseNotExpression n' (setPos (pos st1 + 1) st1) with
          | Return operand st2 => Return (UnaryOpNode operand NOT) st2
          | Throw w st2 => Throw w st2
          | OutOfFuel => OutOfFuel
          end
      else parseComparisonExpression st1
  end.

(** The [while (true)] of [parseAndExpression]; [n] bounds its turns. *)
Fixpoint andLoop (n : nat) (lhs : RuleNode) (st : PState) : PResult RuleNode :=
  match n with
  | O => OutOfFuel
  | S n' =>
      let st1 := setPos (skipWhitespace expr (pos st)) st in
      if (String.length expr <=? pos st1 + 1)%nat
         || negb (charIs expr (pos st1) "&") || negb (charIs expr (pos st1 + 1) "&")
      then Return lhs st1
      else
        match parseNotExpression (S (String.length expr)) (setPos (pos st1 + 2) st1) with
        | Return rhs st2 => andLoop n' (BinaryOpNode lhs rhs AND) st2
        | Throw w st2 => Throw w st2
        | OutOfFuel => OutOfFuel
        end
  end.

Definition parseAndExpression (st : PState) : PResult RuleNode :=
  match parseNotExpression (S (String.length expr)) st with
  | Return lhs st1 => andLoop (S (String.length expr)) lhs st1
  | Throw w st1 => Throw w st1
  | OutOfFuel => OutOfFuel
  end.

(** The [while (true)] of [parseOrExpression]. *)
Fixpoint orLoop (n : nat) (lhs : RuleNode) (st : PState) : PResult RuleNode :=
  match n with
  | O => OutOfFuel
  | S n' =>
      let st1 := setPos (skipWhitespace expr (pos st)) st in
      if (String.length expr <=? pos st1 + 1)%nat
         || negb (charIs expr (pos st1) "|") || negb (charIs expr (pos st1 + 1) "|")
      then Return lhs st1
      else
        match parseAndExpression (setPos (pos st1 + 2) st1) with
        | Return rhs st2 => orLoop n' (BinaryOpNode lhs rhs OR) st2
        | Throw w st2 => Throw w st2
        | OutOfFuel => OutOfFuel
        end
  end.

Definition parseOrLevel (st : PState) : PResult RuleNode :=
  match parseAndExpression st with
  | Return lhs st1 => orLoop (S (String.length expr)) lhs st1
  | Throw w st1 => Throw w st1
  | OutOfFuel => OutOfFuel
  end.

End Descent.

(** [parseOrExpression]; [depth] bounds the nesting of parentheses. *)
Fixpoint parseOrExpression (depth : nat) (expr : string) (st : PState)
    : PResult RuleNode :=
  match depth with
  | O => OutOfFuel
  | S depth' => parseOrLevel (parseOrExpression depth' expr) expr st
  end.

(** [parseExpression]: the tree or [nullptr], and [lastError_] afterwards;
    [None] only if the budget [S (length expr)] were too small. *)
Definition parseExpressionFuel (expr : string) (lastError_ : string)
    : option (option RuleNode * string) :=
  match parseOrExpression (S (String.length expr)) expr
          {| pos := 0; lastError := lastError_ |} with
  | Return node st =>
      if (skipWhitespace expr (pos st) <? String.length expr)%nat
      then Some (None, "Unexpected characters after expression"%string)
      else Some (Some node, lastError st)
  | Throw w st =>
      Some (None, if isEmpty (lastError st) then w else lastError st)
  | OutOfFuel => None
  end.

Definition parseExpression (expr : string) (lastError_ : string)
    : option RuleNode * string :=
  default (None, lastError_) (parseExpressionFuel expr lastError_).

(** [addRule]: whether the rule was installed, and the evaluator
    afterwards. *)
Definition addRule (ruleName expression : string) (ev : TripRuleEvaluator)
    : bool * TripRuleEvaluator :=
  match parseExpression expression EmptyString with
  | (Some node, err) =>
      (true,
       {| rules_ :=
            OrderedMap.assign ruleName
              {| name := ruleName; expression := expression; ast := Some node;
                 enabled := true |}
              (rules_ ev);
          dataPoints_ := dataPoints_ ev;
          lastError_ := err |})
  | (None, err) => (false, set_lastError err ev)
  end.

End TripRuleParser.

(** ** The queries of the evaluator, and the sniffer's use of it
    (sniffer/src/trip_rule_evaluator.cpp, sniffer/src/sniffer.cpp) *)

Module TripRuleQueries.
Import CStd TripRule.

(** [getRuleNames]: the keys of [rules_], in its order. *)
Definition getRuleNames (ev : TripRuleEvaluator) : list string :=
  map fst (rules_ ev).

(** [getRuleExpression]: empty for an unknown rule. *)
Definition getRuleExpression (ruleName : string) (ev : TripRuleEvaluator) : string :=
  match OrderedMap.find ruleName (rules_ ev) with
  | Some rule => expression rule
  | None => EmptyString
  end.

(** [isRuleEnabled]: [false] for an unknown rule. *)
Definition isRuleEnabled (ruleName : string) (ev : TripRuleEvaluator) : bool :=
  match OrderedMap.find ruleName (rules_ ev) with
  | Some rule => enabled rule
  | None => false
  end.

Definition getLastError (ev : TripRuleEvaluator) : string := lastError_ ev.

(** The end of [process_GOOSE_packet]: one boolean data point per entry of
    [boolDat], named after the control block reference and the position of
    the entry, from position [idx] on. *)
Fixpoint updateBooleans (goCbRef : string) (idx : nat) (boolDat : list Z)
    (ev : TripRuleEvaluator) : TripRuleEvaluator :=
  match boolDat with
  | [] => ev
  | b :: rest =>
      updateBooleans goCbRef (S idx) rest
        (updateDataPointBool (goCbRef ++ "/data" ++ to_string idx)
           (negb (b =? 0)) ev)
  end.

(** ... then the rules are evaluated and a triggered result sets the global
    trip flag: the evaluator and the flag afterwards. *)
Definition evaluateGoose (stod : string -> result float) (goCbRef : string)
    (boolDat : list Z) (now : Z) (ev : TripRuleEvaluator) (tripFlag : bool)
    : TripRuleEvaluator * bool :=
  let ev' := updateBooleans goCbRef 0 boolDat ev in
  (ev', if triggered (evaluate stod ev' now) then true else tripFlag).

End TripRuleQueries.

(** ** The sniffer's reading of a GOOSE frame (sniffer/src/sniffer.cpp,
    [process_GOOSE_packet]) *)

Module SnifferGoose.
Import CStd TripRule TripRuleQueries.

Record Goose_info : Type := {
  goCbRef : string;
  mac_dst : list Z;
  input : list (list Z)
}.

(** The members of the sniffer the function uses: the sixteen digital
    inputs, the subscriptions and the trip rule evaluator, if any. *)
Record Sniffer : Type := {
  digitalInput : list Z;
  goInfo : list Goose_info;
  tripEvaluator : option TripRuleEvaluator
}.

(** How the function is left: at one of its [LOG_ERROR] returns, at the
    silent return for a frame of no subscribed control block, or at its
    end. *)
Inductive Outcome : Type :=
| ParseError (message : string)
| Unmatched
| Received.

(** A run returns, reads outside of the buffer or of a vector (undefined
    behaviour), or is cut off by the bound put on its loops. *)
Inductive Run (A : Type) : Type :=
| Returns (a : A)
| OutOfBounds
| OutOfFuel.
Arguments Returns {A} a.
Arguments OutOfBounds {A}.
Arguments OutOfFuel {A}.

Definition andThen {A B} (m : Run A) (k : A -> Run B) : Run B :=
  match m with
  | Returns a => k a
  | OutOfBounds => OutOfBounds
  | OutOfFuel => OutOfFuel
  end.

Notation "'let+' x := m 'in' k" := (andThen m (fun x => k))
  (at level 10, x name, m at level 100, k at level 200, only parsing).

(** [frame[k]], for a buffer of [length frame] bytes. *)
Definition byteAt (frame : list Z) (k : Z) : Run Z :=
  if k <? 0 then OutOfBounds
  else match frame !! Z.to_nat k with
       | Some b => Returns b
       | None => OutOfBounds
       end.

(** The [n] bytes from [&frame[k]] on, as [memcmp] reads them. *)
Definition bytesAt (frame : list Z) (k n : Z) : Run (list Z) :=
  if (k <? 0) || (Z.of_nat (length frame) <? k + n) then OutOfBounds
  else Returns (take (Z.to_nat n) (drop (Z.to_nat k) frame)).

Definition bytesOf (s : string) : list Z := map code (list_ascii_of_string s).

(** The [for] over [goInfo] at a TLV of tag 0x80: the index of the first
    subscription of which the [tlv_len] bytes of the value are a prefix,
    the index found before when there is none. *)
Fixpoint matchRef (frame : list Z) (start tlv_len : Z) (infos : list Goose_info)
    (idx : nat) (goIdx : option nat) : Run (option nat) :=
  match infos with
  | [] => Returns goIdx
  | info :: rest =>
      if tlv_len <=? Z.of_nat (String.length (goCbRef info)) then
        let+ value := bytesAt frame start tlv_len in
        if bool_decide (value = take (Z.to_nat tlv_len) (bytesOf (goCbRef info)))
        then Returns (Some idx)
        else matchRef frame start tlv_len rest (S idx) goIdx
      else matchRef frame start tlv_len rest (S idx) goIdx
  end.

(** The first [while]: over the TLVs of the PDU up to the one of tag 0xab;
    an error message, or [j] and [goIdx] when the loop is left. *)
Fixpoint walkTlvs (fuel : nat) (frame : list Z) (frameSize i length : Z)
    (infos : list Goose_info) (j : Z) (goIdx : option nat)
    : Run (string + Z * option nat) :=
  if negb (j <? length) then Returns (inr (j, goIdx))
  else
    match fuel with
    | O => OutOfFuel
    | S fuel' =>
        if frameSize <=? i + j + 1 then Returns (inl "TLV truncated")
        else
          let+ tag := byteAt frame (i + j) in
          let+ tlv_len := byteAt frame (i + j + 1) in
          if frameSize <? i + j + 2 + tlv_len then
            Returns (inl "TLV data exceeds frame")
          else
            let+ goIdx' :=
              (if tag =? 0x80 then matchRef frame (i + j + 2) tlv_len infos 0 goIdx
               else Returns goIdx) in
            if tag =? 0xab then Returns (inr (j, goIdx'))
            else walkTlvs fuel' frame frameSize i length infos (j + (tlv_len + 2)) goIdx'
    end.

(** The second [while]: one entry of [boolDat] per TLV of [allData]. *)
Fixpoint readBooleans (fuel : nat) (frame : list Z) (frameSize i length : Z)
    (j : Z) (boolDat : list Z) : Run (list Z) :=
  if negb (j <? length) then Returns boolDat
  else
    match fuel with
    | O => OutOfFuel
    | S fuel' =>
        if frameSize <=? i + j + 1 then Returns boolDat
        else
          let+ tag := byteAt frame (i + j) in
          let+ tlv_len := byteAt frame (i + j + 1) in
          if frameSize <? i + j + 2 + tlv_len then Returns boolDat
          else
            let+ b := (if tag =? 0x83 then byteAt frame (i + j + 2) else Returns 0) in
            readBooleans fuel' frame frameSize i length (j + (tlv_len + 2))
              (boolDat ++ [b])
    end.

Definition vectorAt (v : list Z) (k : nat) : Run Z :=
  match v !! k with
  | Some x => Returns x
  | None => OutOfBounds
  end.

(** The [for] over the input pairs of the subscription: an error message
    when the function returns from inside it, and the digital inputs. *)
Fixpoint storeInputs (inputs : list (list Z)) (boolDat : list Z)
    (digital : list Z) : Run (option string * list Z) :=
  match inputs with
  | [] => Returns (None, digital)
  | dat :: rest =>
      let+ d0 := vectorAt dat 0 in
      if Z.of_nat (length boolDat) <=? d0 then
        Returns (Some "Data index out of range", digital)
      else
        let+ d1 := vectorAt dat 1 in
        if Z.of_nat (length boolDat) <=? d1 then
          Returns (Some "GOOSE data index out of range", digital)
        else
          let+ b := vectorAt boolDat (Z.to_nat d1) in
          if Z.of_nat (length digital) <=? d0 then OutOfBounds
          else storeInputs rest boolDat (<[Z.to_nat d0 := b]> digital)
  end.

(** The function from [boolDat] on, for the subscription of index [goIdx]:
    the digital inputs, then the trip rules. *)
Definition deliver (stod : string -> result float) (now : Z) (goIdx : nat)
    (boolDat : list Z) (sn : Sniffer) (tripFlag : bool)
    : Run (Outcome * Sniffer * bool) :=
  match goInfo sn !! goIdx with
  | None => OutOfBounds
  | Some info =>
      let+ stored := storeInputs (input info) boolDat (digitalInput sn) in
      let sn1 := {| digitalInput := snd stored; goInfo := goInfo sn;
                    tripEvaluator := tripEvaluator sn |} in
      match fst stored with
      | Some message => Returns (ParseError message, sn1, tripFlag)
      | None =>
          match tripEvaluator sn with
          | None => Returns (Received, sn1, tripFlag)
          | Some ev =>
              let out := evaluateGoose stod (goCbRef info) boolDat now ev tripFlag in
              Returns (Received,
                       {| digitalInput := snd stored; goInfo := goInfo sn;
                          tripEvaluator := Some (fst out) |},
                       snd out)
          end
      end
  end.

(** The PDU length after the tag: two bytes after 0x82, one after 0x81, the
    byte itself otherwise; with it the position of the first TLV. *)
Definition readLength (frame : list Z) (frameSize i : Z)
    : Run (string + Z * Z) :=
  let+ first := byteAt frame (i + 11) in
  if first =? 0x82 then
    if frameSize <? i + 14 then Returns (inl "Truncated 0x82 length field")
    else
      let+ hi := byteAt frame (i + 12) in
      let+ lo := byteAt frame (i + 13) in
      Returns (inr (u16 (Z.lor (Z.shiftl hi 8) lo), i + 14))
  else if first =? 0x81 then
    if frameSize <? i + 13 then Returns (inl "Truncated 0x81 length field")
    else
      let+ len := byteAt frame (i + 12) in
      Returns (inr (len, i + 13))
  else Returns (inr (first, i + 12)).

(** [process_GOOSE_packet], for the call [process_pkt] makes, with [i] at
    the EtherType: how the function is left, the sniffer and the global
    trip flag afterwards.  The loops run at most once per byte of the
    length they are given. *)
Definition process_GOOSE_packet (stod : string -> result float) (now : Z)
    (frame : list Z) (frameSize i : Z) (sn : Sniffer) (tripFlag : bool)
    : Run (Outcome * Sniffer * bool) :=
  if frameSize <? i + 14 then Returns (ParseError "Truncated header", sn, tripFlag)
  else
    let+ header := readLength frame frameSize i in
    match header with
    | inl message => Returns (ParseError message, sn, tripFlag)
    | inr (length, i1) =>
        if frameSize <? i1 + length then
          Returns (ParseError "PDU length exceeds frame size", sn, tripFlag)
        else
          let+ walked :=
            walkTlvs (Z.to_nat length) frame frameSize i1 length (goInfo sn) 0 None in
          match walked with
          | inl message => Returns (ParseError message, sn, tripFlag)
          | inr (_, None) => Returns (Unmatched, sn, tripFlag)
          | inr (j, Some goIdx) =>
              let i2 := i1 + j in
              if frameSize <=? i2 + 1 then
                Returns (ParseError "allData truncated", sn, tripFlag)
              else
                let+ length2 := byteAt frame (i2 + 1) in
                if frameSize <? i2 + length2 then
                  Returns (ParseError "allData length exceeds frame", sn, tripFlag)
                else
                  let+ boolDat :=
                    readBooleans (Z.to_nat length2) frame frameSize i2 length2 2 [] in
                  deliver stod now goIdx boolDat sn tripFlag
          end
    end.

End SnifferGoose.

(** ** Sequence engine (sequence/src/sequence_engine.cpp) *)

Module SequenceEngine.
Import CStd.

Inductive TransitionType : Type := TIME | GOOSE_TRIP.

Record ChannelPhasor : Type := { mag : float; angleDeg : float }.

Record StreamPhasorState : Type := {
  freq : float;
  channels : list (string * ChannelPhasor)
}.

Record SequenceState : Type := {
  name : string;
  durationSec : float;
  transition : TransitionType;
  phasors : list (string * StreamPhasorState)
}.

Record Sequence : Type := {
  activeStreams : list string;
  states : list SequenceState
}.

Inductive SequenceStatus : Type :=
| IDLE | RUNNING | PAUSED | COMPLETED | STOPPED | ERROR.

(** Why [waitForTransition] returned [true]: the three places where it
    does so, each marked in the source by a log line. *)
Inductive Cause : Type :=
| DurationExpired (elapsedNs durationNs : Z)
| TripDetected
| TripTimeout (elapsedNs durationNs : Z).

(** What the sequence thread does that another thread or a callback can
    see.  [PhasorUpdate] and [Transition] carry the index of the state the
    thread is executing; the callback itself receives the stream id and the
    phasor state only. *)
Inductive Event : Type :=
| StoreIndex (i : Z)
| StoreStatus (s : SequenceStatus)
| Progress (currentState totalStates : nat) (stateName : string)
    (elapsed : float) (message : string)
| PhasorUpdate (stateIndex : nat) (streamId : string) (st : StreamPhasorState)
| ClearTrip
| Sleep (ms : Z)
| Transition (stateIndex : nat) (cause : Cause).

(** What the thread reads from outside, by the number of the reading: the
    two request flags, whether the sniffer raised the trip flag since the
    reading before, the steady clock in nanoseconds, and whether a callback
    invoked at that point throws. *)
Record Env : Type := {
  stopRequested : nat -> bool;
  pauseRequested : nat -> bool;
  tripRaised : nat -> bool;
  clock : nat -> Z;
  phasorCallbackThrows : nat -> bool;
  progressCallbackThrows : nat -> bool
}.

(** The engine as the thread finds it. *)
Record Engine : Type := {
  sequence_ : Sequence;
  hasProgressCallback : bool;
  hasPhasorCallback : bool
}.

(** The thread's view: the number of readings made, the global trip flag,
    the members it writes, and the events so far, oldest first. *)
Record Thread : Type := {
  readings : nat;
  tripFlag : bool;
  currentStateIndex_ : Z;
  status_ : SequenceStatus;
  sequenceStartTime_ : Z;
  stateStartTime_ : Z;
  lastError_ : string;
  trace : list Event
}.

Inductive Res (A : Type) : Type :=
| Done (a : A)
| Raised (what : string)
| Undef
| OutOfFuel.
Arguments Done {A} a.
Arguments Raised {A} what.
Arguments Undef {A}.
Arguments OutOfFuel {A}.

Definition M (A : Type) : Type := Thread -> Res A * Thread.

Definition ret {A} (a : A) : M A := fun th => (Done a, th).
Definition bind {A B} (m : M A) (k : A -> M B) : M B :=
  fun th =>
    match m th with
    | (Done a, th') => k a th'
    | (Raised w, th') => (Raised w, th')
    | (Undef, th') => (Undef, th')
    | (OutOfFuel, th') => (OutOfFuel, th')
    end.
Definition raise {A} (w : string) : M A := fun th => (Raised w, th).
Definition undef {A} : M A := fun th => (Undef, th).
Definition outOfFuel {A} : M A := fun th => (OutOfFuel, th).

Notation "'let*' x := m 'in' k" := (bind m (fun x => k))
  (at level 10, x name, m at level 100, k at level 200, only parsing).
Notation "m >> k" := (bind m (fun _ => k))
  (at level 100, k at level 200, right associativity, only parsing).

Definition emit (e : Event) : M unit := fun th =>
  (Done tt,
   {| readings := readings th; tripFlag := tripFlag th;
      currentStateIndex_ := currentStateIndex_ th; status_ := status_ th;
      sequenceStartTime_ := sequenceStartTime_ th;
      stateStartTime_ := stateStartTime_ th; lastError_ := lastError_ th;
      trace := trace th ++ [e] |}).

Section Thread.
Context (env : Env) (engine : Engine).

(** One reading: its number; the sniffer may have raised the trip flag. *)
Definition reading : M nat := fun th =>
  (Done (readings th),
   {| readings := S (readings th);
      tripFlag := tripFlag th || tripRaised env (readings th);
      currentStateIndex_ := currentStateIndex_ th; status_ := status_ th;
      sequenceStartTime_ := sequenceStartTime_ th;
      stateStartTime_ := stateStartTime_ th; lastError_ := lastError_ th;
      trace := trace th |}).

Definition loadStop : M bool := let* n := reading in ret (stopRequested env n).
Definition loadPause : M bool := let* n := reading in ret (pauseRequested env n).
Definition now : M Z := let* n := reading in ret (clock env n).
Definition sleep_for (ms : Z) : M unit := reading >> emit (Sleep ms).

Definition isTripFlagSet : M bool :=
  reading >> fun th => (Done (tripFlag th), th).

Definition clearTripFlag : M unit :=
  reading >>
  (fun th =>
     (Done tt,
      {| readings := readings th; tripFlag := false;
         currentStateIndex_ := currentStateIndex_ th; status_ := status_ th;
         sequenceStartTime_ := sequenceStartTime_ th;
         stateStartTime_ := stateStartTime_ th; lastError_ := lastError_ th;
         trace := trace th |})) >>
  emit ClearTrip.

Definition storeIndex (i : Z) : M unit :=
  (fun th =>
     (Done tt,
      {| readings := readings th; tripFlag := tripFlag th;
         currentStateIndex_ := i; status_ := status_ th;
         sequenceStartTime_ := sequenceStartTime_ th;
         stateStartTime_ := stateStartTime_ th; lastError_ := lastError_ th;
         trace := trace th |})) >>
  emit (StoreIndex i).

Definition storeStatus (s : SequenceStatus) : M unit :=
  (fun th =>
     (Done tt,
      {| readings := readings th; tripFlag := tripFlag th;
         currentStateIndex_ := currentStateIndex_ th; status_ := s;
         sequenceStartTime_ := sequenceStartTime_ th;
         stateStartTime_ := stateStartTime_ th; lastError_ := lastError_ th;
         trace := trace th |})) >>
  emit (StoreStatus s).

Definition setSequenceStart (t : Z) : M unit := fun th =>
  (Done tt,
   {| readings := readings th; tripFlag := tripFlag th;
      currentStateIndex_ := currentStateIndex_ th; status_ := status_ th;
      sequenceStartTime_ := t;
      stateStartTime_ := stateStartTime_ th; lastError_ := lastError_ th;
      trace := trace th |}).

Definition setStateStart (t : Z) : M unit := fun th =>
  (Done tt,
   {| readings := readings th; tripFlag := tripFlag th;
      currentStateIndex_ := currentStateIndex_ th; status_ := status_ th;
      sequenceStartTime_ := sequenceStartTime_ th;
      stateStartTime_ := t; lastError_ := lastError_ th;
      trace := trace th |}).

Definition setError (msg : string) : M unit := fun th =>
  (Done tt,
   {| readings := readings th; tripFlag := tripFlag th;
      currentStateIndex_ := currentStateIndex_ th; status_ := status_ th;
      sequenceStartTime_ := sequenceStartTime_ th;
      stateStartTime_ := stateStartTime_ th; lastError_ := msg;
      trace := trace th |}).

Definition get {A} (f : Thread -> A) : M A := fun th => (Done (f th), th).

Definition totalStates : nat := length (states (sequence_ engine)).

(** [getTotalElapsedTime]: microseconds since the start, as seconds. *)
Definition getTotalElapsedTime : M float :=
  let* st := get status_ in
  match st with
  | IDLE => ret 0%float
  | _ =>
      let* t := now in
      let* start := get sequenceStartTime_ in
      ret (Double.of_Z (Z.quot (i64 (t - start)) 1000) / 1000000)%float
  end.

(** [reportProgress]. *)
Definition reportProgress (message : string) : M unit :=
  if hasProgressCallback engine then
    let* stateIdx := get currentStateIndex_ in
    let currentState := if 0 <=? stateIdx then Z.to_nat stateIdx else 0%nat in
    let stateName :=
      if (0 <=? stateIdx) && (stateIdx <? Z.of_nat totalStates) then
        match states (sequence_ engine) !! currentState with
        | Some st => name st
        | None => EmptyString
        end
      else EmptyString in
    let* elapsed := getTotalElapsedTime in
    let* n := reading in
    emit (Progress currentState totalStates stateName elapsed message) >>
    if progressCallbackThrows env n then raise "progress callback" else ret tt
  else ret tt.

Fixpoint findPhasors (streamId : string) (m : list (string * StreamPhasorState))
    : option StreamPhasorState :=
  match m with
  | [] => None
  | (k, v) :: rest => if String.eqb k streamId then Some v else findPhasors streamId rest
  end.

(** The loop of [applyState] over the active streams still to serve. *)
Fixpoint applyStreams (i : nat) (state : SequenceState) (streams : list string)
    : M unit :=
  match streams with
  | [] => ret tt
  | streamId :: rest =>
      match findPhasors streamId (phasors state) with
      | Some st =>
          let* n := reading in
          emit (PhasorUpdate i streamId st) >>
          (if phasorCallbackThrows env n then raise "phasor callback" else ret tt) >>
          applyStreams i state rest
      | None => applyStreams i state rest
      end
  end.

(** [applyState], for the state of index [i]. *)
Definition applyState (i : nat) (state : SequenceState) : M unit :=
  if negb (hasPhasorCallback engine) then ret tt
  else applyStreams i state (activeStreams (sequence_ engine)).

(** [while (pauseRequested_.load()) { sleep 100 ms; if (stopRequested_.load())
    ... }]: [true] when the stop request was seen. *)
Fixpoint pausedLoop (fuel : nat) : M bool :=
  match fuel with
  | O => outOfFuel
  | S fuel' =>
      let* paused := loadPause in
      if paused then
        sleep_for 100 >>
        let* stop := loadStop in
        if stop then ret true else pausedLoop fuel'
      else ret false
  end.

(** [static_cast<int64_t>(state.durationSec * 1000000.0)]. *)
Definition durationMicros (state : SequenceState) : option Z :=
  match Double.truncate (durationSec state * 1000000)%float with
  | Some us =>
      if (us <? - 9223372036854775808) || (9223372036854775807 <? us) then None
      else Some us
  | None => None
  end.

(** The [while (true)] of a time transition.  [elapsed >= stateDuration]
    compares nanoseconds with microseconds: [stateDuration] is converted to
    nanoseconds, its count times 1000 in 64 bits. *)
Fixpoint timeLoop (fuel : nat) (i : nat) (stateStart stateDuration : Z) : M bool :=
  match fuel with
  | O => outOfFuel
  | S fuel' =>
      let* stop := loadStop in
      if stop then ret false
      else
        let* stopped := pausedLoop fuel' in
        if stopped then ret false
        else
          let* t := now in
          let elapsed := i64 (t - stateStart) in
          let duration := i64 (stateDuration * 1000) in
          if duration <=? elapsed then
            emit (Transition i (DurationExpired elapsed duration)) >> ret true
          else
            sleep_for 50 >> timeLoop fuel' i stateStart stateDuration
  end.

(** The [while (true)] of a GOOSE trip transition. *)
Fixpoint tripLoop (fuel : nat) (i : nat) (stateStart stateDuration : Z) : M bool :=
  match fuel with
  | O => outOfFuel
  | S fuel' =>
      let* stop := loadStop in
      if stop then ret false
      else
        let* stopped := pausedLoop fuel' in
        if stopped then ret false
        else
          let* trip := isTripFlagSet in
          if trip then
            emit (Transition i TripDetected) >> clearTripFlag >> ret true
          else
            let* t := now in
            let elapsed := i64 (t - stateStart) in
            let duration := i64 (stateDuration * 1000) in
            if duration <=? elapsed then
              emit (Transition i (TripTimeout elapsed duration)) >> ret true
            else
              sleep_for 50 >> tripLoop fuel' i stateStart stateDuration
  end.

(** [waitForTransition], for the state of index [i]. *)
Definition waitForTransition (fuel : nat) (i : nat) (state : SequenceState) : M bool :=
  let* stateStart := now in
  match durationMicros state with
  | None => undef
  | Some stateDuration =>
      match transition state with
      | TIME => timeLoop fuel i stateStart stateDuration
      | GOOSE_TRIP =>
          clearTripFlag >> tripLoop fuel i stateStart stateDuration
      end
  end.

(** The [for] loop of [sequenceThread] from index [i] on; [rest] are the
    states from [i] on. *)
Fixpoint statesLoop (fuel : nat) (i : nat) (rest : list SequenceState) : M unit :=
  match rest with
  | [] =>
      storeIndex (-1) >>
      storeStatus COMPLETED >>
      reportProgress "Sequence completed successfully"
  | state :: rest' =>
      let* stop := loadStop in
      if stop then
        reportProgress "Sequence stopped by user" >> storeStatus STOPPED
      else
        let* stopped := pausedLoop fuel in
        if stopped then
          reportProgress "Sequence stopped while paused" >> storeStatus STOPPED
        else
          storeIndex (Z.of_nat i) >>
          let* t := now in
          setStateStart t >>
          reportProgress
            ("Entering state " ++ to_string (i + 1) ++ "/" ++ to_string totalStates
             ++ ": " ++ name state) >>
          applyState i state >>
          let* transitionOccurred := waitForTransition fuel i state in
          let* stopNow := (if transitionOccurred then ret false else loadStop) in
          if stopNow then
            reportProgress "Sequence stopped during state execution" >>
            storeStatus STOPPED
          else statesLoop fuel (i + 1) rest'
  end.

(** [sequenceThread]: the loop inside [try], and the handler. *)
Definition sequenceThread (fuel : nat) : M unit := fun th =>
  match (let* t := now in setSequenceStart t >>
         statesLoop fuel 0 (states (sequence_ engine))) th with
  | (Raised w, th') =>
      (setError ("Sequence error: " ++ w) >>
       storeStatus ERROR >>
       reportProgress ("Sequence error: " ++ w)) th'
  | other => other
  end.

(** The thread as [start] launches it: index -1, status RUNNING, trip flag
    cleared. *)
Definition initialThread : Thread :=
  {| readings := 0; tripFlag := false; currentStateIndex_ := -1;
     status_ := RUNNING; sequenceStartTime_ := 0; stateStartTime_ := 0;
     lastError_ := EmptyString; trace := [] |}.

(** [start], from the status it finds, and the run of the thread it
    launches: [None] when the sequence is refused. *)
Definition start (fuel : nat) (currentStatus : SequenceStatus)
    : option (Res unit * Thread) :=
  match currentStatus with
  | RUNNING | PAUSED => None
  | _ =>
      match states (sequence_ engine), activeStreams (sequence_ engine) with
      | [], _ => None
      | _, [] => None
      | _, _ => Some (sequenceThread fuel initialThread)
      end
  end.

End Thread.

End SequenceEngine.

(** ** Differential tester (testers/src/differential_tester.cpp) *)

Module DifferentialTester.

Module Point.
Record DifferentialPoint : Type := {
  Ir : float;
  Id : float;
  expectedTime : float;
  label : string
}.
End Point.

Module Result.
Record DifferentialResult : Type := {
  Ir : float;
  Id : float;
  Is1 : float;
  Is2 : float;
  tripped : bool;
  tripTime : float;
  expectedTime : float;
  passed : bool;
  error : string
}.
End Result.

Record DifferentialTestConfig : Type := {
  points : list Point.DifferentialPoint;
  timeTolerance : float;
  maxTestDuration : float;
  stopOnFirstFailure : bool;
  stream1Id : string;
  stream2Id : string
}.

(** [calculateSideCurrents]: the outputs [Is1] and [Is2]. *)
Definition calculateSideCurrents (Ir Id : float) : float * float :=
  ((Ir + Id / 2)%float, (- (Ir - Id / 2))%float).

(** The calls the tester makes on what the caller supplied. *)
Inductive Event : Type :=
| SetSide1 (current : float)
| SetSide2 (current : float)
| GetTrip (value : bool)
| Sleep (ms : Z).

(** What the tester reads from outside, by the number of the reading: the
    trip flag getter, the steady clock in nanoseconds, [stopRequested_],
    which [stop] sets from another thread, and the exception a setter
    invoked at that point throws, if it does. *)
Record Env : Type := {
  tripFlagGetter : nat -> bool;
  clock : nat -> Z;
  stopRequested : nat -> bool;
  setterThrows : nat -> option string
}.

Record Run : Type := { readings : nat; trace : list Event }.

Inductive Res (A : Type) : Type :=
| Done (a : A)
| Raised (what : string)
| Undef
| OutOfFuel.
Arguments Done {A} a.
Arguments Raised {A} what.
Arguments Undef {A}.
Arguments OutOfFuel {A}.

Definition next (e : list Event) (st : Run) : Run :=
  {| readings := S (readings st); trace := trace st ++ e |}.

Section Tester.
Context (env : Env).

(** [static_cast<long long>(maxDuration * 1000.0)], in milliseconds. *)
Definition durationMillis (maxDuration : float) : option Z :=
  match Double.truncate (maxDuration * 1000)%float with
  | Some ms =>
      if (ms <? - 9223372036854775808) || (9223372036854775807 <? ms) then None
      else Some ms
  | None => None
  end.

(** The [while] of [monitorTrip]: tripped or not, and the trip time. *)
Fixpoint monitorLoop (fuel : nat) (start finish : Z) (initialTripState : bool)
    (st : Run) : Res (bool * float) * Run :=
  match fuel with
  | O => (OutOfFuel, st)
  | S fuel' =>
      let t := clock env (readings st) in
      let st1 := next [] st in
      if negb (t <? finish) then (Done (false, 0%float), st1)
      else
        let stop := stopRequested env (readings st1) in
        let st2 := next [] st1 in
        if stop then (Done (false, 0%float), st2)
        else
          let currentTripState := tripFlagGetter env (readings st2) in
          let st3 := next [GetTrip currentTripState] st2 in
          if negb initialTripState && currentTripState then
            let t' := clock env (readings st3) in
            (Done (true, (Double.of_Z (i64 (t' - start)) / 1000000000)%float),
             next [] st3)
          else monitorLoop fuel' start finish initialTripState (next [Sleep 1] st3)
  end.

(** [monitorTrip]; the trip time is left at what the caller set, 0, when no
    trip is seen.  [start + maxDurationMs] is a time point in nanoseconds:
    the milliseconds are converted, their count times 1000000, and added,
    both in 64 bits. *)
Definition monitorTrip (fuel : nat) (maxDuration : float) (st : Run)
    : Res (bool * float) * Run :=
  let start := clock env (readings st) in
  let st1 := next [] st in
  match durationMillis maxDuration with
  | None => (Undef, st1)
  | Some ms =>
      let finish := i64 (start + i64 (ms * 1000000)) in
      let initialTripState := tripFlagGetter env (readings st1) in
      monitorLoop fuel start finish initialTripState
        (next [GetTrip initialTripState] st1)
  end.

(** A call of a side setter. *)
Definition callSetter (e : Event) (st : Run) : Res unit * Run :=
  match setterThrows env (readings st) with
  | Some w => (Raised w, next [e] st)
  | None => (Done tt, next [e] st)
  end.

(** The body of the [try] of [testPoint], from the side currents on. *)
Definition testPointBody (fuel : nat) (point : Point.DifferentialPoint)
    (config : DifferentialTestConfig) (Is1 Is2 : float) (st : Run)
    : Res Result.DifferentialResult * Run :=
  let result tripped tripTime passed error :=
    {| Result.Ir := Point.Ir point; Result.Id := Point.Id point;
       Result.Is1 := Is1; Result.Is2 := Is2;
       Result.tripped := tripped; Result.tripTime := tripTime;
       Result.expectedTime := Point.expectedTime point;
       Result.passed := passed; Result.error := error |} in
  match callSetter (SetSide1 Is1) st with
  | (Done _, st1) =>
      match callSetter (SetSide2 Is2) st1 with
      | (Done _, st2) =>
          match monitorTrip fuel (maxTestDuration config) st2 with
          | (Done (tripped, tripTime), st3) =>
              if PrimFloat.eqb (Point.expectedTime point) 0 then
                let passed := tripped && PrimFloat.ltb tripTime (timeTolerance config) in
                (Done (result tripped tripTime passed
                         (if negb passed && tripped
                          then "Trip time too slow for instantaneous operation"
                          else EmptyString)),
                 st3)
              else if tripped then
                let timeDiff := abs (tripTime - Point.expectedTime point) in
                let passed := PrimFloat.leb timeDiff (timeTolerance config) in
                (Done (result tripped tripTime passed
                         (if negb passed then "Trip time outside tolerance"
                          else EmptyString)),
                 st3)
              else
                (Done (result tripped tripTime false
                         "Relay did not trip within max test duration"),
                 st3)
          | (Raised w, st3) => (Raised w, st3)
          | (Undef, st3) => (Undef, st3)
          | (OutOfFuel, st3) => (OutOfFuel, st3)
          end
      | (Raised w, st2) => (Raised w, st2)
      | (Undef, st2) => (Undef, st2)
      | (OutOfFuel, st2) => (OutOfFuel, st2)
      end
  | (Raised w, st1) => (Raised w, st1)
  | (Undef, st1) => (Undef, st1)
  | (OutOfFuel, st1) => (OutOfFuel, st1)
  end.

(** [testPoint]: an exception of the body ends in the [catch], which
    reports it in the result. *)
Definition testPoint (fuel : nat) (point : Point.DifferentialPoint)
    (config : DifferentialTestConfig) (st : Run)
    : Res Result.DifferentialResult * Run :=
  let '(Is1, Is2) := calculateSideCurrents (Point.Ir point) (Point.Id point) in
  match testPointBody fuel point config Is1 Is2 st with
  | (Raised w, st') =>
      (Done {| Result.Ir := Point.Ir point; Result.Id := Point.Id point;
               Result.Is1 := Is1; Result.Is2 := Is2;
               Result.tripped := false; Result.tripTime := 0;
               Result.expectedTime := Point.expectedTime point;
               Result.passed := false;
               Result.error := "Exception: " ++ w |},
       st')
  | other => other
  end.

End Tester.

(** *** [DifferentialTester::run], as the HTTP handler calls it: with the
    default [progressCallback], which is empty. *)

(** The members of the tester that [run] tests and writes: [running_], and
    whether each of the three [std::function] members holds a callable. *)
Record Tester : Type := {
  running_ : bool;
  tripFlagGetter_ : bool;
  side1CurrentSetter_ : bool;
  side2CurrentSetter_ : bool
}.

Definition set_running (b : bool) (t : Tester) : Tester :=
  {| running_ := b; tripFlagGetter_ := tripFlagGetter_ t;
     side1CurrentSetter_ := side1CurrentSetter_ t;
     side2CurrentSetter_ := side2CurrentSetter_ t |}.

Section Run.
Context (env : Env).
(** An [errorResult] is declared without an initialiser: its numbers and
    [tripped] hold whatever the memory held. *)
Context (indeterminate : Result.DifferentialResult).

Definition errorResult (msg : string) : Result.DifferentialResult :=
  {| Result.Ir := Result.Ir indeterminate; Result.Id := Result.Id indeterminate;
     Result.Is1 := Result.Is1 indeterminate; Result.Is2 := Result.Is2 indeterminate;
     Result.tripped := Result.tripped indeterminate;
     Result.tripTime := Result.tripTime indeterminate;
     Result.expectedTime := Result.expectedTime indeterminate;
     Result.passed := false; Result.error := msg |}.

(** The [while] of [waitWithStopCheck]. *)
Fixpoint waitLoop (fuel : nat) (finish : Z) (st : Run) : Res bool * Run :=
  match fuel with
  | O => (OutOfFuel, st)
  | S fuel' =>
      let t := clock env (readings st) in
      let st1 := next [] st in
      if negb (t <? finish) then (Done true, st1)
      else
        let stop := stopRequested env (readings st1) in
        let st2 := next [] st1 in
        if stop then (Done false, st2)
        else waitLoop fuel' finish (next [Sleep 10] st2)
  end.

Definition waitWithStopCheck (fuel : nat) (duration : float) (st : Run)
    : Res bool * Run :=
  match durationMillis duration with
  | None => (Undef, st)
  | Some ms =>
      let start := clock env (readings st) in
      waitLoop fuel (i64 (start + i64 (ms * 1000000))) (next [] st)
  end.

(** The [for] of [run] over the points still to test; [results] holds the
    results pushed so far.  [stopRequested_] is read through the
    environment, so the store of [false] before the loop is not a step. *)
Fixpoint runLoop (fuel : nat) (config : DifferentialTestConfig)
    (remaining : list Point.DifferentialPoint)
    (results : list Result.DifferentialResult) (st : Run)
    : Res (list Result.DifferentialResult) * Run :=
  match remaining with
  | [] => (Done results, st)
  | point :: rest =>
      let stop := stopRequested env (readings st) in
      let st1 := next [] st in
      if stop then (Done (results ++ [errorResult "Test stopped by user"]), st1)
      else
        match testPoint env fuel point config st1 with
        | (Done result, st2) =>
            let results' := results ++ [result] in
            if stopOnFirstFailure config && negb (Result.passed result)
            then (Done results', st2)
            else
              match rest with
              | [] => (Done results', st2)
              | _ :: _ =>
                  match waitWithStopCheck fuel 1 st2 with
                  | (Done _, st3) => runLoop fuel config rest results' st3
                  | (Raised w, st3) => (Raised w, st3)
                  | (Undef, st3) => (Undef, st3)
                  | (OutOfFuel, st3) => (OutOfFuel, st3)
                  end
              end
        | (Raised w, st2) => (Raised w, st2)
        | (Undef, st2) => (Undef, st2)
        | (OutOfFuel, st2) => (OutOfFuel, st2)
        end
  end.

(** [run]: the results, the tester and the calls made. *)
Definition run (fuel : nat) (config : DifferentialTestConfig) (t : Tester)
    (st : Run) : Res (list Result.DifferentialResult) * Tester * Run :=
  if running_ t then (Done [errorResult "Test already running"], t, st)
  else if negb (tripFlagGetter_ t) then
    (Done [errorResult "TRIP_FLAG getter not configured"], t, st)
  else if negb (side1CurrentSetter_ t) || negb (side2CurrentSetter_ t) then
    (Done [errorResult "Side current setters not configured"], t, st)
  else
    match points config with
    | [] => (Done [errorResult "No test points provided"], t, st)
    | _ :: _ =>
        match runLoop fuel config (points config) [] st with
        | (Done results, st') => (Done results, set_running false t, st')
        | (other, st') => (other, set_running true t, st')
        end
    end.

End Run.

End DifferentialTester.

(** ** The side setters the HTTP handler gives the differential tester
    (api/src/http_server.cpp, [handleDifferentialRun]) *)

Module DifferentialHandler.
Import Json SVPublisher SVPublisherManager.

(** The [update] object a side setter builds from the current. *)
Definition currentUpdate (current : float) : json :=
  JObject
    [("current",
      JObject [("A", JObject [("magnitude", JFloat current)]);
               ("B", JObject [("magnitude", JFloat current)]);
               ("C", JObject [("magnitude", JFloat current)])])].

(** The setter of a side whose stream id in the request is [streamId]:
    nothing for an empty id, otherwise [updateStream] with the object. *)
Definition sideCurrentSetter (streams_ : streams) (streamId : string)
    (current : float) : result unit * streams :=
  if String.eqb streamId EmptyString then (Ok tt, streams_)
  else updateStream streams_ streamId (currentUpdate current).

End DifferentialHandler.

(** * Properties *)

(** ** Bytes and bit fields *)

Module BitFacts.

Lemma lor_shiftl_low (hi lo k : Z) :
  0 <= k -> 0 <= lo < 2 ^ k -> Z.lor (Z.shiftl hi k) lo = hi * 2 ^ k + lo.
Proof.
  intros Hk Hlo.
  rewrite Z.shiftl_mul_pow2 by lia.
  rewrite <- Z.add_nocarry_lor; [reflexivity|].
  apply Z.bits_inj'. intros n Hn.
  rewrite Z.land_spec, Z.bits_0.
  destruct (Z.lt_ge_cases n k) as [Hlt|Hge].
  - rewrite Z.mul_pow2_bits_low by lia. reflexivity.
  - rewrite <- (Z.mod_small lo (2 ^ k)) by lia.
    rewrite Z.mod_pow2_bits_high by lia. apply andb_false_r.
Qed.

Lemma land_0xFF (x : Z) : Z.land x 0xFF = x mod 256.
Proof. change 0xFF with (Z.ones 8). rewrite Z.land_ones by lia. reflexivity. Qed.

Lemma shiftr_8 (x : Z) : Z.shiftr x 8 = x / 256.
Proof. rewrite Z.shiftr_div_pow2 by lia. reflexivity. Qed.

Definition isByte (b : Z) : Prop := 0 <= b < 256.

(** A result that fits 64 bits is kept. *)
Lemma i64_fits (z : Z) :
  - 9223372036854775808 <= z < 9223372036854775808 -> i64 z = z.
Proof. intros H. unfold i64. rewrite Z.mod_small by lia. lia. Qed.

Lemma i64_range (z : Z) : - 9223372036854775808 <= i64 z < 9223372036854775808.
Proof.
  unfold i64.
  pose proof (Z.mod_pos_bound (z + 9223372036854775808) 18446744073709551616
                ltac:(lia)).
  lia.
Qed.

(** A wrap of a result that is not below the least value gives less. *)
Lemma i64_le (z : Z) : - 9223372036854775808 <= z -> i64 z <= z.
Proof.
  intros H. unfold i64.
  pose proof (Z.mod_le (z + 9223372036854775808) 18446744073709551616
                ltac:(lia) ltac:(lia)).
  lia.
Qed.

End BitFacts.

Module BERProps.
Import BER.

Lemma split_hi_lo (L : Z) :
  0 <= L <= 65535 ->
  u8 (Z.land (Z.shiftr L 8) 0xFF) = L / 256 /\ u8 (Z.land L 0xFF) = L mod 256.
Proof.
  intros HL. unfold u8.
  change 0xFF with (Z.ones 8).
  rewrite !Z.land_ones by lia. rewrite Z.shiftr_div_pow2 by lia.
  change (2 ^ 8) with 256.
  rewrite !Z.mod_mod by lia.
  split; [|reflexivity].
  apply Z.mod_small. split; [apply Z.div_pos; lia|].
  apply Z.div_lt_upper_bound; lia.
Qed.

Lemma join_hi_lo (L : Z) :
  0 <= L <= 65535 -> Z.lor (Z.shiftl (L / 256) 8) (L mod 256) = L.
Proof.
  intros HL.
  rewrite Z.shiftl_mul_pow2 by lia. change (2 ^ 8) with 256.
  rewrite <- Z.add_nocarry_lor.
  - rewrite (Z.div_mod L 256) at 3 by lia. lia.
  - change 256 with (2 ^ 8). rewrite <- Z.shiftl_mul_pow2 by lia.
    rewrite <- Z.land_ones by lia.
    apply Z.bits_inj'. intros n Hn.
    rewrite Z.land_spec, Z.bits_0, Z.land_spec.
    destruct (Z.lt_ge_cases n 8).
    + rewrite Z.shiftl_spec_low by lia. reflexivity.
    + rewrite Z.ones_spec_high by lia. rewrite !andb_false_r. reflexivity.
Qed.

(** C1. Every length up to 65535 is encoded in the short form (one byte)
    exactly when it is at most 127, as [0x81 L] exactly when it is in
    128..255 and as [0x82 Hi Lo] exactly when it is in 256..65535; the
    sniffer's length read gives the length back and consumes the whole
    encoding; a length of 65536 or more is refused. *)
Theorem encodeBERLength_spec (L : Z) :
  0 <= L ->
  (L <= 65535 ->
   exists bs,
     encodeBERLength L = Ok bs /\
     (length bs = 1%nat <-> L <= 127) /\
     (length bs = 2%nat <-> 128 <= L <= 255) /\
     (length bs = 3%nat <-> 256 <= L <= 65535) /\
     (L <= 127 -> bs = [L]) /\
     (128 <= L <= 255 -> bs = [0x81; L]) /\
     (256 <= L -> bs = [0x82; L / 256; L mod 256]) /\
     parseBERLength bs 0 = Some (L, length bs)) /\
  (65536 <= L -> exists e, encodeBERLength L = Err e).
Proof.
  intros H0. split.
  - intros H1. unfold encodeBERLength.
    destruct (Z.leb_spec L 127) as [Hs|Hs].
    { exists [u8 L]. unfold u8. rewrite Z.mod_small by lia.
      repeat split; intros; simpl in *; try lia; try reflexivity.
      unfold parseBERLength. simpl.
      destruct (Z.eqb_spec L 0x82); [lia|].
      destruct (Z.eqb_spec L 0x81); [lia|]. reflexivity. }
    destruct (Z.leb_spec L 255) as [Hm|Hm].
    { exists [0x81; u8 L]. unfold u8. rewrite Z.mod_small by lia.
      repeat split; intros; simpl in *; try lia; reflexivity. }
    destruct (Z.leb_spec L 65535) as [Hl|Hl]; [|lia].
    destruct (split_hi_lo L ltac:(lia)) as [-> ->].
    exists [0x82; L / 256; L mod 256].
    repeat split; intros; simpl in *; try lia; try reflexivity.
    unfold parseBERLength. simpl. rewrite join_hi_lo by lia. reflexivity.
  - intros H2. unfold encodeBERLength.
    destruct (Z.leb_spec L 127); [lia|].
    destruct (Z.leb_spec L 255); [lia|].
    destruct (Z.leb_spec L 65535); [lia|]. eauto.
Qed.

Lemma encodeBERLength_spec_300 :
  exists bs,
    encodeBERLength 300 = Ok bs /\
    (length bs = 1%nat <-> 300 <= 127) /\
    (length bs = 2%nat <-> 128 <= 300 <= 255) /\
    (length bs = 3%nat <-> 256 <= 300 <= 65535) /\
    (300 <= 127 -> bs = [300]) /\
    (128 <= 300 <= 255 -> bs = [0x81; 300]) /\
    (256 <= 300 -> bs = [0x82; 300 / 256; 300 mod 256]) /\
    parseBERLength bs 0 = Some (300, length bs).
Proof.
  apply (encodeBERLength_spec 300); lia.
Defined.

Lemma lookup_inside {A} (before bs after : list A) (k : nat) :
  (k < length bs)%nat ->
  (before ++ bs ++ after) !! (length before + k)%nat = bs !! k.
Proof.
  intros Hk. rewrite lookup_app_r by lia.
  replace (length before + k - length before)%nat with k by lia.
  apply lookup_app_l. exact Hk.
Qed.

(** X1. The sniffer's length read, at the place of a length field inside a
    frame: whatever bytes come before and after an encoded length, the read
    at its first byte gives the length back and the index of the byte after
    the field. *)
Theorem parseBERLength_inside_frame (L : Z) (bs before after : list Z) :
  0 <= L -> encodeBERLength L = Ok bs ->
  parseBERLength (before ++ bs ++ after) (length before)
  = Some (L, (length before + length bs)%nat).
Proof.
  intros H0 Henc. unfold encodeBERLength in Henc. unfold parseBERLength.
  rewrite <- (Nat.add_0_r (length before)) at 1.
  destruct (Z.leb_spec L 127) as [Hs|Hs].
  { injection Henc as <-. unfold u8. rewrite Z.mod_small by lia.
    rewrite lookup_inside by (simpl; lia). simpl.
    destruct (Z.eqb_spec L 0x82); [lia|].
    destruct (Z.eqb_spec L 0x81); [lia|]. reflexivity. }
  destruct (Z.leb_spec L 255) as [Hm|Hm].
  { injection Henc as <-. unfold u8. rewrite Z.mod_small by lia.
    rewrite !lookup_inside by (simpl; lia). simpl.
    rewrite !length_app. simpl.
    destruct (Nat.ltb_spec (length before + S (S (length after))) (length before + 2));
      [lia | reflexivity]. }
  destruct (Z.leb_spec L 65535) as [Hl|Hl]; [|discriminate].
  injection Henc as <-.
  destruct (split_hi_lo L ltac:(lia)) as [-> ->].
  rewrite !lookup_inside by (simpl; lia). simpl.
  rewrite !length_app. simpl.
  destruct (Nat.ltb_spec (length before + S (S (S (length after)))) (length before + 3));
    [lia|].
  rewrite join_hi_lo by lia. reflexivity.
Qed.

Lemma parseBERLength_inside_frame_demo :
  parseBERLength ([0x88; 0xBA; 0x60] ++ [0x81; 200] ++ [0x80; 0x01; 0x01]) 3
  = Some (200, 5%nat).
Proof.
  apply (parseBERLength_inside_frame 200 [0x81; 200] [0x88; 0xBA; 0x60]
           [0x80; 0x01; 0x01]); [lia | reflexivity].
Defined.

(** X2. The length read stays inside the frame.  At or past the end of the
    frame it fails; when it succeeds on a frame of bytes, the index it
    returns is one, two or three past the index it started at and at most
    the frame size, and the length is below 65536.  A first byte other than
    [0x81] and [0x82] is taken as the length itself, also when it is 128 or
    more. *)
Theorem parseBERLength_within_frame (frame : list Z) (i : nat) :
  Forall BitFacts.isByte frame ->
  ((length frame <= i)%nat -> parseBERLength frame i = None) /\
  (forall L j, parseBERLength frame i = Some (L, j) ->
     (i < j <= i + 3)%nat /\ (j <= length frame)%nat /\ 0 <= L < 65536) /\
  (forall b0, frame !! i = Some b0 -> b0 <> 0x81 -> b0 <> 0x82 ->
     parseBERLength frame i = Some (b0, (i + 1)%nat)).
Proof.
  intros Hbytes.
  assert (Hb : forall k b, frame !! k = Some b -> 0 <= b < 256).
  { intros k b Hk. exact (Forall_lookup_1 _ _ _ _ Hbytes Hk). }
  split; [|split].
  - intros Hi. unfold parseBERLength. rewrite lookup_ge_None_2 by lia. reflexivity.
  - intros L j. unfold parseBERLength.
    destruct (frame !! i) as [b0|] eqn:H0; [|discriminate].
    pose proof (lookup_lt_Some _ _ _ H0) as Hlt0.
    pose proof (Hb _ _ H0) as Hb0.
    destruct (Z.eqb_spec b0 0x82) as [->|Hn82].
    { destruct (Nat.ltb_spec (length frame) (i + 3)); [discriminate|].
      destruct (frame !! (i + 1)%nat) as [b1|] eqn:H1; [|discriminate].
      destruct (frame !! (i + 2)%nat) as [b2|] eqn:H2; [|discriminate].
      intros [= <- <-].
      pose proof (Hb _ _ H1) as Hb1. pose proof (Hb _ _ H2) as Hb2.
      rewrite BitFacts.lor_shiftl_low by lia. change (2 ^ 8) with 256. lia. }
    destruct (Z.eqb_spec b0 0x81) as [->|Hn81].
    { destruct (Nat.ltb_spec (length frame) (i + 2)); [discriminate|].
      destruct (frame !! (i + 1)%nat) as [b1|] eqn:H1; [|discriminate].
      intros [= <- <-]. pose proof (Hb _ _ H1) as Hb1. lia. }
    intros [= <- <-]. lia.
  - intros b0 H0 Hn81 Hn82. unfold parseBERLength. rewrite H0.
    destruct (Z.eqb_spec b0 0x82); [contradiction|].
    destruct (Z.eqb_spec b0 0x81); [contradiction|]. reflexivity.
Qed.

Lemma parseBERLength_within_frame_demo :
  parseBERLength [0x60; 0x82; 0x01] 1 = None /\
  parseBERLength [0x60; 0x83; 0x01] 1 = Some (0x83, 2%nat).
Proof.
  destruct (parseBERLength_within_frame [0x60; 0x82; 0x01] 3) as (Hend & _).
  { repeat constructor; unfold BitFacts.isByte; lia. }
  destruct (parseBERLength_within_frame [0x60; 0x83; 0x01] 1) as (_ & _ & Hraw).
  { repeat constructor; unfold BitFacts.isByte; lia. }
  split; [apply Hend; simpl; lia|].
  apply (Hraw 0x83); [reflexivity | lia | lia].
Defined.

End BERProps.

Module EthernetProps.
Import CStd Ethernet.

Example macStrToBytes_multicast :
  macStrToBytes "01:0C:CD:04:00:01" = Ok [1; 12; 205; 4; 0; 1].
Proof. vm_compute. reflexivity. Qed.

Example macStrToBytes_lowercase :
  macStrToBytes "aa:bb:cc:dd:ee:ff" = Ok [170; 187; 204; 221; 238; 255].
Proof. vm_compute. reflexivity. Qed.

Example macStrToBytes_no_digit :
  macStrToBytes "GG:0C:CD:04:00:01"
  = Err (InvalidArgument "Invalid MAC address: non-hex digit").
Proof. vm_compute. reflexivity. Qed.

Example macStrToBytes_dashes :
  macStrToBytes "01-0C-CD-04-00-01"
  = Err (InvalidArgument "Invalid MAC address: missing colon separator").
Proof. vm_compute. reflexivity. Qed.

Lemma isxdigit_facts (c : ascii) :
  isxdigit c = true ->
  isspace c = false /\ Ascii.eqb c "-" = false /\ Ascii.eqb c "+" = false /\
  exists d, digitIn 16 c = Some d /\ 0 <= d < 16.
Proof.
  destruct c as [b0 b1 b2 b3 b4 b5 b6 b7].
  destruct b0, b1, b2, b3, b4, b5, b6, b7; vm_compute; intros H;
    first [discriminate H
          | split; [reflexivity|]; split; [reflexivity|]; split; [reflexivity|];
            eexists; split; [reflexivity|]; split; [discriminate | reflexivity]].
Qed.

(** [std::stoi] on two hexadecimal digits gives the byte they denote. *)
Lemma stoi_hex_pair (a b : ascii) :
  isxdigit a = true -> isxdigit b = true ->
  stoi 16 (String a (String b EmptyString)) = Ok (hexPair a b) /\
  0 <= hexPair a b < 256.
Proof.
  intros Ha Hb.
  destruct (isxdigit_facts a Ha) as (Hsp & Hm & Hp & da & Hda & Hra).
  destruct (isxdigit_facts b Hb) as (_ & _ & _ & db & Hdb & Hrb).
  unfold stoi, strtolValue, hexPair. simpl.
  rewrite Hsp, Hm, Hp. simpl. rewrite Hda, Hdb. simpl.
  assert (Hv : digitsValue 16 [da; db] = 16 * da + db)
    by (unfold digitsValue; simpl; lia).
  rewrite Hv.
  destruct (Z.ltb_spec (16 * da + db) (-2147483648)); [lia|].
  destruct (Z.ltb_spec 2147483647 (16 * da + db)); [lia|].
  simpl. split; [reflexivity | lia].
Qed.

(** X3. Every string of the shape [XX:XX:XX:XX:XX:XX], with hexadecimal
    digits of either case for the [X], parses, to the six bytes its digit
    pairs denote, in the order of the string. *)
Lemma macStrToBytes_well_formed (mac : string) :
  macShape mac = true -> macStrToBytes mac = Ok (macBytes mac).
Proof.
  unfold macShape. intros H. apply andb_true_iff in H. destruct H as [Hlen Hshape].
  apply Nat.eqb_eq in Hlen.
  do 17 (destruct mac as [|? mac]; [discriminate Hlen|]).
  destruct mac; [|discriminate Hlen]. clear Hlen.
  simpl in Hshape.
  repeat (apply andb_true_iff in Hshape; destruct Hshape as [? Hshape]).
  unfold macStrToBytes, macBytes, parseBytes, parseByteAt, charAt, at_. simpl.
  repeat match goal with
  | H : Ascii.eqb _ ":" = true |- _ => rewrite H; clear H
  end.
  simpl.
  repeat match goal with
  | Ha : isxdigit ?a = true, Hb : isxdigit ?b = true
    |- context [stoi 16 (String ?a (String ?b EmptyString))] =>
      let E := fresh "E" in let R := fresh "R" in
      destruct (stoi_hex_pair a b Ha Hb) as [E R]; rewrite E;
      unfold u8; rewrite (Z.mod_small _ _ R); clear E R
  end.
  reflexivity.
Qed.

Lemma macStrToBytes_well_formed_demo :
  macStrToBytes "01:0c:CD:04:00:fF" = Ok [1; 12; 205; 4; 0; 255].
Proof.
  apply (macStrToBytes_well_formed "01:0c:CD:04:00:fF"). reflexivity.
Defined.

(** What a parse that succeeds says about the string. *)
Lemma parseByteAt_ok (mac : string) (i byteIdx : nat) (b : Z) :
  parseByteAt mac i byteIdx = Some (Ok b) ->
  0 <= b < 256 /\ ((0 < byteIdx)%nat -> at_ mac (i - 1) = Some ":"%char).
Proof.
  unfold parseByteAt.
  destruct (negb (i <? String.length mac)%nat); [discriminate|].
  intros [= H]. revert H.
  destruct (0 <? byteIdx)%nat eqn:Hidx.
  - destruct (at_ mac (i - 1)) as [c|] eqn:Hc; simpl; [|discriminate].
    destruct (Ascii.eqb_spec c ":"%char) as [->|]; simpl; [|discriminate].
    destruct (String.length mac <=? i + 1)%nat; [discriminate|].
    destruct (stoi 16 (String.substring i 2 mac)); [|discriminate].
    intros [= <-]. split; [apply Z.mod_pos_bound; lia | reflexivity].
  - simpl. apply Nat.ltb_ge in Hidx.
    destruct (String.length mac <=? i + 1)%nat; [discriminate|].
    destruct (stoi 16 (String.substring i 2 mac)); [|discriminate].
    intros [= <-]. split; [apply Z.mod_pos_bound; lia | lia].
Qed.

Lemma macStrToBytes_ok_inv (mac : string) (bytes : list Z) :
  macStrToBytes mac = Ok bytes ->
  String.length mac = 17%nat /\
  (forall i, In i [2; 5; 8; 11; 14]%nat -> at_ mac i = Some ":"%char) /\
  length bytes = 6%nat /\ Forall BitFacts.isByte bytes.
Proof.
  unfold macStrToBytes.
  destruct (Nat.eqb_spec (String.length mac) 17) as [Hlen|]; simpl; [|discriminate].
  unfold parseBytes.
  repeat match goal with
  | |- context [parseByteAt mac ?i ?k] =>
      let H := fresh "Hb" in
      destruct (parseByteAt mac i k) as [[?|?]|] eqn:H;
      [apply parseByteAt_ok in H; simpl in H
      | discriminate
      | unfold parseByteAt in H; rewrite Hlen in H; simpl in H; discriminate]
  end.
  intros [= <-].
  repeat match goal with H : _ /\ _ |- _ => destruct H end.
  split; [exact Hlen|]. split; [|split; [reflexivity|]].
  - intros i [<-|[<-|[<-|[<-|[<-|[]]]]]]; auto with lia.
  - repeat constructor; assumption.
Qed.

(** X4. Whatever the parser accepts has 17 characters with a colon at
    positions 2, 5, 8, 11 and 14, and the result is six bytes; any other
    length, or another character at one of these positions, is an
    [invalid_argument]. *)
Theorem macStrToBytes_accepts_only (mac : string) :
  (forall bytes, macStrToBytes mac = Ok bytes ->
     String.length mac = 17%nat /\
     (forall i, In i [2; 5; 8; 11; 14]%nat -> at_ mac i = Some ":"%char) /\
     length bytes = 6%nat /\ Forall BitFacts.isByte bytes) /\
  (String.length mac <> 17%nat \/
   (exists i, In i [2; 5; 8; 11; 14]%nat /\ at_ mac i <> Some ":"%char) ->
   exists what, macStrToBytes mac = Err (InvalidArgument what)).
Proof.
  split; [apply macStrToBytes_ok_inv|].
  intros Hbad. destruct (macStrToBytes mac) as [bytes|e] eqn:Hm.
  - exfalso. destruct (macStrToBytes_ok_inv mac bytes Hm) as (Hlen & Hcolon & _).
    destruct Hbad as [Hbad|(i & Hi & Hbad)]; [contradiction|].
    apply Hbad, Hcolon, Hi.
  - revert Hm. unfold macStrToBytes.
    destruct (negb (String.length mac =? 17)%nat); [intros [= <-]; eauto|].
    unfold parseBytes.
    repeat match goal with
    | |- context [parseByteAt mac ?i ?k] =>
        let H := fresh "Hb" in
        destruct (parseByteAt mac i k) as [[?|?]|] eqn:H;
        [| intros [= <-]; revert H; unfold parseByteAt;
           repeat match goal with
           | |- context [if ?c then _ else _] => destruct c
           | |- context [match ?c with Ok _ => _ | Err _ => _ end] => destruct c
           end; intros [= <-]; eauto
         | discriminate]
    end.
    discriminate.
Qed.

Lemma macStrToBytes_accepts_only_demo :
  exists what, macStrToBytes "01-0C-CD-04-00-01" = Err (InvalidArgument what).
Proof.
  apply (macStrToBytes_accepts_only "01-0C-CD-04-00-01").
  right. exists 2%nat. split; [simpl; auto | discriminate].
Defined.

(** X5. An [Ethernet] object that was constructed encodes: [getEncoded]
    gives the six bytes of the destination followed by the six of the
    source, twelve bytes in all; and the constructor refuses exactly when one
    of the two strings does not parse. *)
Theorem getEncoded_constructed (dst src : string) :
  (forall e, new dst src = Ok e ->
     exists dstBytes srcBytes,
       macStrToBytes dst = Ok dstBytes /\ macStrToBytes src = Ok srcBytes /\
       getEncoded e = Ok (dstBytes ++ srcBytes) /\
       length (dstBytes ++ srcBytes) = 12%nat /\
       Forall BitFacts.isByte (dstBytes ++ srcBytes)) /\
  ((exists err, new dst src = Err err) <->
   (exists err, macStrToBytes dst = Err err) \/
   (exists err, macStrToBytes src = Err err)).
Proof.
  unfold new, getEncoded.
  destruct (macStrToBytes src) as [srcBytes|es] eqn:Hs;
    destruct (macStrToBytes dst) as [dstBytes|ed] eqn:Hd; simpl.
  - split.
    + intros e [= <-]. simpl. rewrite Hd, Hs. simpl.
      exists dstBytes, srcBytes.
      destruct (macStrToBytes_ok_inv _ _ Hd) as (_ & _ & Hld & Hbd).
      destruct (macStrToBytes_ok_inv _ _ Hs) as (_ & _ & Hls & Hbs).
      repeat split; auto.
      * rewrite length_app. lia.
      * apply Forall_app. split; assumption.
    + split; [intros [err [=]] | intros [[err [=]]|[err [=]]]].
  - split; [discriminate|]. split; eauto.
  - split; [discriminate|]. split; eauto.
  - split; [discriminate|]. split; eauto.
Qed.

(** C7, where the code departs from it.  [std::stoi] converts the longest
    prefix of its argument that reads as a number, after white space and a
    sign, so a pair of characters of which only one is a hexadecimal digit
    is accepted: the string ["01: C:CD:04:00:01"], which the MAC parser test
    expects to be rejected, parses to 01:0C:CD:04:00:01, and so do
    ["1G:..."] (as 01) and ["-1:..."] (as FF). *)
Theorem macStrToBytes_accepts_malformed :
  macShape "01: C:CD:04:00:01" = false /\
  macStrToBytes "01: C:CD:04:00:01" = Ok [1; 12; 205; 4; 0; 1] /\
  macShape "1G:0C:CD:04:00:-1" = false /\
  macStrToBytes "1G:0C:CD:04:00:-1" = Ok [1; 12; 205; 4; 0; 255].
Proof. vm_compute. repeat split; reflexivity. Qed.

End EthernetProps.

Module VirtualLANProps.
Import VirtualLAN.

(** The objects a program can hold: built by the constructor, then changed
    by the setters; the arguments are values of the parameter types. *)
Inductive reachable : Virtual_LAN -> Prop :=
| reach_new pri dei id v :
    0 <= pri < 256 -> 0 <= id < 65536 ->
    new pri dei id = Ok v -> reachable v
| reach_setPriority pri v v' :
    0 <= pri < 256 -> reachable v -> setPriority pri v = Ok v' -> reachable v'
| reach_setDEI dei v :
    reachable v -> reachable (setDEI dei v)
| reach_setID id v v' :
    0 <= id < 65536 -> reachable v -> setID id v = Ok v' -> reachable v'.

Lemma reachable_range (v : Virtual_LAN) :
  reachable v -> 0 <= priority v <= 7 /\ 0 <= ID v <= 4095.
Proof.
  induction 1 as [pri dei id v Hp Hi Hnew | pri v v' Hp _ IH Hset
                 | dei v _ IH | id v v' Hi _ IH Hset].
  - unfold new in Hnew.
    destruct (Z.ltb_spec 7 pri); [discriminate|].
    destruct (Z.ltb_spec 4095 id); [discriminate|].
    injection Hnew as <-. simpl. lia.
  - unfold setPriority in Hset.
    destruct (Z.ltb_spec 7 pri); [discriminate|].
    injection Hset as <-. simpl. lia.
  - exact IH.
  - unfold setID in Hset.
    destruct (Z.ltb_spec 4095 id); [discriminate|].
    injection Hset as <-. simpl. lia.
Qed.

Lemma tci_fields (prio dei id : Z) :
  0 <= prio <= 7 -> 0 <= dei <= 1 -> 0 <= id <= 4095 ->
  Z.lor (Z.lor (Z.shiftl prio 13) (Z.shiftl dei 12)) id
  = prio * 8192 + dei * 4096 + id.
Proof.
  intros Hp Hd Hi.
  rewrite (Z.shiftl_mul_pow2 dei 12) by lia. change (2 ^ 12) with 4096.
  rewrite (BitFacts.lor_shiftl_low prio (dei * 4096) 13) by lia.
  change (2 ^ 13) with 8192.
  replace (prio * 8192 + dei * 4096) with (Z.shiftl (prio * 2 + dei) 12)
    by (rewrite Z.shiftl_mul_pow2 by lia; change (2 ^ 12) with 4096; lia).
  rewrite BitFacts.lor_shiftl_low by lia.
  rewrite Z.shiftl_mul_pow2 by lia. reflexivity.
Qed.

(** X6. Every VLAN object the constructor and the setters can produce has a
    priority of at most 7 and an ID of at most 4095, and [getEncoded] gives
    the four bytes [81 00 hi lo] of an IEEE 802.1Q tag from which the three
    fields read back: the priority in the top three bits of [hi], the DEI in
    the next bit, the ID in the remaining twelve bits. *)
Theorem getEncoded_decodes (v : Virtual_LAN) :
  reachable v ->
  0 <= priority v <= 7 /\ 0 <= ID v <= 4095 /\
  exists hi lo,
    getEncoded v = [0x81; 0x00; hi; lo] /\
    0 <= hi < 256 /\ 0 <= lo < 256 /\
    hi / 32 = priority v /\
    (hi / 16) mod 2 = (if DEI v then 1 else 0) /\
    (hi mod 16) * 256 + lo = ID v.
Proof.
  intros Hr. destruct (reachable_range v Hr) as [Hp Hi].
  split; [exact Hp|]. split; [exact Hi|].
  unfold getEncoded, tci.
  rewrite tci_fields by (destruct (DEI v); lia).
  set (d := if DEI v then 1 else 0).
  assert (Hd : 0 <= d <= 1) by (subst d; destruct (DEI v); lia).
  unfold u16. rewrite Z.mod_small by lia.
  rewrite !BitFacts.land_0xFF, BitFacts.shiftr_8.
  eexists _, _. split; [reflexivity|].
  repeat split; try (Z.div_mod_to_equations; lia).
Qed.

Lemma getEncoded_decodes_demo :
  exists hi lo,
    getEncoded {| priority := 4; DEI := false; ID := 100 |} = [0x81; 0x00; hi; lo] /\
    hi * 256 + lo = 0x8064.
Proof.
  destruct (getEncoded_decodes {| priority := 4; DEI := false; ID := 100 |})
    as (_ & _ & hi & lo & Henc & Hhi & Hlo & Hp & Hd & Hid).
  { apply (reach_new 4 false 100); [lia | lia | reflexivity]. }
  exists hi, lo. split; [exact Henc|].
  simpl in Hp, Hd, Hid. Z.div_mod_to_equations. lia.
Defined.

End VirtualLANProps.

Module SVPublisherProps.
Import CStd Json SVPublisher.

(** A platform to run examples on: well-formed MAC strings scan to their
    bytes, and every synthesised sample is zero. *)
Definition demoPlatform : Platform :=
  {| sscanf_hhx6 := fun mac k =>
       match Ethernet.macStrToBytes mac with
       | Ok bs => nth k bs 0
       | Err _ => 0
       end;
     synthesise := fun _ _ _ => 0 |}.

Definition demoConfig : SVConfig :=
  {| appId := "0x4000"; macDst := "01:0C:CD:04:00:00";
     macSrc := "AA:BB:CC:DD:EE:01"; vlanId := 100; vlanPrio := 4;
     svId := "TestSV01"; dstAddress := ""; nominalFreq := 60;
     sampleRate := 4800; dataSource := COMTRADE; filePath := "" |}.

Definition demoPublisher : SVPublisherInstance :=
  {| id_ := "s1"; config_ := demoConfig; running_ := false;
     phasors_ := repeat {| magnitude := 100; angle := 0 |} 4;
     harmonics_ := JArray []; sampleCounter_ := 7; rawSocket_ := 3 |}.

#[local] Arguments frameHead : simpl never.
#[local] Arguments frameTail : simpl never.
#[local] Arguments generateSamples : simpl never.
#[local] Arguments smpCntOffset : simpl never.

Section Frames.
Context (pf : Platform).

Lemma svIdLen_le (c : SVConfig) :
  (Z.to_nat (svIdLen c) <= length (bytesOf (svId c)))%nat.
Proof.
  unfold svIdLen, u8, bytesOf.
  rewrite length_map.
  assert (H : forall s, length (list_ascii_of_string s) = String.length s).
  { induction s as [|a s IH]; simpl; congruence. }
  rewrite H.
  pose proof (Z.mod_le (Z.of_nat (String.length (svId c))) 256 ltac:(lia) ltac:(lia)).
  lia.
Qed.

Lemma frameHead_length (c : SVConfig) (a : Z) (samples : list Z) :
  length (frameHead pf c a samples) = smpCntOffset c.
Proof.
  unfold frameHead, smpCntOffset.
  rewrite !length_app, !length_map, length_seq. simpl.
  rewrite length_firstn. pose proof (svIdLen_le c). lia.
Qed.

Lemma smpCntOf_frame (c : SVConfig) (a : Z) (samples : list Z) (n : Z) :
  0 <= n < 65536 ->
  smpCntOf c (frameHead pf c a samples ++ frameTail n samples) = Some n.
Proof.
  intros Hn. unfold smpCntOf.
  rewrite !lookup_app_r by (rewrite frameHead_length; lia).
  rewrite frameHead_length.
  replace (smpCntOffset c - smpCntOffset c)%nat with 0%nat by lia.
  replace (S (smpCntOffset c) - smpCntOffset c)%nat with 1%nat by lia.
  simpl. f_equal.
  rewrite (Z.mod_small (n / 256)).
  - rewrite (Z.div_mod n 256) at 3 by lia. lia.
  - split; [apply Z.div_pos; lia | apply Z.div_lt_upper_bound; lia].
Qed.

Lemma generateSamples_length (p : SVPublisherInstance) :
  length (generateSamples pf p) = length (phasors_ p).
Proof.
  unfold generateSamples.
  destruct (dataSource (config_ p)); [apply length_map | apply repeat_length ..].
Qed.

Lemma frameTail_length (n : Z) (samples : list Z) :
  length (frameTail n samples) = (7 + 8 * length samples)%nat.
Proof.
  unfold frameTail. rewrite !length_app. simpl. f_equal. f_equal.
  induction samples as [|x xs IH]; simpl; [reflexivity|]. rewrite IH. lia.
Qed.

(** When a tick sends a frame: the publisher runs and has a socket, the
    APPID reads as a hexadecimal number and the sample rate is not zero. *)
Definition canSend (p : SVPublisherInstance) : bool :=
  running_ p && (0 <=? rawSocket_ p)
  && (match stoul 16 (appId (config_ p)) with Ok _ => true | Err _ => false end)
  && negb (sampleRate (config_ p) =? 0).

Lemma canSend_set_sampleCounter (c : Z) (p : SVPublisherInstance) :
  canSend (set_sampleCounter c p) = canSend p.
Proof. reflexivity. Qed.

(** Such a tick succeeds and sends one frame. *)
Lemma tick_ok (p : SVPublisherInstance) :
  canSend p = true ->
  exists frame,
    tick pf p = Ok (set_sampleCounter (u32 (sampleCounter_ p + 1)) p, Some frame).
Proof.
  unfold canSend. rewrite !andb_true_iff.
  intros (((Hrun & Hsock) & Happ) & Hrate).
  unfold tick, sendSVPacket. rewrite Hrun. cbn [negb].
  apply Z.leb_le in Hsock.
  destruct (Z.ltb_spec (rawSocket_ p) 0); [lia|].
  destruct (stoul 16 (appId (config_ p))) as [a|e]; [|discriminate].
  cbn [mbind result_bind].
  apply negb_true_iff in Hrate. rewrite Hrate.
  cbn [mbind result_bind]. eauto.
Qed.

(** What one successful tick that sends a frame does. *)
Lemma tick_sends (p p' : SVPublisherInstance) (frame : list Z) :
  tick pf p = Ok (p', Some frame) ->
  running_ p = true /\
  p' = set_sampleCounter (u32 (sampleCounter_ p + 1)) p /\
  sampleRate (config_ p) <> 0 /\
  smpCntOf (config_ p) frame
    = Some ((sampleCounter_ p mod sampleRate (config_ p)) mod 65536).
Proof.
  unfold tick. destruct (running_ p); simpl; [|discriminate].
  unfold sendSVPacket.
  destruct (rawSocket_ p <? 0); simpl; [discriminate|].
  destruct (stoul 16 (appId (config_ p))) as [a|e]; simpl; [|discriminate].
  destruct (Z.eqb_spec (sampleRate (config_ p)) 0) as [|Hr]; simpl; [discriminate|].
  intros [= <- <-]. repeat split; auto.
  apply smpCntOf_frame. unfold u16. apply Z.mod_pos_bound. lia.
Qed.

(** A tick of a running publisher with a socket sends exactly one frame. *)
Lemma tick_running_sends (p p' : SVPublisherInstance) (sent : option (list Z)) :
  running_ p = true -> 0 <= rawSocket_ p ->
  tick pf p = Ok (p', sent) -> exists frame, sent = Some frame.
Proof.
  unfold tick. intros -> Hs. simpl. unfold sendSVPacket.
  destruct (Z.ltb_spec (rawSocket_ p) 0); [lia|]. simpl.
  destruct (stoul 16 (appId (config_ p))) as [a|e]; simpl; [|discriminate].
  destruct (sampleRate (config_ p) =? 0); simpl; [discriminate|].
  intros [= <- <-]. eauto.
Qed.

(** [n] ticks of a publisher that can send succeed, and count to [n]. *)
Lemma ticks_ok (n : nat) :
  forall p : SVPublisherInstance,
    canSend p = true ->
    0 <= sampleCounter_ p -> sampleCounter_ p + Z.of_nat n < 4294967296 ->
    exists frames,
      ticks pf n p = Ok (set_sampleCounter (sampleCounter_ p + Z.of_nat n) p, frames).
Proof.
  induction n as [|n IH]; intros p Hcan Hc0 Hlt; simpl.
  - exists []. rewrite Z.add_0_r. destruct p; reflexivity.
  - destruct (tick_ok p Hcan) as [frame ->]. simpl.
    unfold u32. rewrite Z.mod_small by lia.
    destruct (IH (set_sampleCounter (sampleCounter_ p + 1) p)) as [frames ->];
      simpl; auto; try lia.
    exists (frame :: frames). simpl. do 2 f_equal.
    unfold set_sampleCounter. simpl. f_equal. lia.
Qed.

(** The frames of [n] ticks of a running publisher whose counter is [c0]. *)
Lemma ticks_series (n : nat) :
  forall (p p' : SVPublisherInstance) (frames : list (list Z)),
    running_ p = true -> 0 <= rawSocket_ p ->
    0 <= sampleCounter_ p -> sampleCounter_ p + Z.of_nat n < 4294967296 ->
    ticks pf n p = Ok (p', frames) ->
    sampleCounter_ p' = sampleCounter_ p + Z.of_nat n /\
    length frames = n /\
    forall (i : nat) (frame : list Z),
      frames !! i = Some frame ->
      smpCntOf (config_ p) frame
        = Some (((sampleCounter_ p + Z.of_nat i) mod sampleRate (config_ p))
                  mod 65536).
Proof.
  induction n as [|n IH]; intros p p' frames Hrun Hsock Hc0 Hlt; simpl.
  - intros [= <- <-]. repeat split; auto; [lia|].
    intros i frame Hi. rewrite lookup_nil in Hi. discriminate.
  - destruct (tick pf p) as [[p1 sent]|e] eqn:Ht; simpl; [|discriminate].
    destruct (ticks pf n p1) as [[p2 rest]|e] eqn:Hts; simpl; [|discriminate].
    intros [= <- <-].
    destruct (tick_running_sends p p1 sent Hrun Hsock Ht) as [frame ->].
    destruct (tick_sends p p1 frame Ht) as (_ & -> & _ & Hwire).
    unfold u32 in Hts. rewrite Z.mod_small in Hts by lia.
    apply IH in Hts; simpl; auto; try lia.
    simpl in Hts. destruct Hts as (Hc & Hlen & Hi).
    repeat split; auto; try lia.
    intros [|i] fr; simpl.
    + intros [= <-]. rewrite Z.add_0_r. exact Hwire.
    + intros Hfr. rewrite (Hi i fr Hfr). do 3 f_equal. lia.
Qed.

End Frames.

(** C9. A tick of a publisher that is not running does nothing: no frame
    is sent and the publisher, with its sample counter, configuration,
    phasors and harmonics, is as before; a tick that changes the sample
    counter was made while running. *)
Theorem tick_stopped_is_noop (pf : Platform) (p : SVPublisherInstance) :
  (running_ p = false ->
   tick pf p = Ok (p, None) /\
   forall p' sent, tick pf p = Ok (p', sent) ->
     sent = None /\ sampleCounter_ p' = sampleCounter_ p /\
     config_ p' = config_ p /\ phasors_ p' = phasors_ p /\
     harmonics_ p' = harmonics_ p) /\
  (forall p' sent, tick pf p = Ok (p', sent) ->
     sampleCounter_ p' <> sampleCounter_ p -> running_ p = true).
Proof.
  split.
  - intros Hr. unfold tick. rewrite Hr. simpl. split; [reflexivity|].
    intros p' sent [= <- <-]. repeat split; reflexivity.
  - intros p' sent. unfold tick. destruct (running_ p); simpl; [reflexivity|].
    intros [= <- <-] Hne. congruence.
Qed.

Lemma tick_stopped_is_noop_demo :
  tick demoPlatform demoPublisher = Ok (demoPublisher, None).
Proof.
  apply (tick_stopped_is_noop demoPlatform demoPublisher). reflexivity.
Defined.

(** C2, as the code has it.  The sample counter is the number of ticks made
    while running since [start] and is not reset at the sample rate; the
    smpCnt written into the frame of a tick is the counter modulo the sample
    rate, modulo 65536.  With a rate of 4800 the frames of the first 4800
    ticks carry 0, 1, ..., 4799 and the next one carries 0. *)
Theorem smpCnt_on_wire (pf : Platform) (p p' : SVPublisherInstance)
    (n : nat) (frames : list (list Z)) :
  0 <= rawSocket_ p -> Z.of_nat n < 4294967296 ->
  ticks pf n (start p) = Ok (p', frames) ->
  sampleCounter_ p' = Z.of_nat n /\
  length frames = n /\
  (forall (k : nat) (frame : list Z),
     frames !! k = Some frame ->
     smpCntOf (config_ p) frame
       = Some ((Z.of_nat k mod sampleRate (config_ p)) mod 65536)) /\
  (sampleRate (config_ p) = 4800 ->
   forall (k : nat) (frame : list Z),
     frames !! k = Some frame ->
     ((k < 4800)%nat -> smpCntOf (config_ p) frame = Some (Z.of_nat k)) /\
     (k = 4800%nat -> smpCntOf (config_ p) frame = Some 0)).
Proof.
  intros Hs Hn Ht.
  apply ticks_series in Ht; simpl; auto; try lia.
  simpl in Ht. destruct Ht as (Hc & Hlen & Hwire).
  split; [exact Hc|]. split; [exact Hlen|]. split; [exact Hwire|].
  intros Hrate k frame Hf. rewrite (Hwire k frame Hf), Hrate. split.
  - intros Hlt. f_equal. rewrite Z.add_0_l.
    rewrite (Z.mod_small (Z.of_nat k) 4800) by lia. apply Z.mod_small. lia.
  - intros ->. reflexivity.
Qed.

Lemma smpCnt_on_wire_demo :
  exists p' frames,
    ticks demoPlatform 3 (start demoPublisher) = Ok (p', frames) /\
    sampleCounter_ p' = 3 /\
    length frames = 3%nat /\
    forall (k : nat) (frame : list Z),
      frames !! k = Some frame ->
      smpCntOf demoConfig frame = Some ((Z.of_nat k mod 4800) mod 65536).
Proof.
  destruct (ticks demoPlatform 3 (start demoPublisher)) as [[p' frames]|e] eqn:Ht;
    [|vm_compute in Ht; discriminate].
  exists p', frames. split; [reflexivity|].
  destruct (smpCnt_on_wire demoPlatform demoPublisher p' 3 frames)
    as (H1 & H2 & H3 & _); [vm_compute; discriminate | lia | exact Ht |].
  auto.
Defined.

(** C2 as the specification words it does not hold: after 4800 running
    ticks at a rate of 4800 the counter is 4800, not zero, and the frame of
    the next tick carries 0, which is not the counter modulo 65536. *)
Lemma sampleCounter_not_reset :
  exists p1 frames p2 frame,
    ticks demoPlatform 4800 (start demoPublisher) = Ok (p1, frames) /\
    sampleRate (config_ p1) = 4800 /\
    sampleCounter_ p1 = 4800 /\
    tick demoPlatform p1 = Ok (p2, Some frame) /\
    smpCntOf (config_ p1) frame = Some 0 /\
    Some 0 <> Some (sampleCounter_ p1 mod 65536).
Proof.
  destruct (ticks_ok demoPlatform 4800 (start demoPublisher))
    as [frames Ht]; [reflexivity | vm_compute; discriminate | reflexivity |].
  set (p1 := set_sampleCounter
               (sampleCounter_ (start demoPublisher) + Z.of_nat 4800)
               (start demoPublisher)) in Ht.
  destruct (tick_ok demoPlatform p1) as [frame Ht1]; [reflexivity|].
  exists p1, frames. eexists _, frame.
  split; [exact Ht|]. split; [reflexivity|].
  split; [vm_compute; reflexivity|]. split; [exact Ht1|].
  destruct (tick_sends _ _ _ _ Ht1) as (_ & _ & _ & Hw).
  split; [rewrite Hw; vm_compute; reflexivity | vm_compute; discriminate].
Qed.

(** The tag control information the publisher writes: the low three bits of
    the priority above a zero DEI bit and the low twelve bits of the VLAN
    id. *)
Lemma frame_tci (prio vid : Z) :
  0 <= prio < 256 -> 0 <= vid < 65536 ->
  u16 (Z.lor (Z.shiftl prio 13) (Z.land vid 0x0FFF))
  = (prio mod 8) * 8192 + vid mod 4096.
Proof.
  intros Hp Hv.
  change 0x0FFF with (Z.ones 12). rewrite Z.land_ones by lia.
  change (2 ^ 12) with 4096.
  pose proof (Z.mod_pos_bound vid 4096 ltac:(lia)).
  rewrite BitFacts.lor_shiftl_low by lia. change (2 ^ 13) with 8192.
  unfold u16. Z.div_mod_to_equations. lia.
Qed.

(** X7. The layout of every frame the publisher hands to its socket, for a
    configuration whose VLAN fields hold values of their types: after the
    twelve address bytes come the tag [81 00], the tag control information
    (priority modulo 8, DEI 0, VLAN id modulo 4096), the EtherType [88 BA],
    the APPID, the length field 8n + 20 for n phasors, [80 00] and the
    length of the svID; the frame has 32 + svIdLen + 8n bytes, a number
    that is not held against the 1518 bytes of the buffer. *)
Theorem sendSVPacket_layout (pf : Platform) (p : SVPublisherInstance)
    (frame : list Z) :
  0 <= vlanPrio (config_ p) < 256 -> 0 <= vlanId (config_ p) < 65536 ->
  sendSVPacket pf p = Ok (Some frame) ->
  let n := length (phasors_ p) in
  length frame = (32 + Z.to_nat (svIdLen (config_ p)) + 8 * n)%nat /\
  exists hi lo appIdValue,
    stoul 16 (appId (config_ p)) = Ok appIdValue /\
    firstn 13 (skipn 12 frame)
    = [0x81; 0x00; hi; lo; 0x88; 0xBA] ++ be16 (u16 appIdValue)
      ++ be16 (u16 (Z.of_nat n * 8 + 20)) ++ [0x80; 0x00; svIdLen (config_ p)] /\
    hi / 32 = vlanPrio (config_ p) mod 8 /\
    (hi / 16) mod 2 = 0 /\
    (hi mod 16) * 256 + lo = vlanId (config_ p) mod 4096.
Proof.
  intros Hp Hv. unfold sendSVPacket.
  destruct (rawSocket_ p <? 0); [discriminate|].
  destruct (stoul 16 (appId (config_ p))) as [a|e]; cbn [mbind result_bind];
    [|discriminate].
  destruct (sampleRate (config_ p) =? 0); [discriminate|].
  cbv zeta.
  match goal with |- Ok (Some ?f) = _ -> _ => set (sent := f) end.
  intros [= <-]. subst sent.
  rewrite length_app, frameHead_length, frameTail_length, generateSamples_length.
  unfold smpCntOffset in *.
  split; [lia|].
  eexists _, _, a. split; [reflexivity|].
  unfold frameHead. rewrite generateSamples_length, frame_tci by assumption.
  split; [reflexivity|].
  Z.div_mod_to_equations. lia.
Qed.

Lemma sendSVPacket_layout_demo :
  exists frame,
    sendSVPacket demoPlatform demoPublisher = Ok (Some frame) /\
    length frame = 72%nat /\
    exists hi lo,
      firstn 6 (skipn 12 frame) = [0x81; 0x00; hi; lo; 0x88; 0xBA] /\
      hi / 32 = 4 /\ (hi mod 16) * 256 + lo = 100.
Proof.
  assert (Hs : exists frame, sendSVPacket demoPlatform demoPublisher = Ok (Some frame))
    by (eexists; vm_compute; reflexivity).
  destruct Hs as [frame Hs]. exists frame. split; [exact Hs|].
  destruct (sendSVPacket_layout demoPlatform demoPublisher frame)
    as (Hlen & hi & lo & a & _ & Hbytes & H1 & _ & H3);
    [vm_compute; split; [discriminate | reflexivity]
    | vm_compute; split; [discriminate | reflexivity]
    | exact Hs |].
  split; [exact Hlen|]. exists hi, lo.
  split; [|split; [exact H1 | exact H3]].
  assert (Htake : firstn 6 (skipn 12 frame) = firstn 6 (firstn 13 (skipn 12 frame)))
    by (rewrite take_take; reflexivity).
  rewrite Htake, Hbytes. reflexivity.
Defined.

(** X8. The tag the publisher writes by hand is the one the [Virtual_LAN]
    class encodes: whenever a [Virtual_LAN] can be constructed from the
    configured priority and id, with DEI off, the four bytes at offset 12 of
    every frame sent are its [getEncoded]. *)
Theorem sendSVPacket_tag_is_Virtual_LAN (pf : Platform) (p : SVPublisherInstance)
    (frame : list Z) (v : VirtualLAN.Virtual_LAN) :
  0 <= vlanPrio (config_ p) -> 0 <= vlanId (config_ p) ->
  VirtualLAN.new (vlanPrio (config_ p)) false (vlanId (config_ p)) = Ok v ->
  sendSVPacket pf p = Ok (Some frame) ->
  firstn 4 (skipn 12 frame) = VirtualLAN.getEncoded v.
Proof.
  intros Hp Hv Hnew. unfold VirtualLAN.new in Hnew.
  destruct (Z.ltb_spec 7 (vlanPrio (config_ p))); [discriminate|].
  destruct (Z.ltb_spec 4095 (vlanId (config_ p))); [discriminate|].
  injection Hnew as <-.
  unfold sendSVPacket.
  destruct (rawSocket_ p <? 0); [discriminate|].
  destruct (stoul 16 (appId (config_ p))) as [a|e]; cbn [mbind result_bind];
    [|discriminate].
  destruct (sampleRate (config_ p) =? 0); [discriminate|].
  cbv zeta.
  match goal with |- Ok (Some ?f) = _ -> _ => set (sent := f) end.
  intros [= <-]. subst sent.
  unfold frameHead, VirtualLAN.getEncoded, VirtualLAN.tci.
  cbn [VirtualLAN.DEI VirtualLAN.ID VirtualLAN.priority].
  rewrite frame_tci by lia.
  rewrite VirtualLANProps.tci_fields by lia.
  rewrite !BitFacts.land_0xFF, BitFacts.shiftr_8.
  rewrite (Z.mod_small (vlanPrio (config_ p)) 8) by lia.
  rewrite (Z.mod_small (vlanId (config_ p)) 4096) by lia.
  replace (vlanPrio (config_ p) * 8192 + 0 * 4096 + vlanId (config_ p))
    with (vlanPrio (config_ p) * 8192 + vlanId (config_ p)) by lia.
  unfold u16.
  rewrite (Z.mod_small (vlanPrio (config_ p) * 8192 + vlanId (config_ p)) 65536)
    by lia.
  reflexivity.
Qed.

Lemma sendSVPacket_tag_is_Virtual_LAN_demo :
  exists frame v,
    sendSVPacket demoPlatform demoPublisher = Ok (Some frame) /\
    VirtualLAN.new 4 false 100 = Ok v /\
    firstn 4 (skipn 12 frame) = VirtualLAN.getEncoded v.
Proof.
  destruct (sendSVPacket demoPlatform demoPublisher) as [[frame|]|e] eqn:Hs;
    [|vm_compute in Hs; discriminate ..].
  exists frame. eexists. split; [reflexivity|]. split; [reflexivity|].
  apply (sendSVPacket_tag_is_Virtual_LAN demoPlatform demoPublisher frame);
    [vm_compute; discriminate | vm_compute; discriminate | reflexivity | exact Hs].
Defined.

End SVPublisherProps.

(** ** The order of [std::string] keys *)

Module KeyOrder.

Definition keyLt (a b : string) : Prop := String.compare a b = Lt.

Lemma keyLt_trans (a b c : string) : keyLt a b -> keyLt b c -> keyLt a c.
Proof.
  unfold keyLt. change String.compare with String_as_OT.cmp.
  rewrite !String_as_OT.cmp_lt. apply String_as_OT.lt_trans.
Qed.

Lemma compare_refl (a : string) : String.compare a a = Eq.
Proof.
  pose proof (String.compare_antisym a a) as H.
  destruct (String.compare a a); simpl in H; congruence.
Qed.

Lemma keyLt_irrefl (a : string) : ~ keyLt a a.
Proof. unfold keyLt. rewrite compare_refl. discriminate. Qed.

Lemma compare_Gt (a b : string) : String.compare a b = Gt -> keyLt b a.
Proof.
  unfold keyLt. rewrite (String.compare_antisym b a).
  intros ->. reflexivity.
Qed.

Lemma keyLt_Gt (a b : string) : keyLt a b -> String.compare b a = Gt.
Proof.
  unfold keyLt. rewrite (String.compare_antisym b a).
  intros ->. reflexivity.
Qed.

Lemma eqb_compare (a b : string) :
  String.eqb a b = match String.compare a b with Eq => true | _ => false end.
Proof.
  destruct (String.eqb_spec a b) as [->|Hne].
  - rewrite compare_refl. reflexivity.
  - destruct (String.compare a b) eqn:E; auto.
    apply String.compare_eq_iff in E. contradiction.
Qed.

(** Comparisons in the context become [keyLt] facts or equations; a cycle
    closes the goal. *)
Ltac order_norm :=
  repeat match goal with
  | H : String.compare ?a ?b = Eq |- _ => apply String.compare_eq_iff in H; subst
  | H : String.compare ?a ?b = Gt |- _ => apply compare_Gt in H
  | H : String.compare ?a ?b = Lt |- _ => change (keyLt a b) in H
  end.

Ltac order_absurd :=
  exfalso; order_norm;
  try congruence;
  repeat match goal with
  | H : keyLt ?a ?a |- _ => exact (keyLt_irrefl a H)
  | H1 : keyLt ?a ?b, H2 : keyLt ?b ?c |- _ =>
      lazymatch goal with
      | _ : keyLt a c |- _ => fail
      | _ => pose proof (keyLt_trans a b c H1 H2)
      end
  end.

End KeyOrder.

Module OrderedMapProps.
Import OrderedMap KeyOrder.

Section Facts.
Context {V : Type}.
Implicit Types (m : list (string * V)) (k : string) (v : V).

Definition entryLt (a b : string * V) : Prop := keyLt a.1 b.1.

(** The keys ascend strictly: the order in which a range-for visits. *)
Definition ascending m : Prop := StronglySorted entryLt m.

Ltac cases_compare :=
  repeat match goal with
  | |- context [String.compare ?a ?b] =>
      let E := fresh "E" in destruct (String.compare a b) eqn:E; simpl
  end.

(** Assignments under different keys commute. *)
Lemma assign_comm k1 v1 k2 v2 m :
  k1 <> k2 ->
  assign k1 v1 (assign k2 v2 m) = assign k2 v2 (assign k1 v1 m).
Proof.
  intros Hne. induction m as [|[k v] r IH]; simpl.
  - cases_compare; try reflexivity; order_absurd.
  - destruct (String.compare k2 k) eqn:E2; destruct (String.compare k1 k) eqn:E1;
      simpl; rewrite ?E1, ?E2; cases_compare;
      try reflexivity; try (f_equal; exact IH); try order_absurd.
Qed.

Lemma Forall_assign (P : string * V -> Prop) k v m :
  P (k, v) -> Forall P m -> Forall P (assign k v m).
Proof.
  intros Hk. induction 1 as [|[k' v'] r Hx Hr IH]; simpl.
  - constructor; auto.
  - destruct (String.compare k k'); repeat constructor; auto.
Qed.

Lemma ascending_assign k v m : ascending m -> ascending (assign k v m).
Proof.
  unfold ascending. induction 1 as [|[k' v'] r Hr IH Hall]; simpl.
  - repeat constructor.
  - destruct (String.compare k k') eqn:E.
    + apply String.compare_eq_iff in E. subst. constructor; auto.
    + constructor; [constructor; auto|]. constructor; [exact E|].
      eapply Forall_impl; [exact Hall|]. intros [k2 w2] H2.
      unfold entryLt in *. simpl in *. eapply keyLt_trans; eauto.
    + constructor; [exact IH|]. apply Forall_assign; auto.
      apply compare_Gt in E. exact E.
Qed.

Lemma Forall_erase (P : string * V -> Prop) k m :
  Forall P m -> Forall P (erase k m).
Proof.
  induction 1 as [|[k' v'] r Hx Hr IH]; simpl; [constructor|].
  destruct (String.eqb k k'); auto.
Qed.

Lemma ascending_erase k m : ascending m -> ascending (erase k m).
Proof.
  unfold ascending. induction 1 as [|[k' v'] r Hr IH Hall]; simpl; [constructor|].
  destruct (String.eqb k k'); auto. constructor; auto.
  apply Forall_erase. exact Hall.
Qed.

Lemma Forall_update (P : string * V -> Prop) k (f : V -> V) m :
  (forall k' v', P (k', v') -> P (k', f v')) ->
  Forall P m -> Forall P (update k f m).
Proof.
  intros Hf. induction 1 as [|[k' v'] r Hx Hr IH]; simpl; [constructor|].
  destruct (String.eqb k k'); constructor; auto.
Qed.

Lemma ascending_update k (f : V -> V) m : ascending m -> ascending (update k f m).
Proof.
  unfold ascending. induction 1 as [|[k' v'] r Hr IH Hall]; simpl; [constructor|].
  destruct (String.eqb k k'); constructor; auto.
  apply Forall_update; auto.
Qed.

(** In an ascending map every entry after a given one has a greater key. *)
Lemma ascending_after (before after : list (string * V)) (x : string * V) :
  ascending (before ++ x :: after) -> Forall (entryLt x) after.
Proof.
  unfold ascending. induction before as [|y before IH]; simpl; intros Hs.
  - apply StronglySorted_inv in Hs. tauto.
  - apply StronglySorted_inv in Hs. tauto.
Qed.

(** ... and every entry before it a lesser key. *)
Lemma ascending_before (before after : list (string * V)) (x : string * V) :
  ascending (before ++ x :: after) -> Forall (fun y => entryLt y x) before.
Proof.
  unfold ascending. induction before as [|y before IH]; simpl; intros Hs.
  - constructor.
  - apply StronglySorted_inv in Hs. destruct Hs as [Hs Hall].
    constructor; [|exact (IH Hs)].
    rewrite Forall_app in Hall. destruct Hall as [_ Hall].
    apply Forall_cons_1 in Hall. tauto.
Qed.

(** Lookups after the three updates. *)
Lemma eqb_sym_false k k' : k <> k' -> String.eqb k' k = false.
Proof. intros Hne. apply String.eqb_neq. congruence. Qed.

Lemma find_assign_eq k v m : find k (assign k v m) = Some v.
Proof.
  induction m as [|[k' v'] r IH]; simpl.
  - rewrite String.eqb_refl. reflexivity.
  - destruct (String.compare k k') eqn:E; simpl.
    + rewrite String.eqb_refl. reflexivity.
    + rewrite String.eqb_refl. reflexivity.
    + rewrite eqb_compare, E. exact IH.
Qed.

Lemma find_assign_ne k k' v m : k <> k' -> find k' (assign k v m) = find k' m.
Proof.
  intros Hne. induction m as [|[k0 v0] r IH]; simpl.
  - rewrite (eqb_sym_false k k' Hne). reflexivity.
  - destruct (String.compare k k0) eqn:E; simpl.
    + apply String.compare_eq_iff in E. subst k0.
      rewrite (eqb_sym_false k k' Hne). reflexivity.
    + rewrite (eqb_sym_false k k' Hne). reflexivity.
    + destruct (String.eqb k' k0); [reflexivity | exact IH].
Qed.

Lemma find_beyond k v m : Forall (entryLt (k, v)) m -> find k m = None.
Proof.
  induction 1 as [|[k' v'] r Hx Hr IH]; simpl; [reflexivity|].
  unfold entryLt, keyLt in Hx. simpl in Hx.
  rewrite eqb_compare, Hx. exact IH.
Qed.

Lemma find_erase_eq k m : ascending m -> find k (erase k m) = None.
Proof.
  unfold ascending. induction 1 as [|[k' v'] r Hr IH Hall]; simpl; [reflexivity|].
  destruct (String.eqb_spec k k') as [->|Hne].
  - exact (find_beyond k' v' r Hall).
  - simpl. destruct (String.eqb_spec k k'); [contradiction | exact IH].
Qed.

Lemma find_erase_ne k k' m : k <> k' -> find k' (erase k m) = find k' m.
Proof.
  intros Hne. induction m as [|[k0 v0] r IH]; simpl; [reflexivity|].
  destruct (String.eqb_spec k k0) as [->|Hne0].
  - rewrite (eqb_sym_false k0 k' Hne). reflexivity.
  - simpl. destruct (String.eqb k' k0); [reflexivity | exact IH].
Qed.

Lemma find_update_eq k (f : V -> V) m : find k (update k f m) = f <$> find k m.
Proof.
  induction m as [|[k' v'] r IH]; simpl; [reflexivity|].
  destruct (String.eqb k k') eqn:E; simpl; rewrite E; [reflexivity | exact IH].
Qed.

Lemma find_update_ne k k' (f : V -> V) m :
  k <> k' -> find k' (update k f m) = find k' m.
Proof.
  intros Hne. induction m as [|[k0 v0] r IH]; simpl; [reflexivity|].
  destruct (String.eqb_spec k k0) as [->|Hne0]; simpl.
  - rewrite (eqb_sym_false k0 k' Hne). reflexivity.
  - destruct (String.eqb k' k0); [reflexivity | exact IH].
Qed.

Lemma update_absent k (f : V -> V) m : find k m = None -> update k f m = m.
Proof.
  induction m as [|[k' v'] r IH]; simpl; [reflexivity|].
  destruct (String.eqb k k'); [discriminate|]. intros H. rewrite IH by exact H.
  reflexivity.
Qed.

Lemma erase_absent k m : find k m = None -> erase k m = m.
Proof.
  induction m as [|[k' v'] r IH]; simpl; [reflexivity|].
  destruct (String.eqb k k'); [discriminate|]. intros H. rewrite IH by exact H.
  reflexivity.
Qed.

(** An entry that is found is in the list, and in an ascending list an
    entry of the list is the one found. *)
Lemma find_In k v m : find k m = Some v -> In (k, v) m.
Proof.
  induction m as [|[k' v'] r IH]; simpl; [discriminate|].
  destruct (String.eqb_spec k k') as [->|Hne].
  - intros [= ->]. left. reflexivity.
  - intros H. right. exact (IH H).
Qed.

Lemma In_find k v m : ascending m -> In (k, v) m -> find k m = Some v.
Proof.
  unfold ascending. induction 1 as [|[k' v'] r Hr IH Hall]; simpl; [contradiction|].
  intros [[= -> ->]|Hin].
  - rewrite String.eqb_refl. reflexivity.
  - destruct (String.eqb_spec k k') as [->|Hne]; [|exact (IH Hin)].
    exfalso. rewrite List.Forall_forall in Hall. specialize (Hall _ Hin).
    exact (keyLt_irrefl _ Hall).
Qed.

End Facts.

End OrderedMapProps.

(** ** The rule parser always answers *)

Module TripRuleParserProps.
Import CStd TripRule TripRuleParser.

Section Budget.
Context (expr : string).

#[local] Abbreviation len := (String.length expr).

Lemma at_lt (p : nat) (c : ascii) : at_ expr p = Some c -> (p < len)%nat.
Proof.
  unfold at_. revert p. induction expr as [|a s IH]; intros p; simpl.
  - discriminate.
  - destruct p as [|p]; [lia|]. intros H. apply IH in H. lia.
Qed.

Lemma charIs_lt (p : nat) (c : ascii) : charIs expr p c = true -> (p < len)%nat.
Proof.
  unfold charIs. destruct (at_ expr p) as [c'|] eqn:E; [|discriminate].
  intros _. eapply at_lt; eauto.
Qed.

Lemma skipWhitespaceFrom_bounds (n : nat) :
  forall p, (p <= len)%nat ->
            (p <= skipWhitespaceFrom n expr p <= len)%nat.
Proof.
  induction n as [|n IH]; intros p Hp; simpl; [lia|].
  destruct (at_ expr p) as [c|] eqn:E; [|lia].
  destruct (isspace c); [|lia].
  apply at_lt in E. specialize (IH (S p) ltac:(lia)). lia.
Qed.

Lemma skipWhitespace_bounds (p : nat) :
  (p <= len)%nat -> (p <= skipWhitespace expr p <= len)%nat.
Proof. apply skipWhitespaceFrom_bounds. Qed.

Lemma scanWhile_bounds (ok : ascii -> bool) (n : nat) :
  forall p, (p <= len)%nat ->
            (p <= (scanWhile ok n expr p).2 <= len)%nat.
Proof.
  induction n as [|n IH]; intros p Hp; simpl; [lia|].
  destruct (at_ expr p) as [c|] eqn:E; simpl; [|lia].
  destruct (ok c); simpl; [|lia].
  apply at_lt in E. specialize (IH (S p) ltac:(lia)).
  destruct (scanWhile ok n expr (S p)) as [taken p']. simpl in *. lia.
Qed.

Lemma parseIdentifier_bounds (p : nat) :
  (p <= len)%nat -> (p <= (parseIdentifier expr p).2 <= len)%nat.
Proof.
  intros Hp. unfold parseIdentifier.
  pose proof (skipWhitespace_bounds p Hp).
  pose proof (scanWhile_bounds identifierChar
                (len - skipWhitespace expr p) (skipWhitespace expr p) ltac:(lia)).
  lia.
Qed.

Lemma parseValue_bounds (p : nat) :
  (p <= len)%nat -> (p <= (parseValue expr p).2 <= len)%nat.
Proof.
  intros Hp. unfold parseValue.
  pose proof (skipWhitespace_bounds p Hp).
  pose proof (scanWhile_bounds valueChar
                (len - skipWhitespace expr p) (skipWhitespace expr p) ltac:(lia)).
  lia.
Qed.

(** What a parsing method does with the cursor: it only moves forward and
    stays within the expression, and it has budget enough whenever fewer
    than [m] characters are left. *)
Definition within (m : nat) (st : PState) {A} (out : PResult A) : Prop :=
  match out with
  | Return _ st' | Throw _ st' => (pos st <= pos st' <= len)%nat
  | OutOfFuel => ~ (len - pos st < m)%nat
  end.

Definition behaves (m : nat) {A} (f : PState -> PResult A) : Prop :=
  forall st, (pos st <= len)%nat -> within m st (f st).

Lemma parseOperator_behaves (m : nat) : behaves m (parseOperator expr).
Proof.
  intros st Hst. unfold parseOperator.
  pose proof (skipWhitespace_bounds (pos st) Hst) as Hp.
  set (p := skipWhitespace expr (pos st)) in *.
  unfold twoAt.
  repeat match goal with
  | |- within _ _ (if ?b then _ else _) =>
      let E := fresh "E" in destruct b eqn:E; simpl;
      [ repeat (apply andb_true_iff in E; destruct E as [E ?]);
        try apply Nat.ltb_lt in E; try (apply charIs_lt in E); lia | ]
  end.
  simpl. lia.
Qed.

Section Level.
Context (m : nat) (inner : PState -> PResult RuleNode).
Context (Hinner : behaves m inner).

Lemma parsePrimaryExpression_behaves :
  behaves (S m) (parsePrimaryExpression inner expr).
Proof.
  intros st Hst. unfold parsePrimaryExpression.
  pose proof (skipWhitespace_bounds (pos st) Hst) as Hp.
  set (p := skipWhitespace expr (pos st)) in *.
  destruct (Nat.leb_spec len p) as [Hle|Hlt]; [simpl; lia|].
  destruct (charIs expr p "(") eqn:Hparen.
  - specialize (Hinner (setPos (p + 1) st) ltac:(simpl; lia)).
    destruct (inner (setPos (p + 1) st)) as [node st1|w st1|]; simpl in *.
    + pose proof (skipWhitespace_bounds (pos st1) ltac:(lia)) as Hp1.
      set (p1 := skipWhitespace expr (pos st1)) in *.
      destruct (Nat.leb_spec len p1) as [Hle1|Hlt1]; simpl; [lia|].
      destruct (charIs expr p1 ")"); simpl; lia.
    + lia.
    + lia.
  - pose proof (parseIdentifier_bounds p ltac:(lia)) as Hid.
    destruct (parseIdentifier expr p) as [id p1]. simpl in Hid.
    destruct (isEmpty id); simpl; lia.
Qed.

Lemma parseComparisonExpression_behaves :
  behaves (S m) (parseComparisonExpression inner expr).
Proof.
  intros st Hst. unfold parseComparisonExpression.
  pose proof (parsePrimaryExpression_behaves st Hst) as Hprim.
  destruct (parsePrimaryExpression inner expr st) as [node st1|w st1|];
    simpl in *; [|exact Hprim|exact Hprim].
  pose proof (skipWhitespace_bounds (pos st1) ltac:(lia)) as Hp.
  set (p := skipWhitespace expr (pos st1)) in *.
  destruct (Nat.leb_spec len p); simpl; [lia|].
  destruct node as [dataPath op value| |]; simpl; try lia.
  pose proof (parseOperator_behaves (S len) (setPos p st1) ltac:(simpl; lia)) as Hop.
  destruct (parseOperator expr (setPos p st1)) as [op' st3|w st3|] eqn:Eop;
    simpl in Hop.
  - pose proof (parseValue_bounds (pos st3) ltac:(lia)) as Hv.
    destruct (parseValue expr (pos st3)) as [v p4]. simpl in Hv.
    destruct (isEmpty v); simpl; lia.
  - simpl. lia.
  - exfalso. apply Hop. simpl. lia.
Qed.

(** The chain of [!]: a budget of [n] is enough when fewer than [n]
    characters are left. *)
Lemma parseNotExpression_within (n : nat) :
  forall st, (pos st <= len)%nat -> (len - pos st < n)%nat ->
             within (S m) st (parseNotExpression inner expr n st).
Proof.
  induction n as [|n IH]; intros st Hst Hn; [lia|]. cbn [parseNotExpression pos setPos].
  pose proof (skipWhitespace_bounds (pos st) Hst) as Hp.
  set (p := skipWhitespace expr (pos st)) in *.
  assert (Hcmp : within (S m) st (parseComparisonExpression inner expr (setPos p st))).
  { pose proof (parseComparisonExpression_behaves (setPos p st) ltac:(simpl; lia)) as H.
    destruct (parseComparisonExpression inner expr (setPos p st)); simpl in *; lia. }
  destruct (charIs expr p "!") eqn:Hbang; [|exact Hcmp].
  destruct (charIs expr (p + 1) "="); [exact Hcmp|].
  apply charIs_lt in Hbang.
  specialize (IH (setPos (p + 1) (setPos p st)) ltac:(simpl; lia) ltac:(simpl; lia)).
  destruct (parseNotExpression inner expr n (setPos (p + 1) (setPos p st)));
    simpl in *; lia.
Qed.

Lemma parseNotExpression_behaves :
  behaves (S m) (parseNotExpression inner expr (S len)).
Proof. intros st Hst. apply parseNotExpression_within; [exact Hst | lia]. Qed.

Lemma andLoop_within (n : nat) :
  forall lhs st, (pos st <= len)%nat -> (len - pos st < n)%nat ->
                 within (S m) st (andLoop inner expr n lhs st).
Proof.
  induction n as [|n IH]; intros lhs st Hst Hn; [lia|]. cbn [andLoop pos setPos].
  pose proof (skipWhitespace_bounds (pos st) Hst) as Hp.
  set (p := skipWhitespace expr (pos st)) in *.
  destruct ((len <=? p + 1)%nat || negb (charIs expr p "&")
            || negb (charIs expr (p + 1) "&")) eqn:Hstop.
  { unfold within. cbn [pos setPos]. lia. }
  apply orb_false_iff in Hstop. destruct Hstop as [Hstop _].
  apply orb_false_iff in Hstop. destruct Hstop as [Hlen _].
  apply Nat.leb_gt in Hlen.
  pose proof (parseNotExpression_behaves (setPos (p + 2) (setPos p st))
                ltac:(cbn [pos setPos]; lia)) as Hnot.
  destruct (parseNotExpression inner expr (S len) (setPos (p + 2) (setPos p st)))
    as [rhs st2|w st2|]; unfold within in Hnot |- *; cbn [pos setPos] in Hnot.
  - specialize (IH (BinaryOpNode lhs rhs AND) st2 ltac:(lia) ltac:(lia)).
    destruct (andLoop inner expr n (BinaryOpNode lhs rhs AND) st2);
      unfold within in IH; lia.
  - lia.
  - lia.
Qed.

Lemma parseAndExpression_behaves :
  behaves (S m) (parseAndExpression inner expr).
Proof.
  intros st Hst. unfold parseAndExpression.
  pose proof (parseNotExpression_behaves st Hst) as Hnot.
  destruct (parseNotExpression inner expr (S len) st) as [lhs st1|w st1|];
    unfold within in Hnot |- *; [|lia|lia].
  pose proof (andLoop_within (S len) lhs st1 ltac:(lia) ltac:(lia)) as Hloop.
  destruct (andLoop inner expr (S len) lhs st1); unfold within in Hloop; lia.
Qed.

Lemma orLoop_within (n : nat) :
  forall lhs st, (pos st <= len)%nat -> (len - pos st < n)%nat ->
                 within (S m) st (orLoop inner expr n lhs st).
Proof.
  induction n as [|n IH]; intros lhs st Hst Hn; [lia|]. cbn [orLoop pos setPos].
  pose proof (skipWhitespace_bounds (pos st) Hst) as Hp.
  set (p := skipWhitespace expr (pos st)) in *.
  destruct ((len <=? p + 1)%nat || negb (charIs expr p "|")
            || negb (charIs expr (p + 1) "|")) eqn:Hstop.
  { unfold within. cbn [pos setPos]. lia. }
  apply orb_false_iff in Hstop. destruct Hstop as [Hstop _].
  apply orb_false_iff in Hstop. destruct Hstop as [Hlen _].
  apply Nat.leb_gt in Hlen.
  pose proof (parseAndExpression_behaves (setPos (p + 2) (setPos p st))
                ltac:(cbn [pos setPos]; lia)) as Hand.
  destruct (parseAndExpression inner expr (setPos (p + 2) (setPos p st)))
    as [rhs st2|w st2|]; unfold within in Hand |- *; cbn [pos setPos] in Hand.
  - specialize (IH (BinaryOpNode lhs rhs OR) st2 ltac:(lia) ltac:(lia)).
    destruct (orLoop inner expr n (BinaryOpNode lhs rhs OR) st2);
      unfold within in IH; lia.
  - lia.
  - lia.
Qed.

Lemma parseOrLevel_behaves : behaves (S m) (parseOrLevel inner expr).
Proof.
  intros st Hst. unfold parseOrLevel.
  pose proof (parseAndExpression_behaves st Hst) as Hand.
  destruct (parseAndExpression inner expr st) as [lhs st1|w st1|];
    unfold within in Hand |- *; [|lia|lia].
  pose proof (orLoop_within (S len) lhs st1 ltac:(lia) ltac:(lia)) as Hloop.
  destruct (orLoop inner expr (S len) lhs st1); unfold within in Hloop; lia.
Qed.

End Level.

Lemma parseOrExpression_behaves (depth : nat) :
  behaves depth (parseOrExpression depth expr).
Proof.
  induction depth as [|depth IH]; simpl.
  - intros st Hst. simpl. lia.
  - apply parseOrLevel_behaves. exact IH.
Qed.

End Budget.

(** The budget of [parseExpression] is never used up: the parser answers
    for every expression. *)
Lemma parseExpressionFuel_total (expr lastError_ : string) :
  exists answer, parseExpressionFuel expr lastError_ = Some answer.
Proof.
  unfold parseExpressionFuel.
  pose proof (parseOrExpression_behaves expr (S (String.length expr))
                {| pos := 0; lastError := lastError_ |} ltac:(simpl; lia)) as H.
  destruct (parseOrExpression (S (String.length expr)) expr
              {| pos := 0; lastError := lastError_ |}) as [node st|w st|];
    simpl in H.
  - destruct (_ <? _)%nat; eauto.
  - eauto.
  - exfalso. apply H. lia.
Qed.

Lemma parseExpression_is_fuelled (expr lastError_ : string) :
  parseExpressionFuel expr lastError_ = Some (parseExpression expr lastError_).
Proof.
  unfold parseExpression.
  destruct (parseExpressionFuel_total expr lastError_) as [answer ->]. reflexivity.
Qed.

End TripRuleParserProps.

Module TripRuleProps.
Import CStd TripRule TripRuleParser OrderedMap KeyOrder OrderedMapProps.

(** A [std::stod] for the examples: it refuses everything. *)
Definition noStod (s : string) : result float := Err (InvalidArgument "stod").

Section Evaluation.
Context (stod : string -> result float).

(** C5. A comparison whose data point was never updated is false, whatever
    the operator and the literal. *)
Theorem missing_point_is_false (dataPoints : gmap string GooseDataPoint)
    (dataPath : string) (operation : RuleOp) (compareValue : string) :
  dataPoints !! dataPath = None ->
  evaluateNode stod (ComparisonNode dataPath operation compareValue) dataPoints
    = Ok false.
Proof.
  intros Hnone. simpl. unfold evaluateComparison. rewrite Hnone. reflexivity.
Qed.

(** C4, as the code has it.  A binary node evaluates its left operand and
    then its right operand, always both.  If neither raises, the result is
    the conjunction or the disjunction, so a false left operand makes an AND
    false and a true left operand makes an OR true; an error of the right
    operand is the error of the node, whatever the left operand gave. *)
Theorem binary_evaluates_both (lhs rhs : RuleNode)
    (dataPoints : gmap string GooseDataPoint) (leftVal : bool) :
  evaluateNode stod lhs dataPoints = Ok leftVal ->
  (forall rightVal,
     evaluateNode stod rhs dataPoints = Ok rightVal ->
     evaluateNode stod (BinaryOpNode lhs rhs AND) dataPoints
       = Ok (leftVal && rightVal) /\
     evaluateNode stod (BinaryOpNode lhs rhs OR) dataPoints
       = Ok (leftVal || rightVal) /\
     (leftVal = false ->
      evaluateNode stod (BinaryOpNode lhs rhs AND) dataPoints = Ok false) /\
     (leftVal = true ->
      evaluateNode stod (BinaryOpNode lhs rhs OR) dataPoints = Ok true)) /\
  (forall e,
     evaluateNode stod rhs dataPoints = Err e ->
     evaluateNode stod (BinaryOpNode lhs rhs AND) dataPoints = Err e /\
     evaluateNode stod (BinaryOpNode lhs rhs OR) dataPoints = Err e).
Proof.
  intros Hl. split.
  - intros rightVal Hr. simpl. rewrite Hl, Hr. simpl.
    repeat split; auto; intros ->; reflexivity.
  - intros e Hr. simpl. rewrite Hl, Hr. simpl. split; reflexivity.
Qed.

End Evaluation.

Definition intPoint (p : string) (v : Z) : GooseDataPoint :=
  {| path := p; boolValue := false; intValue := v; floatValue := 0;
     dataType := "int" |}.

Lemma missing_point_is_false_demo :
  evaluateNode noStod (ComparisonNode "A" GREATER_EQUAL "7")
    (<["B"%string := intPoint "B" 5]> ∅) = Ok false.
Proof.
  apply (missing_point_is_false noStod). vm_compute. reflexivity.
Defined.

Lemma binary_evaluates_both_demo :
  evaluateNode noStod
    (BinaryOpNode (ComparisonNode "A" EQUALS "true") (ComparisonNode "B" EQUALS "5") AND)
    (<["B"%string := intPoint "B" 5]> ∅) = Ok false.
Proof.
  refine (proj1 (proj2 (proj2
    (proj1 (binary_evaluates_both noStod (ComparisonNode "A" EQUALS "true")
              (ComparisonNode "B" EQUALS "5")
              (<["B"%string := intPoint "B" 5]> ∅) false _) true _))) eq_refl);
    vm_compute; reflexivity.
Defined.

(** C4 as the specification words it does not hold: with [A] missing and
    [B] an integer point, [A == true && B == abc] has a false left operand,
    yet its evaluation raises the error of the right operand; likewise
    [!A == true || B == abc], whose left operand is true. *)
Definition onlyB : gmap string GooseDataPoint := <["B"%string := intPoint "B" 5]> ∅.
Definition missingA : RuleNode := ComparisonNode "A" EQUALS "true".
Definition badLiteral : RuleNode := ComparisonNode "B" EQUALS "abc".

Lemma binary_not_short_circuit :
  evaluateNode noStod missingA onlyB = Ok false /\
  evaluateNode noStod (BinaryOpNode missingA badLiteral AND) onlyB
    = Err (InvalidArgument "stoi") /\
  evaluateNode noStod (UnaryOpNode missingA NOT) onlyB = Ok true /\
  evaluateNode noStod (BinaryOpNode (UnaryOpNode missingA NOT) badLiteral OR) onlyB
    = Err (InvalidArgument "stoi") /\
  parseExpression "A == true && B == abc" ""
    = (Some (BinaryOpNode missingA badLiteral AND), ""%string).
Proof. vm_compute. repeat split; reflexivity. Qed.

(** *** The order of evaluation of the rules *)

(** The evaluators that the public operations build. *)
Inductive reachable : TripRuleEvaluator -> Prop :=
| reach_new : reachable newEvaluator
| reach_addRule ruleName expression ev :
    reachable ev -> reachable (addRule ruleName expression ev).2
| reach_removeRule ruleName ev :
    reachable ev -> reachable (removeRule ruleName ev)
| reach_setRuleEnabled ruleName on ev :
    reachable ev -> reachable (setRuleEnabled ruleName on ev)
| reach_clearRules ev :
    reachable ev -> reachable (clearRules ev)
| reach_updateBool p v ev :
    reachable ev -> reachable (updateDataPointBool p v ev)
| reach_updateInt p v ev :
    reachable ev -> reachable (updateDataPointInt p v ev)
| reach_updateFloat p v ev :
    reachable ev -> reachable (updateDataPointFloat p v ev).

Definition keyed (entry : string * TripRule) : Prop := name entry.2 = entry.1.

(** [rules_] is visited in ascending order of rule name, and every rule
    sits under its own name. *)
Lemma reachable_rules (ev : TripRuleEvaluator) :
  reachable ev -> ascending (rules_ ev) /\ Forall keyed (rules_ ev).
Proof.
  induction 1 as [|n e ev Hr [IHa IHk]|n ev Hr [IHa IHk]|n on ev Hr [IHa IHk]
                  |ev Hr [IHa IHk]|p v ev Hr IH|p v ev Hr IH|p v ev Hr IH];
    simpl; auto.
  - split; constructor.
  - unfold addRule. destruct (parseExpression e EmptyString) as [[node|] err]; simpl.
    + split; [apply ascending_assign; exact IHa|].
      apply Forall_assign; [reflexivity | exact IHk].
    + split; assumption.
  - split; [apply ascending_erase; exact IHa | apply Forall_erase; exact IHk].
  - split; [apply ascending_update; exact IHa|].
    apply Forall_update; [|exact IHk]. intros k' v' Hk. exact Hk.
  - split; constructor.
Qed.

Section Order.
Context (stod : string -> result float).

(** A rule that [evaluate] takes as triggered: enabled, parsed, and true. *)
Definition holds (dataPoints : gmap string GooseDataPoint) (rule : TripRule) : Prop :=
  enabled rule = true /\
  exists node, ast rule = Some node /\ evaluateNode stod node dataPoints = Ok true.

(** The loop stops at the first entry that holds; the entries before it
    do not hold. *)
Lemma evaluateRules_triggered (rules : list (string * TripRule))
    (dataPoints : gmap string GooseDataPoint) (now : Z) :
  triggered (evaluateRules stod rules dataPoints now) = true ->
  exists before k rule after,
    rules = before ++ (k, rule) :: after /\
    holds dataPoints rule /\
    ruleName (evaluateRules stod rules dataPoints now) = name rule /\
    Forall (fun entry => ~ holds dataPoints entry.2) before.
Proof.
  induction rules as [|[k rule] rest IH]; simpl; [discriminate|].
  assert (Hskip : ~ holds dataPoints rule ->
            triggered (evaluateRules stod rest dataPoints now) = true ->
            exists before k' rule' after,
              (k, rule) :: rest = before ++ (k', rule') :: after /\
              holds dataPoints rule' /\
              ruleName (evaluateRules stod rest dataPoints now) = name rule' /\
              Forall (fun entry => ~ holds dataPoints entry.2) before).
  { intros Hno Ht.
    destruct (IH Ht) as (before & k' & rule' & after & -> & Hh & Hn & Hb).
    exists ((k, rule) :: before), k', rule', after.
    split; [reflexivity|]. split; [exact Hh|]. split; [exact Hn|].
    constructor; [exact Hno | exact Hb]. }
  destruct (enabled rule) eqn:Hen.
  - destruct (ast rule) as [node|] eqn:Hast.
    + destruct (evaluateNode stod node dataPoints) as [[|]|e] eqn:Hev; simpl.
      * intros _. exists [], k, rule, rest.
        split; [reflexivity|]. split; [|split; [reflexivity | constructor]].
        split; [exact Hen|]. exists node. auto.
      * apply Hskip. intros (_ & node' & Hn' & Hev'). congruence.
      * discriminate.
    + apply Hskip. intros (_ & node' & Hn' & _). congruence.
  - apply Hskip. intros (Hen' & _). congruence.
Qed.

Lemma evaluateRules_none (rules : list (string * TripRule))
    (dataPoints : gmap string GooseDataPoint) (now : Z) :
  Forall (fun entry => ~ holds dataPoints entry.2) rules ->
  triggered (evaluateRules stod rules dataPoints now) = false.
Proof.
  induction 1 as [|[k rule] rest Hx Hr IH]; simpl; [reflexivity|].
  destruct (enabled rule) eqn:Hen; [|exact IH].
  destruct (ast rule) as [node|] eqn:Hast; [|exact IH].
  destruct (evaluateNode stod node dataPoints) as [[|]|e] eqn:Hev; simpl; auto.
  exfalso. apply Hx. split; [exact Hen|]. exists node. auto.
Qed.

(** A rule at which [evaluate] gives up: enabled, parsed, and its tree
    raises. *)
Definition raises (dataPoints : gmap string GooseDataPoint) (rule : TripRule)
    (e : exn) : Prop :=
  enabled rule = true /\
  exists node, ast rule = Some node /\ evaluateNode stod node dataPoints = Err e.

(** A rule the loop passes over: it neither holds nor raises. *)
Definition passed (dataPoints : gmap string GooseDataPoint) (rule : TripRule) : Prop :=
  ~ holds dataPoints rule /\ forall e, ~ raises dataPoints rule e.

(** The loop passes over such rules. *)
Lemma evaluateRules_passes (before rest : list (string * TripRule))
    (dataPoints : gmap string GooseDataPoint) (now : Z) :
  Forall (fun entry => passed dataPoints entry.2) before ->
  evaluateRules stod (before ++ rest) dataPoints now
    = evaluateRules stod rest dataPoints now.
Proof.
  induction 1 as [|[k rule] before [Hh Hr] Hb IH]; simpl; [reflexivity|].
  simpl in Hh, Hr.
  destruct (enabled rule) eqn:Hen; [|exact IH].
  destruct (ast rule) as [node|] eqn:Hast; [|exact IH].
  destruct (evaluateNode stod node dataPoints) as [[|]|e] eqn:Hev; [| exact IH |].
  - exfalso. apply Hh. split; [exact Hen|]. exists node. auto.
  - exfalso. apply (Hr e). split; [exact Hen|]. exists node. auto.
Qed.

(** Where the loop ends, for a map in ascending order: at the entry before
    which every entry is passed over. *)
Lemma evaluateRules_reaches (rules : list (string * TripRule))
    (dataPoints : gmap string GooseDataPoint) (now : Z) (k : string) (rule : TripRule) :
  ascending rules ->
  In (k, rule) rules ->
  (forall k' rule', In (k', rule') rules -> keyLt k' k -> passed dataPoints rule') ->
  exists after,
    evaluateRules stod rules dataPoints now
      = evaluateRules stod ((k, rule) :: after) dataPoints now.
Proof.
  intros Hasc Hin Hless.
  destruct (in_split _ _ Hin) as (before & after & ->).
  exists after. apply evaluateRules_passes.
  apply ascending_before in Hasc.
  rewrite List.Forall_forall in Hasc. apply List.Forall_forall.
  intros [k' rule'] Hin'. simpl. apply (Hless k' rule').
  - apply in_or_app. left. exact Hin'.
  - exact (Hasc _ Hin').
Qed.

(** C10, as the code has it.  The rules are visited in ascending
    (byte-wise lexicographic) order of their names, whatever the order in
    which they were installed: installing two rules under different names in
    either order gives the same [rules_] and the same result.  The visit ends
    at the first enabled rule that holds or raises.  If every rule of a lesser
    name than an enabled rule that holds is passed over (it is disabled or
    evaluates to false without an error), [evaluate] returns that rule as the
    triggered one; if every rule of a lesser name than an enabled rule that
    raises is passed over, [evaluate] returns a non-triggered result with the
    error.  A triggered result names an enabled rule whose tree evaluates to
    true and whose name is the least among such rules; when no enabled rule
    holds, the result is not triggered. *)
Theorem evaluate_in_name_order (ev : TripRuleEvaluator) (now : Z) :
  reachable ev ->
  ascending (rules_ ev) /\
  (forall n1 e1 n2 e2,
     n1 <> n2 ->
     rules_ (addRule n2 e2 (addRule n1 e1 ev).2).2
       = rules_ (addRule n1 e1 (addRule n2 e2 ev).2).2 /\
     evaluate stod (addRule n2 e2 (addRule n1 e1 ev).2).2 now
       = evaluate stod (addRule n1 e1 (addRule n2 e2 ev).2).2 now) /\
  (forall k rule,
     In (k, rule) (rules_ ev) -> holds (dataPoints_ ev) rule ->
     (forall k' rule',
        In (k', rule') (rules_ ev) -> keyLt k' k -> passed (dataPoints_ ev) rule') ->
     evaluate stod ev now
       = {| triggered := true; ruleName := k;
            message := "Trip rule triggered: " ++ expression rule;
            timestamp := now |}) /\
  (forall k rule e,
     In (k, rule) (rules_ ev) -> raises (dataPoints_ ev) rule e ->
     (forall k' rule',
        In (k', rule') (rules_ ev) -> keyLt k' k -> passed (dataPoints_ ev) rule') ->
     evaluate stod ev now
       = {| triggered := false; ruleName := EmptyString;
            message := "Error evaluating rule '" ++ k ++ "': " ++ what e;
            timestamp := now |}) /\
  (triggered (evaluate stod ev now) = true ->
   exists rule,
     In (ruleName (evaluate stod ev now), rule) (rules_ ev) /\
     holds (dataPoints_ ev) rule /\
     forall k' rule',
       In (k', rule') (rules_ ev) -> holds (dataPoints_ ev) rule' ->
       k' = ruleName (evaluate stod ev now) \/
       keyLt (ruleName (evaluate stod ev now)) k') /\
  ((forall k rule, In (k, rule) (rules_ ev) -> ~ holds (dataPoints_ ev) rule) ->
   triggered (evaluate stod ev now) = false).
Proof.
  intros Hreach. destruct (reachable_rules ev Hreach) as [Hasc Hkeyed].
  assert (Hname : forall k rule, In (k, rule) (rules_ ev) -> name rule = k).
  { intros k rule Hin. rewrite List.Forall_forall in Hkeyed.
    exact (Hkeyed _ Hin). }
  split; [exact Hasc|]. split; [|split; [|split; [|split]]].
  - intros n1 e1 n2 e2 Hne.
    assert (Hrules : rules_ (addRule n2 e2 (addRule n1 e1 ev).2).2
                     = rules_ (addRule n1 e1 (addRule n2 e2 ev).2).2).
    { unfold addRule.
      destruct (parseExpression e1 EmptyString) as [[node1|] err1];
        destruct (parseExpression e2 EmptyString) as [[node2|] err2];
        simpl; try reflexivity.
      apply assign_comm. congruence. }
    split; [exact Hrules|].
    unfold evaluate. rewrite Hrules. f_equal.
    unfold addRule.
    destruct (parseExpression e1 EmptyString) as [[node1|] err1];
      destruct (parseExpression e2 EmptyString) as [[node2|] err2];
      reflexivity.
  - intros k rule Hin (Hen & node & Hast & Hev) Hless. unfold evaluate.
    destruct (evaluateRules_reaches _ (dataPoints_ ev) now k rule Hasc Hin Hless)
      as [after ->].
    simpl. rewrite Hen, Hast, Hev, (Hname k rule Hin). reflexivity.
  - intros k rule e Hin (Hen & node & Hast & Hev) Hless. unfold evaluate.
    destruct (evaluateRules_reaches _ (dataPoints_ ev) now k rule Hasc Hin Hless)
      as [after ->].
    simpl. rewrite Hen, Hast, Hev, (Hname k rule Hin). reflexivity.
  - unfold evaluate. intros Ht.
    destruct (evaluateRules_triggered _ _ _ Ht)
      as (before & k & rule & after & Hsplit & Hh & Hn & Hb).
    rewrite Hn. rewrite Hsplit in Hasc, Hkeyed |- *.
    assert (Hk : name rule = k).
    { apply Forall_app in Hkeyed. destruct Hkeyed as [_ Hk].
      inversion Hk; subst. assumption. }
    rewrite Hk. exists rule. split; [apply in_elt|]. split; [exact Hh|].
    intros k' rule' Hin Hh'.
    apply in_app_or in Hin. destruct Hin as [Hin|[Heq|Hin]].
    + exfalso. rewrite List.Forall_forall in Hb. exact (Hb _ Hin Hh').
    + left. congruence.
    + right. apply ascending_after in Hasc.
      rewrite List.Forall_forall in Hasc. exact (Hasc _ Hin).
  - intros Hnone. unfold evaluate. apply evaluateRules_none.
    apply List.Forall_forall. intros [k rule] Hin. simpl. eapply Hnone. exact Hin.
Qed.

End Order.

(** Three rules installed in descending order of name, the first of which
    does not hold. *)
Definition threeRules : TripRuleEvaluator :=
  (addRule "rule1" "Data/Point1 == 1"
     (addRule "rule2" "Data/Point2 == 2"
        (addRule "rule3" "Data/Point3 == 3"
           (updateDataPointInt "Data/Point3" 3
              (updateDataPointInt "Data/Point2" 2
                 (updateDataPointInt "Data/Point1" 0 newEvaluator)))).2).2).2.


(** The entries of a map of two or three rules. *)
Ltac each_rule H :=
  repeat (destruct H as [H|H]; [injection H as <- <-|]); [..|destruct H].

Lemma evaluate_in_name_order_demo :
  evaluate noStod threeRules 0
    = {| triggered := true; ruleName := "rule2";
         message := "Trip rule triggered: Data/Point2 == 2"; timestamp := 0 |} /\
  exists rule,
    In (ruleName (evaluate noStod threeRules 0), rule) (rules_ threeRules) /\
    holds noStod (dataPoints_ threeRules) rule /\
    forall k' rule',
      In (k', rule') (rules_ threeRules) ->
      holds noStod (dataPoints_ threeRules) rule' ->
      k' = ruleName (evaluate noStod threeRules 0) \/
      keyLt (ruleName (evaluate noStod threeRules 0)) k'.
Proof.
  destruct (evaluate_in_name_order noStod threeRules 0
              ltac:(unfold threeRules; repeat constructor))
    as (_ & _ & Hfirst & _ & Hleast & _).
  split; [|apply Hleast; vm_compute; reflexivity].
  apply (Hfirst "rule2"%string
           {| name := "rule2"; expression := "Data/Point2 == 2";
              ast := Some (ComparisonNode "Data/Point2" EQUALS "2");
              enabled := true |}).
  - vm_compute. auto.
  - split; [reflexivity|]. eexists. split; [reflexivity|]. vm_compute. reflexivity.
  - intros k' rule' Hin Hlt. vm_compute in Hin. each_rule Hin.
    + split.
      * intros (_ & node & Hast & Hev). injection Hast as <-.
        vm_compute in Hev. discriminate.
      * intros e (_ & node & Hast & Hev). injection Hast as <-.
        vm_compute in Hev. discriminate.
    + vm_compute in Hlt. discriminate.
    + vm_compute in Hlt. discriminate.
Defined.

(** C10 as the specification words it does not hold: a rule of a lesser
    name that raises hides the rule that holds.  With [rule1] comparing an
    integer point with [abc] and [rule2] holding, [rule2] is the first enabled
    rule whose tree evaluates to true, and [evaluate] returns a non-triggered
    result that names no rule and carries the error of [rule1]. *)
Definition raisingFirst : TripRuleEvaluator :=
  (addRule "rule1" "Data/Point1 == abc"
     (addRule "rule2" "Data/Point2 == 2"
        (updateDataPointInt "Data/Point2" 2
           (updateDataPointInt "Data/Point1" 0 newEvaluator))).2).2.

Lemma evaluate_misses_holding_rule :
  reachable raisingFirst /\
  (exists rule,
     In ("rule2"%string, rule) (rules_ raisingFirst) /\
     holds noStod (dataPoints_ raisingFirst) rule /\
     forall k' rule',
       In (k', rule') (rules_ raisingFirst) ->
       holds noStod (dataPoints_ raisingFirst) rule' ->
       k' = "rule2"%string \/ keyLt "rule2" k') /\
  evaluate noStod raisingFirst 0
    = {| triggered := false; ruleName := EmptyString;
         message := "Error evaluating rule 'rule1': stoi"; timestamp := 0 |}.
Proof.
  split; [unfold raisingFirst; repeat constructor|].
  split; [|vm_compute; reflexivity].
  exists {| name := "rule2"; expression := "Data/Point2 == 2";
            ast := Some (ComparisonNode "Data/Point2" EQUALS "2");
            enabled := true |}.
  split; [vm_compute; auto|].
  split.
  - split; [reflexivity|]. eexists. split; [reflexivity|]. vm_compute. reflexivity.
  - intros k' rule' Hin Hh. vm_compute in Hin. each_rule Hin.
    + destruct Hh as (_ & node & Hast & Hev). injection Hast as <-.
      vm_compute in Hev. discriminate.
    + left. reflexivity.
Qed.

End TripRuleProps.

Module TripRuleApiProps.
Import CStd TripRule TripRuleParser TripRuleQueries OrderedMap KeyOrder.
Import OrderedMapProps TripRuleParserProps TripRuleProps.

(** *** Every exception of the parser carries a message *)

Definition loud {A} (out : PResult A) : Prop :=
  match out with
  | Throw w _ => w <> EmptyString
  | _ => True
  end.

Definition shouts {A} (f : PState -> PResult A) : Prop := forall st, loud (f st).

Section Messages.
Context (expr : string).

Lemma parseOperator_shouts : shouts (parseOperator expr).
Proof.
  intros st. unfold parseOperator.
  repeat match goal with
  | |- loud (if ?b then _ else _) => destruct b; [exact I|]
  end.
  simpl. discriminate.
Qed.

Section Level.
Context (inner : PState -> PResult RuleNode) (Hinner : shouts inner).

Lemma parsePrimaryExpression_shouts : shouts (parsePrimaryExpression inner expr).
Proof.
  intros st. unfold parsePrimaryExpression.
  destruct (_ <=? _)%nat; [simpl; discriminate|].
  destruct (charIs expr _ "(").
  - specialize (Hinner (setPos (skipWhitespace expr (pos st) + 1) st)).
    destruct (inner _) as [node st1|w st1|]; [|exact Hinner|exact I].
    destruct (_ || _); [simpl; discriminate | exact I].
  - destruct (parseIdentifier expr _) as [id p1].
    destruct (isEmpty id); [simpl; discriminate | exact I].
Qed.

Lemma parseComparisonExpression_shouts :
  shouts (parseComparisonExpression inner expr).
Proof.
  intros st. unfold parseComparisonExpression.
  pose proof (parsePrimaryExpression_shouts st) as Hprim.
  destruct (parsePrimaryExpression inner expr st) as [node st1|w st1|];
    [|exact Hprim|exact I].
  destruct (_ <=? _)%nat; [exact I|].
  destruct node; try exact I.
  destruct (parseOperator expr _) as [op st3|w st3|]; try exact I.
  destruct (parseValue expr _) as [value p4].
  destruct (isEmpty value); [simpl; discriminate | exact I].
Qed.

Lemma parseNotExpression_shouts (n : nat) :
  shouts (parseNotExpression inner expr n).
Proof.
  induction n as [|n IH]; intros st; [exact I|]. cbn [parseNotExpression].
  destruct (charIs expr _ "!"); [|apply parseComparisonExpression_shouts].
  destruct (charIs expr _ "="); [apply parseComparisonExpression_shouts|].
  match goal with |- context [parseNotExpression inner expr n ?s] =>
    specialize (IH s); destruct (parseNotExpression inner expr n s) end;
    [exact I | exact IH | exact I].
Qed.

Lemma andLoop_shouts (n : nat) :
  forall lhs, shouts (andLoop inner expr n lhs).
Proof.
  induction n as [|n IH]; intros lhs st; [exact I|]. cbn [andLoop].
  destruct (_ || _); [exact I|].
  match goal with |- context [parseNotExpression inner expr ?k ?s] =>
    pose proof (parseNotExpression_shouts k s) as Hnot;
    destruct (parseNotExpression inner expr k s) end;
    [apply IH | exact Hnot | exact I].
Qed.

Lemma parseAndExpression_shouts : shouts (parseAndExpression inner expr).
Proof.
  intros st. unfold parseAndExpression.
  pose proof (parseNotExpression_shouts (S (String.length expr)) st) as Hnot.
  destruct (parseNotExpression inner expr _ st);
    [apply andLoop_shouts | exact Hnot | exact I].
Qed.

Lemma orLoop_shouts (n : nat) :
  forall lhs, shouts (orLoop inner expr n lhs).
Proof.
  induction n as [|n IH]; intros lhs st; [exact I|]. cbn [orLoop].
  destruct (_ || _); [exact I|].
  match goal with |- context [parseAndExpression inner expr ?s] =>
    pose proof (parseAndExpression_shouts s) as Hand;
    destruct (parseAndExpression inner expr s) end;
    [apply IH | exact Hand | exact I].
Qed.

Lemma parseOrLevel_shouts : shouts (parseOrLevel inner expr).
Proof.
  intros st. unfold parseOrLevel.
  pose proof (parseAndExpression_shouts st) as Hand.
  destruct (parseAndExpression inner expr st);
    [apply orLoop_shouts | exact Hand | exact I].
Qed.

End Level.

Lemma parseOrExpression_shouts (depth : nat) :
  shouts (parseOrExpression depth expr).
Proof.
  induction depth as [|depth IH]; [intros st; exact I|].
  apply parseOrLevel_shouts. exact IH.
Qed.

End Messages.

(** A refused expression leaves a message in [lastError_]. *)
Lemma parseExpression_refused (expr : string) (err : string) :
  parseExpression expr EmptyString = (None, err) -> err <> EmptyString.
Proof.
  pose proof (parseExpression_is_fuelled expr EmptyString) as Hfuel.
  intros Hp. rewrite Hp in Hfuel. revert Hfuel. unfold parseExpressionFuel.
  pose proof (parseOrExpression_shouts expr (S (String.length expr))
                {| pos := 0; lastError := EmptyString |}) as Hloud.
  destruct (parseOrExpression _ expr _) as [node st|w st|]; [| |discriminate].
  - destruct (_ <? _)%nat; intros [= <-]; discriminate.
  - intros [= <-]. simpl in Hloud.
    destruct (lastError st); [exact Hloud | discriminate].
Qed.

(** X9. A rule that [addRule] accepts is installed under its name, enabled,
    with the expression as given: [getRuleExpression] returns it,
    [isRuleEnabled] is true and [getRuleNames] lists the name; a rule that
    was under this name before is replaced, and the expression and the
    enabled flag of every other rule are as before. *)
Theorem addRule_installs (ruleName expression : string) (ev : TripRuleEvaluator) :
  (addRule ruleName expression ev).1 = true ->
  let ev' := (addRule ruleName expression ev).2 in
  getRuleExpression ruleName ev' = expression /\
  isRuleEnabled ruleName ev' = true /\
  In ruleName (getRuleNames ev') /\
  dataPoints_ ev' = dataPoints_ ev /\
  forall other, other <> ruleName ->
    getRuleExpression other ev' = getRuleExpression other ev /\
    isRuleEnabled other ev' = isRuleEnabled other ev.
Proof.
  unfold addRule.
  destruct (parseExpression expression EmptyString) as [[node|] err]; simpl;
    [intros _ | discriminate].
  unfold getRuleExpression, isRuleEnabled, getRuleNames. simpl.
  rewrite find_assign_eq. simpl.
  split; [reflexivity|]. split; [reflexivity|]. split.
  - apply in_map_iff. eexists (ruleName, _). split; [reflexivity|].
    apply find_In. apply find_assign_eq.
  - split; [reflexivity|]. intros other Hother.
    rewrite find_assign_ne by congruence. split; reflexivity.
Qed.

Lemma addRule_installs_demo :
  getRuleExpression "trip" (addRule "trip" "Relay/Op == true" newEvaluator).2
  = "Relay/Op == true"%string /\
  isRuleEnabled "trip" (addRule "trip" "Relay/Op == true" newEvaluator).2 = true.
Proof.
  destruct (addRule_installs "trip" "Relay/Op == true" newEvaluator)
    as (Hexpr & Hen & _); [vm_compute; reflexivity|].
  split; [exact Hexpr | exact Hen].
Defined.

(** X10. A rule that [addRule] refuses changes nothing but the error: the
    rules, a rule already installed under the same name included, and the
    data points are as before, and [getLastError] is not empty. *)
Theorem addRule_refused_keeps (ruleName expression : string) (ev : TripRuleEvaluator) :
  (addRule ruleName expression ev).1 = false ->
  let ev' := (addRule ruleName expression ev).2 in
  rules_ ev' = rules_ ev /\ dataPoints_ ev' = dataPoints_ ev /\
  getLastError ev' <> EmptyString /\
  getRuleExpression ruleName ev' = getRuleExpression ruleName ev.
Proof.
  unfold addRule.
  destruct (parseExpression expression EmptyString) as [[node|] err] eqn:Hp; simpl;
    [discriminate | intros _].
  split; [reflexivity|]. split; [reflexivity|].
  split; [exact (parseExpression_refused expression err Hp) | reflexivity].
Qed.

Lemma addRule_refused_keeps_demo :
  getLastError (addRule "trip" "Relay/Op ==" newEvaluator).2 <> EmptyString /\
  rules_ (addRule "trip" "Relay/Op ==" newEvaluator).2 = [].
Proof.
  destruct (addRule_refused_keeps "trip" "Relay/Op ==" newEvaluator)
    as (Hrules & _ & Herr & _); [vm_compute; reflexivity|].
  split; [exact Herr | exact Hrules].
Defined.

Section Evaluate.
Context (stod : string -> result float).

(** A triggered result names a rule of [rules_], found under the name, that
    holds. *)
Lemma triggered_names_rule (ev : TripRuleEvaluator) (now : Z) :
  reachable ev ->
  triggered (evaluate stod ev now) = true ->
  exists rule,
    find (ruleName (evaluate stod ev now)) (rules_ ev) = Some rule /\
    holds stod (dataPoints_ ev) rule.
Proof.
  intros Hreach Ht. destruct (reachable_rules ev Hreach) as [Hasc Hkeyed].
  unfold evaluate in *.
  destruct (evaluateRules_triggered stod _ _ _ Ht)
    as (before & k & rule & after & Hsplit & Hh & Hn & _).
  exists rule. split; [|exact Hh]. rewrite Hn.
  assert (Hin : In (k, rule) (rules_ ev)) by (rewrite Hsplit; apply in_elt).
  rewrite List.Forall_forall in Hkeyed. specialize (Hkeyed _ Hin).
  unfold keyed in Hkeyed. simpl in Hkeyed. rewrite Hkeyed.
  apply In_find; assumption.
Qed.

End Evaluate.

(** X11. A rule that was removed is gone: its expression reads as empty, it
    is not enabled, [getRuleNames] does not list it and no evaluation names
    it, whatever the data points; the other rules are as before, and
    removing an unknown name changes nothing. *)
Theorem removeRule_forgets (stod : string -> result float)
    (ruleName : string) (ev : TripRuleEvaluator) (now : Z) :
  reachable ev ->
  let ev' := removeRule ruleName ev in
  getRuleExpression ruleName ev' = EmptyString /\
  isRuleEnabled ruleName ev' = false /\
  ~ In ruleName (getRuleNames ev') /\
  (triggered (evaluate stod ev' now) = true ->
   TripRule.ruleName (evaluate stod ev' now) <> ruleName) /\
  (forall other, other <> ruleName ->
     getRuleExpression other ev' = getRuleExpression other ev /\
     isRuleEnabled other ev' = isRuleEnabled other ev) /\
  (~ In ruleName (getRuleNames ev) -> ev' = ev).
Proof.
  intros Hreach. cbv zeta.
  destruct (reachable_rules ev Hreach) as [Hasc Hkeyed].
  assert (Hgone : find ruleName (rules_ (removeRule ruleName ev)) = None)
    by (apply find_erase_eq; exact Hasc).
  assert (Hnames : forall ev0 : TripRuleEvaluator,
            In ruleName (getRuleNames ev0) ->
            ascending (rules_ ev0) -> find ruleName (rules_ ev0) <> None).
  { intros ev0 Hin Hasc0. unfold getRuleNames in Hin.
    apply in_map_iff in Hin. destruct Hin as ([k rule] & Hk & Hin).
    simpl in Hk. subst k. rewrite (In_find _ _ _ Hasc0 Hin). discriminate. }
  unfold getRuleExpression, isRuleEnabled. rewrite Hgone.
  split; [reflexivity|]. split; [reflexivity|]. split; [|split; [|split]].
  - intros Hin. apply (Hnames _ Hin); [|exact Hgone].
    apply ascending_erase. exact Hasc.
  - intros Ht Hname.
    destruct (triggered_names_rule stod (removeRule ruleName ev) now)
      as (rule & Hfind & _); [apply reach_removeRule; exact Hreach | exact Ht |].
    rewrite Hname in Hfind. congruence.
  - intros other Hother. unfold removeRule. simpl.
    rewrite find_erase_ne by congruence. split; reflexivity.
  - intros Hnot. unfold removeRule, set_rules.
    rewrite erase_absent; [destruct ev; reflexivity|].
    destruct (find ruleName (rules_ ev)) as [rule|] eqn:Hfind; [|reflexivity].
    exfalso. apply Hnot. unfold getRuleNames. apply in_map_iff.
    exists (ruleName, rule). split; [reflexivity | apply find_In; exact Hfind].
Qed.

Lemma removeRule_forgets_demo :
  getRuleExpression "rule2" (removeRule "rule2" threeRules) = EmptyString /\
  ruleName (evaluate noStod (removeRule "rule2" threeRules) 0) = "rule3"%string.
Proof.
  destruct (removeRule_forgets noStod "rule2" threeRules 0) as (Hexpr & _).
  { unfold threeRules. repeat constructor. }
  split; [exact Hexpr | vm_compute; reflexivity].
Defined.

(** X12. A disabled rule never triggers: after [setRuleEnabled(name, false)]
    no evaluation names the rule, whatever the data points, while its
    expression stays and the other rules are as before; on an unknown name
    [setRuleEnabled] changes nothing. *)
Theorem disabled_rule_never_triggers (stod : string -> result float)
    (ruleName : string) (ev : TripRuleEvaluator) (now : Z) :
  reachable ev ->
  let ev' := setRuleEnabled ruleName false ev in
  isRuleEnabled ruleName ev' = false /\
  getRuleExpression ruleName ev' = getRuleExpression ruleName ev /\
  (triggered (evaluate stod ev' now) = true ->
   TripRule.ruleName (evaluate stod ev' now) <> ruleName) /\
  (forall other, other <> ruleName ->
     getRuleExpression other ev' = getRuleExpression other ev /\
     isRuleEnabled other ev' = isRuleEnabled other ev) /\
  (~ In ruleName (getRuleNames ev) -> forall on, setRuleEnabled ruleName on ev = ev).
Proof.
  intros Hreach. cbv zeta.
  unfold getRuleExpression, isRuleEnabled.
  assert (Hfound : find ruleName (rules_ (setRuleEnabled ruleName false ev))
                   = (fun r => {| name := name r; expression := expression r;
                                  ast := ast r; enabled := false |})
                       <$> find ruleName (rules_ ev))
    by apply find_update_eq.
  split; [|split; [|split; [|split]]].
  - rewrite Hfound. destruct (find ruleName (rules_ ev)); reflexivity.
  - rewrite Hfound. destruct (find ruleName (rules_ ev)); reflexivity.
  - intros Ht Hname.
    destruct (triggered_names_rule stod (setRuleEnabled ruleName false ev) now)
      as (rule & Hfind & Hen & _);
      [apply reach_setRuleEnabled; exact Hreach | exact Ht |].
    rewrite Hname, Hfound in Hfind.
    destruct (find ruleName (rules_ ev)); [|discriminate].
    injection Hfind as <-. discriminate.
  - intros other Hother. unfold setRuleEnabled. simpl.
    rewrite find_update_ne by congruence. split; reflexivity.
  - intros Hnot on. unfold setRuleEnabled, set_rules.
    rewrite update_absent; [destruct ev; reflexivity|].
    destruct (find ruleName (rules_ ev)) as [rule|] eqn:Hfind; [|reflexivity].
    exfalso. apply Hnot. unfold getRuleNames. apply in_map_iff.
    exists (ruleName, rule). split; [reflexivity | apply find_In; exact Hfind].
Qed.

Lemma disabled_rule_never_triggers_demo :
  isRuleEnabled "rule2" (setRuleEnabled "rule2" false threeRules) = false /\
  ruleName (evaluate noStod (setRuleEnabled "rule2" false threeRules) 0)
  = "rule3"%string.
Proof.
  destruct (disabled_rule_never_triggers noStod "rule2" threeRules 0) as (Hen & _).
  { unfold threeRules. repeat constructor. }
  split; [exact Hen | vm_compute; reflexivity].
Defined.

End TripRuleApiProps.

(** *** What the parser makes of a comparison *)

Module TripRuleGrammarProps.
Import CStd TripRule TripRuleParser TripRuleQueries.
Import TripRuleParserProps.

(** The rest of a string from a position on. *)
Fixpoint dropS (p : nat) (s : string) : string :=
  match p, s with
  | O, _ => s
  | S p', String _ r => dropS p' r
  | S _, EmptyString => EmptyString
  end.

Fixpoint allChars (ok : ascii -> bool) (s : string) : bool :=
  match s with
  | EmptyString => true
  | String c r => ok c && allChars ok r
  end.

(** A scan for [ok] stops at once on [s]. *)
Definition stopsAt (ok : ascii -> bool) (s : string) : bool :=
  match s with
  | EmptyString => true
  | String c _ => negb (ok c)
  end.

(** The six comparison operators as they are written. *)
Definition opString (op : RuleOp) : string :=
  match op with
  | EQUALS => "=="
  | NOT_EQUALS => "!="
  | GREATER_THAN => ">"
  | LESS_THAN => "<"
  | GREATER_EQUAL => ">="
  | LESS_EQUAL => "<="
  | AND => "&&"
  | OR => "||"
  | NOT => "!"
  end.

Definition isComparison (op : RuleOp) : bool :=
  match op with
  | AND | OR | NOT => false
  | _ => true
  end.

Lemma dropS_nil (p : nat) : dropS p EmptyString = EmptyString.
Proof. destruct p; reflexivity. Qed.

Lemma dropS_add (p q : nat) (s : string) : dropS (p + q) s = dropS q (dropS p s).
Proof.
  revert s. induction p as [|p IH]; intros s; [reflexivity|].
  destruct s as [|c r]; simpl; [rewrite dropS_nil; reflexivity | apply IH].
Qed.

Lemma dropS_app (a b : string) : dropS (String.length a) (a ++ b) = b.
Proof. induction a as [|c a IH]; simpl; auto. Qed.

Lemma dropS_length (p : nat) (s : string) :
  String.length (dropS p s) = (String.length s - p)%nat.
Proof.
  revert s. induction p as [|p IH]; intros s; simpl; [lia|].
  destruct s as [|c r]; simpl; [reflexivity | apply IH].
Qed.

Lemma length_append (a b : string) :
  String.length (a ++ b) = (String.length a + String.length b)%nat.
Proof. induction a as [|c a IH]; simpl; auto. Qed.

Section Cursor.
Context (expr : string).

Lemma dropS_next (p : nat) (a b : string) :
  dropS p expr = (a ++ b)%string -> dropS (p + String.length a) expr = b.
Proof. intros H. rewrite dropS_add, H. apply dropS_app. Qed.

Lemma at_dropS (p : nat) :
  at_ expr p = match dropS p expr with
               | String c _ => Some c
               | EmptyString => None
               end.
Proof.
  unfold at_. revert p. induction expr as [|a s IH]; intros p.
  - rewrite dropS_nil. destruct p; reflexivity.
  - destruct p as [|p]; [reflexivity | apply IH].
Qed.

Lemma charIs_dropS (p : nat) (c : ascii) :
  charIs expr p c = match dropS p expr with
                    | String c' _ => Ascii.eqb c' c
                    | EmptyString => false
                    end.
Proof. unfold charIs. rewrite at_dropS. destruct (dropS p expr); reflexivity. Qed.

Lemma dropS_S (p : nat) (c : ascii) (r : string) :
  dropS p expr = String c r -> dropS (S p) expr = r.
Proof.
  intros H. replace (S p) with (p + 1)%nat by lia. rewrite dropS_add, H. reflexivity.
Qed.

(** A scan takes exactly a run of accepted characters that is followed by
    the end or by a character it does not accept. *)
Lemma scanWhile_run (ok : ascii -> bool) (run : string) :
  forall (n p : nat) (rest : string),
    dropS p expr = (run ++ rest)%string ->
    allChars ok run = true -> stopsAt ok rest = true ->
    (String.length run <= n)%nat ->
    scanWhile ok n expr p = (run, (p + String.length run)%nat).
Proof.
  induction run as [|a run IH]; intros n p rest Hdrop Hall Hstop Hn.
  - change (dropS p expr = rest) in Hdrop.
    simpl in *. rewrite Nat.add_0_r. destruct n as [|n]; [reflexivity|].
    simpl. rewrite at_dropS, Hdrop. destruct rest as [|c r]; [reflexivity|].
    simpl in Hstop. apply negb_true_iff in Hstop. rewrite Hstop. reflexivity.
  - change (dropS p expr = String a (run ++ rest)) in Hdrop.
    simpl in Hall, Hn. apply andb_true_iff in Hall. destruct Hall as [Ha Hall].
    destruct n as [|n]; [lia|]. simpl.
    rewrite at_dropS, Hdrop, Ha.
    rewrite (IH n (S p) rest (dropS_S p a _ Hdrop) Hall Hstop ltac:(lia)).
    f_equal. lia.
Qed.

Lemma skipWhitespaceFrom_run (run : string) :
  forall (n p : nat) (rest : string),
    dropS p expr = (run ++ rest)%string ->
    allChars isspace run = true -> stopsAt isspace rest = true ->
    (String.length run <= n)%nat ->
    skipWhitespaceFrom n expr p = (p + String.length run)%nat.
Proof.
  induction run as [|a run IH]; intros n p rest Hdrop Hall Hstop Hn.
  - change (dropS p expr = rest) in Hdrop.
    simpl in *. rewrite Nat.add_0_r. destruct n as [|n]; [reflexivity|].
    simpl. rewrite at_dropS, Hdrop. destruct rest as [|c r]; [reflexivity|].
    simpl in Hstop. apply negb_true_iff in Hstop. rewrite Hstop. reflexivity.
  - change (dropS p expr = String a (run ++ rest)) in Hdrop.
    simpl in Hall, Hn. apply andb_true_iff in Hall. destruct Hall as [Ha Hall].
    destruct n as [|n]; [lia|]. simpl.
    rewrite at_dropS, Hdrop, Ha.
    rewrite (IH n (S p) rest (dropS_S p a _ Hdrop) Hall Hstop ltac:(lia)). lia.
Qed.

Lemma skipWhitespace_run (run rest : string) (p : nat) :
  dropS p expr = (run ++ rest)%string ->
  allChars isspace run = true -> stopsAt isspace rest = true ->
  skipWhitespace expr p = (p + String.length run)%nat.
Proof.
  intros Hdrop Hall Hstop. unfold skipWhitespace.
  apply (skipWhitespaceFrom_run run _ p rest Hdrop Hall Hstop).
  rewrite <- dropS_length, Hdrop, length_append. lia.
Qed.

Lemma skipWhitespace_stay (p : nat) :
  stopsAt isspace (dropS p expr) = true -> skipWhitespace expr p = p.
Proof.
  intros Hstop.
  rewrite (skipWhitespace_run EmptyString (dropS p expr) p eq_refl eq_refl Hstop).
  simpl. lia.
Qed.

End Cursor.

(** The classes of characters the parser tells apart. *)
Lemma identifierChar_facts (c : ascii) :
  identifierChar c = true ->
  isspace c = false /\ Ascii.eqb c "!" = false /\ Ascii.eqb c "(" = false.
Proof.
  destruct c as [b0 b1 b2 b3 b4 b5 b6 b7].
  destruct b0, b1, b2, b3, b4, b5, b6, b7; vm_compute; intros H;
    first [discriminate H | repeat split; reflexivity].
Qed.

Lemma valueChar_facts (c : ascii) :
  valueChar c = true -> isspace c = false /\ Ascii.eqb c "=" = false.
Proof.
  destruct c as [b0 b1 b2 b3 b4 b5 b6 b7].
  destruct b0, b1, b2, b3, b4, b5, b6, b7; vm_compute; intros H;
    first [discriminate H | repeat split; reflexivity].
Qed.

Lemma isspace_facts (c : ascii) :
  isspace c = true ->
  identifierChar c = false /\ valueChar c = false /\ Ascii.eqb c "=" = false /\
  Ascii.eqb c "&" = false /\ Ascii.eqb c "|" = false.
Proof.
  destruct c as [b0 b1 b2 b3 b4 b5 b6 b7].
  destruct b0, b1, b2, b3, b4, b5, b6, b7; vm_compute; intros H;
    first [discriminate H | repeat split; reflexivity].
Qed.

Lemma append_empty_r (s : string) : (s ++ EmptyString)%string = s.
Proof.
  induction s as [|c s IH]; [reflexivity|].
  change (String c (s ++ EmptyString) = String c s). rewrite IH. reflexivity.
Qed.

Lemma stopsAt_append (ok : ascii -> bool) (a b : string) :
  a <> EmptyString -> stopsAt ok (a ++ b) = stopsAt ok a.
Proof. destruct a; [congruence | reflexivity]. Qed.

Lemma stopsAt_class (ok1 ok2 : ascii -> bool) (s : string) :
  (forall c, ok1 c = true -> ok2 c = false) ->
  s <> EmptyString -> allChars ok1 s = true -> stopsAt ok2 s = true.
Proof.
  intros Hclass Hne Hall. destruct s as [|c r]; [congruence|].
  simpl in *. apply andb_true_iff in Hall. destruct Hall as [Hc _].
  rewrite (Hclass c Hc). reflexivity.
Qed.

(** A run of white space, possibly empty, before something that stops
    [ok]: the whole stops [ok] if white space does. *)
Lemma stopsAt_after_space (ok : ascii -> bool) (ws rest : string) :
  (forall c, isspace c = true -> ok c = false) ->
  allChars isspace ws = true -> stopsAt ok rest = true ->
  stopsAt ok (ws ++ rest) = true.
Proof.
  intros Hclass Hws Hrest. destruct ws as [|c r]; [exact Hrest|].
  simpl in *. apply andb_true_iff in Hws. destruct Hws as [Hc _].
  rewrite (Hclass c Hc). reflexivity.
Qed.

Section Operator.
Context (expr : string).

(** [parseOperator] at a comparison operator that is not followed by [=]. *)
Lemma parseOperator_at (st : PState) (op : RuleOp) (rest : string) :
  isComparison op = true ->
  dropS (pos st) expr = (opString op ++ rest)%string ->
  stopsAt (fun c => Ascii.eqb c "=") rest = true ->
  parseOperator expr st
  = Return op (setPos (pos st + String.length (opString op)) st).
Proof.
  intros Hop Hdrop Hrest.
  assert (Hlen : String.length (dropS (pos st) expr)
                 = (String.length (opString op) + String.length rest)%nat)
    by (rewrite Hdrop; apply length_append).
  rewrite dropS_length in Hlen.
  assert (Hnext : forall c : ascii,
            match rest with
            | String c' _ => Ascii.eqb c' "="
            | EmptyString => false
            end = false).
  { intros _. destruct rest as [|c' r]; [reflexivity|].
    simpl in Hrest. apply negb_true_iff in Hrest. exact Hrest. }
  unfold parseOperator.
  rewrite skipWhitespace_stay by (rewrite Hdrop; destruct op; reflexivity).
  unfold twoAt. rewrite !charIs_dropS.
  destruct op; try discriminate Hop;
    cbn [opString] in Hdrop, Hlen;
    match type of Hdrop with
    | _ = (String ?a (String ?b EmptyString) ++ _)%string =>
        change (dropS (pos st) expr = String a (String b rest)) in Hdrop;
        pose proof (dropS_S expr _ _ _ Hdrop) as Hdrop1
    | _ = (String ?a EmptyString ++ _)%string =>
        change (dropS (pos st) expr = String a rest) in Hdrop;
        pose proof (dropS_S expr _ _ _ Hdrop) as Hdrop1
    end;
    replace (pos st + 1)%nat with (S (pos st)) by lia;
    rewrite Hdrop, Hdrop1; cbn [Ascii.eqb Bool.eqb andb negb];
    rewrite ?(Hnext "="%char), ?andb_false_r;
    cbn [String.length] in Hlen |- *;
    try (destruct (Nat.ltb_spec (S (pos st)) (String.length expr)); [|lia]);
    cbn [andb];
    first [reflexivity | do 2 f_equal; cbn [opString String.length]; lia].
Qed.

End Operator.

Section Comparison.
Context (ws0 id ws1 : string) (op : RuleOp) (ws2 v ws3 : string).
Context (Hws0 : allChars isspace ws0 = true)
        (Hid : allChars identifierChar id = true) (Hid1 : id <> EmptyString)
        (Hws1 : allChars isspace ws1 = true)
        (Hop : isComparison op = true)
        (Hws2 : allChars isspace ws2 = true)
        (Hv : allChars valueChar v = true) (Hv1 : v <> EmptyString)
        (Hws3 : allChars isspace ws3 = true).

Definition comparisonText : string :=
  (ws0 ++ id ++ ws1 ++ opString op ++ ws2 ++ v ++ ws3)%string.

#[local] Abbreviation expr := comparisonText.
#[local] Abbreviation p0 := (String.length ws0).
#[local] Abbreviation p1 := (p0 + String.length id)%nat.
#[local] Abbreviation p2 := (p1 + String.length ws1)%nat.
#[local] Abbreviation p3 := (p2 + String.length (opString op))%nat.
#[local] Abbreviation p4 := (p3 + String.length ws2)%nat.
#[local] Abbreviation p5 := (p4 + String.length v)%nat.

Lemma at_p0 : dropS p0 expr = (id ++ ws1 ++ opString op ++ ws2 ++ v ++ ws3)%string.
Proof. apply dropS_app. Qed.

Lemma at_p1 : dropS p1 expr = (ws1 ++ opString op ++ ws2 ++ v ++ ws3)%string.
Proof. apply (dropS_next expr p0 id). exact at_p0. Qed.

Lemma at_p2 : dropS p2 expr = (opString op ++ ws2 ++ v ++ ws3)%string.
Proof. apply (dropS_next expr p1 ws1). exact at_p1. Qed.

Lemma at_p3 : dropS p3 expr = (ws2 ++ v ++ ws3)%string.
Proof. apply (dropS_next expr p2 (opString op)). exact at_p2. Qed.

Lemma at_p4 : dropS p4 expr = (v ++ ws3)%string.
Proof. apply (dropS_next expr p3 ws2). exact at_p3. Qed.

Lemma at_p5 : dropS p5 expr = (ws3 ++ EmptyString)%string.
Proof. rewrite append_empty_r. apply (dropS_next expr p4 v). exact at_p4. Qed.

Lemma whole_length : String.length expr = (p5 + String.length ws3)%nat.
Proof. unfold comparisonText. rewrite !length_append. lia. Qed.

Lemma opString_stops (ok : ascii -> bool) (rest : string) :
  ok "="%char = false -> ok "!"%char = false ->
  ok ">"%char = false -> ok "<"%char = false ->
  stopsAt ok (opString op ++ rest) = true.
Proof.
  intros H1 H2 H3 H4. destruct op; try discriminate Hop; simpl;
    rewrite ?H1, ?H2, ?H3, ?H4; reflexivity.
Qed.

Lemma id_stops_space (rest : string) : stopsAt isspace (id ++ rest) = true.
Proof.
  rewrite stopsAt_append by exact Hid1.
  apply (stopsAt_class identifierChar); auto.
  intros c Hc. apply (identifierChar_facts c Hc).
Qed.

Lemma v_stops_space (rest : string) : stopsAt isspace (v ++ rest) = true.
Proof.
  rewrite stopsAt_append by exact Hv1.
  apply (stopsAt_class valueChar); auto.
  intros c Hc. apply (valueChar_facts c Hc).
Qed.

(** The comparison level on the text, from the start of the identifier. *)
Lemma parseComparisonExpression_text (inner : PState -> PResult RuleNode)
    (st : PState) :
  pos st = p0 ->
  parseComparisonExpression inner expr st
  = Return (ComparisonNode id op v) (setPos p5 st).
Proof.
  intros Hpos. unfold parseComparisonExpression, parsePrimaryExpression.
  rewrite Hpos.
  rewrite (skipWhitespace_stay expr p0) by (rewrite at_p0; apply id_stops_space).
  pose proof whole_length as Hlen.
  assert (Hidlen : (0 < String.length id)%nat)
    by (destruct id; [congruence | simpl; lia]).
  assert (Hvlen : (0 < String.length v)%nat)
    by (destruct v; [congruence | simpl; lia]).
  assert (Hoplen : (0 < String.length (opString op))%nat)
    by (destruct op; simpl; lia).
  destruct (Nat.leb_spec (String.length expr) p0) as [Hbad|_]; [lia|].
  assert (Hparen : charIs expr p0 "(" = false).
  { rewrite charIs_dropS, at_p0. destruct id as [|c r]; [congruence|].
    simpl in Hid. apply andb_true_iff in Hid. destruct Hid as [Hc _].
    apply (identifierChar_facts c Hc). }
  rewrite Hparen.
  assert (Hident : parseIdentifier expr p0 = (id, p1)).
  { unfold parseIdentifier.
    rewrite (skipWhitespace_stay expr p0) by (rewrite at_p0; apply id_stops_space).
    apply (scanWhile_run expr identifierChar id _ p0 _ at_p0 Hid).
    - apply stopsAt_after_space; [|exact Hws1|].
      + intros c Hc. apply (isspace_facts c Hc).
      + apply opString_stops; reflexivity.
    - lia. }
  rewrite Hident.
  destruct id as [|c0 idr] eqn:Eid; [congruence|]. rewrite <- Eid in *.
  replace (isEmpty id) with false by (rewrite Eid; reflexivity).
  cbn [pos setPos].
  assert (Hskip1 : skipWhitespace expr p1 = p2).
  { apply (skipWhitespace_run expr ws1 _ p1 at_p1 Hws1).
    apply opString_stops; reflexivity. }
  rewrite Hskip1.
  destruct (Nat.leb_spec (String.length expr) p2) as [Hbad|_]; [lia|].
  rewrite (parseOperator_at expr _ op (ws2 ++ v ++ ws3) Hop).
  - cbn [pos setPos].
    assert (Hvalue : parseValue expr p3 = (v, p5)).
    { unfold parseValue.
      rewrite (skipWhitespace_run expr ws2 _ p3 at_p3 Hws2 (v_stops_space ws3)).
      apply (scanWhile_run expr valueChar v _ p4 _ at_p4 Hv).
      - destruct ws3 as [|c r]; [reflexivity|].
        simpl in Hws3. apply andb_true_iff in Hws3. destruct Hws3 as [Hc _].
        simpl. destruct (isspace_facts c Hc) as (_ & -> & _). reflexivity.
      - lia. }
    rewrite Hvalue.
    destruct v as [|c1 vr] eqn:Ev; [congruence|]. reflexivity.
  - exact at_p2.
  - apply stopsAt_after_space; [|exact Hws2|].
    + intros c Hc. destruct (isspace_facts c Hc) as (_ & _ & -> & _). reflexivity.
    + destruct v as [|c r]; [congruence|].
      simpl in Hv. apply andb_true_iff in Hv. destruct Hv as [Hc _].
      simpl. destruct (valueChar_facts c Hc) as (_ & ->). reflexivity.
Qed.

Lemma parseExpressionFuel_text :
  parseExpressionFuel expr EmptyString
  = Some (Some (ComparisonNode id op v), EmptyString).
Proof.
  pose proof whole_length as Hlen.
  assert (Hstart : skipWhitespace expr 0 = p0).
  { apply (skipWhitespace_run expr ws0 _ 0 eq_refl Hws0). apply id_stops_space. }
  assert (Hend : skipWhitespace expr p5 = String.length expr).
  { rewrite (skipWhitespace_run expr ws3 EmptyString p5 at_p5 Hws3 eq_refl). lia. }
  assert (Hlast : skipWhitespace expr (String.length expr) = String.length expr).
  { apply skipWhitespace_stay.
    assert (H0 : String.length (dropS (String.length expr) expr) = 0%nat)
      by (rewrite dropS_length; lia).
    destruct (dropS (String.length expr) expr); [reflexivity | discriminate]. }
  assert (Hbang : charIs expr p0 "!" = false).
  { rewrite charIs_dropS, at_p0. destruct id as [|c r]; [congruence|].
    simpl in Hid. apply andb_true_iff in Hid. destruct Hid as [Hc _].
    apply (identifierChar_facts c Hc). }
  unfold parseExpressionFuel. cbn [parseOrExpression].
  unfold parseOrLevel, parseAndExpression.
  cbn [parseNotExpression pos setPos].
  rewrite Hstart, Hbang.
  rewrite parseComparisonExpression_text by reflexivity.
  cbn [andLoop orLoop pos setPos]. rewrite Hend.
  destruct (Nat.leb_spec (String.length expr) (String.length expr + 1)) as [_|Hbad];
    [|lia].
  cbn [orb orLoop pos setPos]. rewrite Hlast.
  destruct (Nat.leb_spec (String.length expr) (String.length expr + 1)) as [_|Hbad];
    [|lia].
  cbn [orb pos setPos lastError]. rewrite Hlast.
  rewrite Nat.ltb_irrefl. reflexivity.
Qed.

End Comparison.

(** X13. The parser reads a comparison as written: an identifier (letters,
    digits, [_], [/] and [.]), one of the six comparison operators and a
    value (letters, digits, [.], [-] and [+]), with any amount of white
    space, none included, before, between and after them, parse to the
    comparison node of that identifier, operator and value, and leave no
    error behind. *)
Theorem parseExpression_comparison (ws0 id ws1 : string) (op : RuleOp)
    (ws2 v ws3 : string) :
  allChars isspace ws0 = true ->
  allChars identifierChar id = true -> id <> EmptyString ->
  allChars isspace ws1 = true ->
  isComparison op = true ->
  allChars isspace ws2 = true ->
  allChars valueChar v = true -> v <> EmptyString ->
  allChars isspace ws3 = true ->
  parseExpression (ws0 ++ id ++ ws1 ++ opString op ++ ws2 ++ v ++ ws3) EmptyString
  = (Some (ComparisonNode id op v), EmptyString).
Proof.
  intros Hws0 Hid Hid1 Hws1 Hop Hws2 Hv Hv1 Hws3.
  pose proof (parseExpression_is_fuelled
                (ws0 ++ id ++ ws1 ++ opString op ++ ws2 ++ v ++ ws3) EmptyString)
    as Hfuel.
  change (ws0 ++ id ++ ws1 ++ opString op ++ ws2 ++ v ++ ws3)%string
    with (comparisonText ws0 id ws1 op ws2 v ws3) in *.
  rewrite (parseExpressionFuel_text ws0 id ws1 op ws2 v ws3) in Hfuel by assumption.
  injection Hfuel as <-. reflexivity.
Qed.

Lemma parseExpression_comparison_demo :
  parseExpression " Relay_A/LLN0.Ind1.stVal>=  -1.5e+3 " EmptyString
  = (Some (ComparisonNode "Relay_A/LLN0.Ind1.stVal" GREATER_EQUAL "-1.5e+3"),
     EmptyString).
Proof.
  apply (parseExpression_comparison " " "Relay_A/LLN0.Ind1.stVal" "" GREATER_EQUAL
           "  " "-1.5e+3" " "); first [reflexivity | discriminate].
Defined.

End TripRuleGrammarProps.

(** *** From the booleans of a GOOSE message to the trip flag *)

Module GooseTripProps.
Import CStd TripRule TripRuleParser TripRuleQueries.
Import TripRuleParserProps TripRuleGrammarProps.

Lemma to_string_inj (a b : nat) : to_string a = to_string b -> a = b.
Proof.
  unfold to_string. intros H. apply Unsigned.to_uint_inj.
  assert (Hsome : Some (Nat.to_uint a) = Some (Nat.to_uint b))
    by (rewrite <- !NilEmpty.usu, H; reflexivity).
  congruence.
Qed.

Lemma isdigit_identifierChar (c : ascii) :
  isdigit c = true -> identifierChar c = true.
Proof.
  destruct c as [b0 b1 b2 b3 b4 b5 b6 b7].
  destruct b0, b1, b2, b3, b4, b5, b6, b7; vm_compute; intros H;
    first [discriminate H | reflexivity].
Qed.

Lemma to_string_digits (n : nat) : allChars identifierChar (to_string n) = true.
Proof.
  unfold to_string. generalize (Nat.to_uint n). intros d.
  induction d; cbn [NilEmpty.string_of_uint allChars]; rewrite ?IHd; reflexivity.
Qed.

Lemma allChars_append (ok : ascii -> bool) (a b : string) :
  allChars ok (a ++ b) = allChars ok a && allChars ok b.
Proof.
  induction a as [|c a IH]; [reflexivity|].
  change (allChars ok (String c (a ++ b)) = ok c && allChars ok a && allChars ok b).
  simpl. rewrite IH. apply andb_assoc.
Qed.

Lemma append_assoc (a b c : string) :
  ((a ++ b) ++ c)%string = (a ++ b ++ c)%string.
Proof.
  induction a as [|x a IH]; [reflexivity|].
  change (String x ((a ++ b) ++ c) = String x (a ++ b ++ c)).
  f_equal. exact IH.
Qed.

Lemma append_inv_head (a b c : string) : (a ++ b)%string = (a ++ c)%string -> b = c.
Proof.
  induction a as [|x a IH]; [auto|].
  change (String x (a ++ b) = String x (a ++ c) -> b = c).
  intros [= H]. exact (IH H).
Qed.

(** The name of the data point of position [idx]. *)
Definition dataPath (goCbRef : string) (idx : nat) : string :=
  (goCbRef ++ "/data" ++ to_string idx)%string.

Lemma dataPath_inj (goCbRef : string) (a b : nat) :
  dataPath goCbRef a = dataPath goCbRef b -> a = b.
Proof.
  unfold dataPath. intros H. apply append_inv_head in H.
  apply (append_inv_head "/data") in H. exact (to_string_inj a b H).
Qed.

Lemma dataPath_identifier (goCbRef : string) (idx : nat) :
  allChars identifierChar goCbRef = true ->
  allChars identifierChar (dataPath goCbRef idx) = true /\
  dataPath goCbRef idx <> EmptyString.
Proof.
  intros Href. unfold dataPath. split.
  - rewrite !allChars_append, Href, to_string_digits. reflexivity.
  - destruct goCbRef; discriminate.
Qed.

Definition boolPoint (p : string) (v : bool) : GooseDataPoint :=
  {| path := p; boolValue := v; intValue := 0; floatValue := 0; dataType := "bool" |}.

(** The loop writes the points of the positions from [idx] on, and these
    only. *)
Lemma updateBooleans_rules (goCbRef : string) (boolDat : list Z) :
  forall idx ev, rules_ (updateBooleans goCbRef idx boolDat ev) = rules_ ev.
Proof.
  induction boolDat as [|b rest IH]; intros idx ev; [reflexivity|].
  cbn [updateBooleans]. rewrite IH. reflexivity.
Qed.

Lemma updateBooleans_below (goCbRef : string) (boolDat : list Z) :
  forall idx ev j,
    (j < idx)%nat ->
    dataPoints_ (updateBooleans goCbRef idx boolDat ev) !! dataPath goCbRef j
    = dataPoints_ ev !! dataPath goCbRef j.
Proof.
  induction boolDat as [|b rest IH]; intros idx ev j Hj; [reflexivity|].
  cbn [updateBooleans]. rewrite IH by lia.
  unfold updateDataPointBool. simpl.
  apply lookup_insert_ne. intros H. apply dataPath_inj in H. lia.
Qed.

Lemma updateBooleans_lookup (goCbRef : string) (boolDat : list Z) :
  forall idx ev k,
    dataPoints_ (updateBooleans goCbRef idx boolDat ev) !! dataPath goCbRef (idx + k)
    = match boolDat !! k with
      | Some b => Some (boolPoint (dataPath goCbRef (idx + k)) (negb (b =? 0)))
      | None => dataPoints_ ev !! dataPath goCbRef (idx + k)
      end.
Proof.
  induction boolDat as [|b rest IH]; intros idx ev k; [reflexivity|].
  cbn [updateBooleans]. destruct k as [|k].
  - rewrite Nat.add_0_r. rewrite updateBooleans_below by lia.
    unfold updateDataPointBool. simpl. apply lookup_insert_eq.
  - replace (idx + S k)%nat with (S idx + k)%nat by lia.
    rewrite IH. simpl. destruct (rest !! k); [reflexivity|].
    apply lookup_insert_ne. intros H. apply dataPath_inj in H. lia.
Qed.

(** The rule on the boolean of position [k] of a control block. *)
Definition booleanRule (goCbRef : string) (k : nat) : string :=
  (goCbRef ++ "/data" ++ to_string k ++ " == true")%string.

Lemma parse_booleanRule (goCbRef : string) (k : nat) :
  allChars identifierChar goCbRef = true ->
  parseExpression (booleanRule goCbRef k) EmptyString
  = (Some (ComparisonNode (dataPath goCbRef k) EQUALS "true"), EmptyString).
Proof.
  intros Href. destruct (dataPath_identifier goCbRef k Href) as [Hid Hne].
  pose proof (parseExpression_is_fuelled (booleanRule goCbRef k) EmptyString) as Hfuel.
  assert (Htext : booleanRule goCbRef k
                  = comparisonText EmptyString (dataPath goCbRef k) " " EQUALS " "
                      "true" EmptyString).
  { unfold booleanRule, comparisonText, dataPath.
    change (EmptyString ++ ?s)%string with s.
    rewrite !append_assoc. reflexivity. }
  rewrite Htext in Hfuel |- *.
  rewrite (parseExpressionFuel_text EmptyString (dataPath goCbRef k) " " EQUALS " "
             "true" EmptyString) in Hfuel
    by first [reflexivity | assumption | discriminate].
  injection Hfuel as <-. reflexivity.
Qed.

Lemma booleanRule_triggers (stod : string -> result float)
    (ruleName goCbRef : string) (k : nat) (boolDat : list Z) (now : Z) :
  allChars identifierChar goCbRef = true ->
  triggered
    (evaluate stod
       (updateBooleans goCbRef 0 boolDat
          (snd (addRule ruleName (booleanRule goCbRef k) newEvaluator))) now)
  = match boolDat !! k with
    | Some b => negb (b =? 0)
    | None => false
    end.
Proof.
  intros Href. unfold addRule. rewrite (parse_booleanRule goCbRef k Href).
  cbn [snd]. unfold evaluate. rewrite updateBooleans_rules.
  match goal with
  | |- context [updateBooleans _ _ _ ?e] => set (installed := e)
  end.
  pose proof (updateBooleans_lookup goCbRef boolDat 0 installed k) as Hpoint.
  cbn [Nat.add] in Hpoint.
  cbn [rules_ installed newEvaluator OrderedMap.assign evaluateRules enabled ast
       evaluateNode].
  unfold evaluateComparison. rewrite Hpoint. clear Hpoint.
  destruct (boolDat !! k) as [b|].
  - cbn [dataType boolPoint boolValue].
    change (String.eqb "bool" "bool") with true. cbv iota.
    change (String.eqb "true" "true" || String.eqb "true" "1") with true.
    destruct (negb (b =? 0)); reflexivity.
  - subst installed. cbn [dataPoints_ newEvaluator]. rewrite lookup_empty.
    reflexivity.
Qed.

End GooseTripProps.

(** ** The sniffer's reading of a GOOSE frame *)

Module SnifferGooseProps.
Import CStd TripRule TripRuleParser TripRuleQueries SnifferGoose.
Import TripRuleGrammarProps GooseTripProps.

(** *** The layout of a frame *)

Definition tlv (tag : Z) (value : list Z) : list Z :=
  tag :: Z.of_nat (length value) :: value.

Definition fieldsBytes (fields : list (Z * list Z)) : list Z :=
  flat_map (fun f => tlv (fst f) (snd f)) fields.

Definition booleansBytes (bools : list Z) : list Z :=
  flat_map (fun b => [0x83; 1; b]) bools.

(** A PDU: the control block reference, further fields, and [allData] made
    of booleans. *)
Definition pduBytes (ref : list Z) (fields : list (Z * list Z)) (bools : list Z)
    : list Z :=
  tlv 0x80 ref ++ fieldsBytes fields
  ++ [0xab; 3 * Z.of_nat (length bools)] ++ booleansBytes bools.

(** A frame: what precedes the EtherType, the ten bytes from the EtherType
    to the second reserved field, the PDU under its tag with its length in
    one byte, and what follows. *)
Definition gooseFrame (before header ref : list Z) (fields : list (Z * list Z))
    (bools after : list Z) : list Z :=
  before ++ header
  ++ [0x61; Z.of_nat (length (pduBytes ref fields bools))]
  ++ pduBytes ref fields bools ++ after.

Lemma booleansBytes_length (bools : list Z) :
  length (booleansBytes bools) = (3 * length bools)%nat.
Proof. induction bools as [|b bools IH]; simpl; lia. Qed.

Lemma fieldsBytes_length (fields : list (Z * list Z)) :
  (2 * length fields <= length (fieldsBytes fields))%nat.
Proof.
  induction fields as [|f fields IH]; simpl; [lia|].
  rewrite length_app. lia.
Qed.

(** *** Reading at a position *)

Lemma byteAt_app_r (pre rest : list Z) (k : Z) :
  Z.of_nat (length pre) <= k ->
  byteAt (pre ++ rest) k = byteAt rest (k - Z.of_nat (length pre)).
Proof.
  intros Hk. unfold byteAt.
  destruct (Z.ltb_spec k 0); [lia|].
  destruct (Z.ltb_spec (k - Z.of_nat (length pre)) 0); [lia|].
  rewrite lookup_app_r by lia.
  replace (Z.to_nat k - length pre)%nat with (Z.to_nat (k - Z.of_nat (length pre)))
    by lia.
  reflexivity.
Qed.

Lemma bytesAt_app_r (pre rest : list Z) (k n : Z) :
  Z.of_nat (length pre) <= k ->
  bytesAt (pre ++ rest) k n = bytesAt rest (k - Z.of_nat (length pre)) n.
Proof.
  intros Hk. unfold bytesAt. rewrite length_app.
  destruct (Z.ltb_spec k 0); [lia|].
  destruct (Z.ltb_spec (k - Z.of_nat (length pre)) 0); [lia|]. cbn [orb].
  destruct (Z.ltb_spec (Z.of_nat (length pre + length rest)) (k + n));
    destruct (Z.ltb_spec (Z.of_nat (length rest)) (k - Z.of_nat (length pre) + n));
    try lia; [reflexivity|].
  rewrite drop_app_ge by lia.
  replace (Z.to_nat k - length pre)%nat with (Z.to_nat (k - Z.of_nat (length pre)))
    by lia.
  reflexivity.
Qed.

Lemma bytesAt_value (value post : list Z) :
  bytesAt (value ++ post) 0 (Z.of_nat (length value)) = Returns value.
Proof.
  unfold bytesAt. rewrite length_app. cbn [Z.ltb Z.compare orb].
  destruct (Z.ltb_spec (Z.of_nat (length value + length post))
              (0 + Z.of_nat (length value))); [lia|].
  rewrite Nat2Z.id. change (Z.to_nat 0) with 0%nat. rewrite drop_0, take_app_length.
  reflexivity.
Qed.

(** *** The search among the subscriptions *)

(** The search, on the bytes of the value. *)
Fixpoint matchPure (value : list Z) (infos : list Goose_info) (idx : nat)
    (goIdx : option nat) : option nat :=
  match infos with
  | [] => goIdx
  | info :: rest =>
      if bool_decide (value `prefix_of` bytesOf (goCbRef info)) then Some idx
      else matchPure value rest (S idx) goIdx
  end.

Lemma bytesOf_length (s : string) : length (bytesOf s) = String.length s.
Proof.
  unfold bytesOf. rewrite length_map.
  induction s as [|c s IH]; simpl; [reflexivity | rewrite IH; reflexivity].
Qed.

Lemma prefix_take_iff (value whole : list Z) :
  value `prefix_of` whole <->
  (length value <= length whole)%nat /\ value = take (length value) whole.
Proof.
  split.
  - intros [k ->]. rewrite length_app, take_app_length. split; [lia|reflexivity].
  - intros [_ ->]. apply prefix_take.
Qed.

Lemma matchRef_layout (pre value post : list Z) (start : Z) :
  start = Z.of_nat (length pre) ->
  forall infos idx goIdx,
    matchRef (pre ++ value ++ post) start (Z.of_nat (length value)) infos idx goIdx
    = Returns (matchPure value infos idx goIdx).
Proof.
  intros ->. induction infos as [|info rest IH]; intros idx goIdx; [reflexivity|].
  cbn [matchRef matchPure].
  rewrite bytesAt_app_r by lia. rewrite Z.sub_diag, bytesAt_value.
  cbn [andThen]. rewrite Nat2Z.id.
  destruct (Z.leb_spec (Z.of_nat (length value))
              (Z.of_nat (String.length (goCbRef info)))) as [Hle|Hgt].
  - destruct (decide (value `prefix_of` bytesOf (goCbRef info))) as [Hp|Hn].
    + rewrite (bool_decide_eq_true_2 _ Hp).
      rewrite bool_decide_eq_true_2; [reflexivity|].
      apply prefix_take_iff in Hp. exact (proj2 Hp).
    + rewrite (bool_decide_eq_false_2 _ Hn).
      rewrite bool_decide_eq_false_2; [apply IH|].
      intros Heq. apply Hn. apply prefix_take_iff. split; [|exact Heq].
      rewrite bytesOf_length. lia.
  - rewrite bool_decide_eq_false_2; [apply IH|].
    intros Hp. apply prefix_take_iff in Hp. rewrite bytesOf_length in Hp. lia.
Qed.

(** What the search finds: the first subscription whose reference starts
    with the value. *)
Lemma matchPure_none (value : list Z) (infos : list Goose_info) :
  forall idx goIdx,
    (forall info, In info infos -> ~ value `prefix_of` bytesOf (goCbRef info)) ->
    matchPure value infos idx goIdx = goIdx.
Proof.
  induction infos as [|info rest IH]; intros idx goIdx Hno; [reflexivity|].
  cbn [matchPure]. rewrite bool_decide_eq_false_2 by (apply Hno; left; reflexivity).
  apply IH. intros info' Hin. apply Hno. right. exact Hin.
Qed.

Lemma matchPure_first (value : list Z) (infos : list Goose_info) :
  forall idx goIdx k info,
    infos !! k = Some info ->
    value `prefix_of` bytesOf (goCbRef info) ->
    (forall k' info', (k' < k)%nat -> infos !! k' = Some info' ->
                      ~ value `prefix_of` bytesOf (goCbRef info')) ->
    matchPure value infos idx goIdx = Some (idx + k)%nat.
Proof.
  induction infos as [|info0 rest IH]; intros idx goIdx k info Hk Hp Hfirst;
    [discriminate Hk|].
  cbn [matchPure]. destruct k as [|k].
  - injection Hk as ->. rewrite bool_decide_eq_true_2 by exact Hp.
    rewrite Nat.add_0_r. reflexivity.
  - rewrite bool_decide_eq_false_2 by (apply (Hfirst 0%nat info0); [lia|reflexivity]).
    rewrite (IH (S idx) goIdx k info Hk Hp).
    + f_equal. lia.
    + intros k' info' Hlt Hk'. apply (Hfirst (S k') info'); [lia|exact Hk'].
Qed.

(** *** The two loops on a frame of that layout *)

Lemma byteAt_at (frame pre : list Z) (x : Z) (post : list Z) (k : Z) :
  frame = pre ++ x :: post -> k = Z.of_nat (length pre) ->
  byteAt frame k = Returns x.
Proof.
  intros -> ->. rewrite byteAt_app_r by lia. rewrite Z.sub_diag. reflexivity.
Qed.

Lemma matchRef_at (frame pre value post : list Z) (start : Z)
    (infos : list Goose_info) (idx : nat) (goIdx : option nat) :
  frame = pre ++ value ++ post -> start = Z.of_nat (length pre) ->
  matchRef frame start (Z.of_nat (length value)) infos idx goIdx
  = Returns (matchPure value infos idx goIdx).
Proof. intros -> Hs. apply matchRef_layout. exact Hs. Qed.

Lemma walkTlvs_step (frame pre : list Z) (tag : Z) (value post : list Z)
    (fuel : nat) (frameSize i len : Z) (infos : list Goose_info) (j : Z)
    (goIdx : option nat) :
  frame = pre ++ tlv tag value ++ post ->
  i + j = Z.of_nat (length pre) ->
  j < len ->
  frameSize = Z.of_nat (length frame) ->
  walkTlvs (S fuel) frame frameSize i len infos j goIdx
  = let goIdx' := if tag =? 0x80 then matchPure value infos 0 goIdx else goIdx in
    if tag =? 0xab then Returns (inr (j, goIdx'))
    else walkTlvs fuel frame frameSize i len infos
           (j + (Z.of_nat (length value) + 2)) goIdx'.
Proof.
  intros Hframe Hij Hj Hsize.
  assert (Hlen : length frame = (length pre + (2 + length value) + length post)%nat).
  { rewrite Hframe, !length_app. simpl. lia. }
  assert (Hb0 : byteAt frame (i + j) = Returns tag).
  { apply (byteAt_at frame pre tag (Z.of_nat (length value) :: value ++ post));
      [exact Hframe | lia]. }
  assert (Hb1 : byteAt frame (i + j + 1) = Returns (Z.of_nat (length value))).
  { apply (byteAt_at frame (pre ++ [tag]) _ (value ++ post)).
    - rewrite Hframe, <- app_assoc. reflexivity.
    - rewrite length_app. simpl. lia. }
  assert (Hm : matchRef frame (i + j + 2) (Z.of_nat (length value)) infos 0 goIdx
               = Returns (matchPure value infos 0 goIdx)).
  { apply (matchRef_at frame (pre ++ [tag; Z.of_nat (length value)]) value post).
    - rewrite Hframe, <- app_assoc. reflexivity.
    - rewrite length_app. simpl. lia. }
  cbn [walkTlvs]. rewrite (proj2 (Z.ltb_lt _ _) Hj). cbn [negb].
  destruct (Z.leb_spec frameSize (i + j + 1)); [lia|].
  rewrite Hb0. cbn [andThen]. rewrite Hb1. cbn [andThen].
  destruct (Z.ltb_spec frameSize (i + j + 2 + Z.of_nat (length value))); [lia|].
  destruct (tag =? 0x80); [rewrite Hm|]; reflexivity.
Qed.

Definition plainField (f : Z * list Z) : Prop := fst f <> 0x80 /\ fst f <> 0xab.

Lemma walkTlvs_fields (frame : list Z) (frameSize i len : Z)
    (infos : list Goose_info) (goIdx : option nat) (post : list Z) :
  frameSize = Z.of_nat (length frame) ->
  forall fields pre fuel j,
    Forall plainField fields ->
    frame = pre ++ fieldsBytes fields ++ post ->
    i + j = Z.of_nat (length pre) ->
    j + Z.of_nat (length (fieldsBytes fields)) < len ->
    walkTlvs (length fields + fuel) frame frameSize i len infos j goIdx
    = walkTlvs fuel frame frameSize i len infos
        (j + Z.of_nat (length (fieldsBytes fields))) goIdx.
Proof.
  intros Hsize.
  induction fields as [|[tag value] fields IH]; intros pre fuel j Hplain Hframe Hij Hj.
  - simpl. rewrite Z.add_0_r. reflexivity.
  - apply Forall_cons_1 in Hplain. destruct Hplain as [[H80 Hab] Hplain].
    cbn [fst snd] in H80, Hab.
    cbn [fieldsBytes flat_map fst snd] in Hframe, Hj |- *.
    fold (fieldsBytes fields) in Hframe, Hj |- *.
    rewrite length_app in Hj |- *. cbn [tlv length] in Hj |- *.
    cbn [length Nat.add].
    rewrite (walkTlvs_step frame pre tag value (fieldsBytes fields ++ post));
      [| rewrite Hframe, <- app_assoc; reflexivity | exact Hij | lia | exact Hsize].
    rewrite (proj2 (Z.eqb_neq _ _) H80), (proj2 (Z.eqb_neq _ _) Hab). cbv zeta.
    rewrite (IH (pre ++ tlv tag value) fuel (j + (Z.of_nat (length value) + 2)) Hplain).
    + f_equal. lia.
    + rewrite Hframe, <- !app_assoc. reflexivity.
    + rewrite length_app. cbn [tlv length]. lia.
    + lia.
Qed.

Lemma readBooleans_layout (frame : list Z) (frameSize i len : Z) (post : list Z) :
  frameSize = Z.of_nat (length frame) ->
  forall bools pre fuel j boolDat,
    frame = pre ++ booleansBytes bools ++ post ->
    i + j = Z.of_nat (length pre) ->
    j + 3 * Z.of_nat (length bools) = len + 2 ->
    readBooleans (length bools + fuel) frame frameSize i len j boolDat
    = Returns (boolDat ++ bools).
Proof.
  intros Hsize.
  induction bools as [|b bools IH]; intros pre fuel j boolDat Hframe Hij Hj.
  - simpl in Hj. rewrite app_nil_r.
    destruct fuel; cbn [readBooleans length Nat.add];
      destruct (Z.ltb_spec j len); try lia; reflexivity.
  - cbn [booleansBytes flat_map] in Hframe. fold (booleansBytes bools) in Hframe.
    rewrite <- app_assoc in Hframe. cbn [app] in Hframe.
    cbn [length] in Hj.
    assert (Hlen : length frame
                   = (length pre + 3 + length (booleansBytes bools ++ post))%nat).
    { rewrite Hframe, !length_app. simpl. rewrite length_app. lia. }
    assert (Hb0 : byteAt frame (i + j) = Returns 0x83).
    { apply (byteAt_at frame pre _ ([1; b] ++ booleansBytes bools ++ post));
        [exact Hframe | lia]. }
    assert (Hb1 : byteAt frame (i + j + 1) = Returns 1).
    { apply (byteAt_at frame (pre ++ [0x83]) _ ([b] ++ booleansBytes bools ++ post)).
      - rewrite Hframe, <- app_assoc. reflexivity.
      - rewrite length_app. simpl. lia. }
    assert (Hb2 : byteAt frame (i + j + 2) = Returns b).
    { apply (byteAt_at frame (pre ++ [0x83; 1]) _ (booleansBytes bools ++ post)).
      - rewrite Hframe, <- app_assoc. reflexivity.
      - rewrite length_app. simpl. lia. }
    cbn [length Nat.add readBooleans].
    destruct (Z.ltb_spec j len); [|lia]. cbn [negb].
    destruct (Z.leb_spec frameSize (i + j + 1)); [lia|].
    rewrite Hb0. cbn [andThen]. rewrite Hb1. cbn [andThen].
    destruct (Z.ltb_spec frameSize (i + j + 2 + 1)); [lia|].
    change (0x83 =? 0x83) with true. cbv iota. rewrite Hb2. cbn [andThen].
    rewrite (IH (pre ++ [0x83; 1; b]) fuel (j + (1 + 2)) (boolDat ++ [b])).
    + rewrite <- app_assoc. reflexivity.
    + rewrite Hframe, <- app_assoc. reflexivity.
    + rewrite length_app. simpl. lia.
    + lia.
Qed.

(** *** A frame of that layout, read *)

Lemma process_GOOSE_packet_layout (stod : string -> result float) (now : Z)
    (before header ref : list Z) (fields : list (Z * list Z)) (bools after : list Z)
    (sn : Sniffer) (tripFlag : bool) :
  length header = 10%nat ->
  (length (pduBytes ref fields bools) <= 127)%nat ->
  Forall plainField fields ->
  let frame := gooseFrame before header ref fields bools after in
  process_GOOSE_packet stod now frame (Z.of_nat (length frame))
    (Z.of_nat (length before)) sn tripFlag
  = match matchPure ref (goInfo sn) 0 None with
    | None => Returns (Unmatched, sn, tripFlag)
    | Some goIdx => deliver stod now goIdx bools sn tripFlag
    end.
Proof.
  intros Hheader Hshort Hplain frame.
  set (pdu := pduBytes ref fields bools) in *.
  set (i := Z.of_nat (length before)).
  set (L := Z.of_nat (length pdu)).
  assert (Hpdu : length pdu
                 = (2 + length ref + length (fieldsBytes fields) + 2
                    + 3 * length bools)%nat).
  { unfold pdu, pduBytes. rewrite !length_app. cbn [tlv length].
    rewrite booleansBytes_length. lia. }
  assert (Hframe : frame = (before ++ header ++ [0x61; L]) ++ pdu ++ after).
  { unfold frame, gooseFrame. rewrite <- !app_assoc. reflexivity. }
  assert (Hsize : length frame
                  = (length before + 12 + length pdu + length after)%nat).
  { rewrite Hframe, !length_app. simpl. lia. }
  assert (Hfields := fieldsBytes_length fields).
  unfold process_GOOSE_packet.
  destruct (Z.ltb_spec (Z.of_nat (length frame)) (i + 14)); [lia|].
  assert (HL : byteAt frame (i + 11) = Returns L).
  { apply (byteAt_at frame (before ++ header ++ [0x61]) _ (pdu ++ after)).
    - rewrite Hframe, <- !app_assoc. reflexivity.
    - rewrite !length_app. simpl. lia. }
  unfold readLength. rewrite HL. cbn [andThen].
  destruct (Z.eqb_spec L 0x82); [lia|]. destruct (Z.eqb_spec L 0x81); [lia|].
  cbn [andThen].
  destruct (Z.ltb_spec (Z.of_nat (length frame)) (i + 12 + L)); [lia|].
  (* the first loop *)
  set (rest1 := fieldsBytes fields
                ++ [0xab; 3 * Z.of_nat (length bools)] ++ booleansBytes bools).
  set (found := matchPure ref (goInfo sn) 0 None).
  set (jab := Z.of_nat (length ref) + 2 + Z.of_nat (length (fieldsBytes fields))).
  assert (Hwalk : walkTlvs (Z.to_nat L) frame (Z.of_nat (length frame)) (i + 12) L
                    (goInfo sn) 0 None
                  = Returns (inr (jab, found))).
  { replace (Z.to_nat L)
      with (S (length fields + S (length pdu - 2 - length fields))) by lia.
    rewrite (walkTlvs_step frame (before ++ header ++ [0x61; L]) 0x80 ref
               (rest1 ++ after));
      [| rewrite Hframe; unfold pdu, pduBytes, rest1; rewrite <- !app_assoc;
         reflexivity
       | rewrite !length_app; simpl; lia | lia | reflexivity].
    change (0x80 =? 0x80) with true. change (0x80 =? 0xab) with false. cbv iota zeta.
    fold found.
    rewrite (walkTlvs_fields frame (Z.of_nat (length frame)) (i + 12) L (goInfo sn)
               found
               ([0xab; 3 * Z.of_nat (length bools)] ++ booleansBytes bools ++ after)
               eq_refl fields
               ((before ++ header ++ [0x61; L]) ++ tlv 0x80 ref));
      [| exact Hplain
       | rewrite Hframe; unfold pdu, pduBytes; rewrite <- !app_assoc; reflexivity
       | rewrite !length_app; cbn [tlv length]; lia
       | lia].
    replace (0 + (Z.of_nat (length ref) + 2) + Z.of_nat (length (fieldsBytes fields)))
      with jab by (unfold jab; lia).
    rewrite (walkTlvs_step frame
               (((before ++ header ++ [0x61; L]) ++ tlv 0x80 ref) ++ fieldsBytes fields)
               0xab (booleansBytes bools) after);
      [| rewrite Hframe; unfold pdu, pduBytes, tlv; rewrite booleansBytes_length;
         rewrite <- !app_assoc; cbn [app];
         replace (Z.of_nat (3 * length bools)) with (3 * Z.of_nat (length bools))
           by lia;
         reflexivity
       | rewrite !length_app; cbn [tlv length]; unfold jab; lia
       | unfold jab; lia | reflexivity].
    reflexivity. }
  rewrite Hwalk. cbn [andThen].
  destruct found as [goIdx|]; [|reflexivity].
  (* allData *)
  set (pre2 := ((before ++ header ++ [0x61; L]) ++ tlv 0x80 ref) ++ fieldsBytes fields).
  assert (Hpre2 : i + 12 + jab = Z.of_nat (length pre2)).
  { unfold pre2. rewrite !length_app. cbn [tlv length]. unfold jab. lia. }
  assert (Hframe2 : frame
                    = pre2 ++ [0xab; 3 * Z.of_nat (length bools)]
                      ++ booleansBytes bools ++ after).
  { rewrite Hframe. unfold pre2, pdu, pduBytes. rewrite <- !app_assoc. reflexivity. }
  destruct (Z.leb_spec (Z.of_nat (length frame)) (i + 12 + jab + 1)); [lia|].
  assert (HD : byteAt frame (i + 12 + jab + 1)
               = Returns (3 * Z.of_nat (length bools))).
  { apply (byteAt_at frame (pre2 ++ [0xab]) _ (booleansBytes bools ++ after)).
    - rewrite Hframe2, <- app_assoc. reflexivity.
    - rewrite length_app. simpl. lia. }
  rewrite HD. cbn [andThen].
  destruct (Z.ltb_spec (Z.of_nat (length frame))
              (i + 12 + jab + 3 * Z.of_nat (length bools))); [lia|].
  replace (Z.to_nat (3 * Z.of_nat (length bools)))
    with (length bools + 2 * length bools)%nat by lia.
  rewrite (readBooleans_layout frame (Z.of_nat (length frame)) (i + 12 + jab)
             (3 * Z.of_nat (length bools)) after eq_refl bools
             (pre2 ++ [0xab; 3 * Z.of_nat (length bools)]));
    [| rewrite Hframe2, <- app_assoc; reflexivity
     | rewrite length_app; simpl; lia
     | lia].
  reflexivity.
Qed.

(** A frame for the examples: the reference [IED1], a time allowed to live,
    and the booleans false and true. *)
Definition demoFrame : list Z :=
  gooseFrame [1; 12; 205; 1; 0; 1; 0; 32; 0; 0; 0; 2]
    [0x88; 0xb8; 0; 1; 0; 21; 0; 0; 0; 0]
    (bytesOf "IED1") [(0x81, [0; 0; 7; 208])] [0; 1] [].

Definition demoSubscription : Goose_info :=
  {| goCbRef := "IED1LD0/LLN0.gcb01"; mac_dst := [1; 12; 205; 1; 0; 1]; input := [] |}.

Definition demoSniffer (ev : option TripRuleEvaluator) : Sniffer :=
  {| digitalInput := repeat 0 16; goInfo := [demoSubscription]; tripEvaluator := ev |}.

(** X14. The subscription a frame belongs to.  For a frame whose PDU has
    its length in one byte, starts with the control block reference and
    carries booleans in [allData], the sniffer takes the frame for the
    first subscription whose [goCbRef] begins with the bytes of the
    reference in the frame: equality is not required, and an empty
    reference fits every subscription.  The booleans are then read as they
    stand in the frame and handed on; with no fitting subscription the
    frame is dropped and nothing changes. *)
Theorem process_GOOSE_packet_matches_prefix (stod : string -> result float)
    (now : Z) (before header ref : list Z) (fields : list (Z * list Z))
    (bools after : list Z) (sn : Sniffer) (tripFlag : bool) :
  length header = 10%nat ->
  (length (pduBytes ref fields bools) <= 127)%nat ->
  Forall plainField fields ->
  let frame := gooseFrame before header ref fields bools after in
  let out := process_GOOSE_packet stod now frame (Z.of_nat (length frame))
               (Z.of_nat (length before)) sn tripFlag in
  ((forall info, In info (goInfo sn) -> ~ ref `prefix_of` bytesOf (goCbRef info)) ->
   out = Returns (Unmatched, sn, tripFlag)) /\
  (forall k info,
     goInfo sn !! k = Some info ->
     ref `prefix_of` bytesOf (goCbRef info) ->
     (forall k' info', (k' < k)%nat -> goInfo sn !! k' = Some info' ->
                       ~ ref `prefix_of` bytesOf (goCbRef info')) ->
     out = deliver stod now k bools sn tripFlag).
Proof.
  intros Hheader Hshort Hplain frame out. subst out frame.
  rewrite (process_GOOSE_packet_layout stod now before header ref fields bools after
             sn tripFlag Hheader Hshort Hplain).
  split.
  - intros Hno. rewrite (matchPure_none ref (goInfo sn) 0 None Hno). reflexivity.
  - intros k info Hk Hp Hfirst.
    rewrite (matchPure_first ref (goInfo sn) 0 None k info Hk Hp Hfirst).
    reflexivity.
Qed.

Lemma process_GOOSE_packet_matches_prefix_demo :
  process_GOOSE_packet (fun _ => Ok 0%float) 0 demoFrame
    (Z.of_nat (length demoFrame)) 12 (demoSniffer None) false
  = deliver (fun _ => Ok 0%float) 0 0 [0; 1] (demoSniffer None) false.
Proof.
  refine (proj2 (process_GOOSE_packet_matches_prefix (fun _ => Ok 0%float) 0
                   [1; 12; 205; 1; 0; 1; 0; 32; 0; 0; 0; 2]
                   [0x88; 0xb8; 0; 1; 0; 21; 0; 0; 0; 0]
                   (bytesOf "IED1") [(0x81, [0; 0; 7; 208])] [0; 1] []
                   (demoSniffer None) false eq_refl _ _)
            0%nat demoSubscription eq_refl _ _).
  - vm_compute. lia.
  - repeat constructor; discriminate.
  - exists (bytesOf "LD0/LLN0.gcb01"). reflexivity.
  - intros k' info' Hlt. lia.
Defined.

(** X15. From a GOOSE frame to the trip flag.  A subscription with no
    input pairs, a fresh evaluator with the one rule
    [<goCbRef>/data<k> == true], and a frame of the layout above that the
    sniffer takes for that subscription: the frame is received, the
    digital inputs stay as they were, and the global trip flag is raised
    exactly when the boolean of position [k] of the frame is not zero; a
    frame with fewer than [k + 1] booleans, or with that boolean zero,
    leaves the flag as it was. *)
Theorem goose_frame_sets_trip_flag (stod : string -> result float) (now : Z)
    (before header ref : list Z) (fields : list (Z * list Z))
    (bools after : list Z) (sn : Sniffer) (tripFlag : bool)
    (idx : nat) (info : Goose_info) (ruleName : string) (k : nat) :
  length header = 10%nat ->
  (length (pduBytes ref fields bools) <= 127)%nat ->
  Forall plainField fields ->
  goInfo sn !! idx = Some info ->
  ref `prefix_of` bytesOf (goCbRef info) ->
  (forall k' info', (k' < idx)%nat -> goInfo sn !! k' = Some info' ->
                    ~ ref `prefix_of` bytesOf (goCbRef info')) ->
  input info = [] ->
  allChars identifierChar (goCbRef info) = true ->
  tripEvaluator sn
  = Some (snd (addRule ruleName
                 (goCbRef info ++ "/data" ++ to_string k ++ " == true")
                 newEvaluator)) ->
  let frame := gooseFrame before header ref fields bools after in
  exists sn',
    process_GOOSE_packet stod now frame (Z.of_nat (length frame))
      (Z.of_nat (length before)) sn tripFlag
    = Returns (Received, sn',
               match bools !! k with
               | Some b => negb (b =? 0)
               | None => false
               end || tripFlag) /\
    digitalInput sn' = digitalInput sn.
Proof.
  intros Hheader Hshort Hplain Hidx Hp Hfirst Hinput Href Hev frame. subst frame.
  rewrite (process_GOOSE_packet_layout stod now before header ref fields bools after
             sn tripFlag Hheader Hshort Hplain).
  rewrite (matchPure_first ref (goInfo sn) 0 None idx info Hidx Hp Hfirst).
  cbn [Nat.add]. unfold deliver. rewrite Hidx, Hinput. cbn [storeInputs andThen fst snd].
  rewrite Hev. unfold evaluateGoose. cbn [fst snd].
  fold (booleanRule (goCbRef info) k).
  rewrite (booleanRule_triggers stod ruleName (goCbRef info) k bools now Href).
  eexists. split.
  - match goal with
    | |- Returns (_, _, ?f1) = Returns (_, _, ?f2) =>
        replace f1 with f2; [reflexivity|]
    end.
    destruct (bools !! k) as [b|]; [destruct (negb (b =? 0))|]; reflexivity.
  - reflexivity.
Qed.

Lemma goose_frame_sets_trip_flag_demo :
  exists sn',
    process_GOOSE_packet (fun _ => Ok 0%float) 0 demoFrame
      (Z.of_nat (length demoFrame)) 12
      (demoSniffer
         (Some (snd (addRule "trip" "IED1LD0/LLN0.gcb01/data1 == true" newEvaluator))))
      false
    = Returns (Received, sn', true) /\
    digitalInput sn' = repeat 0 16.
Proof.
  refine (goose_frame_sets_trip_flag (fun _ => Ok 0%float) 0
            [1; 12; 205; 1; 0; 1; 0; 32; 0; 0; 0; 2]
            [0x88; 0xb8; 0; 1; 0; 21; 0; 0; 0; 0]
            (bytesOf "IED1") [(0x81, [0; 0; 7; 208])] [0; 1] []
            (demoSniffer
               (Some (snd (addRule "trip" "IED1LD0/LLN0.gcb01/data1 == true"
                             newEvaluator))))
            false 0%nat demoSubscription "trip" 1%nat
            eq_refl _ _ eq_refl _ _ eq_refl eq_refl eq_refl).
  - vm_compute. lia.
  - repeat constructor; discriminate.
  - exists (bytesOf "LD0/LLN0.gcb01"). reflexivity.
  - intros k' info' Hlt. lia.
Defined.

(** *** Every frame is read to the end *)

Definition byte (b : Z) : Prop := 0 <= b < 256.

(** An input pair names a digital input that exists. *)
Definition pairFits (inputs : nat) (dat : list Z) : Prop :=
  exists d0 d1 more,
    dat = d0 :: d1 :: more /\ 0 <= d0 < Z.of_nat inputs /\ 0 <= d1.

Definition validIdx (goIdx : option nat) (n : nat) : Prop :=
  match goIdx with
  | Some k => (k < n)%nat
  | None => True
  end.

Lemma byteAt_in (frame : list Z) (k : Z) :
  Forall byte frame -> 0 <= k < Z.of_nat (length frame) ->
  exists b, byteAt frame k = Returns b /\ byte b.
Proof.
  intros Hbytes Hk. unfold byteAt. destruct (Z.ltb_spec k 0); [lia|].
  destruct (lookup_lt_is_Some_2 frame (Z.to_nat k) ltac:(lia)) as [b Hb].
  rewrite Hb. exists b. split; [reflexivity|].
  exact (Forall_lookup_1 _ _ _ _ Hbytes Hb).
Qed.

Lemma bytesAt_in (frame : list Z) (k n : Z) :
  0 <= k -> k + n <= Z.of_nat (length frame) ->
  exists v, bytesAt frame k n = Returns v.
Proof.
  intros Hk Hn. unfold bytesAt. destruct (Z.ltb_spec k 0); [lia|].
  destruct (Z.ltb_spec (Z.of_nat (length frame)) (k + n)); [lia|]. eauto.
Qed.

Lemma matchRef_returns (frame : list Z) (start tlv_len : Z) :
  0 <= start -> start + tlv_len <= Z.of_nat (length frame) ->
  forall infos idx goIdx,
    validIdx goIdx (idx + length infos) ->
    exists r, matchRef frame start tlv_len infos idx goIdx = Returns r /\
              validIdx r (idx + length infos).
Proof.
  intros Hs Hl. induction infos as [|info rest IH]; intros idx goIdx Hv.
  - exists goIdx. split; [reflexivity|exact Hv].
  - cbn [matchRef length] in *.
    assert (Hrest : exists r,
              matchRef frame start tlv_len rest (S idx) goIdx = Returns r /\
              validIdx r (idx + S (length rest))).
    { destruct (IH (S idx) goIdx) as (r & Hr & Hvr).
      - destruct goIdx; simpl in *; lia.
      - exists r. split; [exact Hr|]. destruct r; simpl in *; lia. }
    destruct (tlv_len <=? Z.of_nat (String.length (goCbRef info))); [|exact Hrest].
    destruct (bytesAt_in frame start tlv_len Hs Hl) as [v ->]. cbn [andThen].
    destruct (bool_decide _); [|exact Hrest].
    exists (Some idx). split; [reflexivity|]. simpl. lia.
Qed.

Section Reads.
Context (frame : list Z) (frameSize i len : Z).
Context (Hbytes : Forall byte frame) (Hi : 0 <= i).

Lemma walkTlvs_returns (infos : list Goose_info) :
  frameSize <= Z.of_nat (length frame) ->
  forall fuel j goIdx,
    0 <= j -> len - j <= Z.of_nat fuel -> validIdx goIdx (length infos) ->
    exists r,
      walkTlvs fuel frame frameSize i len infos j goIdx = Returns r /\
      match r with
      | inl _ => True
      | inr (j', g) => 0 <= j' /\ validIdx g (length infos)
      end.
Proof.
  intros Hsize. induction fuel as [|fuel IH]; intros j goIdx Hj Hfuel Hv.
  - cbn [walkTlvs]. destruct (Z.ltb_spec j len); [lia|].
    eexists. split; [reflexivity|]. simpl. auto.
  - cbn [walkTlvs]. destruct (Z.ltb_spec j len); cbn [negb];
      [|eexists; split; [reflexivity|]; simpl; auto].
    destruct (Z.leb_spec frameSize (i + j + 1));
      [eexists; split; [reflexivity|exact I]|].
    destruct (byteAt_in frame (i + j) Hbytes ltac:(lia)) as (tag & -> & _).
    destruct (byteAt_in frame (i + j + 1) Hbytes ltac:(lia)) as (tlv_len & -> & Hb).
    cbn [andThen]. unfold byte in Hb.
    destruct (Z.ltb_spec frameSize (i + j + 2 + tlv_len));
      [eexists; split; [reflexivity|exact I]|].
    assert (Hg : exists g,
              (if tag =? 0x80
               then matchRef frame (i + j + 2) tlv_len infos 0 goIdx
               else Returns goIdx) = Returns g /\ validIdx g (length infos)).
    { destruct (tag =? 0x80); [|eauto].
      apply (matchRef_returns frame (i + j + 2) tlv_len ltac:(lia) ltac:(lia)
               infos 0%nat goIdx Hv). }
    destruct Hg as (g & -> & Hvg). cbn [andThen].
    destruct (tag =? 0xab); [eexists; split; [reflexivity|]; simpl; auto|].
    apply IH; [lia | lia | exact Hvg].
Qed.

Lemma readBooleans_returns :
  frameSize < Z.of_nat (length frame) ->
  forall fuel j boolDat,
    0 <= j -> len - j <= Z.of_nat fuel ->
    exists r, readBooleans fuel frame frameSize i len j boolDat = Returns r.
Proof.
  intros Hsize. induction fuel as [|fuel IH]; intros j boolDat Hj Hfuel.
  - cbn [readBooleans]. destruct (Z.ltb_spec j len); [lia|]. eauto.
  - cbn [readBooleans]. destruct (Z.ltb_spec j len); cbn [negb]; [|eauto].
    destruct (Z.leb_spec frameSize (i + j + 1)); [eauto|].
    destruct (byteAt_in frame (i + j) Hbytes ltac:(lia)) as (tag & -> & _).
    destruct (byteAt_in frame (i + j + 1) Hbytes ltac:(lia)) as (tlv_len & -> & Hb).
    cbn [andThen]. unfold byte in Hb.
    destruct (Z.ltb_spec frameSize (i + j + 2 + tlv_len)); [eauto|].
    assert (Hv : exists b,
              (if tag =? 0x83 then byteAt frame (i + j + 2) else Returns 0)
              = Returns b).
    { destruct (tag =? 0x83); [|eauto].
      destruct (byteAt_in frame (i + j + 2) Hbytes ltac:(lia)) as (b & Hb2 & _).
      eauto. }
    destruct Hv as (b & ->). cbn [andThen]. apply IH; lia.
Qed.

End Reads.

Lemma storeInputs_returns (boolDat : list Z) :
  forall inputs digital,
    Forall (pairFits (length digital)) inputs ->
    exists r, storeInputs inputs boolDat digital = Returns r.
Proof.
  induction inputs as [|dat rest IH]; intros digital Hfit; [simpl; eauto|].
  apply Forall_cons_1 in Hfit.
  destruct Hfit as [(d0 & d1 & more & -> & Hd0 & Hd1) Hrest].
  cbn [storeInputs].
  change (vectorAt (d0 :: d1 :: more) 0) with (Returns d0).
  change (vectorAt (d0 :: d1 :: more) 1) with (Returns d1). cbn [andThen].
  destruct (Z.leb_spec (Z.of_nat (length boolDat)) d0); [solve [eauto]|].
  destruct (Z.leb_spec (Z.of_nat (length boolDat)) d1); [solve [eauto]|].
  destruct (lookup_lt_is_Some_2 boolDat (Z.to_nat d1) ltac:(lia)) as [b Hb].
  unfold vectorAt. rewrite Hb. cbn [andThen].
  destruct (Z.leb_spec (Z.of_nat (length digital)) d0); [lia|].
  apply IH. rewrite length_insert. exact Hrest.
Qed.

Lemma deliver_returns (stod : string -> result float) (now : Z) (goIdx : nat)
    (boolDat : list Z) (sn : Sniffer) (tripFlag : bool) :
  (goIdx < length (goInfo sn))%nat ->
  Forall (fun info => Forall (pairFits (length (digitalInput sn))) (input info))
    (goInfo sn) ->
  exists r, deliver stod now goIdx boolDat sn tripFlag = Returns r.
Proof.
  intros Hidx Hfit. unfold deliver.
  destruct (lookup_lt_is_Some_2 (goInfo sn) goIdx Hidx) as [info Hinfo].
  rewrite Hinfo.
  destruct (storeInputs_returns boolDat (input info) (digitalInput sn)
              (Forall_lookup_1 _ _ _ _ Hfit Hinfo)) as [[message digital] ->].
  cbn [andThen fst snd].
  destruct message; [eauto|]. destruct (tripEvaluator sn); eauto.
Qed.

(** X16. Every frame is read to the end.  Whatever bytes a frame holds,
    and whatever lengths it announces, [process_GOOSE_packet] returns: its
    loops end, and it reads no byte further than the one that follows the
    frame in the receive buffer.  (That byte is read when a boolean of
    length zero ends the frame and the PDU ended before [allData].)  Every
    input entry of a subscription is taken to be a pair whose first member
    is the index of a digital input that exists. *)
Theorem process_GOOSE_packet_returns (stod : string -> result float) (now : Z)
    (frame : list Z) (frameSize i : Z) (sn : Sniffer) (tripFlag : bool) :
  Forall byte frame ->
  0 <= i ->
  frameSize < Z.of_nat (length frame) ->
  Forall (fun info => Forall (pairFits (length (digitalInput sn))) (input info))
    (goInfo sn) ->
  exists r, process_GOOSE_packet stod now frame frameSize i sn tripFlag = Returns r.
Proof.
  intros Hbytes Hi Hsize Hfit. unfold process_GOOSE_packet.
  destruct (Z.ltb_spec frameSize (i + 14)); [eauto|].
  assert (Hhead : exists r,
            readLength frame frameSize i = Returns r /\
            match r with
            | inl _ => True
            | inr (len, i1) => 0 <= i1
            end).
  { unfold readLength.
    destruct (byteAt_in frame (i + 11) Hbytes ltac:(lia)) as (first & -> & _).
    cbn [andThen].
    destruct (first =? 0x82).
    - destruct (Z.ltb_spec frameSize (i + 14)); [lia|].
      destruct (byteAt_in frame (i + 12) Hbytes ltac:(lia)) as (hi & -> & _).
      destruct (byteAt_in frame (i + 13) Hbytes ltac:(lia)) as (lo & -> & _).
      cbn [andThen]. eexists. split; [reflexivity|]. simpl. lia.
    - destruct (first =? 0x81).
      + destruct (Z.ltb_spec frameSize (i + 13)); [lia|].
        destruct (byteAt_in frame (i + 12) Hbytes ltac:(lia)) as (len & -> & _).
        cbn [andThen]. eexists. split; [reflexivity|]. simpl. lia.
      + eexists. split; [reflexivity|]. simpl. lia. }
  destruct Hhead as ([message|[len i1]] & -> & Hi1); cbn [andThen]; [eauto|].
  destruct (Z.ltb_spec frameSize (i1 + len)); [eauto|].
  destruct (walkTlvs_returns frame frameSize i1 len Hbytes Hi1 (goInfo sn)
              ltac:(lia) (Z.to_nat len) 0 None ltac:(lia) ltac:(lia) I)
    as ([message|[j [goIdx|]]] & -> & Hwalk); cbn [andThen]; [eauto| |eauto].
  destruct Hwalk as [Hj Hvalid]. simpl in Hvalid.
  destruct (Z.leb_spec frameSize (i1 + j + 1)); [eauto|].
  destruct (byteAt_in frame (i1 + j + 1) Hbytes ltac:(lia)) as (len2 & -> & _).
  cbn [andThen].
  destruct (Z.ltb_spec frameSize (i1 + j + len2)); [eauto|].
  destruct (readBooleans_returns frame frameSize (i1 + j) len2 Hbytes ltac:(lia)
              Hsize (Z.to_nat len2) 2 [] ltac:(lia) ltac:(lia)) as [boolDat ->].
  cbn [andThen].
  exact (deliver_returns stod now goIdx boolDat sn tripFlag Hvalid Hfit).
Qed.

(** A frame whose PDU ends after an empty reference, which fits every
    subscription, and which ends in a boolean of length zero. *)
Definition zeroLengthBoolean : list Z :=
  [1; 12; 205; 1; 0; 1; 0; 32; 0; 0; 0; 2;
   0x88; 0xb8; 0; 1; 0; 14; 0; 0; 0; 0; 0x61; 2;
   0x80; 0; 0xab; 3; 0x83; 0].

Lemma process_GOOSE_packet_returns_demo :
  exists r,
    process_GOOSE_packet (fun _ => Ok 0%float) 0 (zeroLengthBoolean ++ [0xee]) 30 12
      (demoSniffer None) false
    = Returns r.
Proof.
  apply (process_GOOSE_packet_returns (fun _ => Ok 0%float) 0
           (zeroLengthBoolean ++ [0xee]) 30 12 (demoSniffer None) false).
  - unfold zeroLengthBoolean, byte. repeat (constructor; [lia|]). constructor.
  - lia.
  - vm_compute. reflexivity.
  - repeat constructor.
Defined.

(** With no byte after the frame in the buffer, the same frame is read
    past its end: the boolean of length zero is read at position 30. *)
Example process_GOOSE_packet_reads_past_frame :
  process_GOOSE_packet (fun _ => Ok 0%float) 0 zeroLengthBoolean 30 12
    (demoSniffer None) false
  = OutOfBounds /\
  process_GOOSE_packet (fun _ => Ok 0%float) 0 (zeroLengthBoolean ++ [0xee]) 30 12
    (demoSniffer None) false
  = Returns (Received, demoSniffer None, false).
Proof. split; vm_compute; reflexivity. Qed.

End SnifferGooseProps.

Module SVPublisherManagerProps.
Import Json SVPublisher SVPublisherManager.

(** A creation request that gives the two MAC strings, the VLAN fields and
    the sample rate, and leaves the rest to the defaults. *)
Definition request (vid prio rate : Z) (dst src : string) : json :=
  JObject [("macDst"%string, JString dst); ("macSrc"%string, JString src);
           ("vlanId"%string, JInt vid); ("vlanPrio"%string, JInt prio);
           ("sampleRate"%string, JInt rate)].

Lemma u16_toInt32 (z : Z) : u16 (toInt32 z) = z mod 65536.
Proof. unfold u16, toInt32. Z.div_mod_to_equations. lia. Qed.

Lemma u8_toInt32 (z : Z) : u8 (toInt32 z) = z mod 256.
Proof. unfold u8, toInt32. Z.div_mod_to_equations. lia. Qed.

Lemma u32_toInt32 (z : Z) : u32 (toInt32 z) = z mod 4294967296.
Proof. unfold u32, toInt32. Z.div_mod_to_equations. lia. Qed.

Lemma parseConfig_request (vid prio rate : Z) (dst src : string) :
  parseConfig (request vid prio rate dst src) =
  Ok {| appId := "0x4000"; macDst := dst; macSrc := src;
        vlanId := vid mod 65536; vlanPrio := prio mod 256;
        svId := "IED1MU01"; dstAddress := ""; nominalFreq := 60;
        sampleRate := rate mod 4294967296; dataSource := MANUAL;
        filePath := "" |}.
Proof.
  unfold parseConfig, request. cbn.
  rewrite u16_toInt32, u8_toInt32, u32_toInt32. reflexivity.
Qed.

(** C3, as the code has it.  Creation does not validate the VLAN fields,
    the MAC strings or the sample rate: whatever their values, once the raw
    socket opens the stream is added under the generated id and that id is
    returned; the MAC strings are stored as given and the VLAN id, the VLAN
    priority and the sample rate are narrowed to 16, 8 and 32 bits.  When
    creation fails (the request cannot be read, or no socket), no stream is
    added. *)
Theorem createStream_does_not_validate (streams_ : gmap string SVPublisherInstance)
    (vid prio rate : Z) (dst src : string) (generated : string) (fd : Z)
    (strerror_errno : string) :
  0 <= fd ->
  (exists instance,
     createStream streams_ (request vid prio rate dst src) generated fd
       strerror_errno
       = (Ok generated, <[generated := instance]> streams_) /\
     id_ instance = generated /\
     running_ instance = false /\
     sampleCounter_ instance = 0 /\
     macDst (config_ instance) = dst /\
     macSrc (config_ instance) = src /\
     vlanId (config_ instance) = vid mod 65536 /\
     vlanPrio (config_ instance) = prio mod 256 /\
     sampleRate (config_ instance) = rate mod 4294967296) /\
  (forall config fd' text e,
     (createStream streams_ config generated fd' text).1 = Err e ->
     (createStream streams_ config generated fd' text).2 = streams_).
Proof.
  intros Hfd. split.
  - unfold createStream. rewrite parseConfig_request.
    unfold newInstance. destruct (Z.ltb_spec fd 0); [lia|].
    eexists. split; [reflexivity|]. simpl. repeat split; reflexivity.
  - intros config fd' text e. unfold createStream.
    destruct (parseConfig config) as [c|e']; simpl; [|reflexivity].
    destruct (newInstance generated c fd' text) as [i|e']; simpl;
      [discriminate|reflexivity].
Qed.

Lemma createStream_does_not_validate_demo :
  exists instance,
    createStream ∅ (request 100 4 4800 "01:0C:CD:04:00:00" "AA:BB:CC:DD:EE:01")
      "stream-1" 3 "Success"
      = (Ok "stream-1"%string, <["stream-1"%string := instance]> ∅) /\
    id_ instance = "stream-1"%string /\
    running_ instance = false /\
    sampleCounter_ instance = 0 /\
    macDst (config_ instance) = "01:0C:CD:04:00:00"%string /\
    macSrc (config_ instance) = "AA:BB:CC:DD:EE:01"%string /\
    vlanId (config_ instance) = 100 mod 65536 /\
    vlanPrio (config_ instance) = 4 mod 256 /\
    sampleRate (config_ instance) = 4800 mod 4294967296.
Proof.
  apply (createStream_does_not_validate ∅ 100 4 4800). lia.
Defined.

(** C3 as the specification words it does not hold: a request whose VLAN
    id is 5000, whose VLAN priority is 9, whose sample rate is 0 and whose
    destination MAC is not a MAC string is accepted, and the stream is
    added with these values. *)
Lemma createStream_accepts_out_of_range :
  exists instance,
    (createStream ∅ (request 5000 9 0 "not-a-mac" "AA:BB:CC:DD:EE:01") "stream-1" 3
       "Success").1
      = Ok "stream-1"%string /\
    (createStream ∅ (request 5000 9 0 "not-a-mac" "AA:BB:CC:DD:EE:01") "stream-1" 3
       "Success").2
      !! "stream-1"%string = Some instance /\
    vlanId (config_ instance) = 5000 /\
    vlanPrio (config_ instance) = 9 /\
    sampleRate (config_ instance) = 0 /\
    macDst (config_ instance) = "not-a-mac"%string /\
    Ethernet.macShape (macDst (config_ instance)) = false /\
    Ethernet.macStrToBytes (macDst (config_ instance))
      = Err (InvalidArgument "Invalid MAC address format: expected XX:XX:XX:XX:XX:XX").
Proof.
  eexists. split; [vm_compute; reflexivity|].
  split; [vm_compute; reflexivity|].
  vm_compute. repeat split; reflexivity.
Qed.

End SVPublisherManagerProps.

Module SVPublisherRegistryProps.
Import Json SVPublisher SVPublisherManager SVPublisherJson SVPublisherRegistry.
Import SVPublisherManagerProps.

(** A configuration whose fields hold values of their C++ types, and whose
    file path is the empty string of a default-constructed [SVConfig] when
    the data source does not use it. *)
Definition typed (c : SVConfig) : Prop :=
  0 <= vlanId c < 65536 /\ 0 <= vlanPrio c < 256 /\
  0 <= sampleRate c < 4294967296 /\
  (dataSource c = MANUAL -> filePath c = EmptyString).

Lemma parseConfig_typed (j : json) (c : SVConfig) :
  parseConfig j = Ok c -> typed c.
Proof.
  unfold parseConfig.
  repeat match goal with
  | |- context [mbind _ (value ?g j ?k ?d)] =>
      destruct (value g j k d); cbn [mbind result_bind]; [|discriminate]
  end.
  match goal with
  | |- context [get_dataSource j ?s] =>
      destruct (get_dataSource j s) as [[ds path]|] eqn:Hds;
        cbn [mbind result_bind]; [|discriminate]
  end.
  intros [= <-]. unfold typed; simpl.
  repeat split; try (apply Z.mod_pos_bound; lia).
  intros ->. revert Hds. unfold get_dataSource.
  repeat match goal with
  | |- context [if ?b then _ else _] => destruct b
  | |- context [mbind _ ?m] => destruct m; cbn [mbind result_bind]
  end; congruence.
Qed.

Lemma parseConfig_toJson (p : SVPublisherInstance) :
  typed (config_ p) -> parseConfig (toJson p) = Ok (config_ p).
Proof.
  intros (Hv & Hp & Hr & Hf).
  destruct p as [id c running phasors harmonics counter fd].
  destruct c as [appId macDst macSrc vlanId vlanPrio svId dstAddress
                 nominalFreq sampleRate dataSource filePath].
  simpl in *.
  unfold toJson.
  destruct dataSource;
    match goal with
    | |- context [JObject ?m] =>
        let m' := eval vm_compute in m in change m with m'
    end;
    unfold parseConfig; cbn;
    rewrite u16_toInt32, u8_toInt32, u32_toInt32, !Z.mod_small by lia;
    try rewrite Hf by reflexivity; reflexivity.
Qed.

(** X17. The JSON a stream reports is a request for the same stream: for
    every stream whose configuration was read from a request,
    [parseConfig] of its [toJson] gives that configuration back, whatever
    its running state, phasors and harmonics. *)
Theorem toJson_parseConfig_round_trip (request : json) (p : SVPublisherInstance) :
  parseConfig request = Ok (config_ p) ->
  parseConfig (toJson p) = Ok (config_ p).
Proof.
  intros Hparsed. apply parseConfig_toJson.
  exact (parseConfig_typed request (config_ p) Hparsed).
Qed.

Definition demoRequest : json :=
  request 100 4 4800 "01:0C:CD:04:00:00" "AA:BB:CC:DD:EE:01".

Definition demoStream : SVPublisherInstance :=
  {| id_ := "stream-1";
     config_ :=
       {| appId := "0x4000"; macDst := "01:0C:CD:04:00:00";
          macSrc := "AA:BB:CC:DD:EE:01"; vlanId := 100; vlanPrio := 4;
          svId := "IED1MU01"; dstAddress := ""; nominalFreq := 60;
          sampleRate := 4800; dataSource := MANUAL; filePath := "" |};
     running_ := true;
     phasors_ := [{| magnitude := 100; angle := 0 |};
                  {| magnitude := 100; angle := -120 |}];
     harmonics_ := JArray []; sampleCounter_ := 12; rawSocket_ := 3 |}.

Lemma toJson_parseConfig_round_trip_demo :
  parseConfig (toJson demoStream) = Ok (config_ demoStream).
Proof.
  apply (toJson_parseConfig_round_trip demoRequest demoStream).
  vm_compute. reflexivity.
Defined.

Lemma parsePhasors_phasorJson (phasors : list Phasor) :
  parsePhasors (map phasorJson phasors) = Ok phasors.
Proof.
  induction phasors as [|[m a] phasors IH]; [reflexivity|].
  cbn [map parsePhasors]. rewrite IH. reflexivity.
Qed.

Lemma phasorsOf_toJson (p : SVPublisherInstance) :
  phasorsOf (toJson p) = Ok (phasors_ p).
Proof.
  unfold toJson.
  destruct (dataSource (config_ p));
    match goal with
    | |- context [JObject ?m] =>
        let m' := eval vm_compute in m in change m with m'
    end;
    cbn [phasorsOf assoc String.eqb Ascii.eqb Bool.eqb];
    apply parsePhasors_phasorJson.
Qed.

(** X18. The phasors a stream reports are phasors it accepts: the ["phasors"]
    array of [toJson] read back by [updatePhasors] gives the phasors of the
    stream, so [updatePhasors] with the stream's own JSON changes nothing. *)
Theorem updatePhasors_toJson (streams_ : streams) (streamId : string)
    (p : SVPublisherInstance) :
  streams_ !! streamId = Some p ->
  phasorsOf (toJson p) = Ok (phasors_ p) /\
  updatePhasors streams_ streamId (toJson p) = (Ok tt, streams_).
Proof.
  intros Hp. split; [apply phasorsOf_toJson|].
  unfold updatePhasors. rewrite Hp, phasorsOf_toJson.
  f_equal. rewrite <- (insert_id streams_ streamId p Hp) at 2.
  f_equal. destruct p; reflexivity.
Qed.

Lemma updatePhasors_toJson_demo :
  phasorsOf (toJson demoStream) = Ok (phasors_ demoStream) /\
  updatePhasors {["stream-1"%string := demoStream]} "stream-1" (toJson demoStream)
  = (Ok tt, {["stream-1"%string := demoStream]}).
Proof.
  apply (updatePhasors_toJson {["stream-1"%string := demoStream]} "stream-1" demoStream).
  apply lookup_singleton_eq.
Defined.

(** X19. What the sequence engine's hook does to a stream:
    [updateStreamPhasors] hands [updatePhasors] an object with the members
    ["freq"] and ["channels"] only, and [updatePhasors] reads ["phasors"];
    so on a known stream, whatever frequency and channels are given, the
    stream is left with no phasors at all, its configuration, running state
    and counter untouched.  On an unknown stream nothing happens and nothing
    is thrown. *)
Theorem updateStreamPhasors_clears (streams_ : streams) (streamId : string)
    (freq : float) (channels : list (string * (float * float))) :
  (forall p, streams_ !! streamId = Some p ->
     updateStreamPhasors streams_ streamId freq channels
     = (Ok tt, <[streamId := setPhasors [] p]> streams_)) /\
  (streams_ !! streamId = None ->
     updateStreamPhasors streams_ streamId freq channels = (Ok tt, streams_)).
Proof.
  unfold updateStreamPhasors, updatePhasors. split.
  - intros p Hp. rewrite Hp. reflexivity.
  - intros Hnone. rewrite Hnone. reflexivity.
Qed.

(** X20. A stream that was created can be looked up and deleted: after
    [createStream] returned an id that was not in use, [getInstance] finds
    under it a stopped instance with counter 0 and the configuration read
    from the request, [getStream] reports its JSON, every other id is as
    before, and [deleteStream] of the id gives the registry from before the
    creation, after which the id is unknown again. *)
Theorem createStream_then_delete (streams_ streams' : streams) (config : json)
    (generated : string) (fd : Z) (strerror_errno : string) (streamId : string) :
  streams_ !! generated = None ->
  createStream streams_ config generated fd strerror_errno
    = (Ok streamId, streams') ->
  exists instance svConfig,
    streamId = generated /\
    parseConfig config = Ok svConfig /\
    getInstance streams' streamId = Some instance /\
    config_ instance = svConfig /\ running_ instance = false /\
    sampleCounter_ instance = 0 /\ id_ instance = streamId /\
    getStream streams' streamId = Ok (toJson instance) /\
    (forall other, other <> streamId ->
       getInstance streams' other = getInstance streams_ other) /\
    deleteStream streams' streamId = (Ok tt, streams_) /\
    getStream streams_ streamId = Err (notFound streamId).
Proof.
  intros Hfresh. unfold createStream.
  destruct (parseConfig config) as [svConfig|e]; [|discriminate].
  unfold newInstance. destruct (fd <? 0); [discriminate|].
  intros [= <- <-].
  eexists _, svConfig. split; [reflexivity|]. split; [reflexivity|].
  unfold getInstance, getStream, deleteStream.
  rewrite lookup_insert_eq, Hfresh. simpl.
  repeat split; try reflexivity.
  - intros other Hother. apply lookup_insert_ne. congruence.
  - f_equal. rewrite delete_insert_eq. apply delete_id. exact Hfresh.
Qed.

Lemma createStream_then_delete_demo :
  exists streams' instance,
    createStream ∅ demoRequest "stream-1" 3 "Success"
      = (Ok "stream-1"%string, streams') /\
    getInstance streams' "stream-1" = Some instance /\
    sampleCounter_ instance = 0 /\
    deleteStream streams' "stream-1" = (Ok tt, ∅).
Proof.
  destruct (createStream ∅ demoRequest "stream-1" 3 "Success")
    as [r streams'] eqn:Hc.
  assert (Hr : r = Ok "stream-1"%string) by (revert Hc; vm_compute; congruence).
  subst r.
  destruct (createStream_then_delete ∅ streams' demoRequest "stream-1" 3 "Success"
              "stream-1")
    as (instance & svConfig & _ & _ & Hget & _ & _ & Hcount & _ & _ & _ & Hdel & _);
    [apply lookup_empty | exact Hc |].
  exists streams', instance. auto.
Defined.

(** What one [tick] does to a stream that can send, if it runs. *)
Definition ticked (p : SVPublisherInstance) : SVPublisherInstance :=
  if running_ p then set_sampleCounter (u32 (sampleCounter_ p + 1)) p else p.

Definition runs (streams_ : streams) (streamId : string) : bool :=
  match streams_ !! streamId with
  | Some p => running_ p
  | None => false
  end.

Lemma idsInOrder_NoDup (streams_ : streams) : NoDup (idsInOrder streams_).
Proof.
  unfold idsInOrder. rewrite merge_sort_Permutation. apply NoDup_elements.
Qed.

Lemma idsInOrder_elem (streams_ : streams) (streamId : string) :
  streamId ∈ idsInOrder streams_ <-> is_Some (streams_ !! streamId).
Proof.
  unfold idsInOrder. rewrite merge_sort_Permutation, elem_of_elements.
  apply elem_of_dom.
Qed.

Section Ticks.
Context (pf : Platform).

Lemma tick_stopped (p : SVPublisherInstance) :
  running_ p = false -> tick pf p = Ok (p, None).
Proof. intros Hr. unfold tick. rewrite Hr. reflexivity. Qed.

Lemma tickEach_spec (ids : list string) :
  NoDup ids ->
  forall streams_ : streams,
    (forall streamId p,
       streamId ∈ ids -> streams_ !! streamId = Some p -> running_ p = true ->
       SVPublisherProps.canSend p = true) ->
    exists frames streams',
      tickEach pf ids streams_ = (Ok frames, streams') /\
      length frames = length (List.filter (runs streams_) ids) /\
      forall k,
        streams' !! k
        = if decide (k ∈ ids) then ticked <$> streams_ !! k else streams_ !! k.
Proof.
  induction 1 as [|streamId rest Hnotin Hnodup IH]; intros streams_ Hcan.
  - exists [], streams_. split; [reflexivity|]. split; [reflexivity|].
    intros k. destruct (decide (k ∈ [])) as [Hk|_]; [|reflexivity].
    apply elem_of_nil in Hk. contradiction.
  - cbn [tickEach List.filter]. unfold runs at 1.
    assert (Hrest : forall (p' : SVPublisherInstance) (k : string),
              k ∈ rest -> <[streamId := p']> streams_ !! k = streams_ !! k).
    { intros p' k Hk. apply lookup_insert_ne. intros ->. contradiction. }
    assert (Hfilter : forall p' : SVPublisherInstance,
              List.filter (runs (<[streamId := p']> streams_)) rest
              = List.filter (runs streams_) rest).
    { intros p'. apply List.filter_ext_in. intros k Hk. unfold runs.
      rewrite Hrest; [reflexivity|]. apply list_elem_of_In. exact Hk. }
    destruct (streams_ !! streamId) as [p|] eqn:Hp.
    + assert (Ht : exists sent,
                tick pf p = Ok (ticked p, sent) /\
                length (from_option (fun f => [f]) [] sent)
                = length (if running_ p then [streamId] else [])).
      { unfold ticked. destruct (running_ p) eqn:Hrun.
        - destruct (SVPublisherProps.tick_ok pf p) as [frame Hframe].
          { apply (Hcan streamId); [left | exact Hp | exact Hrun]. }
          exists (Some frame). split; [exact Hframe | reflexivity].
        - exists None. split; [apply tick_stopped; exact Hrun | reflexivity]. }
      destruct Ht as (sent & -> & Hsent).
      destruct (IH (<[streamId := ticked p]> streams_)) as (frames & streams' & -> & Hlen & Hmap).
      { intros k q Hk Hq. rewrite Hrest in Hq by exact Hk.
        apply (Hcan k q); [right; exact Hk | exact Hq]. }
      eexists _, streams'. split; [reflexivity|]. split.
      * rewrite length_app, Hsent, Hlen, Hfilter.
        destruct (running_ p); reflexivity.
      * intros k. rewrite Hmap.
        destruct (decide (k = streamId)) as [->|Hne].
        -- rewrite decide_False by exact Hnotin.
           rewrite decide_True by left. rewrite lookup_insert_eq, Hp. reflexivity.
        -- rewrite lookup_insert_ne by congruence.
           destruct (decide (k ∈ rest)) as [Hk|Hk].
           ++ rewrite decide_True by (right; exact Hk). reflexivity.
           ++ rewrite decide_False; [reflexivity|].
              intros [?|?]%elem_of_cons; contradiction.
    + destruct (IH streams_) as (frames & streams' & -> & Hlen & Hmap).
      { intros k q Hk. apply Hcan. right. exact Hk. }
      exists frames, streams'. split; [reflexivity|]. split; [exact Hlen|].
      intros k. rewrite Hmap.
      destruct (decide (k = streamId)) as [->|Hne].
      * rewrite decide_False by exact Hnotin.
        rewrite decide_True by left. rewrite Hp. reflexivity.
      * destruct (decide (k ∈ rest)) as [Hk|Hk].
        -- rewrite decide_True by (right; exact Hk). reflexivity.
        -- rewrite decide_False; [reflexivity|].
           intros [?|?]%elem_of_cons; contradiction.
Qed.

Lemma tickAll_spec (streams_ : streams) :
  (forall streamId p,
     streams_ !! streamId = Some p -> running_ p = true ->
     SVPublisherProps.canSend p = true) ->
  exists frames,
    tickAll pf streams_ = (Ok frames, ticked <$> streams_) /\
    length frames = length (List.filter (runs streams_) (idsInOrder streams_)).
Proof.
  intros Hcan. unfold tickAll.
  destruct (tickEach_spec (idsInOrder streams_) (idsInOrder_NoDup streams_) streams_)
    as (frames & streams' & Ht & Hlen & Hmap).
  { intros streamId p _. apply Hcan. }
  exists frames. split; [|exact Hlen].
  rewrite Ht. f_equal. apply map_eq. intros k.
  rewrite Hmap, lookup_fmap.
  destruct (decide (k ∈ idsInOrder streams_)) as [Hk|Hk]; [reflexivity|].
  rewrite idsInOrder_elem in Hk.
  destruct (streams_ !! k); [|reflexivity].
  exfalso. apply Hk. eauto.
Qed.

(** Whatever [tickAll] does, it keeps the set of ids. *)
Lemma tickEach_dom (ids : list string) :
  forall streams_ : streams, dom (tickEach pf ids streams_).2 = dom streams_.
Proof.
  induction ids as [|streamId rest IH]; intros streams_; [reflexivity|].
  cbn [tickEach].
  destruct (streams_ !! streamId) as [p|] eqn:Hp; [|apply IH].
  destruct (tick pf p) as [[p' sent]|e]; [|reflexivity].
  specialize (IH (<[streamId := p']> streams_)).
  destruct (tickEach pf rest (<[streamId := p']> streams_)) as [[frames|e] streams'];
    simpl in *; rewrite IH; apply dom_insert_lookup_L; eauto.
Qed.

End Ticks.



(** X22. After [stopAll] nothing is sent: every stream is stopped, with its
    configuration, phasors and sample counter kept, and a round of
    [tickAll] then throws nothing, sends no frame and leaves the registry as
    it is, whatever the streams are configured with. *)
Theorem stopAll_then_tickAll (pf : Platform) (streams_ : streams) :
  (forall streamId p,
     streams_ !! streamId = Some p ->
     stopAll streams_ !! streamId = Some (stop p) /\
     running_ (stop p) = false /\ config_ (stop p) = config_ p /\
     phasors_ (stop p) = phasors_ p /\
     sampleCounter_ (stop p) = sampleCounter_ p) /\
  tickAll pf (stopAll streams_) = (Ok [], stopAll streams_).
Proof.
  split.
  { intros streamId p Hp. unfold stopAll. rewrite lookup_fmap, Hp.
    repeat split; reflexivity. }
  assert (Hstopped : forall streamId p,
            stopAll streams_ !! streamId = Some p -> running_ p = false).
  { intros streamId p. unfold stopAll. rewrite lookup_fmap.
    destruct (streams_ !! streamId); intros [= <-]. reflexivity. }
  assert (Hnone : List.filter (runs (stopAll streams_)) (idsInOrder (stopAll streams_)) = []).
  { induction (idsInOrder (stopAll streams_)) as [|streamId ids IH]; [reflexivity|].
    cbn [List.filter]. unfold runs at 1.
    destruct (stopAll streams_ !! streamId) as [p|] eqn:Hp; [|exact IH].
    rewrite (Hstopped _ _ Hp). exact IH. }
  destruct (tickAll_spec pf (stopAll streams_)) as (frames & -> & Hlen).
  { intros streamId p Hp Hrun. rewrite (Hstopped _ _ Hp) in Hrun. discriminate. }
  rewrite Hnone in Hlen. destruct frames; [|discriminate].
  f_equal. apply map_eq. intros k. rewrite lookup_fmap.
  destruct (stopAll streams_ !! k) as [p|] eqn:Hp; [|reflexivity].
  simpl. unfold ticked. rewrite (Hstopped _ _ Hp). reflexivity.
Qed.

(** X23. Only [createStream] and [deleteStream] change which streams exist:
    every other operation of the registry leaves the set of ids as it is,
    whether it returns or throws, a round of [tickAll] that throws midway
    included; and an operation on a single stream that throws leaves the
    whole registry untouched. *)
Theorem registry_ids_stable (pf : Platform) (streams_ : streams)
    (streamId : string) (data : json) (freq : float)
    (channels : list (string * (float * float))) :
  let outcomes :=
    [updateStream streams_ streamId data;
     startStream streams_ streamId;
     stopStream streams_ streamId;
     updatePhasors streams_ streamId data;
     updateHarmonics streams_ streamId data;
     updateStreamPhasors streams_ streamId freq channels] in
  Forall (fun out : result unit * streams =>
            dom (snd out) = dom streams_ /\
            (forall e, fst out = Err e -> snd out = streams_)) outcomes /\
  dom (startAll streams_) = dom streams_ /\
  dom (stopAll streams_) = dom streams_ /\
  dom (snd (tickAll pf streams_)) = dom streams_.
Proof.
  cbv zeta.
  assert (Hins : forall p q : SVPublisherInstance,
            streams_ !! streamId = Some p ->
            dom (<[streamId := q]> streams_) = dom streams_).
  { intros p q Hp. apply dom_insert_lookup_L. eauto. }
  assert (Hkept : forall r : result unit,
            dom (snd (r, streams_)) = dom streams_ /\
            (forall e, fst (r, streams_) = Err e -> snd (r, streams_) = streams_)).
  { intros r. split; [reflexivity|]. intros e _. reflexivity. }
  assert (Hput : forall p q : SVPublisherInstance,
            streams_ !! streamId = Some p ->
            dom (snd (Ok tt, <[streamId := q]> streams_)) = dom streams_ /\
            (forall e, fst (Ok tt, <[streamId := q]> streams_) = Err e ->
                       snd (Ok tt, <[streamId := q]> streams_) = streams_)).
  { intros p q Hp. split; [exact (Hins p q Hp)|]. intros e. discriminate. }
  split; [|split; [|split]].
  - unfold updateStream, startStream, stopStream, updatePhasors, updateHarmonics,
      updateStreamPhasors, updatePhasors.
    destruct (streams_ !! streamId) as [p|] eqn:Hp.
    + destruct (parseConfig data) as [c|e]; destruct (phasorsOf data) as [phs|e'];
        destruct (phasorsOf (streamPhasorData freq channels)) as [phs'|e''];
        repeat (apply Forall_cons_2;
                [lazymatch goal with
                 | |- dom (snd (Ok _, _)) = _ /\ _ => eapply Hput; reflexivity
                 | |- _ => apply Hkept
                 end|]);
        apply Forall_nil_2.
    + repeat (apply Forall_cons_2; [apply Hkept|]); apply Forall_nil_2.
  - apply dom_fmap_L.
  - apply dom_fmap_L.
  - unfold tickAll. apply tickEach_dom.
Qed.

End SVPublisherRegistryProps.

Module SequenceEngineProps.
Import SequenceEngine.

(** *** Reading a trace *)

(** What a transition event claims holds of the sequence: the state has the
    transition kind the cause belongs to, the duration is the state's, in
    nanoseconds, and it has elapsed. *)
Definition isTime (t : TransitionType) : bool :=
  match t with TIME => true | GOOSE_TRIP => false end.

Definition expired (state : SequenceState) (elapsedNs durationNs : Z) : bool :=
  match durationMicros state with
  | Some us => (durationNs =? i64 (us * 1000)) && (durationNs <=? elapsedNs)
  | None => false
  end.

Definition justified (sq : Sequence) (k : nat) (cause : Cause) : bool :=
  match states sq !! k with
  | None => false
  | Some state =>
      match cause with
      | DurationExpired el du => isTime (transition state) && expired state el du
      | TripDetected => negb (isTime (transition state))
      | TripTimeout el du => negb (isTime (transition state)) && expired state el du
      end
  end.

(** What a reader of the trace remembers: the index stored last and the
    states whose transition has fired. *)
Record Scan : Type := { cur : Z; fired : list nat }.

Definition firedBefore (j : nat) (s : Scan) : bool :=
  match j with
  | O => true
  | S k => existsb (Nat.eqb k) (fired s)
  end.

(** The reader refuses a phasor update for a state that is not the current
    one or whose predecessor has not fired, and a transition that is not
    justified. *)
Definition step (sq : Sequence) (s : Scan) (e : Event) : option Scan :=
  match e with
  | StoreIndex i => Some {| cur := i; fired := fired s |}
  | Transition k cause =>
      if justified sq k cause then Some {| cur := cur s; fired := k :: fired s |}
      else None
  | PhasorUpdate j _ _ =>
      if (cur s =? Z.of_nat j) && firedBefore j s then Some s else None
  | _ => Some s
  end.

Fixpoint scan (sq : Sequence) (s : Scan) (tr : list Event) : option Scan :=
  match tr with
  | [] => Some s
  | e :: rest =>
      match step sq s e with
      | Some s' => scan sq s' rest
      | None => None
      end
  end.

Definition scan0 : Scan := {| cur := -1; fired := [] |}.

(** The index stored last in [pre], [c] if none was. *)
Definition lastIndexFrom (c : Z) (pre : list Event) : Z :=
  fold_left (fun c e => match e with StoreIndex i => i | _ => c end) pre c.

Lemma scan_snoc (sq : Sequence) (s : Scan) (tr : list Event) (e : Event) :
  scan sq s (tr ++ [e])
  = match scan sq s tr with Some s' => step sq s' e | None => None end.
Proof.
  revert s. induction tr as [|x tr IH]; intros s; simpl.
  - destruct (step sq s e); reflexivity.
  - destruct (step sq s x); [apply IH | reflexivity].
Qed.

(** How one accepted event moves the reader. *)
Lemma step_inv (sq : Sequence) (s s' : Scan) (e : Event) :
  step sq s e = Some s' ->
  cur s' = match e with StoreIndex i => i | _ => cur s end /\
  (forall k, In k (fired s') ->
     In k (fired s) \/ exists cause, e = Transition k cause) /\
  (forall j sid st, e = PhasorUpdate j sid st ->
     cur s = Z.of_nat j /\ firedBefore j s = true) /\
  (forall k cause, e = Transition k cause -> justified sq k cause = true).
Proof.
  intros H.
  assert (Hplain : forall s1, Some s = Some s1 ->
            (forall j sid st, e <> PhasorUpdate j sid st) ->
            (forall k cause, e <> Transition k cause) ->
            cur s = match e with StoreIndex i => i | _ => cur s end ->
            cur s1 = match e with StoreIndex i => i | _ => cur s end /\
            (forall k, In k (fired s1) ->
               In k (fired s) \/ exists cause, e = Transition k cause) /\
            (forall j sid st, e = PhasorUpdate j sid st ->
               cur s = Z.of_nat j /\ firedBefore j s = true) /\
            (forall k cause, e = Transition k cause ->
               justified sq k cause = true)).
  { intros s1 [= <-] Hp Ht Hc. split; [exact Hc|]. split; [auto|].
    split; [intros j sid st E; destruct (Hp _ _ _ E)
           | intros k c E; destruct (Ht _ _ E)]. }
  destruct e; simpl in H; try (apply Hplain; [exact H | discriminate ..| reflexivity]).
  - injection H as <-. simpl. split; [reflexivity|]. split; [auto|].
    split; intros; discriminate.
  - destruct (Z.eqb_spec (cur s) (Z.of_nat stateIndex)); simpl in H; [|discriminate].
    destruct (firedBefore stateIndex s) eqn:Hf; [|discriminate].
    injection H as <-. split; [reflexivity|]. split; [auto|].
    split; [|intros; discriminate].
    intros j sid st0 [= <- _ _]. auto.
  - destruct (justified sq stateIndex cause) eqn:Hj; [|discriminate].
    injection H as <-. simpl. split; [reflexivity|]. split; [|split].
    + intros k [<-|Hin]; [right; eauto | left; exact Hin].
    + intros; discriminate.
    + intros k c [= <- <-]. exact Hj.
Qed.

(** A trace the reader accepts has every phasor update in its place and
    only justified transitions. *)
Lemma scan_sound (sq : Sequence) (tr : list Event) :
  forall (s0 s : Scan),
    scan sq s0 tr = Some s ->
    (forall pre j sid st post,
       tr = pre ++ PhasorUpdate j sid st :: post ->
       lastIndexFrom (cur s0) pre = Z.of_nat j /\
       forall k, j = S k ->
         In k (fired s0) \/ exists cause, In (Transition k cause) pre) /\
    (forall k cause, In (Transition k cause) tr -> justified sq k cause = true).
Proof.
  induction tr as [|e tr IH]; intros s0 s Hscan.
  - split; [intros [|? ?]; discriminate | intros k c []].
  - simpl in Hscan. destruct (step sq s0 e) as [s1|] eqn:Hstep; [|discriminate].
    destruct (step_inv _ _ _ _ Hstep) as (Hcur & Hfired & Hph & Htr).
    destruct (IH s1 s Hscan) as [IHp IHt].
    split.
    + intros pre j sid st post Heq.
      destruct pre as [|e' pre]; simpl in Heq; injection Heq as -> ->.
      * destruct (Hph j sid st eq_refl) as [Hc Hf].
        split; [exact Hc|]. intros k ->. left. simpl in Hf.
        apply existsb_exists in Hf. destruct Hf as (x & Hin & Hx).
        apply Nat.eqb_eq in Hx. subst. exact Hin.
      * destruct (IHp pre j sid st post eq_refl) as [Hlast Hk].
        split; [simpl; rewrite <- Hlast, Hcur; reflexivity|].
        intros k Hj. destruct (Hk k Hj) as [Hin|[c Hin]].
        -- destruct (Hfired k Hin) as [Hin0|[c ->]];
             [left; exact Hin0 | right; exists c; left; reflexivity].
        -- right. exists c. right. exact Hin.
    + intros k c [->|Hin]; [exact (Htr k c eq_refl) | exact (IHt k c Hin)].
Qed.

Create HintDb quiet.

(** *** The thread keeps the reader satisfied *)

Section Thread.
Context (env : Env) (engine : Engine).

Definition ghost (th : Thread) : option Scan :=
  scan (sequence_ engine) scan0 (trace th).

(** The stop request was read as set at one of the first [n] readings. *)
Definition stopSeenBy (n : nat) : Prop :=
  exists k, (k < n)%nat /\ stopRequested env k = true.

(** An operation that leaves the reader where it was. *)
Definition quiet {A} (m : M A) : Prop :=
  forall th, ghost (m th).2 = ghost th /\ (readings th <= readings (m th).2)%nat.

Lemma quiet_bind {A B} (m : M A) (k : A -> M B) :
  quiet m -> (forall a, quiet (k a)) -> quiet (bind m k).
Proof.
  intros Hm Hk th. unfold bind. specialize (Hm th).
  destruct (m th) as [[a|w| |] th1]; simpl in *; auto.
  destruct Hm as [Hg1 Hr1]. destruct (Hk a th1) as [Hg Hr].
  split; [congruence | lia].
Qed.

Lemma quiet_ret {A} (a : A) : quiet (ret a).
Proof. intros th. simpl. auto. Qed.

Lemma quiet_raise {A} (w : string) : quiet (@raise A w).
Proof. intros th. simpl. auto. Qed.

Lemma quiet_get {A} (f : Thread -> A) : quiet (get f).
Proof. intros th. simpl. auto. Qed.

Lemma quiet_reading : quiet (reading env).
Proof. intros th. simpl. split; [reflexivity | lia]. Qed.

Definition neutral (e : Event) : Prop :=
  forall s, step (sequence_ engine) s e = Some s.

Lemma ghost_emit (e : Event) (th : Thread) :
  ghost (emit e th).2
  = match ghost th with Some s => step (sequence_ engine) s e | None => None end.
Proof. unfold ghost. simpl. apply scan_snoc. Qed.

Lemma quiet_emit (e : Event) : neutral e -> quiet (emit e).
Proof.
  intros He th. rewrite ghost_emit. split; [|simpl; lia].
  destruct (ghost th); [apply He | reflexivity].
Qed.

#[local] Hint Resolve quiet_ret quiet_raise quiet_get quiet_reading : quiet.

Ltac quiet_tac :=
  repeat first
    [ apply quiet_bind; [|intros ?]
    | apply quiet_emit; intros ?; reflexivity
    | solve [auto with quiet]
    | match goal with |- quiet (if ?b then _ else _) => destruct b end
    | match goal with |- quiet (match ?x with _ => _ end) => destruct x end ].

Lemma quiet_loadStop : quiet (loadStop env).
Proof. unfold loadStop. quiet_tac. Qed.

Lemma quiet_loadPause : quiet (loadPause env).
Proof. unfold loadPause. quiet_tac. Qed.

Lemma quiet_now : quiet (now env).
Proof. unfold now. quiet_tac. Qed.

Lemma quiet_sleep_for (ms : Z) : quiet (sleep_for env ms).
Proof. unfold sleep_for. quiet_tac. Qed.

Lemma quiet_isTripFlagSet : quiet (isTripFlagSet env).
Proof.
  unfold isTripFlagSet. apply quiet_bind; [auto with quiet|].
  intros _ th. simpl. auto.
Qed.

Lemma quiet_clearTripFlag : quiet (clearTripFlag env).
Proof.
  unfold clearTripFlag. apply quiet_bind; [auto with quiet|]. intros _.
  apply quiet_bind; [intros th; simpl; auto|]. intros _. quiet_tac.
Qed.

Lemma quiet_storeStatus (st : SequenceStatus) : quiet (storeStatus st).
Proof.
  unfold storeStatus. apply quiet_bind; [intros th; simpl; auto|].
  intros _. quiet_tac.
Qed.

Lemma quiet_setStateStart (t : Z) : quiet (setStateStart t).
Proof. intros th. simpl. auto. Qed.

Lemma quiet_setSequenceStart (t : Z) : quiet (setSequenceStart t).
Proof. intros th. simpl. auto. Qed.

Lemma quiet_setError (msg : string) : quiet (setError msg).
Proof. intros th. simpl. auto. Qed.

#[local] Hint Resolve quiet_loadStop quiet_loadPause quiet_now quiet_sleep_for
  quiet_isTripFlagSet quiet_clearTripFlag quiet_storeStatus
  quiet_setStateStart quiet_setSequenceStart quiet_setError : quiet.

Lemma quiet_getTotalElapsedTime : quiet (getTotalElapsedTime env).
Proof. unfold getTotalElapsedTime. quiet_tac. Qed.

#[local] Hint Resolve quiet_getTotalElapsedTime : quiet.

Lemma quiet_reportProgress (message : string) :
  quiet (reportProgress env engine message).
Proof. unfold reportProgress. quiet_tac. Qed.

#[local] Hint Resolve quiet_reportProgress : quiet.

Lemma quiet_pausedLoop (fuel : nat) : quiet (pausedLoop env fuel).
Proof.
  induction fuel as [|fuel IH]; simpl; [intros th; simpl; auto|]. quiet_tac.
Qed.

#[local] Hint Resolve quiet_pausedLoop : quiet.

(** What the stop flag was when it was read. *)
Lemma loadStop_inv (th th1 : Thread) (b : bool) :
  loadStop env th = (Done b, th1) ->
  stopRequested env (readings th) = b /\ readings th1 = S (readings th).
Proof. unfold loadStop, bind, reading, ret. intros [= <- <-]. auto. Qed.

Lemma pausedLoop_stop (fuel : nat) :
  forall th th1, pausedLoop env fuel th = (Done true, th1) ->
                 stopSeenBy (readings th1).
Proof.
  induction fuel as [|fuel IH]; intros th th1; simpl; [discriminate|].
  unfold bind at 1.
  destruct (loadPause env th) as [[paused|w| |] th2] eqn:E2; try discriminate.
  destruct paused; [|intros [= <-]; discriminate].
  unfold bind at 1.
  destruct (sleep_for env 100 th2) as [[[]|w| |] th3] eqn:E3; try discriminate.
  unfold bind at 1.
  destruct (loadStop env th3) as [[stop|w| |] th4] eqn:E4; try discriminate.
  destruct stop.
  - intros [= <-]. apply loadStop_inv in E4. destruct E4 as [Hs Hr].
    exists (readings th3). split; [lia | exact Hs].
  - apply IH.
Qed.

(** The reader accepts the trace after an operation. *)
Definition Accepted {A} (out : Res A * Thread) : Prop :=
  exists s', ghost out.2 = Some s'.

Lemma Accepted_quiet {A} (m : M A) (th : Thread) (s : Scan) :
  quiet m -> ghost th = Some s -> Accepted (m th).
Proof. intros Hq Hg. exists s. destruct (Hq th) as [-> _]. exact Hg. Qed.

Lemma Accepted_bind {A B} (m : M A) (k : A -> M B) (th : Thread) (s : Scan) :
  quiet m -> ghost th = Some s ->
  (forall a th1, m th = (Done a, th1) -> ghost th1 = Some s ->
                 (readings th <= readings th1)%nat -> Accepted (k a th1)) ->
  Accepted (bind m k th).
Proof.
  intros Hq Hg Hk. unfold bind. destruct (Hq th) as [Hg1 Hr1].
  destruct (m th) as [[a|w| |] th1] eqn:E; simpl in *;
    try (exists s; simpl; congruence).
  apply Hk; [reflexivity | congruence | exact Hr1].
Qed.

(** What a wait for the transition of state [i] leaves: the current index
    is untouched, nothing is forgotten, state [i] has fired if the wait
    returned [true], and the stop request was seen if it returned [false]. *)
Definition Advanced (i : nat) (th : Thread) (s : Scan) (out : Res bool * Thread)
    : Prop :=
  exists s',
    ghost out.2 = Some s' /\ cur s' = cur s /\
    (forall k, In k (fired s) -> In k (fired s')) /\
    (readings th <= readings out.2)%nat /\
    (out.1 = Done true -> In i (fired s')) /\
    (out.1 = Done false -> stopSeenBy (readings out.2)).

Lemma Advanced_bind {A} (i : nat) (m : M A) (k : A -> M bool)
    (th : Thread) (s : Scan) :
  quiet m -> ghost th = Some s ->
  (forall a th1, m th = (Done a, th1) -> ghost th1 = Some s ->
                 Advanced i th1 s (k a th1)) ->
  Advanced i th s (bind m k th).
Proof.
  intros Hq Hg Hk. unfold bind. destruct (Hq th) as [Hg1 Hr1].
  destruct (m th) as [[a|w| |] th1] eqn:E; simpl in *;
    try (exists s; simpl; repeat split; auto; try congruence; discriminate).
  destruct (Hk a th1 eq_refl ltac:(congruence)) as (s' & H1 & H2 & H3 & H4 & H5 & H6).
  exists s'. repeat split; auto. lia.
Qed.

Lemma Advanced_stop (i : nat) (th : Thread) (s : Scan) :
  ghost th = Some s -> stopSeenBy (readings th) ->
  Advanced i th s (ret false th).
Proof.
  intros Hg Hs. exists s. simpl. repeat split; auto. discriminate.
Qed.

Lemma Advanced_fired (i : nat) (cause : Cause) (m : M unit) (th : Thread) (s : Scan) :
  quiet m -> ghost th = Some s ->
  justified (sequence_ engine) i cause = true ->
  Advanced i th s ((emit (Transition i cause) >> m >> ret true) th).
Proof.
  intros Hq Hg Hj. unfold bind at 1.
  destruct (emit (Transition i cause) th) as [r th1] eqn:E.
  assert (Hg1 : ghost th1 = Some {| cur := cur s; fired := i :: fired s |}).
  { replace th1 with (emit (Transition i cause) th).2 by (rewrite E; reflexivity).
    rewrite ghost_emit, Hg. simpl. rewrite Hj. reflexivity. }
  assert (Hr1 : readings th1 = readings th) by (injection E as <- <-; reflexivity).
  assert (r = Done tt) as -> by (injection E as <- <-; reflexivity).
  unfold bind. destruct (Hq th1) as [Hg2 Hr2].
  destruct (m th1) as [[[]|w| |] th2]; simpl in *;
    (exists {| cur := cur s; fired := i :: fired s |}; simpl;
     repeat split; auto; try congruence; try lia; try discriminate).
Qed.

Lemma timeLoop_spec (fuel : nat) :
  forall (i : nat) (state : SequenceState) (stateStart us : Z) (th : Thread) (s : Scan),
    states (sequence_ engine) !! i = Some state ->
    transition state = TIME -> durationMicros state = Some us ->
    ghost th = Some s ->
    Advanced i th s (timeLoop env fuel i stateStart us th).
Proof.
  induction fuel as [|fuel IH]; intros i state stateStart us th s Hi Ht Hd Hg; simpl.
  - exists s. simpl. repeat split; auto; discriminate.
  - apply Advanced_bind; [auto with quiet | exact Hg |].
    intros stop th1 E1 Hg1. destruct stop.
    { apply Advanced_stop; [exact Hg1|]. apply loadStop_inv in E1.
      destruct E1 as [Hs Hr]. exists (readings th). split; [lia | exact Hs]. }
    apply Advanced_bind; [auto with quiet | exact Hg1 |].
    intros stopped th2 E2 Hg2. destruct stopped.
    { apply Advanced_stop; [exact Hg2|]. eapply pausedLoop_stop; exact E2. }
    apply Advanced_bind; [auto with quiet | exact Hg2 |].
    intros t th3 E3 Hg3.
    cbv zeta.
    destruct (Z.leb_spec (i64 (us * 1000)) (i64 (t - stateStart))) as [Hle|Hgt].
    + apply (Advanced_fired i _ (ret tt)); [auto with quiet | exact Hg3 |].
      unfold justified, expired. rewrite Hi, Ht, Hd. simpl.
      rewrite Z.eqb_refl. simpl. apply Z.leb_le. exact Hle.
    + apply Advanced_bind; [auto with quiet | exact Hg3 |].
      intros _ th4 _ Hg4. eapply IH; eauto.
Qed.

Lemma tripLoop_spec (fuel : nat) :
  forall (i : nat) (state : SequenceState) (stateStart us : Z) (th : Thread) (s : Scan),
    states (sequence_ engine) !! i = Some state ->
    transition state = GOOSE_TRIP -> durationMicros state = Some us ->
    ghost th = Some s ->
    Advanced i th s (tripLoop env fuel i stateStart us th).
Proof.
  induction fuel as [|fuel IH]; intros i state stateStart us th s Hi Ht Hd Hg; simpl.
  - exists s. simpl. repeat split; auto; discriminate.
  - apply Advanced_bind; [auto with quiet | exact Hg |].
    intros stop th1 E1 Hg1. destruct stop.
    { apply Advanced_stop; [exact Hg1|]. apply loadStop_inv in E1.
      destruct E1 as [Hs Hr]. exists (readings th). split; [lia | exact Hs]. }
    apply Advanced_bind; [auto with quiet | exact Hg1 |].
    intros stopped th2 E2 Hg2. destruct stopped.
    { apply Advanced_stop; [exact Hg2|]. eapply pausedLoop_stop; exact E2. }
    apply Advanced_bind; [auto with quiet | exact Hg2 |].
    intros trip th3 E3 Hg3. destruct trip.
    { apply (Advanced_fired i TripDetected (clearTripFlag env));
        [auto with quiet | exact Hg3 |].
      unfold justified. rewrite Hi, Ht. reflexivity. }
    apply Advanced_bind; [auto with quiet | exact Hg3 |].
    intros t th4 E4 Hg4.
    cbv zeta.
    destruct (Z.leb_spec (i64 (us * 1000)) (i64 (t - stateStart))) as [Hle|Hgt].
    + apply (Advanced_fired i _ (ret tt)); [auto with quiet | exact Hg4 |].
      unfold justified, expired. rewrite Hi, Ht, Hd. simpl.
      rewrite Z.eqb_refl. simpl. apply Z.leb_le. exact Hle.
    + apply Advanced_bind; [auto with quiet | exact Hg4 |].
      intros _ th5 _ Hg5. eapply IH; eauto.
Qed.

Lemma waitForTransition_spec (fuel : nat) (i : nat) (state : SequenceState)
    (th : Thread) (s : Scan) :
  states (sequence_ engine) !! i = Some state ->
  ghost th = Some s ->
  Advanced i th s (waitForTransition env fuel i state th).
Proof.
  intros Hi Hg. unfold waitForTransition.
  apply Advanced_bind; [auto with quiet | exact Hg |].
  intros stateStart th1 E1 Hg1.
  destruct (durationMicros state) as [us|] eqn:Hd.
  - destruct (transition state) eqn:Ht.
    + eapply timeLoop_spec; eauto.
    + apply Advanced_bind; [auto with quiet | exact Hg1 |].
      intros _ th2 _ Hg2. eapply tripLoop_spec; eauto.
  - exists s. simpl. repeat split; auto; discriminate.
Qed.

(** The reader is where it was after an operation. *)
Definition Kept {A} (th : Thread) (s : Scan) (out : Res A * Thread) : Prop :=
  ghost out.2 = Some s /\ (readings th <= readings out.2)%nat.

(** The callbacks of state [i] are accepted once [i] is the current index
    and its predecessor has fired. *)
Lemma applyStreams_spec (i : nat) (state : SequenceState) (streams : list string) :
  forall (th : Thread) (s : Scan),
    ghost th = Some s -> cur s = Z.of_nat i -> firedBefore i s = true ->
    Kept th s (applyStreams env i state streams th).
Proof.
  induction streams as [|streamId rest IH]; intros th s Hg Hc Hf; simpl.
  { split; simpl; auto. }
  destruct (findPhasors streamId (phasors state)) as [st|]; [|apply IH; auto].
  unfold bind at 1. simpl.
  set (th1 := {| readings := S (readings th); tripFlag := _; trace := trace th |}).
  assert (Hg1 : ghost th1 = Some s) by exact Hg.
  unfold bind at 1.
  destruct (emit (PhasorUpdate i streamId st) th1) as [r th2] eqn:E2.
  assert (Hg2 : ghost th2 = Some s).
  { replace th2 with (emit (PhasorUpdate i streamId st) th1).2
      by (rewrite E2; reflexivity).
    rewrite ghost_emit, Hg1. simpl. rewrite Hc, Z.eqb_refl, Hf. reflexivity. }
  assert (Hr2 : readings th2 = S (readings th)) by (injection E2 as <- <-; reflexivity).
  assert (r = Done tt) as -> by (injection E2 as <- <-; reflexivity).
  unfold bind at 1.
  destruct (phasorCallbackThrows env (readings th)); simpl.
  - split; simpl; [exact Hg2 | lia].
  - destruct (IH th2 s Hg2 Hc Hf) as [Hg3 Hr3]. split; [exact Hg3 | lia].
Qed.

Lemma applyState_spec (i : nat) (state : SequenceState) (th : Thread) (s : Scan) :
  ghost th = Some s -> cur s = Z.of_nat i -> firedBefore i s = true ->
  Kept th s (applyState env engine i state th).
Proof.
  intros Hg Hc Hf. unfold applyState.
  destruct (hasPhasorCallback engine); simpl; [|split; simpl; auto].
  apply applyStreams_spec; auto.
Qed.

(** The stop request is not withdrawn while the thread runs: [stop] sets
    it, only [start] clears it, and [start] refuses while the status is
    RUNNING or PAUSED. *)
Definition stopStays : Prop :=
  forall n m, (n <= m)%nat -> stopRequested env n = true -> stopRequested env m = true.

Lemma statesLoop_spec (fuel : nat) (rest : list SequenceState) :
  forall (i : nat) (th : Thread) (s : Scan),
    stopStays ->
    drop i (states (sequence_ engine)) = rest ->
    ghost th = Some s -> firedBefore i s = true ->
    Accepted (statesLoop env engine fuel i rest th).
Proof.
  induction rest as [|state rest IH]; intros i th s Hstop Hdrop Hg Hf; simpl.
  - unfold bind at 1.
    destruct (storeIndex (-1) th) as [r th1] eqn:E1.
    assert (Hg1 : ghost th1 = Some {| cur := -1; fired := fired s |}).
    { injection E1 as <- <-. unfold ghost. simpl. rewrite scan_snoc.
      fold (ghost th). rewrite Hg. reflexivity. }
    assert (r = Done tt) as -> by (injection E1 as <- <-; reflexivity).
    eapply Accepted_quiet; [|exact Hg1]. unfold quiet. apply quiet_bind; auto with quiet.
  - assert (Hi : states (sequence_ engine) !! i = Some state).
    { rewrite <- (Nat.add_0_r i), <- lookup_drop, Hdrop. reflexivity. }
    eapply Accepted_bind; [auto with quiet | exact Hg |].
    intros stop th1 E1 Hg1 _. destruct stop.
    { eapply Accepted_quiet; [|exact Hg1]. apply quiet_bind; auto with quiet. }
    eapply Accepted_bind; [auto with quiet | exact Hg1 |].
    intros stopped th2 E2 Hg2 _. destruct stopped.
    { eapply Accepted_quiet; [|exact Hg2]. apply quiet_bind; auto with quiet. }
    unfold bind at 1.
    destruct (storeIndex (Z.of_nat i) th2) as [r th3] eqn:E3.
    set (s3 := {| cur := Z.of_nat i; fired := fired s |}).
    assert (Hg3 : ghost th3 = Some s3).
    { injection E3 as <- <-. unfold ghost. simpl. rewrite scan_snoc.
      fold (ghost th2). rewrite Hg2. reflexivity. }
    assert (r = Done tt) as -> by (injection E3 as <- <-; reflexivity).
    eapply Accepted_bind; [auto with quiet | exact Hg3 |].
    intros t th4 E4 Hg4 _.
    eapply Accepted_bind; [auto with quiet | exact Hg4 |].
    intros ? th5 E5 Hg5 _.
    eapply Accepted_bind; [auto with quiet | exact Hg5 |].
    intros ? th6 E6 Hg6 _.
    unfold bind at 1.
    destruct (applyState_spec i state th6 s3 Hg6 eq_refl Hf) as [Hg7 _].
    destruct (applyState env engine i state th6) as [[[]|w| |] th7];
      simpl in Hg7; try (exists s3; exact Hg7).
    unfold bind at 1.
    destruct (waitForTransition_spec fuel i state th7 s3 Hi Hg7)
      as (s8 & Hg8 & Hc8 & Hk8 & Hr8 & Htrue & Hfalse).
    destruct (waitForTransition env fuel i state th7) as [[occurred|w| |] th8];
      simpl in Hg8, Htrue, Hfalse, Hr8; try (exists s8; exact Hg8).
    destruct occurred.
    + unfold bind at 1. simpl.
      apply (IH (i + 1)%nat th8 s8 Hstop); [|exact Hg8|].
      * rewrite <- (drop_drop _ 1 i), Hdrop. reflexivity.
      * rewrite Nat.add_1_r. simpl. apply existsb_exists.
        exists i. split; [apply Htrue; reflexivity | apply Nat.eqb_refl].
    + eapply Accepted_bind; [auto with quiet | exact Hg8 |].
      intros stopNow th9 E9 Hg9 _.
      apply loadStop_inv in E9. destruct E9 as [Hs9 _].
      destruct (Hfalse eq_refl) as (n & Hn & Hsn).
      rewrite (Hstop n (readings th8) ltac:(lia) Hsn) in Hs9. subst stopNow.
      eapply Accepted_quiet; [|exact Hg9]. apply quiet_bind; auto with quiet.
Qed.

Lemma sequenceThread_spec (fuel : nat) :
  stopStays -> Accepted (sequenceThread env engine fuel initialThread).
Proof.
  intros Hstop. unfold sequenceThread.
  assert (H : Accepted ((let* t := now env in
                         setSequenceStart t >>
                         statesLoop env engine fuel 0 (states (sequence_ engine)))
                          initialThread)).
  { eapply (Accepted_bind _ _ _ scan0); [auto with quiet | reflexivity |].
    intros t th1 E1 Hg1 _.
    eapply Accepted_bind; [auto with quiet | exact Hg1 |].
    intros ? th2 E2 Hg2 _.
    eapply statesLoop_spec; eauto. }
  destruct ((let* t := now env in _) initialThread) as [[[]|w| |] th1]; try exact H.
  destruct H as [s1 Hs1]. simpl in Hs1.
  eapply Accepted_quiet; [|exact Hs1].
  apply quiet_bind; [auto with quiet|]. intros _.
  apply quiet_bind; auto with quiet.
Qed.

(** *** How a run ends *)

(** An operation that leaves the status, the index and the error message
    as they were. *)
Definition still {A} (m : M A) : Prop :=
  forall th, status_ (m th).2 = status_ th /\
             currentStateIndex_ (m th).2 = currentStateIndex_ th /\
             lastError_ (m th).2 = lastError_ th.

Lemma still_bind {A B} (m : M A) (k : A -> M B) :
  still m -> (forall a, still (k a)) -> still (bind m k).
Proof.
  intros Hm Hk th. unfold bind. specialize (Hm th).
  destruct (m th) as [[a|w| |] th1]; simpl in *; auto.
  destruct Hm as (G1 & G2 & G3). destruct (Hk a th1) as (H1 & H2 & H3).
  repeat split; congruence.
Qed.

Ltac still_tac :=
  repeat first
    [ apply still_bind; [|intros ?]
    | solve [intros ?; simpl; auto]
    | match goal with |- still (if ?b then _ else _) => destruct b end
    | match goal with |- still (match ?x with _ => _ end) => destruct x end ].

Lemma still_reportProgress (message : string) :
  still (reportProgress env engine message).
Proof. unfold reportProgress, getTotalElapsedTime, now. still_tac. Qed.

(** A state the reader holds as fired has its transition in the trace. *)
Lemma scan_fired (sq : Sequence) (tr : list Event) :
  forall (s0 s : Scan),
    scan sq s0 tr = Some s ->
    forall k, In k (fired s) ->
              In k (fired s0) \/ exists cause, In (Transition k cause) tr.
Proof.
  induction tr as [|e tr IH]; intros s0 s Hscan k Hk.
  - injection Hscan as <-. left. exact Hk.
  - simpl in Hscan. destruct (step sq s0 e) as [s1|] eqn:Hstep; [|discriminate].
    destruct (step_inv _ _ _ _ Hstep) as (_ & Hfired & _ & _).
    destruct (IH s1 s Hscan k Hk) as [H1|[cause Hin]].
    + destruct (Hfired k H1) as [H0|[cause ->]];
        [left; exact H0 | right; exists cause; left; reflexivity].
    + right. exists cause. right. exact Hin.
Qed.

(** What the loop over the states leaves when it returns. *)
Definition Ended (out : Res unit * Thread) : Prop :=
  exists s',
    ghost out.2 = Some s' /\
    (out.1 = Done tt ->
     (status_ out.2 = COMPLETED /\ currentStateIndex_ out.2 = -1 /\
      forall k, (k < totalStates engine)%nat -> In k (fired s')) \/
     (status_ out.2 = STOPPED /\ stopSeenBy (readings out.2))).

Lemma Ended_bind {A} (m : M A) (k : A -> M unit) (th : Thread) (s : Scan) :
  quiet m -> ghost th = Some s ->
  (forall a th1, m th = (Done a, th1) -> ghost th1 = Some s ->
                 (readings th <= readings th1)%nat -> Ended (k a th1)) ->
  Ended (bind m k th).
Proof.
  intros Hq Hg Hk. unfold bind. destruct (Hq th) as [Hg1 Hr1].
  destruct (m th) as [[a|w| |] th1] eqn:E; simpl in *;
    try (exists s; simpl; split; [congruence | discriminate]).
  apply Hk; [reflexivity | congruence | exact Hr1].
Qed.

Lemma Ended_stopped (message : string) (th : Thread) (s : Scan) :
  ghost th = Some s -> stopSeenBy (readings th) ->
  Ended ((reportProgress env engine message >> storeStatus STOPPED) th).
Proof.
  intros Hg (n & Hn & Hs). unfold bind at 1.
  destruct (quiet_reportProgress message th) as [Hg1 Hr1].
  destruct (reportProgress env engine message th) as [[[]|w| |] th1];
    simpl in Hg1, Hr1;
    try (exists s; simpl; split; [congruence | discriminate]).
  exists s. split.
  - destruct (quiet_storeStatus STOPPED th1) as [-> _]. congruence.
  - intros _. right. split; [reflexivity|]. exists n. simpl. split; [lia|exact Hs].
Qed.

Lemma statesLoop_end (fuel : nat) (rest : list SequenceState) :
  forall (i : nat) (th : Thread) (s : Scan),
    stopStays ->
    drop i (states (sequence_ engine)) = rest ->
    ghost th = Some s -> (forall k, (k < i)%nat -> In k (fired s)) ->
    Ended (statesLoop env engine fuel i rest th).
Proof.
  induction rest as [|state rest IH]; intros i th s Hstop Hdrop Hg Hall; simpl.
  - assert (Hi : (totalStates engine <= i)%nat).
    { unfold totalStates. apply (f_equal length) in Hdrop.
      rewrite length_drop in Hdrop. simpl in Hdrop. lia. }
    unfold bind at 1.
    destruct (storeIndex (-1) th) as [r th1] eqn:E1.
    assert (Hg1 : ghost th1 = Some {| cur := -1; fired := fired s |}).
    { injection E1 as <- <-. unfold ghost. simpl. rewrite scan_snoc.
      fold (ghost th). rewrite Hg. reflexivity. }
    assert (Hi1 : currentStateIndex_ th1 = -1) by (injection E1 as <- <-; reflexivity).
    assert (r = Done tt) as -> by (injection E1 as <- <-; reflexivity).
    unfold bind at 1.
    destruct (storeStatus COMPLETED th1) as [r th2] eqn:E2.
    assert (Hg2 : ghost th2 = Some {| cur := -1; fired := fired s |}).
    { destruct (quiet_storeStatus COMPLETED th1) as [H _]. rewrite E2 in H.
      simpl in H. congruence. }
    assert (Hi2 : currentStateIndex_ th2 = -1 /\ status_ th2 = COMPLETED)
      by (injection E2 as <- <-; simpl; auto).
    assert (r = Done tt) as -> by (injection E2 as <- <-; reflexivity).
    destruct (quiet_reportProgress "Sequence completed successfully" th2) as [Hg3 _].
    destruct (still_reportProgress "Sequence completed successfully" th2)
      as (Hs3 & Hx3 & _).
    exists {| cur := -1; fired := fired s |}. split; [congruence|].
    intros _. left. destruct Hi2 as [Hx2 Hs2].
    split; [congruence|]. split; [congruence|].
    intros k Hk. simpl. apply Hall. lia.
  - assert (Hi : states (sequence_ engine) !! i = Some state).
    { rewrite <- (Nat.add_0_r i), <- lookup_drop, Hdrop. reflexivity. }
    assert (Hf : firedBefore i s = true).
    { destruct i as [|k]; [reflexivity|]. simpl. apply existsb_exists.
      exists k. split; [apply Hall; lia | apply Nat.eqb_refl]. }
    eapply Ended_bind; [auto with quiet | exact Hg |].
    intros stop th1 E1 Hg1 _. destruct stop.
    { apply (Ended_stopped _ th1 s Hg1). apply loadStop_inv in E1.
      destruct E1 as [Hs1 Hr1]. exists (readings th). split; [lia|exact Hs1]. }
    eapply Ended_bind; [auto with quiet | exact Hg1 |].
    intros stopped th2 E2 Hg2 _. destruct stopped.
    { apply (Ended_stopped _ th2 s Hg2). exact (pausedLoop_stop _ _ _ E2). }
    unfold bind at 1.
    destruct (storeIndex (Z.of_nat i) th2) as [r th3] eqn:E3.
    set (s3 := {| cur := Z.of_nat i; fired := fired s |}).
    assert (Hg3 : ghost th3 = Some s3).
    { injection E3 as <- <-. unfold ghost. simpl. rewrite scan_snoc.
      fold (ghost th2). rewrite Hg2. reflexivity. }
    assert (r = Done tt) as -> by (injection E3 as <- <-; reflexivity).
    eapply Ended_bind; [auto with quiet | exact Hg3 |].
    intros t th4 E4 Hg4 _.
    eapply Ended_bind; [auto with quiet | exact Hg4 |].
    intros ? th5 E5 Hg5 _.
    eapply Ended_bind; [auto with quiet | exact Hg5 |].
    intros ? th6 E6 Hg6 _.
    unfold bind at 1.
    destruct (applyState_spec i state th6 s3 Hg6 eq_refl Hf) as [Hg7 _].
    destruct (applyState env engine i state th6) as [[[]|w| |] th7];
      simpl in Hg7; try (exists s3; split; [exact Hg7 | discriminate]).
    unfold bind at 1.
    destruct (waitForTransition_spec fuel i state th7 s3 Hi Hg7)
      as (s8 & Hg8 & Hc8 & Hk8 & Hr8 & Htrue & Hfalse).
    destruct (waitForTransition env fuel i state th7) as [[occurred|w| |] th8];
      simpl in Hg8, Htrue, Hfalse, Hr8;
      try (exists s8; split; [exact Hg8 | discriminate]).
    destruct occurred.
    + unfold bind at 1. simpl.
      apply (IH (i + 1)%nat th8 s8 Hstop); [|exact Hg8|].
      * rewrite <- (drop_drop _ 1 i), Hdrop. reflexivity.
      * intros k Hk. destruct (decide (k = i)) as [->|Hne].
        -- apply Htrue. reflexivity.
        -- apply Hk8. simpl. apply Hall. lia.
    + eapply Ended_bind; [auto with quiet | exact Hg8 |].
      intros stopNow th9 E9 Hg9 Hr9.
      apply loadStop_inv in E9. destruct E9 as [Hs9 Hr9'].
      destruct (Hfalse eq_refl) as (n & Hn & Hsn).
      rewrite (Hstop n (readings th8) ltac:(lia) Hsn) in Hs9. subst stopNow.
      apply (Ended_stopped _ th9 s8 Hg9). exists n. split; [lia|exact Hsn].
Qed.

Lemma sequenceThread_end (fuel : nat) (th' : Thread) :
  stopStays ->
  sequenceThread env engine fuel initialThread = (Done tt, th') ->
  (status_ th' = COMPLETED /\ currentStateIndex_ th' = -1 /\
   forall k, (k < totalStates engine)%nat ->
             exists cause, In (Transition k cause) (trace th')) \/
  (status_ th' = STOPPED /\ stopSeenBy (readings th')) \/
  (status_ th' = ERROR /\ exists w, lastError_ th' = ("Sequence error: " ++ w)%string).
Proof.
  intros Hstop. unfold sequenceThread.
  assert (H : Ended ((let* t := now env in
                      setSequenceStart t >>
                      statesLoop env engine fuel 0 (states (sequence_ engine)))
                       initialThread)).
  { eapply (Ended_bind _ _ _ scan0); [auto with quiet | reflexivity |].
    intros t th1 E1 Hg1 _.
    eapply Ended_bind; [auto with quiet | exact Hg1 |].
    intros ? th2 E2 Hg2 _.
    eapply statesLoop_end; eauto. intros k Hk. lia. }
  destruct ((let* t := now env in _) initialThread) as [[[]|w| |] th1];
    try discriminate.
  - intros [= <-]. destruct H as (s' & Hg & Hend). simpl in Hg, Hend.
    destruct (Hend eq_refl) as [(Hs & Hx & Hall)|Hstopped].
    + left. split; [exact Hs|]. split; [exact Hx|]. intros k Hk.
      destruct (scan_fired _ _ _ _ Hg k (Hall k Hk)) as [[]|Hc]. exact Hc.
    + right. left. exact Hstopped.
  - clear H. unfold bind at 1. simpl.
    unfold bind at 1. simpl.
    match goal with |- reportProgress env engine ?m ?x = _ -> _ =>
      destruct (still_reportProgress m x) as (Hs & _ & He);
      destruct (reportProgress env engine m x) as [r th2]
    end.
    simpl in Hs, He. intros [= -> <-]. right. right.
    split; [exact Hs|]. exists w. exact He.
Qed.

End Thread.

(** An environment for the examples: nobody stops or pauses, the clock
    advances 20 ms from one reading to the next, the trip flag is raised
    before reading 30, and no callback throws. *)
Definition calmEnv : Env :=
  {| stopRequested := fun _ => false;
     pauseRequested := fun _ => false;
     tripRaised := fun n => Nat.eqb n 30;
     clock := fun n => Z.of_nat n * 20000000;
     phasorCallbackThrows := fun _ => false;
     progressCallbackThrows := fun _ => false |}.

Definition steady (f : float) : StreamPhasorState := {| freq := f; channels := [] |}.

Definition threeStates : Engine :=
  {| sequence_ :=
       {| activeStreams := ["s1"%string; "s2"%string];
          states :=
            [ {| name := "prefault"; durationSec := 0.125; transition := TIME;
                 phasors := [("s1"%string, steady 60); ("s2"%string, steady 60)] |};
              {| name := "fault"; durationSec := 1; transition := GOOSE_TRIP;
                 phasors := [("s1"%string, steady 50)] |};
              {| name := "postfault"; durationSec := 0.125; transition := TIME;
                 phasors := [("s2"%string, steady 60)] |} ] |};
     hasProgressCallback := true;
     hasPhasorCallback := true |}.

(** The order of the events of a run, as far as it gets.  A phasor update
    callback for state [j] is invoked only while [j] is the index stored
    last, and, for [j = i + 1], only after the wait of state [i] returned
    [true]; that wait returns [true] only when the elapsed time was found
    not less than the duration, both as 64-bit counts of nanoseconds, or, in
    a GOOSE trip state, when the trip flag was read as set. *)
Theorem phasor_updates_follow_transitions (env : Env) (engine : Engine)
    (fuel : nat) (currentStatus : SequenceStatus) (r : Res unit) (th : Thread) :
  stopStays env ->
  start env engine fuel currentStatus = Some (r, th) ->
  (forall pre j streamId st post,
     trace th = pre ++ PhasorUpdate j streamId st :: post ->
     lastIndexFrom (-1) pre = Z.of_nat j /\
     forall i, j = S i -> exists cause, In (Transition i cause) pre) /\
  (forall i cause,
     In (Transition i cause) (trace th) ->
     exists state,
       states (sequence_ engine) !! i = Some state /\
       match cause with
       | DurationExpired elapsedNs durationNs =>
           transition state = TIME /\
           (exists us, durationMicros state = Some us /\
                       durationNs = i64 (us * 1000)) /\
           durationNs <= elapsedNs
       | TripDetected => transition state = GOOSE_TRIP
       | TripTimeout elapsedNs durationNs =>
           transition state = GOOSE_TRIP /\
           (exists us, durationMicros state = Some us /\
                       durationNs = i64 (us * 1000)) /\
           durationNs <= elapsedNs
       end).
Proof.
  intros Hstop Hstart.
  assert (Hacc : Accepted engine (r, th)).
  { unfold start in Hstart.
    destruct currentStatus; try discriminate;
      destruct (states (sequence_ engine)) eqn:Hs; try discriminate;
      destruct (activeStreams (sequence_ engine)); try discriminate;
      injection Hstart as Hstart; rewrite <- Hstart;
      apply sequenceThread_spec; exact Hstop. }
  destruct Hacc as [s Hs]. simpl in Hs.
  destruct (scan_sound _ _ _ _ Hs) as [Hp Ht]. split.
  - intros pre j streamId st post Heq.
    destruct (Hp pre j streamId st post Heq) as [Hlast Hk].
    split; [exact Hlast|]. intros i Hj.
    destruct (Hk i Hj) as [[]|Hc]. exact Hc.
  - intros i cause Hin. specialize (Ht i cause Hin).
    unfold justified in Ht.
    destruct (states (sequence_ engine) !! i) as [state|]; [|discriminate].
    exists state. split; [reflexivity|].
    assert (Hexp : forall el du, expired state el du = true ->
              (exists us, durationMicros state = Some us /\ du = i64 (us * 1000)) /\
              du <= el).
    { intros el du. unfold expired.
      destruct (durationMicros state) as [us|]; [|discriminate].
      rewrite andb_true_iff, Z.eqb_eq, Z.leb_le. intros [-> Hle].
      split; [exists us; auto | exact Hle]. }
    destruct cause as [el du| |el du];
      destruct (transition state); simpl in Ht; try discriminate;
      try reflexivity; split; try reflexivity; apply Hexp; exact Ht.
Qed.

Lemma phasor_updates_follow_transitions_demo :
  exists r th,
    start calmEnv threeStates 100 IDLE = Some (r, th) /\
    (forall pre j streamId st post,
       trace th = pre ++ PhasorUpdate j streamId st :: post ->
       lastIndexFrom (-1) pre = Z.of_nat j /\
       forall i, j = S i -> exists cause, In (Transition i cause) pre).
Proof.
  destruct (start calmEnv threeStates 100 IDLE) as [[r th]|] eqn:E;
    [|vm_compute in E; discriminate].
  exists r, th. split; [reflexivity|].
  apply (phasor_updates_follow_transitions calmEnv threeStates 100 IDLE r th).
  - intros n m _ H. simpl in H. discriminate.
  - exact E.
Defined.

(** The run of the example completes, with the callbacks of the three
    states in turn. *)
Example threeStates_run :
  exists th,
    start calmEnv threeStates 100 IDLE = Some (Done tt, th) /\
    status_ th = COMPLETED /\
    List.filter (fun e => match e with
                     | StoreIndex _ | PhasorUpdate _ _ _ | Transition _ _ => true
                     | _ => false
                     end) (trace th)
    = [StoreIndex 0;
       PhasorUpdate 0 "s1" (steady 60); PhasorUpdate 0 "s2" (steady 60);
       Transition 0 (DurationExpired 140000000 125000000);
       StoreIndex 1;
       PhasorUpdate 1 "s1" (steady 50);
       Transition 1 TripDetected;
       StoreIndex 2;
       PhasorUpdate 2 "s2" (steady 60);
       Transition 2 (DurationExpired 140000000 125000000);
       StoreIndex (-1)].
Proof. eexists. split; [vm_compute; reflexivity|]. vm_compute. auto. Qed.

(** *** A duration whose nanoseconds do not fit 64 bits *)

(** A sequence whose first state lasts 10^10 seconds. *)
Definition longState : SequenceState :=
  {| name := "prefault"; durationSec := 10000000000; transition := TIME;
     phasors := [("s1"%string, steady 60)] |}.

Definition longSequence : Engine :=
  {| sequence_ :=
       {| activeStreams := ["s1"%string];
          states :=
            [ longState;
              {| name := "fault"; durationSec := 0.125; transition := TIME;
                 phasors := [("s1"%string, steady 50)] |} ] |};
     hasProgressCallback := false;
     hasPhasorCallback := true |}.

(** C6, where the code departs from it.  The first state of [longSequence]
    lasts 10^10 seconds, 10^16 microseconds.  Its wait compares the elapsed
    nanoseconds with the wrap of 10^19, which is negative, and returns [true]
    at its first look at the clock, 60 ms after the state was entered: the
    phasor update callback of state 1 is invoked then, and the whole run is
    over when the clock reads 0.42 s. *)
Theorem long_state_ends_at_once :
  durationMicros longState = Some 10000000000000000 /\
  i64 (10000000000000000 * 1000) = - 8446744073709551616 /\
  exists th,
    start calmEnv longSequence 100 IDLE = Some (Done tt, th) /\
    trace th
      = [StoreIndex 0;
         PhasorUpdate 0 "s1" (steady 60);
         Transition 0 (DurationExpired 60000000 (- 8446744073709551616));
         StoreIndex 1;
         PhasorUpdate 1 "s1" (steady 50);
         Sleep 50;
         Transition 1 (DurationExpired 140000000 125000000);
         StoreIndex (-1);
         StoreStatus COMPLETED] /\
    status_ th = COMPLETED /\
    clock calmEnv (readings th) = 420000000.
Proof.
  split; [vm_compute; reflexivity|]. split; [vm_compute; reflexivity|].
  eexists. split; [vm_compute; reflexivity|]. vm_compute. auto.
Qed.

(** *** A trip state waits for a trip of its own *)

Section TripState.
Context (env : Env).

(** The trip flag, when set, was raised at a reading from [r0] on. *)
Definition fresh (r0 : nat) (th : Thread) : Prop :=
  (r0 <= readings th)%nat /\
  (tripFlag th = true ->
   exists n, (r0 <= n < readings th)%nat /\ tripRaised env n = true).

Definition keeps {A} (m : M A) : Prop :=
  forall r0 th, fresh r0 th ->
                fresh r0 (snd (m th)) /\ (readings th <= readings (snd (m th)))%nat.

Lemma keeps_bind {A B} (m : M A) (k : A -> M B) :
  keeps m -> (forall a, keeps (k a)) -> keeps (bind m k).
Proof.
  intros Hm Hk r0 th Hf. unfold bind. destruct (Hm r0 th Hf) as [Hf1 Hr1].
  destruct (m th) as [[a|w| |] th1]; simpl in *; auto.
  destruct (Hk a r0 th1 Hf1) as [Hf2 Hr2]. split; [exact Hf2 | lia].
Qed.

Lemma keeps_same {A} (m : M A) :
  (forall th, readings (snd (m th)) = readings th /\
              tripFlag (snd (m th)) = tripFlag th) ->
  keeps m.
Proof.
  intros H r0 th [Hr Hf]. destruct (H th) as [H1 H2].
  split; [|lia]. split; [lia|]. rewrite H1, H2. exact Hf.
Qed.

Lemma keeps_ret {A} (a : A) : keeps (ret a).
Proof. apply keeps_same. intros th. simpl. auto. Qed.

Lemma keeps_emit (e : Event) : keeps (emit e).
Proof. apply keeps_same. intros th. simpl. auto. Qed.

Lemma keeps_reading : keeps (reading env).
Proof.
  intros r0 th [Hr Hf]. simpl. split; [|lia]. split; simpl; [lia|].
  intros H. apply orb_true_iff in H. destruct H as [H|H].
  - destruct (Hf H) as (n & Hn & Hn'). exists n. split; [lia|exact Hn'].
  - exists (readings th). split; [lia|exact H].
Qed.

Lemma keeps_loadStop : keeps (loadStop env).
Proof. unfold loadStop. apply keeps_bind; [apply keeps_reading|]. intros n. apply keeps_ret. Qed.

Lemma keeps_loadPause : keeps (loadPause env).
Proof. unfold loadPause. apply keeps_bind; [apply keeps_reading|]. intros n. apply keeps_ret. Qed.

Lemma keeps_now : keeps (now env).
Proof. unfold now. apply keeps_bind; [apply keeps_reading|]. intros n. apply keeps_ret. Qed.

Lemma keeps_sleep_for (ms : Z) : keeps (sleep_for env ms).
Proof. unfold sleep_for. apply keeps_bind; [apply keeps_reading|]. intros _. apply keeps_emit. Qed.

Lemma keeps_pausedLoop (fuel : nat) : keeps (pausedLoop env fuel).
Proof.
  induction fuel as [|fuel IH]; simpl.
  - apply keeps_same. intros th. simpl. auto.
  - apply keeps_bind; [apply keeps_loadPause|]. intros [|]; [|apply keeps_ret].
    apply keeps_bind; [apply keeps_sleep_for|]. intros _.
    apply keeps_bind; [apply keeps_loadStop|]. intros [|]; [apply keeps_ret|exact IH].
Qed.

Lemma isTripFlagSet_inv (th : Thread) :
  exists th1,
    isTripFlagSet env th = (Done (tripFlag th1), th1) /\
    readings th1 = S (readings th) /\
    forall r0, fresh r0 th -> fresh r0 th1.
Proof.
  exists (snd (reading env th)). split; [reflexivity|].
  split; [reflexivity|]. intros r0 Hf.
  exact (proj1 (keeps_reading r0 th Hf)).
Qed.

Lemma clearTripFlag_inv (th : Thread) :
  exists th1,
    clearTripFlag env th = (Done tt, th1) /\
    readings th1 = S (readings th) /\ tripFlag th1 = false.
Proof.
  eexists. split; [reflexivity|]. simpl. auto.
Qed.

Lemma tripLoop_fresh (i : nat) (stateStart stateDuration : Z) (r0 : nat) :
  forall fuel th th',
    fresh r0 th ->
    tripLoop env fuel i stateStart stateDuration th = (Done true, th') ->
    (exists n, (r0 <= n < readings th')%nat /\ tripRaised env n = true) \/
    (exists n, (readings th <= n < readings th')%nat /\
               i64 (stateDuration * 1000) <= i64 (clock env n - stateStart)).
Proof.
  induction fuel as [|fuel IH]; intros th th' Hf; simpl; [discriminate|].
  unfold bind at 1.
  destruct (keeps_loadStop r0 th Hf) as [Hf1 Hr1].
  destruct (loadStop env th) as [[stop|w| |] th1]; try discriminate.
  simpl in Hf1, Hr1. destruct stop; [discriminate|].
  unfold bind at 1.
  destruct (keeps_pausedLoop fuel r0 th1 Hf1) as [Hf2 Hr2].
  destruct (pausedLoop env fuel th1) as [[stopped|w| |] th2]; try discriminate.
  simpl in Hf2, Hr2. destruct stopped; [discriminate|].
  unfold bind at 1.
  destruct (isTripFlagSet_inv th2) as (th3 & -> & Hr3 & Hf3).
  specialize (Hf3 r0 Hf2).
  destruct (tripFlag th3) eqn:Et.
  - unfold bind at 1. cbn [emit].
    unfold bind at 1.
    match goal with |- context [clearTripFlag env ?x] =>
      destruct (clearTripFlag_inv x) as (th4 & -> & Hr4 & _)
    end.
    cbn [readings] in Hr4. intros [= <-]. left.
    destruct Hf3 as [_ Hraised]. destruct (Hraised Et) as (n & Hn & Hn').
    exists n. split; [lia|exact Hn'].
  - unfold bind at 1. unfold now at 1, bind at 1, reading at 1, ret at 1.
    cbv zeta.
    match goal with |- context [i64 (stateDuration * 1000) <=? i64 (?t - stateStart)] =>
      destruct (i64 (stateDuration * 1000) <=? i64 (t - stateStart)) eqn:Ed
    end.
    + unfold bind at 1. cbn [emit ret readings]. intros [= <-]. right.
      exists (readings th3). cbn [readings]. split; [lia|]. apply Z.leb_le. exact Ed.
    + unfold bind at 1.
      match goal with |- context [sleep_for env 50 ?x] =>
        assert (Hf4 : fresh r0 x)
          by exact (proj1 (keeps_reading r0 th3 Hf3));
        destruct (keeps_sleep_for 50 r0 x Hf4) as [Hf5 Hr5];
        destruct (sleep_for env 50 x) as [[[]|w| |] th5]; try discriminate
      end.
      simpl in Hf5, Hr5. intros H.
      destruct (IH th5 th' Hf5 H) as [Hl|(n & Hn & Hd)]; [left; exact Hl|].
      right. exists n. split; [lia|exact Hd].
Qed.

End TripState.

(** [std::chrono::steady_clock] does not go back. *)
Definition steadyClock (env : Env) : Prop :=
  forall n m, (n <= m)%nat -> clock env n <= clock env m.

(** A thread that finds the trip flag set, and a trip state of one second. *)
Definition tripLeftOver : Thread :=
  {| readings := 0; tripFlag := true; currentStateIndex_ := 1;
     status_ := RUNNING; sequenceStartTime_ := 0; stateStartTime_ := 0;
     lastError_ := EmptyString; trace := [] |}.

Definition faultState : SequenceState :=
  {| name := "fault"; durationSec := 1; transition := GOOSE_TRIP;
     phasors := [("s1"%string, steady 50)] |}.

(** X24. A trip state waits for a trip of its own.  [waitForTransition]
    clears the trip flag before it polls, so a flag left set by an earlier
    GOOSE message does not end a GOOSE trip state: when the wait returns
    [true], either the sniffer raised the flag at a reading made after the
    clearing (the third reading of the wait or later), or the duration of
    the state had elapsed on the steady clock.  (The duration is one whose
    nanoseconds fit 64 bits, less than 2^63, and the clock does not go
    back.) *)
Theorem trip_state_needs_fresh_trip (env : Env) (fuel i : nat)
    (state : SequenceState) (us : Z) (th th' : Thread) :
  steadyClock env ->
  transition state = GOOSE_TRIP ->
  durationMicros state = Some us ->
  us * 1000 < 9223372036854775808 ->
  waitForTransition env fuel i state th = (Done true, th') ->
  (exists n, (readings th + 2 <= n < readings th')%nat /\ tripRaised env n = true) \/
  (exists n, (readings th < n < readings th')%nat /\
             us * 1000 <= clock env n - clock env (readings th)).
Proof.
  intros Hclock Htr Hus Hfits. unfold waitForTransition. rewrite Hus, Htr.
  unfold bind at 1. unfold now at 1, bind at 1, reading at 1, ret at 1.
  cbn [readings]. unfold bind at 1.
  match goal with |- context [clearTripFlag env ?x] =>
    destruct (clearTripFlag_inv env x) as (th2 & -> & Hr2 & Hc2)
  end.
  cbn [readings] in Hr2. intros H.
  assert (Hf : fresh env (readings th + 2) th2).
  { split; [lia|]. rewrite Hc2. discriminate. }
  destruct (tripLoop_fresh env i _ _ _ fuel th2 th' Hf H) as [Hl|(n & Hn & Hd)].
  - left. exact Hl.
  - right. exists n. split; [lia|].
    pose proof (Hclock (readings th) n ltac:(lia)) as Hback.
    pose proof (BitFacts.i64_le (clock env n - clock env (readings th)) ltac:(lia))
      as Helapsed.
    destruct (Z.lt_ge_cases (us * 1000) (- 9223372036854775808)) as [Hneg|Hpos];
      [lia|].
    rewrite (BitFacts.i64_fits (us * 1000)) in Hd by lia. lia.
Qed.

Lemma trip_state_needs_fresh_trip_demo :
  exists th',
    waitForTransition calmEnv 100 1 faultState tripLeftOver = (Done true, th') /\
    ((exists n, (2 <= n < readings th')%nat /\ tripRaised calmEnv n = true) \/
     (exists n, (0 < n < readings th')%nat /\
                1000000 * 1000 <= clock calmEnv n - clock calmEnv 0)).
Proof.
  eexists. split; [vm_compute; reflexivity|].
  apply (trip_state_needs_fresh_trip calmEnv 100 1 faultState 1000000 tripLeftOver).
  - intros n m Hnm. unfold calmEnv, clock. lia.
  - reflexivity.
  - vm_compute. reflexivity.
  - lia.
  - vm_compute. reflexivity.
Defined.

(** X25. How a run of the sequence thread ends.  When the thread returns,
    the status is COMPLETED, STOPPED or ERROR.  COMPLETED: the index is
    back at -1 and the transition of every state of the sequence has
    fired.  STOPPED: the stop request was read as set.  ERROR: a callback
    threw, and [lastError_] is the message of the exception after
    [Sequence error: ].  (The stop request is not withdrawn during the
    run.) *)
Theorem thread_ends_completed_stopped_or_error (env : Env) (engine : Engine)
    (fuel : nat) (currentStatus : SequenceStatus) (th : Thread) :
  stopStays env ->
  start env engine fuel currentStatus = Some (Done tt, th) ->
  (status_ th = COMPLETED /\ currentStateIndex_ th = -1 /\
   forall k, (k < length (states (sequence_ engine)))%nat ->
             exists cause, In (Transition k cause) (trace th)) \/
  (status_ th = STOPPED /\
   exists n, (n < readings th)%nat /\ stopRequested env n = true) \/
  (status_ th = ERROR /\
   exists w, lastError_ th = ("Sequence error: " ++ w)%string).
Proof.
  intros Hstop Hstart. unfold start in Hstart.
  assert (Hrun : sequenceThread env engine fuel initialThread = (Done tt, th)).
  { destruct currentStatus; try discriminate;
      destruct (states (sequence_ engine)); try discriminate;
      destruct (activeStreams (sequence_ engine)); try discriminate;
      injection Hstart as Hstart; exact Hstart. }
  exact (sequenceThread_end env engine fuel th Hstop Hrun).
Qed.

Lemma thread_ends_completed_stopped_or_error_demo :
  exists th,
    start calmEnv threeStates 100 IDLE = Some (Done tt, th) /\
    status_ th = COMPLETED /\
    forall k, (k < 3)%nat -> exists cause, In (Transition k cause) (trace th).
Proof.
  eexists. split; [vm_compute; reflexivity|]. split; [reflexivity|].
  refine (match thread_ends_completed_stopped_or_error calmEnv threeStates 100 IDLE
                  _ _ _ with
          | or_introl (conj _ (conj _ H)) => H
          | or_intror (or_introl (conj H _)) => _
          | or_intror (or_intror (conj H _)) => _
          end).
  - intros n m _ H. simpl in H. discriminate.
  - vm_compute. reflexivity.
  - discriminate H.
  - discriminate H.
Defined.

End SequenceEngineProps.

Module DifferentialTesterProps.
Import DifferentialTester.

Definition isSetter (e : Event) : bool :=
  match e with SetSide1 _ | SetSide2 _ => true | _ => false end.

Section Tester.
Context (env : Env).

(** The monitoring calls no setter. *)
Lemma monitorLoop_trace (fuel : nat) :
  forall start finish initial st,
    exists evs,
      trace (monitorLoop env fuel start finish initial st).2 = trace st ++ evs /\
      forallb (fun e => negb (isSetter e)) evs = true.
Proof.
  induction fuel as [|fuel IH]; intros start finish initial st; simpl.
  - exists []. rewrite app_nil_r. auto.
  - destruct (clock env (readings st) <? finish); simpl;
      [|exists []; rewrite !app_nil_r; auto].
    destruct (stopRequested env (S (readings st))); simpl;
      [exists []; rewrite !app_nil_r; auto|].
    destruct (negb initial && tripFlagGetter env (S (S (readings st)))); simpl.
    + exists [GetTrip (tripFlagGetter env (S (S (readings st))))].
      rewrite !app_nil_r. split; reflexivity.
    + match goal with |- context [monitorLoop env fuel start finish initial ?x] =>
        destruct (IH start finish initial x) as (evs & -> & Hevs)
      end.
      exists (GetTrip (tripFlagGetter env (S (S (readings st)))) :: Sleep 1 :: evs).
      simpl. rewrite !app_nil_r, <- !app_assoc. split; [reflexivity|].
      simpl. exact Hevs.
Qed.

Lemma monitorTrip_trace (fuel : nat) (maxDuration : float) (st : Run) :
  exists evs,
    trace (monitorTrip env fuel maxDuration st).2 = trace st ++ evs /\
    forallb (fun e => negb (isSetter e)) evs = true.
Proof.
  unfold monitorTrip. destruct (durationMillis maxDuration) as [ms|]; simpl.
  - match goal with |- context [monitorLoop env fuel ?a ?b ?c ?x] =>
      destruct (monitorLoop_trace fuel a b c x) as (evs & -> & Hevs)
    end.
    exists (GetTrip (tripFlagGetter env (S (readings st))) :: evs).
    simpl. rewrite !app_nil_r, <- !app_assoc. split; [reflexivity|].
    simpl. exact Hevs.
  - exists []. rewrite !app_nil_r. auto.
Qed.

(** C8. A test point of restraint current [Ir] and operate current [Id]
    gives the side currents [Is1 = Ir + Id/2] and [Is2 = -(Ir - Id/2)]; the
    first call the tester makes is the side-1 setter with [Is1], the second
    the side-2 setter with [Is2], and only then is the trip flag read; no
    setter is called again.  When a setter throws, the later calls are not
    made.  For [Ir = 200] and [Id = 50] the side currents are 225 and
    -175. *)
Theorem testPoint_sets_side_currents (fuel : nat) (point : Point.DifferentialPoint)
    (config : DifferentialTestConfig) :
  let Is1 := (Point.Ir point + Point.Id point / 2)%float in
  let Is2 := (- (Point.Ir point - Point.Id point / 2))%float in
  let out := testPoint env fuel point config {| readings := 0; trace := [] |} in
  calculateSideCurrents (Point.Ir point) (Point.Id point) = (Is1, Is2) /\
  (forall result, out.1 = Done result ->
     Result.Is1 result = Is1 /\ Result.Is2 result = Is2) /\
  match setterThrows env 0, setterThrows env 1 with
  | Some _, _ => trace out.2 = [SetSide1 Is1]
  | None, Some _ => trace out.2 = [SetSide1 Is1; SetSide2 Is2]
  | None, None =>
      exists monitoring,
        trace out.2 = SetSide1 Is1 :: SetSide2 Is2 :: monitoring /\
        forallb (fun e => negb (isSetter e)) monitoring = true /\
        (durationMillis (maxTestDuration config) <> None ->
         exists value rest, monitoring = GetTrip value :: rest)
  end /\
  calculateSideCurrents 200 50 = (225%float, (-175)%float).
Proof.
  intros Is1 Is2 out. split; [reflexivity|].
  subst out. unfold testPoint, calculateSideCurrents, testPointBody, callSetter.
  fold Is1 Is2. simpl.
  assert (Hres : forall tripped tripTime passed error result,
            Done {| Result.Ir := Point.Ir point; Result.Id := Point.Id point;
                    Result.Is1 := Is1; Result.Is2 := Is2;
                    Result.tripped := tripped; Result.tripTime := tripTime;
                    Result.expectedTime := Point.expectedTime point;
                    Result.passed := passed; Result.error := error |}
            = Done result ->
            Result.Is1 result = Is1 /\ Result.Is2 result = Is2).
  { intros tripped tripTime passed error result [= <-]. split; reflexivity. }
  destruct (setterThrows env 0) as [w1|]; simpl.
  { split; [apply Hres|]. split; reflexivity. }
  destruct (setterThrows env 1) as [w2|]; simpl.
  { split; [apply Hres|]. split; reflexivity. }
  match goal with |- context [monitorTrip env fuel ?d ?x] =>
    destruct (monitorTrip_trace fuel d x) as (evs & Htr & Hevs);
    assert (Hfirst : durationMillis d <> None ->
              exists value rest, trace (monitorTrip env fuel d x).2
                                 = trace x ++ GetTrip value :: rest);
    [|destruct (monitorTrip env fuel d x) as [[[tripped tripTime]|w| |] st3] eqn:E]
  end.
  { intros Hd. unfold monitorTrip.
    destruct (durationMillis (maxTestDuration config)) as [ms|]; [|congruence].
    match goal with |- context [monitorLoop env fuel ?a ?b ?c ?x] =>
      destruct (monitorLoop_trace fuel a b c x) as (evs' & -> & _)
    end.
    simpl. eexists _, _. reflexivity. }
  all: simpl in Htr, Hfirst.
  all: assert (Hmon : forall st', trace st' = trace st3 ->
         exists monitoring,
           trace st' = SetSide1 Is1 :: SetSide2 Is2 :: monitoring /\
           forallb (fun e => negb (isSetter e)) monitoring = true /\
           (durationMillis (maxTestDuration config) <> None ->
            exists value rest, monitoring = GetTrip value :: rest))
    by (intros st' ->; exists evs; split; [exact Htr|]; split; [exact Hevs|];
        intros Hd; destruct (Hfirst Hd) as (v & rest & Hv);
        rewrite Htr in Hv; injection Hv as ->; eauto).
  - destruct (PrimFloat.eqb (Point.expectedTime point) 0); [|destruct tripped];
      simpl; (split; [apply Hres|]; split; [apply Hmon|]; reflexivity).
  - simpl. split; [apply Hres|]. split; [apply Hmon|]; reflexivity.
  - simpl. split; [discriminate|]. split; [apply Hmon|]; reflexivity.
  - simpl. split; [discriminate|]. split; [apply Hmon|]; reflexivity.
Qed.

End Tester.

(** The S5 scenario: the relay trips at the third look at the trip flag. *)
Definition relayTrips : Env :=
  {| tripFlagGetter := fun n => (9 <=? n)%nat;
     clock := fun n => Z.of_nat n * 5000000;
     stopRequested := fun _ => false;
     setterThrows := fun _ => None |}.

Definition pointS5 : Point.DifferentialPoint :=
  {| Point.Ir := 200; Point.Id := 50; Point.expectedTime := 0; Point.label := "S5" |}.

Definition configS5 : DifferentialTestConfig :=
  {| points := [pointS5]; timeTolerance := 0.125; maxTestDuration := 1;
     stopOnFirstFailure := false; stream1Id := "side1"; stream2Id := "side2" |}.

Lemma testPoint_sets_side_currents_demo :
  exists monitoring,
    trace (testPoint relayTrips 100 pointS5 configS5 {| readings := 0; trace := [] |}).2
      = SetSide1 225 :: SetSide2 (-175) :: monitoring /\
    forallb (fun e => negb (isSetter e)) monitoring = true /\
    (durationMillis (maxTestDuration configS5) <> None ->
     exists value rest, monitoring = GetTrip value :: rest).
Proof.
  exact (proj1 (proj2 (proj2
    (testPoint_sets_side_currents relayTrips 100 pointS5 configS5)))).
Defined.

Example testPoint_S5 :
  exists result st,
    testPoint relayTrips 100 pointS5 configS5 {| readings := 0; trace := [] |}
      = (Done result, st) /\
    Result.Is1 result = 225%float /\ Result.Is2 result = (-175)%float /\
    Result.tripped result = true /\ Result.passed result = true /\
    trace st = [SetSide1 225; SetSide2 (-175); GetTrip false; GetTrip false;
                Sleep 1; GetTrip true].
Proof. eexists _, _. split; [vm_compute; reflexivity|]. vm_compute. auto. Qed.

(** *** The verdict of a point *)

Section Verdict.
Context (env : Env).

Lemma monitorLoop_readings (fuel : nat) :
  forall start finish initial st,
    (readings st <= readings (snd (monitorLoop env fuel start finish initial st)))%nat.
Proof.
  induction fuel as [|fuel IH]; intros start finish initial st; simpl; [lia|].
  destruct (clock env (readings st) <? finish); simpl; [|lia].
  destruct (stopRequested env (S (readings st))); simpl; [lia|].
  destruct (negb initial && tripFlagGetter env (S (S (readings st)))); simpl; [lia|].
  etransitivity; [|apply IH]. simpl. lia.
Qed.

(** A trip is reported on a reading of the flag that gave [true], after a
    first reading that gave [false]. *)
Lemma monitorLoop_tripped (fuel : nat) :
  forall start finish initial st t st',
    monitorLoop env fuel start finish initial st = (Done (true, t), st') ->
    initial = false /\
    exists n, (readings st <= n < readings st')%nat /\ tripFlagGetter env n = true.
Proof.
  induction fuel as [|fuel IH]; intros start finish initial st t st'; simpl;
    [discriminate|].
  destruct (clock env (readings st) <? finish); simpl; [|discriminate].
  destruct (stopRequested env (S (readings st))); simpl; [discriminate|].
  destruct initial; simpl.
  - intros H. apply IH in H. destruct H as [H _]. discriminate.
  - destruct (tripFlagGetter env (S (S (readings st)))) eqn:E; simpl.
    + intros [= <- <-]. split; [reflexivity|].
      exists (S (S (readings st))). simpl. split; [lia|exact E].
    + intros H. apply IH in H. destruct H as [_ (n & Hn & Hf)].
      split; [reflexivity|]. exists n. simpl in Hn. split; [lia|exact Hf].
Qed.

Lemma monitorTrip_readings (fuel : nat) (maxDuration : float) (st : Run) :
  (readings st <= readings (snd (monitorTrip env fuel maxDuration st)))%nat.
Proof.
  unfold monitorTrip. destruct (durationMillis maxDuration); simpl; [|lia].
  etransitivity; [|apply monitorLoop_readings]. simpl. lia.
Qed.

Lemma monitorTrip_tripped (fuel : nat) (maxDuration : float) (st : Run)
    (t : float) (st' : Run) :
  monitorTrip env fuel maxDuration st = (Done (true, t), st') ->
  tripFlagGetter env (S (readings st)) = false /\
  exists n, (readings st <= n < readings st')%nat /\ tripFlagGetter env n = true.
Proof.
  unfold monitorTrip. destruct (durationMillis maxDuration); simpl; [|discriminate].
  intros H. apply monitorLoop_tripped in H. destruct H as [H0 (n & Hn & Hf)].
  split; [exact H0|]. exists n. simpl in Hn. split; [lia|exact Hf].
Qed.

Lemma monitorTrip_Undef (fuel : nat) (maxDuration : float) (st st' : Run) :
  monitorTrip env fuel maxDuration st = (Undef, st') ->
  durationMillis maxDuration = None.
Proof.
  unfold monitorTrip. destruct (durationMillis maxDuration) as [ms|]; [|reflexivity].
  generalize (next [GetTrip (tripFlagGetter env (readings (next [] st)))] (next [] st)).
  generalize (tripFlagGetter env (readings (next [] st))).
  generalize (clock env (readings st))
    (i64 (clock env (readings st) + i64 (ms * 1000000))).
  induction fuel as [|fuel IH]; intros start finish initial st0; simpl; [discriminate|].
  destruct (clock env (readings st0) <? finish); simpl; [|discriminate].
  destruct (stopRequested env (S (readings st0))); simpl; [discriminate|].
  destruct (negb initial && tripFlagGetter env (S (S (readings st0)))); simpl;
    [discriminate|].
  apply IH.
Qed.

Lemma monitorTrip_not_Raised (fuel : nat) (maxDuration : float) (st st' : Run)
    (w : string) :
  monitorTrip env fuel maxDuration st <> (Raised w, st').
Proof.
  unfold monitorTrip. destruct (durationMillis maxDuration) as [ms|]; [|discriminate].
  generalize (next [GetTrip (tripFlagGetter env (readings (next [] st)))] (next [] st)).
  generalize (tripFlagGetter env (readings (next [] st))).
  generalize (clock env (readings st))
    (i64 (clock env (readings st) + i64 (ms * 1000000))).
  induction fuel as [|fuel IH]; intros start finish initial st0; simpl; [discriminate|].
  destruct (clock env (readings st0) <? finish); simpl; [|discriminate].
  destruct (stopRequested env (S (readings st0))); simpl; [discriminate|].
  destruct (negb initial && tripFlagGetter env (S (S (readings st0)))); simpl;
    [discriminate|].
  apply IH.
Qed.

(** What a call of [testPoint] can end in. *)
Lemma testPoint_outcome (fuel : nat) (point : Point.DifferentialPoint)
    (config : DifferentialTestConfig) (st : Run) :
  match testPoint env fuel point config st with
  | (Done result, st') =>
      (readings st <= readings st')%nat /\
      (Result.Ir result = Point.Ir point /\ Result.Id result = Point.Id point /\
       Result.expectedTime result = Point.expectedTime point) /\
      (Result.passed result = true ->
       Result.tripped result = true /\ Result.error result = EmptyString) /\
      (Result.passed result = false -> Result.error result = EmptyString ->
       Result.tripped result = false /\
       PrimFloat.eqb (Point.expectedTime point) 0 = true) /\
      (Result.tripped result = true ->
       tripFlagGetter env (3 + readings st) = false /\
       exists n, (readings st <= n < readings st')%nat /\ tripFlagGetter env n = true)
  | (Raised _, _) => False
  | (Undef, _) => durationMillis (maxTestDuration config) = None
  | (OutOfFuel, _) => True
  end.
Proof.
  unfold testPoint, calculateSideCurrents, testPointBody, callSetter.
  destruct (setterThrows env (readings st)) as [w1|]; cbn -[monitorTrip].
  { repeat split; try discriminate; lia. }
  destruct (setterThrows env (S (readings st))) as [w2|]; cbn -[monitorTrip].
  { repeat split; try discriminate; lia. }
  match goal with |- context [monitorTrip env fuel ?d ?x] =>
    pose proof (monitorTrip_readings fuel d x) as Hr;
    pose proof (monitorTrip_tripped fuel d x) as Ht;
    pose proof (monitorTrip_Undef fuel d x) as Hu;
    pose proof (monitorTrip_not_Raised fuel d x) as Hn;
    destruct (monitorTrip env fuel d x) as [[[tripped tripTime]|w| |] st3]
  end; cbn [snd readings next] in Hr, Ht.
  - assert (Hseen : tripped = true ->
              tripFlagGetter env (3 + readings st) = false /\
              exists n, (readings st <= n < readings st3)%nat /\
                        tripFlagGetter env n = true).
    { intros ->. destruct (Ht _ _ eq_refl) as [H0 (n & Hn' & Hf)].
      split; [exact H0|]. exists n. split; [lia|exact Hf]. }
    destruct (PrimFloat.eqb (Point.expectedTime point) 0) eqn:Ez.
    + cbn. destruct tripped; cbn.
      * destruct (PrimFloat.ltb tripTime (timeTolerance config)); cbn;
          repeat split; try discriminate; try lia; auto; apply Hseen; reflexivity.
      * repeat split; try discriminate; try lia; auto.
    + destruct tripped; cbn.
      * destruct (PrimFloat.leb _ (timeTolerance config)); cbn;
          repeat split; try discriminate; try lia; auto; apply Hseen; reflexivity.
      * repeat split; try discriminate; try lia; auto.
  - destruct (Hn _ _ eq_refl).
  - cbn. exact (Hu _ eq_refl).
  - exact I.
Qed.

End Verdict.

(** X26. The verdict of a test point.  No exception leaves [testPoint]: a
    throwing setter ends in a failed result.  A point passes only when the
    relay tripped, and then carries no error message; a failed point with
    no error message is an instantaneous point ([expectedTime] zero) on
    which the relay did not trip.  A trip is reported only when the trip
    flag read clear at the start of the monitoring, the fourth reading of
    the call: the tester looks for the flag going from clear to set.  The
    call has no defined result only when [maxTestDuration] in milliseconds
    does not fit a [long long]. *)
Theorem testPoint_verdict (env : Env) (fuel : nat) (point : Point.DifferentialPoint)
    (config : DifferentialTestConfig) (st : Run) :
  match testPoint env fuel point config st with
  | (Done result, _) =>
      (Result.passed result = true ->
       Result.tripped result = true /\ Result.error result = EmptyString) /\
      (Result.passed result = false -> Result.error result = EmptyString ->
       Result.tripped result = false /\
       PrimFloat.eqb (Point.expectedTime point) 0 = true) /\
      (Result.tripped result = true ->
       tripFlagGetter env (3 + readings st) = false)
  | (Raised _, _) => False
  | (Undef, _) => durationMillis (maxTestDuration config) = None
  | (OutOfFuel, _) => True
  end.
Proof.
  pose proof (testPoint_outcome env fuel point config st) as H.
  destruct (testPoint env fuel point config st) as [[result|w| |] st']; try exact H.
  destruct H as (_ & _ & Hpass & Hfail & Htrip).
  split; [exact Hpass|]. split; [exact Hfail|].
  intros Ht. exact (proj1 (Htrip Ht)).
Qed.

(** *** A run over the points *)

Section RunProps.
Context (env : Env) (indeterminate : Result.DifferentialResult).

Lemma waitLoop_readings (fuel : nat) :
  forall finish st, (readings st <= readings (snd (waitLoop env fuel finish st)))%nat.
Proof.
  induction fuel as [|fuel IH]; intros finish st; simpl; [lia|].
  destruct (clock env (readings st) <? finish); simpl; [|lia].
  destruct (stopRequested env (S (readings st))); simpl; [lia|].
  etransitivity; [|apply IH]. simpl. lia.
Qed.

Lemma waitWithStopCheck_readings (fuel : nat) (duration : float) (st : Run) :
  (readings st <= readings (snd (waitWithStopCheck env fuel duration st)))%nat.
Proof.
  unfold waitWithStopCheck. destruct (durationMillis duration); simpl; [|lia].
  etransitivity; [|apply waitLoop_readings]. simpl. lia.
Qed.

Definition stoppedByUser : Result.DifferentialResult :=
  errorResult indeterminate "Test stopped by user".

(** The results the loop adds, by the way the loop is left. *)
Lemma runLoop_new (fuel : nat) (config : DifferentialTestConfig)
    (P : Run -> list Point.DifferentialPoint -> list Result.DifferentialResult -> Prop) :
  (forall st, P st [] []) ->
  (forall st point rest,
     stopRequested env (readings st) = true ->
     P st (point :: rest) [stoppedByUser]) ->
  (forall st point rest result st2,
     stopRequested env (readings st) = false ->
     testPoint env fuel point config (next [] st) = (Done result, st2) ->
     stopOnFirstFailure config && negb (Result.passed result) = true \/ rest = [] ->
     P st (point :: rest) [result]) ->
  (forall st point rest result st2 b st3 new,
     stopRequested env (readings st) = false ->
     testPoint env fuel point config (next [] st) = (Done result, st2) ->
     stopOnFirstFailure config && negb (Result.passed result) = false ->
     rest <> [] ->
     waitWithStopCheck env fuel 1 st2 = (Done b, st3) ->
     P st3 rest new ->
     P st (point :: rest) (result :: new)) ->
  forall remaining results st results' st',
    runLoop env indeterminate fuel config remaining results st = (Done results', st') ->
    exists new, results' = results ++ new /\ P st remaining new.
Proof.
  intros Hnil Hstop Hlast Hmore.
  induction remaining as [|point rest IH]; intros results st results' st'.
  - intros [= <- <-]. exists []. rewrite app_nil_r. auto.
  - cbn [runLoop].
    destruct (stopRequested env (readings st)) eqn:Es.
    { intros [= <- <-]. exists [stoppedByUser]. split; [reflexivity|].
      apply Hstop. exact Es. }
    destruct (testPoint env fuel point config (next [] st))
      as [[result|w| |] st2] eqn:Et; try discriminate.
    destruct (stopOnFirstFailure config && negb (Result.passed result)) eqn:Ef.
    { intros [= <- <-]. exists [result]. split; [reflexivity|].
      eapply Hlast; eauto. }
    destruct rest as [|point' rest'].
    { intros [= <- <-]. exists [result]. split; [reflexivity|].
      eapply Hlast; eauto. }
    destruct (waitWithStopCheck env fuel 1 st2) as [[b|w| |] st3] eqn:Ew;
      try discriminate.
    intros H. apply IH in H. destruct H as (new & -> & HP).
    exists (result :: new). rewrite <- app_assoc. split; [reflexivity|].
    eapply Hmore; eauto; discriminate.
Qed.

(** The trip flag, once read as set, is read as set from then on: nothing
    in the tester clears it. *)
Definition latched : Prop :=
  forall n m, (n <= m)%nat -> tripFlagGetter env n = true -> tripFlagGetter env m = true.

Definition tripSeen (st : Run) : Prop :=
  exists n, (n < readings st)%nat /\ tripFlagGetter env n = true.

Lemma testPoint_stale (fuel : nat) (point : Point.DifferentialPoint)
    (config : DifferentialTestConfig) (st : Run) (result : Result.DifferentialResult)
    (st' : Run) :
  latched -> tripSeen st ->
  testPoint env fuel point config (next [] st) = (Done result, st') ->
  Result.passed result = false.
Proof.
  intros Hl (n & Hn & Hf) Ht.
  pose proof (testPoint_outcome env fuel point config (next [] st)) as H.
  rewrite Ht in H. destruct H as (_ & _ & Hpass & _ & Htrip).
  destruct (Result.passed result) eqn:Ep; [|reflexivity].
  destruct (Hpass eq_refl) as [Htr _]. destruct (Htrip Htr) as [H0 _].
  rewrite (Hl n _) in H0; [discriminate| |exact Hf]. simpl. lia.
Qed.

Lemma runLoop_after_trip (fuel : nat) (config : DifferentialTestConfig) :
  latched ->
  forall remaining results st results' st',
    runLoop env indeterminate fuel config remaining results st = (Done results', st') ->
    exists new, results' = results ++ new /\
      (tripSeen st -> Forall (fun r => Result.passed r = false) new) /\
      (forall i j ri rj, (i < j)%nat ->
         new !! i = Some ri -> Result.tripped ri = true ->
         new !! j = Some rj -> Result.passed rj = false).
Proof.
  intros Hl.
  apply (runLoop_new fuel config
           (fun st remaining new =>
              (tripSeen st -> Forall (fun r => Result.passed r = false) new) /\
              (forall i j ri rj, (i < j)%nat ->
                 new !! i = Some ri -> Result.tripped ri = true ->
                 new !! j = Some rj -> Result.passed rj = false))).
  - intros st. split; [constructor|]. intros i j ri rj _ H. discriminate H.
  - intros st point rest Es. split.
    + intros _. repeat constructor.
    + intros i j ri rj Hij _ _ Hj. destruct j; [lia|discriminate Hj].
  - intros st point rest result st2 Es Et _. split.
    + intros Hseen. repeat constructor. eapply testPoint_stale; eauto.
    + intros i j ri rj Hij _ _ Hj. destruct j; [lia|discriminate Hj].
  - intros st point rest result st2 b st3 new Es Et _ _ Ew [Hall Hord].
    pose proof (testPoint_outcome env fuel point config (next [] st)) as Ho.
    rewrite Et in Ho. destruct Ho as (Hr & _ & _ & _ & Htrip).
    pose proof (waitWithStopCheck_readings fuel 1 st2) as Hw.
    rewrite Ew in Hw. simpl in Hr, Hw.
    split.
    + intros Hseen. constructor; [eapply testPoint_stale; eauto|].
      apply Hall. destruct Hseen as (n & Hn & Hf). exists n. split; [lia|exact Hf].
    + intros i j ri rj Hij Hi Hti Hj. destruct j as [|j]; [lia|].
      simpl in Hj. destruct i as [|i].
      * injection Hi as <-. destruct (Htrip Hti) as [_ (n & Hn & Hf)].
        assert (Hseen : tripSeen st3) by (exists n; split; [lia|exact Hf]).
        exact (Forall_lookup_1 _ _ _ _ (Hall Hseen) Hj).
      * simpl in Hi. apply (Hord i j ri rj); [lia|assumption..].
Qed.

Lemma runLoop_shape (fuel : nat) (config : DifferentialTestConfig) :
  forall remaining results st results' st',
    runLoop env indeterminate fuel config remaining results st = (Done results', st') ->
    exists new, results' = results ++ new /\
      (length new <= length remaining)%nat /\
      (remaining <> [] -> new <> []) /\
      (forall i r, new !! i = Some r ->
         (exists p, remaining !! i = Some p /\
                    Result.Ir r = Point.Ir p /\ Result.Id r = Point.Id p /\
                    Result.expectedTime r = Point.expectedTime p) \/
         (r = stoppedByUser /\ S i = length new)) /\
      (stopOnFirstFailure config = true ->
       forall i r, new !! i = Some r -> (S i < length new)%nat ->
                   Result.passed r = true).
Proof.
  apply (runLoop_new fuel config
           (fun st remaining new =>
              (length new <= length remaining)%nat /\
              (remaining <> [] -> new <> []) /\
              (forall i r, new !! i = Some r ->
                 (exists p, remaining !! i = Some p /\
                            Result.Ir r = Point.Ir p /\ Result.Id r = Point.Id p /\
                            Result.expectedTime r = Point.expectedTime p) \/
                 (r = stoppedByUser /\ S i = length new)) /\
              (stopOnFirstFailure config = true ->
               forall i r, new !! i = Some r -> (S i < length new)%nat ->
                           Result.passed r = true))).
  - intros st. split; [reflexivity|]. split; [congruence|].
    split; intros; discriminate.
  - intros st point rest Es. split; [simpl; lia|]. split; [discriminate|]. split.
    + intros [|i] r Hi; [|discriminate Hi]. injection Hi as <-. right. auto.
    + intros _ i r _ Hlt. simpl in Hlt. lia.
  - intros st point rest result st2 Es Et _.
    pose proof (testPoint_outcome env fuel point config (next [] st)) as Ho.
    rewrite Et in Ho. destruct Ho as (_ & Hsame & _).
    split; [simpl; lia|]. split; [discriminate|]. split.
    + intros [|i] r Hi; [|discriminate Hi]. injection Hi as <-. left.
      exists point. split; [reflexivity|exact Hsame].
    + intros _ i r _ Hlt. simpl in Hlt. lia.
  - intros st point rest result st2 b st3 new Es Et Ef _ _ (Hlen & _ & Hat & Hsof).
    pose proof (testPoint_outcome env fuel point config (next [] st)) as Ho.
    rewrite Et in Ho. destruct Ho as (_ & Hsame & _).
    split; [simpl; lia|]. split; [discriminate|]. split.
    + intros [|i] r Hi.
      * injection Hi as <-. left. exists point. split; [reflexivity|exact Hsame].
      * simpl in Hi. destruct (Hat i r Hi) as [(p & Hp & Hv)|[Hr Hl]].
        -- left. exists p. split; [exact Hp|exact Hv].
        -- right. split; [exact Hr|]. simpl. lia.
    + intros Hs [|i] r Hi Hlt.
      * injection Hi as <-. rewrite Hs in Ef. simpl in Ef.
        destruct (Result.passed result); [reflexivity|discriminate].
      * simpl in Hi, Hlt. apply (Hsof Hs i r Hi). lia.
Qed.

(** *** The loops end once the clock has passed the deadline *)

Section Clock.
Context (step : Z) (Hstep : 0 < step).
Context (Hclock : forall n, clock env n + step <= clock env (S n)).
Context (Hclock0 : 0 <= clock env 0).

Lemma clock_advances (n k : nat) : clock env n + Z.of_nat k * step <= clock env (n + k).
Proof.
  induction k as [|k IH]; [rewrite Nat.add_0_r; lia|].
  replace (n + S k)%nat with (S (n + k)) by lia.
  pose proof (Hclock (n + k)). lia.
Qed.

(** A deadline of [ms] milliseconds from reading [n] is not later than the
    sum, unless the milliseconds are so far below zero that their
    nanoseconds wrap. *)
Lemma deadline_le (n : nat) (ms : Z) :
  - 9223372036854775808 <= ms * 1000000 ->
  i64 (clock env n + i64 (ms * 1000000)) <= clock env n + ms * 1000000.
Proof.
  intros Hms.
  pose proof (clock_advances 0 n) as Hn. simpl in Hn.
  pose proof (BitFacts.i64_le (ms * 1000000) Hms).
  pose proof (BitFacts.i64_range (ms * 1000000)).
  pose proof (BitFacts.i64_le (clock env n + i64 (ms * 1000000)) ltac:(nia)).
  lia.
Qed.

Lemma monitorLoop_returns (start finish : Z) (initial : bool) :
  forall fuel st,
    finish - clock env (readings st) <= Z.of_nat fuel * step ->
    exists v st', monitorLoop env (S fuel) start finish initial st = (Done v, st').
Proof.
  induction fuel as [|fuel IH]; intros st Hf; cbn [monitorLoop].
  - destruct (clock env (readings st) <? finish) eqn:E; cbn [negb].
    + apply Z.ltb_lt in E. lia.
    + eauto.
  - destruct (clock env (readings st) <? finish) eqn:E; cbn [negb]; [|eauto].
    destruct (stopRequested env (readings (next [] st))); [eauto|].
    destruct (negb initial && _); [eauto|].
    apply IH. cbn [readings next].
    pose proof (clock_advances (readings st) 4) as Hc.
    replace (readings st + 4)%nat with (S (S (S (S (readings st))))) in Hc by lia.
    nia.
Qed.

Lemma monitorTrip_returns (fuel : nat) (maxDuration : float) (ms : Z) (st : Run) :
  durationMillis maxDuration = Some ms ->
  - 9223372036854775808 <= ms * 1000000 ->
  ms * 1000000 <= Z.of_nat fuel * step ->
  exists v st', monitorTrip env (S fuel) maxDuration st = (Done v, st').
Proof.
  intros Hd Hms Hf. unfold monitorTrip. rewrite Hd. apply monitorLoop_returns.
  cbn [readings next].
  pose proof (clock_advances (readings st) 2) as Hc.
  replace (readings st + 2)%nat with (S (S (readings st))) in Hc by lia.
  pose proof (deadline_le (readings st) ms Hms). lia.
Qed.

Lemma testPoint_returns (fuel : nat) (point : Point.DifferentialPoint)
    (config : DifferentialTestConfig) (ms : Z) (st : Run) :
  durationMillis (maxTestDuration config) = Some ms ->
  - 9223372036854775808 <= ms * 1000000 ->
  ms * 1000000 <= Z.of_nat fuel * step ->
  exists result st', testPoint env (S fuel) point config st = (Done result, st').
Proof.
  intros Hd Hms Hf.
  unfold testPoint, calculateSideCurrents, testPointBody, callSetter.
  destruct (setterThrows env (readings st)); [eauto|].
  destruct (setterThrows env (readings (next _ st))); [eauto|].
  match goal with |- context [monitorTrip env (S fuel) ?d ?x] =>
    destruct (monitorTrip_returns fuel d ms x Hd Hms Hf)
      as ([tripped tripTime] & st3 & ->)
  end.
  destruct (PrimFloat.eqb (Point.expectedTime point) 0); [eauto|].
  destruct tripped; eauto.
Qed.

Lemma waitLoop_returns (finish : Z) :
  forall fuel st,
    finish - clock env (readings st) <= Z.of_nat fuel * step ->
    exists b st', waitLoop env (S fuel) finish st = (Done b, st').
Proof.
  induction fuel as [|fuel IH]; intros st Hf; cbn [waitLoop].
  - destruct (clock env (readings st) <? finish) eqn:E; cbn [negb].
    + apply Z.ltb_lt in E. lia.
    + eauto.
  - destruct (clock env (readings st) <? finish) eqn:E; cbn [negb]; [|eauto].
    destruct (stopRequested env (readings (next [] st))); [eauto|].
    apply IH. cbn [readings next].
    pose proof (clock_advances (readings st) 3) as Hc.
    replace (readings st + 3)%nat with (S (S (S (readings st)))) in Hc by lia.
    nia.
Qed.

Lemma durationMillis_1 : durationMillis 1 = Some 1000.
Proof. vm_compute. reflexivity. Qed.

Lemma waitWithStopCheck_returns (fuel : nat) (st : Run) :
  1000 * 1000000 <= Z.of_nat fuel * step ->
  exists b st', waitWithStopCheck env (S fuel) 1 st = (Done b, st').
Proof.
  intros Hf. unfold waitWithStopCheck. rewrite durationMillis_1.
  apply waitLoop_returns. cbn [readings next].
  pose proof (clock_advances (readings st) 1) as Hc.
  replace (readings st + 1)%nat with (S (readings st)) in Hc by lia.
  pose proof (deadline_le (readings st) 1000 ltac:(lia)). lia.
Qed.

Lemma runLoop_returns (fuel : nat) (config : DifferentialTestConfig) (ms : Z) :
  durationMillis (maxTestDuration config) = Some ms ->
  - 9223372036854775808 <= ms * 1000000 ->
  ms * 1000000 <= Z.of_nat fuel * step ->
  1000 * 1000000 <= Z.of_nat fuel * step ->
  forall remaining results st,
    exists results' st',
      runLoop env indeterminate (S fuel) config remaining results st
      = (Done results', st').
Proof.
  intros Hd Hms Hf Hw.
  induction remaining as [|point rest IH]; intros results st; [simpl; eauto|].
  cbn [runLoop].
  destruct (stopRequested env (readings st)); [eauto|].
  destruct (testPoint_returns fuel point config ms (next [] st) Hd Hms Hf)
    as (result & st2 & ->).
  destruct (stopOnFirstFailure config && negb (Result.passed result)); [eauto|].
  destruct rest as [|point' rest']; [eauto|].
  destruct (waitWithStopCheck_returns fuel st2 Hw) as (b & st3 & ->).
  apply IH.
Qed.

End Clock.

End RunProps.

(** A run of two points on the relay of the S5 scenario, whose trip flag
    stays set once raised. *)
Definition configTwo : DifferentialTestConfig :=
  {| points := [pointS5;
                {| Point.Ir := 300; Point.Id := 90; Point.expectedTime := 0;
                   Point.label := "second" |}];
     timeTolerance := 0.125; maxTestDuration := 1;
     stopOnFirstFailure := false; stream1Id := "side1"; stream2Id := "side2" |}.

Definition idle : Tester :=
  {| running_ := false; tripFlagGetter_ := true;
     side1CurrentSetter_ := true; side2CurrentSetter_ := true |}.

Definition leftover : Result.DifferentialResult :=
  {| Result.Ir := 7; Result.Id := 7; Result.Is1 := 7; Result.Is2 := 7;
     Result.tripped := true; Result.tripTime := 7; Result.expectedTime := 7;
     Result.passed := true; Result.error := EmptyString |}.

Definition fresh : Run := {| readings := 0; trace := [] |}.

Lemma relayTrips_latched : latched relayTrips.
Proof.
  intros n m Hnm H. unfold relayTrips, tripFlagGetter in *.
  apply Nat.leb_le in H. apply Nat.leb_le. lia.
Qed.

(** X27. Only the first trip of a run counts.  When the trip flag, once
    read as set, stays set (the tester never clears it, and the sniffer
    only ever sets it), every result that follows a result reporting a trip
    is a failure: the later points find the flag set when their monitoring
    starts and so never see it go from clear to set. *)
Theorem run_fails_after_first_trip (env : Env)
    (indeterminate : Result.DifferentialResult) (fuel : nat)
    (config : DifferentialTestConfig) (t : Tester) (st : Run)
    (results : list Result.DifferentialResult) (t' : Tester) (st' : Run) :
  latched env ->
  run env indeterminate fuel config t st = (Done results, t', st') ->
  forall i j ri rj,
    (i < j)%nat ->
    results !! i = Some ri -> Result.tripped ri = true ->
    results !! j = Some rj -> Result.passed rj = false.
Proof.
  intros Hl Hrun i j ri rj Hij Hi Hti Hj.
  assert (Hone : forall msg, results = [errorResult indeterminate msg] ->
                             Result.passed rj = false).
  { intros msg ->. destruct j; [lia|discriminate Hj]. }
  unfold run in Hrun.
  destruct (running_ t); [injection Hrun as <- _ _; eapply Hone; reflexivity|].
  destruct (negb (tripFlagGetter_ t));
    [injection Hrun as <- _ _; eapply Hone; reflexivity|].
  destruct (negb (side1CurrentSetter_ t) || negb (side2CurrentSetter_ t));
    [injection Hrun as <- _ _; eapply Hone; reflexivity|].
  destruct (points config) as [|p ps] eqn:Ep;
    [injection Hrun as <- _ _; eapply Hone; reflexivity|].
  destruct (runLoop env indeterminate fuel config (p :: ps) [] st)
    as [[results0|w| |] st0] eqn:El; try discriminate.
  injection Hrun as <- _ _.
  destruct (runLoop_after_trip env indeterminate fuel config Hl _ _ _ _ _ El)
    as (new & Hnew & _ & Hord).
  simpl in Hnew. subst results0. exact (Hord i j ri rj Hij Hi Hti Hj).
Qed.

Lemma run_fails_after_first_trip_demo :
  exists first second,
    fst (fst (run relayTrips leftover 100 configTwo idle fresh))
    = Done [first; second] /\
    Result.tripped first = true /\ Result.passed first = true /\
    Result.passed second = false.
Proof.
  eexists _, _. split; [vm_compute; reflexivity|].
  split; [reflexivity|]. split; [reflexivity|].
  eapply (run_fails_after_first_trip relayTrips leftover 100 configTwo idle fresh
            _ _ _ relayTrips_latched) with (i := 0%nat) (j := 1%nat);
    [vm_compute; reflexivity | lia | reflexivity | reflexivity | reflexivity].
Defined.

(** X28. The results of a run.  [run] always returns at least one result
    and never more than there are points (one, when it refuses).  It
    refuses, with a single failed result and without calling a setter or
    reading the flag, when a run is in progress, a callable is missing or
    there is no point.  The result of position [i] is that of the point of
    position [i], except that the last result may be the failed
    [Test stopped by user] entry; with [stopOnFirstFailure] every result
    but the last passed.  The tester is left idle unless it was found
    busy. *)
Theorem run_results_shape (env : Env) (indeterminate : Result.DifferentialResult)
    (fuel : nat) (config : DifferentialTestConfig) (t : Tester) (st : Run)
    (results : list Result.DifferentialResult) (t' : Tester) (st' : Run) :
  run env indeterminate fuel config t st = (Done results, t', st') ->
  results <> [] /\
  (length results <= Nat.max 1 (length (points config)))%nat /\
  running_ t' = running_ t /\
  (running_ t = true \/ tripFlagGetter_ t = false \/ side1CurrentSetter_ t = false \/
   side2CurrentSetter_ t = false \/ points config = [] ->
   length results = 1%nat /\ t' = t /\ st' = st) /\
  (forall i r, results !! i = Some r ->
     (exists p, points config !! i = Some p /\
                Result.Ir r = Point.Ir p /\ Result.Id r = Point.Id p /\
                Result.expectedTime r = Point.expectedTime p) \/
     (Result.passed r = false /\ S i = length results)) /\
  (stopOnFirstFailure config = true ->
   forall i r, results !! i = Some r -> (S i < length results)%nat ->
               Result.passed r = true).
Proof.
  intros Hrun.
  assert (Hone : forall msg, (Done [errorResult indeterminate msg], t, st)
                             = (Done results, t', st') ->
    results <> [] /\
    (length results <= Nat.max 1 (length (points config)))%nat /\
    running_ t' = running_ t /\
    (running_ t = true \/ tripFlagGetter_ t = false \/ side1CurrentSetter_ t = false \/
     side2CurrentSetter_ t = false \/ points config = [] ->
     length results = 1%nat /\ t' = t /\ st' = st) /\
    (forall i r, results !! i = Some r ->
       (exists p, points config !! i = Some p /\
                  Result.Ir r = Point.Ir p /\ Result.Id r = Point.Id p /\
                  Result.expectedTime r = Point.expectedTime p) \/
       (Result.passed r = false /\ S i = length results)) /\
    (stopOnFirstFailure config = true ->
     forall i r, results !! i = Some r -> (S i < length results)%nat ->
                 Result.passed r = true)).
  { intros msg [= <- <- <-]. split; [discriminate|]. split; [simpl; lia|].
    split; [reflexivity|]. split; [auto|]. split.
    - intros [|i] r Hi; [|discriminate Hi]. injection Hi as <-. right. auto.
    - intros _ i r _ Hlt. simpl in Hlt. lia. }
  unfold run in Hrun.
  destruct (running_ t) eqn:Erun; [eapply Hone; exact Hrun|].
  destruct (tripFlagGetter_ t) eqn:Eg; [|eapply Hone; exact Hrun].
  destruct (side1CurrentSetter_ t) eqn:E1; [|eapply Hone; exact Hrun].
  destruct (side2CurrentSetter_ t) eqn:E2; [|eapply Hone; exact Hrun].
  cbn [negb orb] in Hrun.
  destruct (points config) as [|p ps] eqn:Ep; [eapply Hone; exact Hrun|].
  clear Hone.
  destruct (runLoop env indeterminate fuel config (p :: ps) [] st)
    as [[results0|w| |] st0] eqn:El; try discriminate.
  injection Hrun as <- <- <-.
  destruct (runLoop_shape env indeterminate fuel config _ _ _ _ _ El)
    as (new & Hnew & Hlen & Hne & Hat & Hsof).
  simpl in Hnew. subst results0.
  split; [apply Hne; discriminate|].
  split; [simpl in Hlen |- *; lia|].
  split; [reflexivity|].
  split; [intros [H|[H|[H|[H|H]]]]; discriminate H|].
  split; [|exact Hsof].
  intros i r Hi. destruct (Hat i r Hi) as [Hp|[-> Hl]]; [left; exact Hp|].
  right. split; [reflexivity|exact Hl].
Qed.

Lemma run_results_shape_demo :
  exists results,
    fst (fst (run relayTrips leftover 100 configTwo idle fresh)) = Done results /\
    results <> [] /\ (length results <= 2)%nat.
Proof.
  eexists. split; [vm_compute; reflexivity|].
  refine (let H := run_results_shape relayTrips leftover 100 configTwo idle fresh
                     _ _ _ _ in conj (proj1 H) (proj1 (proj2 H))).
  vm_compute. reflexivity.
Defined.

(** X29. A run returns.  On a clock that starts at zero or later and
    advances by at least [step] from one reading to the next, with a
    [maxTestDuration] of [ms] milliseconds whose nanoseconds are not below
    the least 64-bit value (so that the deadline does not wrap into the
    future), every loop of the run ends: the monitoring of a point at its
    deadline at the latest, the pause of one second between two points
    likewise.  So [run] returns its results, whatever the relay, the setters
    and the stop flag do. *)
Theorem run_returns (env : Env) (indeterminate : Result.DifferentialResult)
    (fuel : nat) (config : DifferentialTestConfig) (t : Tester) (st : Run)
    (step ms : Z) :
  0 < step ->
  0 <= clock env 0 ->
  (forall n, clock env n + step <= clock env (S n)) ->
  durationMillis (maxTestDuration config) = Some ms ->
  - 9223372036854775808 <= ms * 1000000 ->
  ms * 1000000 <= Z.of_nat fuel * step ->
  1000 * 1000000 <= Z.of_nat fuel * step ->
  exists results t' st',
    run env indeterminate (S fuel) config t st = (Done results, t', st').
Proof.
  intros Hstep Hclock0 Hclock Hd Hms Hf Hw. unfold run.
  destruct (running_ t); [eauto|].
  destruct (negb (tripFlagGetter_ t)); [eauto|].
  destruct (negb (side1CurrentSetter_ t) || negb (side2CurrentSetter_ t)); [eauto|].
  destruct (points config) as [|p ps]; [eauto|].
  destruct (runLoop_returns env indeterminate step Hstep Hclock Hclock0 fuel config ms
              Hd Hms Hf Hw (p :: ps) [] st) as (results & st' & ->).
  eauto.
Qed.

Lemma run_returns_demo :
  exists results t' st',
    run relayTrips leftover 201 configTwo idle fresh = (Done results, t', st').
Proof.
  apply (run_returns relayTrips leftover 200 configTwo idle fresh 5000000 1000).
  - lia.
  - unfold relayTrips, clock. lia.
  - intros n. unfold relayTrips, clock. lia.
  - vm_compute. reflexivity.
  - lia.
  - lia.
  - lia.
Defined.

(** A relay that never trips. *)
Definition relaySilent : Env :=
  {| tripFlagGetter := fun _ => false;
     clock := fun n => Z.of_nat n * 5000000;
     stopRequested := fun _ => false;
     setterThrows := fun _ => None |}.

(** The deadline of a monitoring of -10^10 seconds: the nanoseconds wrap,
    the deadline is 8446744073 seconds after the start, and 200 rounds of
    the loop do not reach it; a monitoring of -1 second is over at once. *)
Example monitorTrip_deadline_wraps :
  durationMillis (-10000000000) = Some (-10000000000000) /\
  i64 (clock relaySilent 0 + i64 (-10000000000000 * 1000000)) = 8446744073709551616 /\
  fst (monitorTrip relaySilent 200 (-10000000000) fresh) = OutOfFuel /\
  fst (monitorTrip relaySilent 200 (-1) fresh) = Done (false, 0%float).
Proof. vm_compute. auto. Qed.

End DifferentialTesterProps.

(** ** The side setters of the differential test *)

Module DifferentialHandlerProps.
Import Json SVPublisher SVPublisherManager DifferentialHandler.

(** The configuration [parseConfig] builds from an object with none of its
    keys. *)
Definition defaultConfig : SVConfig :=
  {| appId := "0x4000"; macDst := "01:0C:CD:04:00:00";
     macSrc := "AA:BB:CC:DD:EE:01"; vlanId := 100; vlanPrio := 4;
     svId := "IED1MU01"; dstAddress := EmptyString; nominalFreq := 60;
     sampleRate := 4800; dataSource := MANUAL; filePath := EmptyString |}.

Lemma parseConfig_currentUpdate (current : float) :
  parseConfig (currentUpdate current) = Ok defaultConfig.
Proof. reflexivity. Qed.

(** X30. The test current does not reach the stream.  A side setter hands
    [updateStream] an object whose only member is [current], which
    [parseConfig] does not read: whatever the current, the stream of the
    side gets the default configuration in place of its own and keeps its
    phasors, and every other stream is left as it was.  So two different
    currents leave the same registry, and the result does not depend on the
    current either. *)
Theorem sideCurrentSetter_ignores_current (streams_ : streams) (streamId : string)
    (current : float) :
  (forall other,
     sideCurrentSetter streams_ streamId other
     = sideCurrentSetter streams_ streamId current) /\
  (forall k,
     phasors_ <$> (snd (sideCurrentSetter streams_ streamId current) !! k)
     = phasors_ <$> (streams_ !! k)) /\
  (forall p,
     streamId <> EmptyString -> streams_ !! streamId = Some p ->
     sideCurrentSetter streams_ streamId current
     = (Ok tt, <[streamId := setConfig defaultConfig p]> streams_)).
Proof.
  unfold sideCurrentSetter, updateStream.
  split; [|split].
  - intros other. rewrite !parseConfig_currentUpdate. reflexivity.
  - intros k. rewrite parseConfig_currentUpdate.
    destruct (String.eqb streamId EmptyString); [reflexivity|].
    destruct (streams_ !! streamId) as [p|] eqn:E; [|reflexivity].
    cbn [snd]. destruct (decide (k = streamId)) as [->|Hk].
    + rewrite lookup_insert_eq, E. reflexivity.
    + rewrite lookup_insert_ne by congruence. reflexivity.
  - intros p Hne Hp. destruct (String.eqb_spec streamId EmptyString) as [->|_];
      [congruence|].
    rewrite Hp, parseConfig_currentUpdate. reflexivity.
Qed.

End DifferentialHandlerProps.

